(** * Cosmic Voyager: the per-frame simulation of [App.tsx], embedded in Rocq

    The game keeps its numbers in JavaScript [number]s, that is IEEE 754
    binary64.  The embedding keeps them in Rocq's primitive [float], whose
    operations are the same binary64 operations (round to nearest, ties to
    even), so that every definition below evaluates with [vm_compute] to the
    value the program computes.

    Source files: [types.ts] (the entity records), [utils/geometry.ts]
    ([distance], [checkCollision], [randomBetween]) and [App.tsx]
    ([createExplosion], [resetGame], [startGame], [handlePlayerControls],
    [updateAndDraw]).  Canvas drawing is left out, except where it consumes
    [Math.random()]. *)

From Stdlib Require Import ZArith NArith List Bool String Floats Lia Permutation.
Import ListNotations.

Set Warnings "-inexact-float".
Local Open Scope float_scope.

(** ** JavaScript numbers *)

(** [Math.floor] on a finite double, as an integer: the value is
    [(-1)^s * m * 2^e]; a shift by a negative [e] rounds toward minus
    infinity. *)
Definition floorSF (f : spec_float) : option Z :=
  match f with
  | S754_zero _ => Some 0%Z
  | S754_finite s m e => Some (Z.shiftl (cond_Zopp s (Zpos m)) e)
  | _ => None
  end.

Definition ceilSF (f : spec_float) : option Z :=
  option_map Z.opp (floorSF (SFopp f)).

(** The double nearest to an integer. *)
Definition Z2float (z : Z) : float :=
  SF2Prim (binary_normalize prec emax z 0 false).

(** [Math.floor(v)]: NaN, the infinities and the zeros are returned as they
    are. *)
Definition Math_floor (v : float) : float :=
  match Prim2SF v with
  | S754_finite s m e => Z2float (Z.shiftl (cond_Zopp s (Zpos m)) e)
  | _ => v
  end.

(** [Math.PI] *)
Definition Math_PI : float := 3.141592653589793.

(** [Math.pow(v, 2)] and [v ** 2]: the correctly rounded square. *)
Definition sq (v : float) : float := v * v.

(** [array.length] as a number. *)
Definition length_number {A} (l : list A) : float := Z2float (Z.of_nat (List.length l)).

(** The functions of [Math] that have no counterpart among the primitive
    floats are taken from the platform. *)
Record JSMath := {
  Math_cos : float -> float;
  Math_sin : float -> float;
  Math_atan2 : float -> float -> float
}.

(** ** types.ts *)

(** Ids are template strings such as [`e_${Date.now()}_${Math.random()}`];
    the embedding keeps the tag and the numbers that are printed into them. *)
Inductive ident :=
| id_player
| id_p (now rnd : float)
| id_pt (now rnd : float)
| id_l (now : float)
| id_e (now rnd : float)
| id_el (now rnd : float).

(** Two numbers print to the same string exactly when they are the same
    double, or both are zeros ([-0] prints as ["0"]). *)
Definition number_string_eqb (a b : float) : bool :=
  Leibniz.eqb a b || (is_zero a && is_zero b).

(** [a === b] on ids. *)
Definition ident_eqb (a b : ident) : bool :=
  match a, b with
  | id_player, id_player => true
  | id_p t r, id_p t' r' | id_pt t r, id_pt t' r'
  | id_e t r, id_e t' r' | id_el t r, id_el t' r' =>
      number_string_eqb t t' && number_string_eqb r r'
  | id_l t, id_l t' => number_string_eqb t t'
  | _, _ => false
  end.

Module Vector2D.
Record t := mk { x : float; y : float }.
End Vector2D.
Abbreviation Vector2D := Vector2D.t.

Module GameObject.
Record t := mk {
  id : ident;
  position : Vector2D;
  velocity : Vector2D;
  radius : float
}.
Definition set_position (o : t) (p : Vector2D) : t :=
  mk (id o) p (velocity o) (radius o).
Definition set_velocity (o : t) (v : Vector2D) : t :=
  mk (id o) (position o) v (radius o).
Definition set_radius (o : t) (r : float) : t :=
  mk (id o) (position o) (velocity o) r.
End GameObject.
Abbreviation GameObject := GameObject.t.

(** [interface Player extends GameObject]: the inherited fields are the
    [obj] component, and a player is used as a [GameObject] through it. *)
Module Player.
Record t := mk {
  obj : GameObject;
  health : float;
  maxHealth : float;
  rotation : float
}.
Definition set_obj (p : t) (o : GameObject) : t :=
  mk o (health p) (maxHealth p) (rotation p).
Definition set_health (p : t) (h : float) : t :=
  mk (obj p) h (maxHealth p) (rotation p).
Definition set_rotation (p : t) (r : float) : t :=
  mk (obj p) (health p) (maxHealth p) r.
End Player.
Abbreviation Player := Player.t.
Coercion Player.obj : Player.t >-> GameObject.t.

Inductive EnemyType := Meteor | Saucer | BlackHole | Mothership.

Module Enemy.
Record t := mk {
  obj : GameObject;
  type : EnemyType;
  health : float;
  maxHealth : float;
  rotation : option float
}.
Definition set_obj (e : t) (o : GameObject) : t :=
  mk o (type e) (health e) (maxHealth e) (rotation e).
Definition set_health (e : t) (h : float) : t :=
  mk (obj e) (type e) h (maxHealth e) (rotation e).
Definition set_rotation (e : t) (r : option float) : t :=
  mk (obj e) (type e) (health e) (maxHealth e) r.
End Enemy.
Abbreviation Enemy := Enemy.t.
Coercion Enemy.obj : Enemy.t >-> GameObject.t.

Module Laser.
Record t := mk {
  obj : GameObject;
  isPlayerLaser : bool
}.
Definition set_obj (l : t) (o : GameObject) : t := mk o (isPlayerLaser l).
End Laser.
Abbreviation Laser := Laser.t.
Coercion Laser.obj : Laser.t >-> GameObject.t.

Module Particle.
Record t := mk {
  obj : GameObject;
  life : float;
  maxLife : float;
  color : string;
  startSize : float
}.
Definition set_obj (p : t) (o : GameObject) : t :=
  mk o (life p) (maxLife p) (color p) (startSize p).
Definition set_life (p : t) (l : float) : t :=
  mk (obj p) l (maxLife p) (color p) (startSize p).
End Particle.
Abbreviation Particle := Particle.t.
Coercion Particle.obj : Particle.t >-> GameObject.t.

Inductive GameStatus := StartScreen | Playing | GameOver.

(** ** utils/geometry.ts *)

Definition distance (p1 p2 : Vector2D) : float :=
  sqrt (sq (Vector2D.x p1 - Vector2D.x p2) + sq (Vector2D.y p1 - Vector2D.y p2)).

Definition checkCollision (obj1 obj2 : GameObject) : bool :=
  distance (GameObject.position obj1) (GameObject.position obj2)
    <? GameObject.radius obj1 + GameObject.radius obj2.

(** ** The environment of a frame

    What the program reads from outside itself: the values of successive
    [Math.random()] calls, the two clocks, and the sounds it has asked for.
    A computation returns [None] when the source would not return (a counting
    loop whose bound it never reaches). *)
Record World := mkWorld {
  random : nat -> float;
  drawn : nat;
  Date_now : float;
  performance_now : float;
  played : list (string * float)
}.

Definition M (A : Type) : Type := World -> option (A * World).

Definition ret {A} (a : A) : M A := fun w => Some (a, w).

Definition bind {A B} (c : M A) (k : A -> M B) : M B :=
  fun w => match c w with
           | Some (a, w') => k a w'
           | None => None
           end.

Definition diverge {A} : M A := fun _ => None.

Notation "x <- c ;; k" := (bind c (fun x => k))
  (at level 61, c at next level, right associativity).
Notation "' p <- c ;; k" := (bind c (fun x => let p := x in k))
  (at level 61, p pattern, c at next level, right associativity).

Definition Math_random : M float :=
  fun w => Some (random w (drawn w),
                 mkWorld (random w) (S (drawn w)) (Date_now w) (performance_now w) (played w)).

Definition DateNow : M float := fun w => Some (Date_now w, w).

Definition performanceNow : M float := fun w => Some (performance_now w, w).

(** [playSound(sound, volume = 0.2)] *)
Definition playSound (sound : string) (volume : float) : M unit :=
  fun w => Some (tt, mkWorld (random w) (drawn w) (Date_now w) (performance_now w)
                             (played w ++ [(sound, volume)])).

Definition randomBetween (min max : float) : M float :=
  u <- Math_random ;; ret (u * (max - min) + min).

(** [for (let i = 0; i < count; i++)]: the number of rounds.  The counter is
    a double: it counts exactly up to [2^53] and stays there, so a larger
    [count] (or [Infinity]) is never reached. *)
Definition two53 : float := 9007199254740992.

Definition rounds (count : float) : option nat :=
  if 0 <? count then
    if count <=? two53 then option_map Z.to_nat (ceilSF (Prim2SF count)) else None
  else Some O.

Fixpoint times {S} (n : nat) (body : S -> M S) (s : S) : M S :=
  match n with
  | O => ret s
  | S n' => s' <- body s ;; times n' body s'
  end.

Definition for_count {S} (count : float) (body : S -> M S) (s : S) : M S :=
  match rounds count with
  | Some n => times n body s
  | None => diverge
  end.

Fixpoint forEach {A S} (l : list A) (body : A -> S -> M S) (s : S) : M S :=
  match l with
  | [] => ret s
  | a :: l' => s' <- body a s ;; forEach l' body s'
  end.

(** ** App.tsx: constants and state *)

Definition PLAYER_SIZE : float := 20.
Definition PLAYER_THRUST : float := 0.1.
Definition PLAYER_TURN_SPEED : float := 0.1.
Definition PLAYER_MAX_SPEED : float := 5.
Definition PLAYER_FRICTION : float := 0.99.
Definition PLAYER_LASER_SPEED : float := 7.
Definition PLAYER_SHOOT_COOLDOWN : float := 200.
Definition PLAYER_MAX_HEALTH : float := 100.
Definition ENEMY_LASER_SPEED : float := 5.

Record Dimensions := mkDimensions { width : float; height : float }.

(** The component's state: the two [useState] cells, the refs, and the
    callbacks handed to [setTimeout] that have not run yet (the delay in
    milliseconds and the status the callback sets). *)
Record Game := mkGame {
  gameStatus : GameStatus;
  score : float;
  playerRef : option Player;
  enemiesRef : list Enemy;
  lasersRef : list Laser;
  particlesRef : list Particle;
  lastShotTimeRef : float;
  dimensions : Dimensions;
  timeouts : list (float * GameStatus)
}.

Definition set_gameStatus (g : Game) (s : GameStatus) : Game :=
  mkGame s (score g) (playerRef g) (enemiesRef g) (lasersRef g) (particlesRef g)
         (lastShotTimeRef g) (dimensions g) (timeouts g).
Definition set_score (g : Game) (s : float) : Game :=
  mkGame (gameStatus g) s (playerRef g) (enemiesRef g) (lasersRef g) (particlesRef g)
         (lastShotTimeRef g) (dimensions g) (timeouts g).
Definition set_playerRef (g : Game) (p : option Player) : Game :=
  mkGame (gameStatus g) (score g) p (enemiesRef g) (lasersRef g) (particlesRef g)
         (lastShotTimeRef g) (dimensions g) (timeouts g).
Definition set_enemiesRef (g : Game) (es : list Enemy) : Game :=
  mkGame (gameStatus g) (score g) (playerRef g) es (lasersRef g) (particlesRef g)
         (lastShotTimeRef g) (dimensions g) (timeouts g).
Definition set_lasersRef (g : Game) (ls : list Laser) : Game :=
  mkGame (gameStatus g) (score g) (playerRef g) (enemiesRef g) ls (particlesRef g)
         (lastShotTimeRef g) (dimensions g) (timeouts g).
Definition set_particlesRef (g : Game) (ps : list Particle) : Game :=
  mkGame (gameStatus g) (score g) (playerRef g) (enemiesRef g) (lasersRef g) ps
         (lastShotTimeRef g) (dimensions g) (timeouts g).
Definition set_lastShotTimeRef (g : Game) (t : float) : Game :=
  mkGame (gameStatus g) (score g) (playerRef g) (enemiesRef g) (lasersRef g) (particlesRef g)
         t (dimensions g) (timeouts g).
Definition set_timeouts (g : Game) (ts : list (float * GameStatus)) : Game :=
  mkGame (gameStatus g) (score g) (playerRef g) (enemiesRef g) (lasersRef g) (particlesRef g)
         (lastShotTimeRef g) (dimensions g) ts.

(** [keysPressed.has(code)] *)
Definition has (keysPressed : list string) (code : string) : bool :=
  existsb (String.eqb code) keysPressed.

(** ** createExplosion (App.tsx 53-69) *)

Definition explosionParticle (position : Vector2D) (color : string) (size : float)
  : M Particle :=
  now <- DateNow ;;
  r <- Math_random ;;
  vx <- randomBetween (-3) 3 ;;
  vy <- randomBetween (-3) 3 ;;
  rad <- Math_random ;;
  ss <- Math_random ;;
  ret (Particle.mk
         (GameObject.mk (id_p now r)
            (Vector2D.mk (Vector2D.x position) (Vector2D.y position))
            (Vector2D.mk vx vy)
            (rad * size))
         1 1 color (ss * size + 1)).

Definition createExplosion (position : Vector2D) (count : float) (color : string)
    (size : float) (g : Game) : M Game :=
  for_count count
    (fun g => p <- explosionParticle position color size ;;
              ret (set_particlesRef g (particlesRef g ++ [p])))
    g.

(** ** resetGame, startGame (App.tsx 71-91) *)

Definition resetGame (g : Game) : Game :=
  let w := width (dimensions g) in
  let h := height (dimensions g) in
  mkGame (gameStatus g) 0
    (Some (Player.mk
             (GameObject.mk id_player (Vector2D.mk (w / 2) (h / 2)) (Vector2D.mk 0 0)
                (PLAYER_SIZE / 2))
             PLAYER_MAX_HEALTH PLAYER_MAX_HEALTH (- Math_PI / 2)))
    [] [] []
    (lastShotTimeRef g) (dimensions g) (timeouts g).

Definition startGame (g : Game) : Game :=
  set_gameStatus (resetGame g) Playing.

(** ** updatePosition (App.tsx 185-193) *)

Definition wrap (v r extent : float) : float :=
  let v := if v <? - r then extent + r else v in
  if extent + r <? v then - r else v.

Definition updatePosition (dim : Dimensions) (o : GameObject) : GameObject :=
  let px := Vector2D.x (GameObject.position o) + Vector2D.x (GameObject.velocity o) in
  let py := Vector2D.y (GameObject.position o) + Vector2D.y (GameObject.velocity o) in
  GameObject.set_position o
    (Vector2D.mk (wrap px (GameObject.radius o) (width dim))
                 (wrap py (GameObject.radius o) (height dim))).

Section App.

Variable math : JSMath.

(** ** handlePlayerControls (App.tsx 93-155) *)

(** [colors[Math.floor(Math.random() * 3)]]; an index outside the array
    reads [undefined]. *)
Definition thrusterColor (index : float) : string :=
  if index =? 0 then "#ffc83d"%string
  else if index =? 1 then "#ff7800"%string
  else if index =? 2 then "#ffffff"%string
  else "undefined"%string.

Definition thrusterParticle (player : Player) : M Particle :=
  jitter <- randomBetween (-0.3) 0.3 ;;
  let angle := Player.rotation player + Math_PI + jitter in
  now <- DateNow ;;
  r <- Math_random ;;
  rad <- randomBetween 1 3 ;;
  c <- Math_random ;;
  ss <- randomBetween 2 4 ;;
  ret (Particle.mk
         (GameObject.mk (id_pt now r)
            (GameObject.position player)
            (Vector2D.mk
               (Vector2D.x (GameObject.velocity player) + Math_cos math angle * 2)
               (Vector2D.y (GameObject.velocity player) + Math_sin math angle * 2))
            rad)
         0.5 0.5 (thrusterColor (Math_floor (c * 3))) ss).

Definition thrust (player : Player) (g : Game) : M (Player * Game) :=
  let v := GameObject.velocity player in
  let player := Player.set_obj player
    (GameObject.set_velocity player
       (Vector2D.mk (Vector2D.x v + Math_cos math (Player.rotation player) * PLAYER_THRUST)
                    (Vector2D.y v + Math_sin math (Player.rotation player) * PLAYER_THRUST))) in
  _ <- playSound "thrust" 0.1 ;;
  g <- times 2
         (fun g => p <- thrusterParticle player ;;
                   ret (set_particlesRef g (particlesRef g ++ [p])))
         g ;;
  ret (player, g).

Definition clampSpeed (player : Player) : Player :=
  let v := GameObject.velocity player in
  let speed := sqrt (sq (Vector2D.x v) + sq (Vector2D.y v)) in
  if PLAYER_MAX_SPEED <? speed then
    Player.set_obj player
      (GameObject.set_velocity player
         (Vector2D.mk (Vector2D.x v / speed * PLAYER_MAX_SPEED)
                      (Vector2D.y v / speed * PLAYER_MAX_SPEED)))
  else player.

Definition friction (player : Player) : Player :=
  let v := GameObject.velocity player in
  Player.set_obj player
    (GameObject.set_velocity player
       (Vector2D.mk (Vector2D.x v * PLAYER_FRICTION) (Vector2D.y v * PLAYER_FRICTION))).

Definition shoot (player : Player) (g : Game) : M Game :=
  now <- performanceNow ;;
  if PLAYER_SHOOT_COOLDOWN <? now - lastShotTimeRef g then
    _ <- playSound "laser" 0.2 ;;
    let g := set_lastShotTimeRef g now in
    ret (set_lasersRef g
           (lasersRef g ++
            [Laser.mk
               (GameObject.mk (id_l now)
                  (GameObject.position player)
                  (Vector2D.mk
                     (Math_cos math (Player.rotation player) * PLAYER_LASER_SPEED)
                     (Math_sin math (Player.rotation player) * PLAYER_LASER_SPEED))
                  2)
               true]))
  else ret g.

Definition handlePlayerControls (keysPressed : list string) (deltaTime : float)
    (g : Game) : M Game :=
  match playerRef g with
  | None => ret g
  | Some player =>
      '(player, g) <-
        (if has keysPressed "ArrowUp" || has keysPressed "KeyW"
         then thrust player g else ret (player, g)) ;;
      let player :=
        if has keysPressed "ArrowLeft" || has keysPressed "KeyA"
        then Player.set_rotation player (Player.rotation player - PLAYER_TURN_SPEED)
        else player in
      let player :=
        if has keysPressed "ArrowRight" || has keysPressed "KeyD"
        then Player.set_rotation player (Player.rotation player + PLAYER_TURN_SPEED)
        else player in
      let player := friction (clampSpeed player) in
      let g := set_playerRef g (Some player) in
      if has keysPressed "Space" then shoot player g else ret g
  end.

(** ** updateAndDraw (App.tsx 157-429)

    The canvas and its 2d context are there (the two early returns are for a
    canvas that is not mounted); of the drawing only the [Math.random()] calls
    of the meteor outline are kept. *)

(** Update & Draw Player (196-214) *)
Definition updatePlayer (keysPressed : list string) (deltaTime : float) (g : Game)
  : M Game :=
  match playerRef g with
  | None => ret g
  | Some _ =>
      g <- handlePlayerControls keysPressed deltaTime g ;;
      ret (set_playerRef g
             (option_map (fun p => Player.set_obj p (updatePosition (dimensions g) p))
                         (playerRef g)))
  end.

(** Update & Draw Lasers (217-224) *)
Definition inViewport (dim : Dimensions) (l : Laser) : bool :=
  let p := GameObject.position l in
  (0 <? Vector2D.x p) && (Vector2D.x p <? width dim) &&
  (0 <? Vector2D.y p) && (Vector2D.y p <? height dim).

Definition moveLaser (dim : Dimensions) (l : Laser) : Laser :=
  Laser.set_obj l (updatePosition dim l).

Definition updateLasers (g : Game) : Game :=
  set_lasersRef g
    (map (moveLaser (dimensions g)) (filter (inViewport (dimensions g)) (lasersRef g))).

(** Update & Draw Particles (227-241) *)
Definition alive (p : Particle) : bool := 0 <? Particle.life p.

Definition ageParticle (dim : Dimensions) (deltaTime : float) (p : Particle) : Particle :=
  let p := Particle.set_life p (Particle.life p - deltaTime / 1000) in
  let p := Particle.set_obj p (updatePosition dim p) in
  Particle.set_obj p
    (GameObject.set_radius p
       (Particle.startSize p * (Particle.life p / Particle.maxLife p))).

Definition updateParticles (deltaTime : float) (g : Game) : Game :=
  set_particlesRef g
    (map (ageParticle (dimensions g) deltaTime) (filter alive (particlesRef g))).

(** Update & Draw Enemies (244-296) *)

(** [e.rotation || 0] *)
Definition rotationOrZero (r : option float) : float :=
  match r with
  | Some v => if is_nan v || is_zero v then 0 else v
  | None => 0
  end.

Definition updateEnemy (dim : Dimensions) (e : Enemy) : M Enemy :=
  let e := Enemy.set_obj e (updatePosition dim e) in
  match Enemy.type e with
  | Meteor =>
      let e := Enemy.set_rotation e (Some (rotationOrZero (Enemy.rotation e) + 0.01)) in
      (* the six vertices of the outline *)
      _ <- times 6 (fun u => _ <- Math_random ;; ret u) tt ;;
      ret e
  | _ => ret e
  end.

Definition updateEnemies (g : Game) : M Game :=
  es <- forEach (enemiesRef g)
          (fun e acc => e' <- updateEnemy (dimensions g) e ;; ret (acc ++ [e']))
          [] ;;
  ret (set_enemiesRef g es).

(** Spawn new enemies (299-332) *)
Definition spawnCap (g : Game) : float := 5 + Math_floor (score g / 500).

Definition spawnPosition (dim : Dimensions) (side radius : float) : M Vector2D :=
  if side =? 0 then
    px <- randomBetween 0 (width dim) ;; ret (Vector2D.mk px (- radius))
  else if side =? 1 then
    py <- randomBetween 0 (height dim) ;; ret (Vector2D.mk (width dim + radius) py)
  else if side =? 2 then
    px <- randomBetween 0 (width dim) ;; ret (Vector2D.mk px (height dim + radius))
  else
    py <- randomBetween 0 (height dim) ;; ret (Vector2D.mk (- radius) py).

Definition spawnEnemy (g : Game) : M Game :=
  typeRoll <- Math_random ;;
  radius <- randomBetween 15 40 ;;
  let '(type, radius, health) :=
    if (1000 <? score g) && (0.95 <? typeRoll) then (Mothership, 60, 50)
    else if (200 <? score g) && (0.7 <? typeRoll) then (Saucer, 20, 10)
    else (Meteor, radius, radius / 2) in
  s <- Math_random ;;
  let side := Math_floor (s * 4) in
  position <- spawnPosition (dimensions g) side radius ;;
  now <- DateNow ;;
  r <- Math_random ;;
  vx <- randomBetween (-1) 1 ;;
  vy <- randomBetween (-1) 1 ;;
  ret (set_enemiesRef g
         (enemiesRef g ++
          [Enemy.mk (GameObject.mk (id_e now r) position (Vector2D.mk vx vy) radius)
                    type health health None])).

Definition spawnEnemies (g : Game) : M Game :=
  if length_number (enemiesRef g) <? spawnCap g then spawnEnemy g else ret g.

(** Enemy AI (shooting) (335-352) *)
Definition enemyShoot (e : Enemy) (g : Game) : M Game :=
  match Enemy.type e with
  | Saucer | Mothership =>
      roll <- Math_random ;;
      match (if roll <? 0.01 then playerRef g else None) with
      | Some player =>
          _ <- playSound "enemyLaser" 0.2 ;;
          let angle :=
            Math_atan2 math
              (Vector2D.y (GameObject.position player) - Vector2D.y (GameObject.position e))
              (Vector2D.x (GameObject.position player) - Vector2D.x (GameObject.position e)) in
          now <- DateNow ;;
          r <- Math_random ;;
          ret (set_lasersRef g
                 (lasersRef g ++
                  [Laser.mk
                     (GameObject.mk (id_el now r)
                        (GameObject.position e)
                        (Vector2D.mk (Math_cos math angle * ENEMY_LASER_SPEED)
                                     (Math_sin math angle * ENEMY_LASER_SPEED))
                        3)
                     false]))
      | None => ret g
      end
  | _ => ret g
  end.

Definition enemyAI (g : Game) : M Game :=
  forEach (enemiesRef g) enemyShoot g.

(** Handle Collisions: player lasers vs enemies (355-382).  The inner loop
    carries the enemy, [enemyDestroyed], [newLasers] and the game (for the
    particles). *)
Definition laserVsEnemy (laser : Laser) (st : Enemy * bool * list Laser * Game)
  : M (Enemy * bool * list Laser * Game) :=
  let '(enemy, enemyDestroyed, newLasers, g) := st in
  if Laser.isPlayerLaser laser && checkCollision laser enemy then
    let enemy := Enemy.set_health enemy (Enemy.health enemy - 5) in
    g <- createExplosion (GameObject.position laser) 5 "#00f2ff" 2 g ;;
    ret (enemy, (if Enemy.health enemy <=? 0 then true else enemyDestroyed), newLasers, g)
  else ret (enemy, enemyDestroyed, newLasers ++ [laser], g).

Definition explosionColor (t : EnemyType) : string :=
  match t with Saucer => "#8338ec"%string | _ => "#a9a9a9"%string end.

Definition collideEnemy (enemy : Enemy) (st : list Enemy * Game) : M (list Enemy * Game) :=
  let '(newEnemies, g) := st in
  r <- forEach (lasersRef g) laserVsEnemy (enemy, false, [], g) ;;
  let '(enemy, enemyDestroyed, newLasers, g) := r in
  let g := set_lasersRef g newLasers in
  if enemyDestroyed then
    _ <- playSound "explosion" 0.2 ;;
    g <- createExplosion (GameObject.position enemy) (GameObject.radius enemy)
           (explosionColor (Enemy.type enemy)) (GameObject.radius enemy / 2) g ;;
    ret (newEnemies, set_score g (score g + Math_floor (Enemy.maxHealth enemy * 5)))
  else ret (newEnemies ++ [enemy], g).

Definition handleCollisions (g : Game) : M Game :=
  r <- forEach (enemiesRef g) collideEnemy ([], g) ;;
  let '(newEnemies, g) := r in
  ret (set_enemiesRef g newEnemies).

(** Player vs enemies (386-393): the loop breaks at the first overlap. *)
Fixpoint playerVsEnemies (es : list Enemy) (player : Player) (g : Game)
  : M (Player * Game) :=
  match es with
  | [] => ret (player, g)
  | enemy :: rest =>
      if checkCollision player enemy then
        let player := Player.set_health player (Player.health player - 20) in
        g <- createExplosion (GameObject.position enemy) (GameObject.radius enemy)
               "#ffbe0b" (GameObject.radius enemy / 2) g ;;
        ret (player,
             set_enemiesRef g
               (filter (fun e : Enemy => negb (ident_eqb (GameObject.id e) (GameObject.id enemy)))
                       (enemiesRef g)))
      else playerVsEnemies rest player g
  end.

(** Enemy lasers vs player (395-404) *)
Definition laserVsPlayer (laser : Laser) (st : Player * list Laser * Game)
  : M (Player * list Laser * Game) :=
  let '(player, playerLasers, g) := st in
  if negb (Laser.isPlayerLaser laser) && checkCollision laser player then
    let player := Player.set_health player (Player.health player - 10) in
    g <- createExplosion (GameObject.position laser) 10 "#ff4136" 3 g ;;
    ret (player, playerLasers, g)
  else ret (player, playerLasers ++ [laser], g).

(** Player death (406-411): [setTimeout(() => setGameStatus(GameOver), 1000)]
    queues the callback; the status is not written here. *)
Definition playerDeath (player : Player) (g : Game) : M Game :=
  if Player.health player <=? 0 then
    _ <- playSound "explosion" 0.2 ;;
    g <- createExplosion (GameObject.position player) 40 "#00f2ff" 20 g ;;
    ret (set_timeouts (set_playerRef g None) (timeouts g ++ [(1000, GameOver)]))
  else ret (set_playerRef g (Some player)).

(** Player vs enemies & enemy lasers (385-412) *)
Definition playerCollisions (g : Game) : M Game :=
  match playerRef g with
  | None => ret g
  | Some player =>
      r <- playerVsEnemies (enemiesRef g) player g ;;
      let '(player, g) := r in
      r <- forEach (lasersRef g) laserVsPlayer (player, [], g) ;;
      let '(player, playerLasers, g) := r in
      playerDeath player (set_lasersRef g playerLasers)
  end.

Definition updateAndDraw (keysPressed : list string) (deltaTime : float) (g : Game)
  : M Game :=
  g <- updatePlayer keysPressed deltaTime g ;;
  let g := updateLasers g in
  let g := updateParticles deltaTime g in
  g <- updateEnemies g ;;
  g <- spawnEnemies g ;;
  g <- enemyAI g ;;
  g <- handleCollisions g ;;
  playerCollisions g.

(** [useGameLoop(updateAndDraw, gameStatus === GameStatus.Playing)]
    (hooks/useGameLoop.ts): a frame calls back only while the game runs. *)
Definition animate (keysPressed : list string) (deltaTime : float) (g : Game) : M Game :=
  match gameStatus g with
  | Playing => updateAndDraw keysPressed deltaTime g
  | _ => ret g
  end.

End App.

(** The browser's timer queue, [elapsed] milliseconds after the pending
    callbacks were queued: those whose delay has passed run, in order; the
    others stay, with what is left of their delay. *)
Definition due (elapsed : float) (t : float * GameStatus) : bool := fst t <=? elapsed.

Definition runTimeouts (elapsed : float) (g : Game) : Game :=
  fold_left (fun g t => set_gameStatus g (snd t))
    (filter (due elapsed) (timeouts g))
    (set_timeouts g
       (map (fun t => (fst t - elapsed, snd t))
            (filter (fun t => negb (due elapsed t)) (timeouts g)))).

(** ** hooks/useKeyboardInput.ts

    [keysPressed] is a [Set<string>]: its elements in insertion order, none
    of them twice. *)

(** [new Set(s).add(value)] *)
Definition Set_add (s : list string) (value : string) : list string :=
  if has s value then s else s ++ [value].

(** [new Set(s)] after [delete(value)] *)
Definition Set_delete (s : list string) (value : string) : list string :=
  filter (fun k => negb (String.eqb value k)) s.

Definition handleKeyDown (code : string) (prevKeys : list string) : list string :=
  Set_add prevKeys code.

Definition handleKeyUp (code : string) (prevKeys : list string) : list string :=
  Set_delete prevKeys code.

Inductive KeyboardEvent :=
| keydown (code : string)
| keyup (code : string).

Definition dispatchKey (keys : list string) (event : KeyboardEvent) : list string :=
  match event with
  | keydown code => handleKeyDown code keys
  | keyup code => handleKeyUp code keys
  end.

(** [useState(new Set())], then the window's key events in order. *)
Definition useKeyboardInput (events : list KeyboardEvent) : list string :=
  fold_left dispatchKey events [].

(** ** hooks/useGameLoop.ts

    The hook's two refs, and what the browser keeps for it: the last handle
    that [requestAnimationFrame] gave out and the requests waiting for the
    next frame, each with the [callback] that its [animate] closes over.
    [subject] is what the callbacks act on. *)
Module useGameLoop.
Section Hook.

Variable T : Type.

Definition Callback : Type := float -> T -> T.

Record Loop := mkLoop {
  requestRef : option N;
  previousTimeRef : option float;
  lastHandle : N;
  frameRequests : list (N * Callback);
  subject : T
}.

Definition set_requestRef (l : Loop) (r : option N) : Loop :=
  mkLoop r (previousTimeRef l) (lastHandle l) (frameRequests l) (subject l).
Definition set_previousTimeRef (l : Loop) (t : option float) : Loop :=
  mkLoop (requestRef l) t (lastHandle l) (frameRequests l) (subject l).
Definition set_frameRequests (l : Loop) (q : list (N * Callback)) : Loop :=
  mkLoop (requestRef l) (previousTimeRef l) (lastHandle l) q (subject l).
Definition set_subject (l : Loop) (s : T) : Loop :=
  mkLoop (requestRef l) (previousTimeRef l) (lastHandle l) (frameRequests l) s.

(** [requestAnimationFrame(animate)]: handles are the positive integers in
    turn. *)
Definition requestAnimationFrame (callback : Callback) (l : Loop) : N * Loop :=
  let handle := N.succ (lastHandle l) in
  (handle,
   mkLoop (requestRef l) (previousTimeRef l) handle
          (frameRequests l ++ [(handle, callback)]) (subject l)).

Definition cancelAnimationFrame (handle : N) (l : Loop) : Loop :=
  set_frameRequests l (filter (fun r => negb (N.eqb (fst r) handle)) (frameRequests l)).

(** [if (requestRef.current)]: [undefined] and [0] are falsy. *)
Definition heldRequest (l : Loop) : option N :=
  match requestRef l with
  | Some handle => if N.eqb handle 0 then None else Some handle
  | None => None
  end.

(** [animate(time)] of the effect that ran with [callback]. *)
Definition animate (callback : Callback) (time : float) (l : Loop) : Loop :=
  let l :=
    match previousTimeRef l with
    | Some previous => set_subject l (callback (time - previous) (subject l))
    | None => l
    end in
  let l := set_previousTimeRef l (Some time) in
  let '(handle, l) := requestAnimationFrame callback l in
  set_requestRef l (Some handle).

(** The body of the effect. *)
Definition effect (callback : Callback) (isRunning : bool) (l : Loop) : Loop :=
  if isRunning then
    let '(handle, l) := requestAnimationFrame callback l in
    set_requestRef l (Some handle)
  else
    match heldRequest l with
    | Some handle => set_previousTimeRef (cancelAnimationFrame handle l) None
    | None => l
    end.

(** The function the effect returns. *)
Definition cleanup (l : Loop) : Loop :=
  match heldRequest l with
  | Some handle => cancelAnimationFrame handle l
  | None => l
  end.

(** A frame of the browser: the requests that were waiting are run with the
    frame's time; what they request waits for the next frame. *)
Definition frame (time : float) (l : Loop) : Loop :=
  fold_left (fun l r => animate (snd r) time l) (frameRequests l) (set_frameRequests l []).

(** What happens to a mounted hook: a render with a new [callback] or
    [isRunning] (React runs the previous effect's cleanup, then the effect;
    at the first render the cleanup finds nothing to cancel), or a frame. *)
Inductive Event :=
| Render (callback : Callback) (isRunning : bool)
| Frame (time : float).

Definition step (l : Loop) (event : Event) : Loop :=
  match event with
  | Render callback isRunning => effect callback isRunning (cleanup l)
  | Frame time => frame time l
  end.

Definition mount (s : T) : Loop := mkLoop None None 0 [] s.

Definition run (events : list Event) (s : T) : Loop := fold_left step events (mount s).

End Hook.
End useGameLoop.

(** ** The counting loop, as it is written

    [for (let i = 0; i < count; i++) body], the counter a double; [fuel]
    bounds the number of tests of [i < count]. *)
Fixpoint for_loop {S} (fuel : nat) (i count : float) (body : S -> M S) (s : S) : M S :=
  match fuel with
  | O => diverge
  | Datatypes.S fuel' =>
      if i <? count then s' <- body s ;; for_loop fuel' (i + 1) count body s'
      else ret s
  end.


(** ** setupBackground and the resize effect (App.tsx 433-468)

    [Array.from({ length: n }, (_, i) => f(i))] calls [f] for [i = 0], ...,
    [n - 1] in turn. *)
Fixpoint Array_from {A} (n i : nat) (f : nat -> M A) : M (list A) :=
  match n with
  | O => ret []
  | Datatypes.S n' => a <- f i ;; l <- Array_from n' (Datatypes.S i) f ;; ret (a :: l)
  end.

(** The ids [`s_${i}`] and [`n_${i}`]. *)
Inductive backdropId :=
| id_s (i : nat)
| id_n (i : nat).

Module Star.
Record t := mk {
  id : backdropId;
  position : Vector2D;
  size : float;
  opacity : float;
  parallaxFactor : float
}.
End Star.
Abbreviation Star := Star.t.

Module Nebula.
Record t := mk {
  id : backdropId;
  position : Vector2D;
  size : float;
  color : string;
  opacity : float
}.
End Nebula.
Abbreviation Nebula := Nebula.t.

Record Backdrop := mkBackdrop {
  starsRef : list Star;
  nebulasRef : list Nebula
}.

Definition set_starsRef (b : Backdrop) (stars : list Star) : Backdrop :=
  mkBackdrop stars (nebulasRef b).

Definition set_nebulasRef (b : Backdrop) (nebulas : list Nebula) : Backdrop :=
  mkBackdrop (starsRef b) nebulas.

Definition star (dim : Dimensions) (i : nat) : M Star :=
  px <- Math_random ;;
  py <- Math_random ;;
  s <- Math_random ;;
  o <- Math_random ;;
  p <- Math_random ;;
  ret (Star.mk (id_s i) (Vector2D.mk (px * width dim) (py * height dim))
               (s * 1.5) o (p * 0.5 + 0.1)).

(** [['#ff006e', '#8338ec', '#3a86ff'][i % 3]] *)
Definition nebulaColor (i : nat) : string :=
  nth (i mod 3) ["#ff006e"; "#8338ec"; "#3a86ff"]%string "undefined"%string.

Definition nebula (dim : Dimensions) (i : nat) : M Nebula :=
  px <- Math_random ;;
  py <- Math_random ;;
  s <- randomBetween 100 300 ;;
  o <- randomBetween 0.1 0.3 ;;
  ret (Nebula.mk (id_n i) (Vector2D.mk (px * width dim) (py * height dim))
                 s (nebulaColor i) o).

Definition setupBackground (dim : Dimensions) (b : Backdrop) : M Backdrop :=
  stars <- Array_from 200 0 (star dim) ;;
  let b := set_starsRef b stars in
  nebulas <- Array_from 5 0 (nebula dim) ;;
  ret (set_nebulasRef b nebulas).

Definition set_dimensions (g : Game) (dim : Dimensions) : Game :=
  mkGame (gameStatus g) (score g) (playerRef g) (enemiesRef g) (lasersRef g)
         (particlesRef g) (lastShotTimeRef g) dim (timeouts g).

(** [handleResize], with [window.innerWidth] and [window.innerHeight]; the
    canvas element, which is given the same size, is not part of the state. *)
Definition handleResize (innerWidth innerHeight : float) (st : Game * Backdrop)
  : M (Game * Backdrop) :=
  let '(g, b) := st in
  let g := set_dimensions g (mkDimensions innerWidth innerHeight) in
  b <- setupBackground (dimensions g) b ;;
  ret (g, b).

(** * Definitions used to state the properties *)

(** ** The order of doubles

    A double that is not NaN has a place in a lexicographic order of integer
    triples: its class (the infinities, the negative and the positive finite
    numbers, the zeros), then its exponent, then its mantissa. *)
Definition rank (f : spec_float) : option (Z * Z * Z) :=
  match f with
  | S754_nan => None
  | S754_infinity true => Some (-2, 0, 0)%Z
  | S754_infinity false => Some (2, 0, 0)%Z
  | S754_zero _ => Some (0, 0, 0)%Z
  | S754_finite false m e => Some (1, e, Zpos m)%Z
  | S754_finite true m e => Some (-1, - e, Zneg m)%Z
  end.

Definition rank_compare (a b : Z * Z * Z) : comparison :=
  let '(c1, e1, m1) := a in
  let '(c2, e2, m2) := b in
  match (c1 ?= c2)%Z with
  | Eq => match (e1 ?= e2)%Z with Eq => (m1 ?= m2)%Z | r => r end
  | r => r
  end.

Definition rank_lt (a b : Z * Z * Z) : Prop :=
  let '(c1, e1, m1) := a in
  let '(c2, e2, m2) := b in
  (c1 < c2 \/ (c1 = c2 /\ (e1 < e2 \/ (e1 = e2 /\ m1 < m2))))%Z.

Definition rank_le (a b : Z * Z * Z) : Prop :=
  let '(c1, e1, m1) := a in
  let '(c2, e2, m2) := b in
  (c1 < c2 \/ (c1 = c2 /\ (e1 < e2 \/ (e1 = e2 /\ m1 <= m2))))%Z.

Definition frank (v : float) : option (Z * Z * Z) := rank (Prim2SF v).

(** The result of rounding a non-negative mantissa has the sign it was given;
    in particular it is not NaN. *)
Definition signed (s : bool) (f : spec_float) : Prop :=
  match f with
  | S754_zero s' | S754_infinity s' | S754_finite s' _ _ => s' = s
  | S754_nan => False
  end.

(** A bound on the exponent of a finite double. *)
Definition exponent_within (bound : Z) (f : spec_float) : Prop :=
  match f with
  | S754_finite _ _ e => (e <= bound)%Z
  | S754_zero _ => True
  | _ => False
  end.

(** A zero, or a positive double with an exponent of at most [D]: a number
    in [[0, 2^(D + 53))]. *)
Definition small (D : Z) (f : spec_float) : Prop :=
  match f with
  | S754_zero _ => True
  | S754_finite false _ e => (e <= D)%Z
  | _ => False
  end.

(** The mantissa of the double that holds the integer [p]: [p] shifted to 53
    bits. *)
Definition mantissa53 (p : positive) : positive :=
  Z.to_pos (Zpos p * 2 ^ (53 - Zpos (digits2_pos p))).

Definition canon (s : bool) (p : positive) : spec_float :=
  S754_finite s (mantissa53 p) (Zpos (digits2_pos p) - 53).

(** The screen-wrap bounds of an object. *)
Definition onScreen (dim : Dimensions) (o : GameObject) : bool :=
  let r := GameObject.radius o in
  let p := GameObject.position o in
  (- r <=? Vector2D.x p) && (Vector2D.x p <=? width dim + r) &&
  (- r <=? Vector2D.y p) && (Vector2D.y p <=? height dim + r).

(** What every motion step keeps of an object [o]: the radius, the velocity,
    and a position that is a number. *)
Definition moving (o b : GameObject) : Prop :=
  GameObject.radius b = GameObject.radius o /\
  GameObject.velocity b = GameObject.velocity o /\
  is_nan (Vector2D.x (GameObject.position b)) = false /\
  is_nan (Vector2D.y (GameObject.position b)) = false.

(** ** Concrete inputs *)

(** A meteor of radius 25 drifting right and up near the right edge of an
    800 x 600 viewport. *)
Definition rock : GameObject :=
  GameObject.mk (id_e 0 0.5) (Vector2D.mk 799 (-24)) (Vector2D.mk 0.75 (-1)) 25.

(** ** Definitions for the frame *)

Definition burst (p : Particle) : Prop := Particle.life p = 1 /\ Particle.maxLife p = 1.

(** [g'] is [g] with explosion particles added. *)
Definition sparks (g g' : Game) : Prop :=
  exists ps, g' = set_particlesRef g (particlesRef g ++ ps) /\ Forall burst ps.

(** No two enemies of the list have the same id. *)
Fixpoint uniqueIds (es : list Enemy) : bool :=
  match es with
  | [] => true
  | e :: es' =>
      forallb (fun e' : Enemy => negb (ident_eqb (GameObject.id e) (GameObject.id e'))) es'
      && uniqueIds es'
  end.

(** The explosion that marks the end of an enemy has one particle per unit of
    its radius: the radius can be counted to. *)
Definition countable (count : float) : Prop := rounds count <> None.

(** [Math.random()] returns a number in [[0, 1)]. *)
Definition unitInterval (w : World) : Prop :=
  forall n, (0 <=? random w n) = true /\ (random w n <? 1) = true.

Definition hit (e : Enemy) (l : Laser) : bool :=
  Laser.isPlayerLaser l && checkCollision l e.

(** The inner loop's [enemy.health] and [enemyDestroyed] after [n] hits. *)
Fixpoint damaged (n : nat) (h : float) (destroyed : bool) : float * bool :=
  match n with
  | O => (h, destroyed)
  | S k => damaged k (h - 5) (if h - 5 <=? 0 then true else destroyed)
  end.

Definition healthAfter (n : nat) (h : float) : float := Nat.iter n (fun h => h - 5) h.

(** The sweep of the player lasers over the enemies, as the specification
    words it: each enemy in turn takes 5 from every player laser that
    overlaps it and that no earlier enemy has consumed; it is destroyed when
    it was hit and its health is then at most 0.  The result pairs every
    enemy, after its damage, with whether it is destroyed, and gives the
    lasers that are left. *)
Fixpoint laserSweep (es : list Enemy) (ls : list Laser) : list (Enemy * bool) * list Laser :=
  match es with
  | [] => ([], ls)
  | e :: es' =>
      let n := List.length (filter (hit e) ls) in
      let e' := Enemy.set_health e (healthAfter n (Enemy.health e)) in
      let r := laserSweep es' (filter (fun l => negb (hit e l)) ls) in
      ((e', negb (Nat.eqb n 0) && (Enemy.health e' <=? 0)) :: fst r, snd r)
  end.

Definition survivors (outcome : list (Enemy * bool)) : list Enemy :=
  map fst (filter (fun o => negb (snd o)) outcome).

Definition destroyed (outcome : list (Enemy * bool)) : list Enemy :=
  map fst (filter snd outcome).

(** [setScore(s => s + Math.floor(enemy.maxHealth * 5))], once for each enemy
    of the list. *)
Definition award (s : float) (es : list Enemy) : float :=
  fold_left (fun s e => s + Math_floor (Enemy.maxHealth e * 5)) es s.

(** Every enemy has one outcome, which is the enemy with its health lowered by
    5 for each of a number of hits; it is marked destroyed exactly when it was
    hit and that health is at most 0. *)
Definition shotDown (ls : list Laser) (e : Enemy) (o : Enemy * bool) : Prop :=
  exists n,
    (n <= List.length (filter (hit e) ls))%nat /\
    fst o = Enemy.set_health e (healthAfter n (Enemy.health e)) /\
    snd o = negb (Nat.eqb n 0) && (Enemy.health (fst o) <=? 0).

Definition enemyLaser (l : Laser) : bool := negb (Laser.isPlayerLaser l).

(** The enemy-lasers-vs-player loop. *)
Definition wound (player : Player) (l : Laser) : bool :=
  negb (Laser.isPlayerLaser l) && checkCollision l player.

Definition steady {A} (c : M A) : Prop :=
  forall w a w', c w = Some (a, w') -> random w' = random w.

Definition total {A} (c : M A) : Prop := forall w, exists a w', c w = Some (a, w').

(** Thruster particles start with half a second to live. *)
Definition exhaust (p : Particle) : Prop := Particle.life p = 0.5 /\ Particle.maxLife p = 0.5.

(** The motion step of the enemies keeps their number, and everything of each
    enemy but its position and its spin. *)
Definition drifted (dim : Dimensions) (e e' : Enemy) : Prop :=
  Enemy.obj e' = updatePosition dim e /\ Enemy.type e' = Enemy.type e /\
  Enemy.health e' = Enemy.health e /\ Enemy.maxHealth e' = Enemy.maxHealth e.

(** The enemies shoot only at a player: without one, the game is as it was;
    with one, enemy lasers are added, each at the position of an enemy. *)
Definition firedBy (es : list Enemy) (l : Laser) : Prop :=
  Laser.isPlayerLaser l = false /\
  exists e, In e es /\ GameObject.position l = GameObject.position e /\
            (Enemy.type e = Saucer \/ Enemy.type e = Mothership).

Definition flatMath : JSMath := Build_JSMath (fun _ => 1) (fun _ => 0) (fun _ _ => 0).
Definition evenWorld : World := mkWorld (fun _ => 0.5) 0 1700000000000 5000 [].
Definition viewport : Dimensions := mkDimensions 800 600.
Definition pilot (health : float) : Player :=
  Player.mk (GameObject.mk id_player (Vector2D.mk 400 300) (Vector2D.mk 0 0) 10)
            health 100 (- Math_PI / 2).
Definition foe (t : EnemyType) (n x y r h : float) : Enemy :=
  Enemy.mk (GameObject.mk (id_e 0 n) (Vector2D.mk x y) (Vector2D.mk 0 0) r) t h h None.
Definition bolt (n x y vx : float) (mine : bool) : Laser :=
  Laser.mk (GameObject.mk (id_l n) (Vector2D.mk x y) (Vector2D.mk vx 0) 2) mine.
Definition ember (life : float) : Particle :=
  Particle.mk (GameObject.mk (id_p 0 0.25) (Vector2D.mk 100 100) (Vector2D.mk 0 0) 1)
              life 1 "#ffffff" 2.
Definition scene (player : option Player) (es : list Enemy) (ls : list Laser)
    (ps : list Particle) (score : float) : Game :=
  mkGame Playing score player es ls ps 0 viewport [].

Definition stale : Game :=
  scene (Some (pilot 100)) [] [bolt 1 797 300 7 true] [ember 0.01] 0.

Definition crowded : Game :=
  scene (Some (pilot 100))
        [foe Meteor 1 100 100 20 10; foe Meteor 2 405 300 20 10; foe Meteor 3 395 300 20 10]
        [] [] 0.

Definition range : Game :=
  scene (Some (pilot 100))
        [foe Meteor 1 200 200 20 5; foe Saucer 2 600 100 20 10]
        [bolt 1 205 200 7 true; bolt 2 600 100 7 false; bolt 3 400 300 7 true;
         bolt 4 405 300 (-5) false]
        [] 120.

Definition doomed : Game :=
  scene (Some (pilot 10)) [foe Meteor 1 100 100 20 10] [bolt 4 398 300 (-5) false] [] 0.

Definition adrift : Game :=
  scene None [foe Saucer 1 100 100 20 10] [bolt 4 398 300 (-5) false] [] 300.

Definition veteran : Game :=
  scene (Some (pilot 100))
        [foe Meteor 1 100 100 20 10; foe Meteor 2 700 100 20 10; foe Meteor 3 100 500 20 10]
        [] [] 1250.


(** Whether the last event about [code] was a keydown; [before] when there is
    none. *)
Fixpoint held (events : list KeyboardEvent) (code : string) (before : bool) : bool :=
  match events with
  | [] => before
  | keydown c :: rest => held rest code (if String.eqb code c then true else before)
  | keyup c :: rest => held rest code (if String.eqb code c then false else before)
  end.

(** The codes that [handlePlayerControls] asks for. *)
Definition boundKeys : list string :=
  ["ArrowUp"; "KeyW"; "ArrowLeft"; "KeyA"; "ArrowRight"; "KeyD"; "Space"]%string.

(** The arguments of the last render. *)
Definition lastRender {T} (events : list (useGameLoop.Event T))
  : option (useGameLoop.Callback T * bool) :=
  fold_left (fun r ev => match ev with
                         | useGameLoop.Render _ callback isRunning => Some (callback, isRunning)
                         | useGameLoop.Frame _ _ => r
                         end) events None.

(** The differences of successive frame times. *)
Fixpoint deltas (previous : float) (times : list float) : list float :=
  match times with
  | [] => []
  | t :: rest => (t - previous) :: deltas t rest
  end.

(** What every reachable state of the hook satisfies, [current] being the
    arguments of the last render. *)
Definition tidy {T} (current : option (useGameLoop.Callback T * bool))
    (l : useGameLoop.Loop T) : Prop :=
  match useGameLoop.frameRequests T l with
  | [] => True
  | [(handle, callback)] =>
      useGameLoop.requestRef T l = Some handle /\ handle <> 0%N /\
      current = Some (callback, true)
  | _ => False
  end /\
  (useGameLoop.heldRequest T l = None -> useGameLoop.previousTimeRef T l = None) /\
  (forall callback, current = Some (callback, false) ->
     useGameLoop.frameRequests T l = [] /\ useGameLoop.previousTimeRef T l = None) /\
  (current = None ->
     useGameLoop.frameRequests T l = [] /\ useGameLoop.previousTimeRef T l = None).

(** The world after [n] more calls of [Math.random()]. *)
Definition draw (n : nat) (w : World) : World :=
  mkWorld (random w) (drawn w + n) (Date_now w) (performance_now w) (played w).

(** The [k]-th particle of an explosion that starts in the world [w]: each
    particle takes five random numbers, for its id, its velocity, its radius
    and its size. *)
Definition sparkAt (position : Vector2D) (color : string) (size : float) (w : World)
    (k : nat) : Particle :=
  let r i := random w (drawn w + 5 * k + i) in
  Particle.mk
    (GameObject.mk (id_p (Date_now w) (r 0%nat))
       (Vector2D.mk (Vector2D.x position) (Vector2D.y position))
       (Vector2D.mk (r 1%nat * (3 - -3) + -3) (r 2%nat * (3 - -3) + -3))
       (r 3%nat * size))
    1 1 color (r 4%nat * size + 1).

(** NaN, a zero, or a positive number. *)
Definition unsigned (f : spec_float) : Prop :=
  match f with
  | S754_nan | S754_zero _ => True
  | S754_infinity s | S754_finite s _ _ => s = false
  end.

(** ** Rounding to nearest, ties to even

    [m] divided by [2^k] and rounded to the nearest integer, to the even one
    at a tie ([1 <= k]). *)
Definition nearest (m k : Z) : Z :=
  let q := (m / 2 ^ k)%Z in
  let r := (m mod 2 ^ k)%Z in
  let half := (2 ^ (k - 1))%Z in
  if (r <? half)%Z then q
  else if (r =? half)%Z then (if Z.even q then q else q + 1)%Z
  else (q + 1)%Z.

(** The exponent, above [-2148], of the last place that a double keeps of the
    number [N * 2^-2148]: 53 digits, and nothing below [2^-1074]. *)
Definition lastPlace (N : Z) : Z := Z.max (Zdigits2 N - 53) 1074.

(** [N * 2^-2148] rounded to a double, in units of [2^-2148] (a double that is
    [2^1024] or more stands for an overflow). *)
Definition rounded (N : Z) : Z := (nearest N (lastPlace N) * 2 ^ lastPlace N)%Z.

(** A double with the sign [s] whose magnitude is [V * 2^-2148]; [+-Infinity]
    when the magnitude is [2^1024] or more. *)
Definition magnitude (s : bool) (V : Z) (f : spec_float) : Prop :=
  match f with
  | S754_zero s' => s' = s /\ V = 0%Z
  | S754_finite s' m e => s' = s /\ (-1074 <= e <= 971)%Z /\ (Zpos m * 2 ^ (e + 2148) = V)%Z
  | S754_infinity s' => s' = s /\ (2 ^ (1024 + 2148) <= V)%Z
  | S754_nan => False
  end.

(** The number that a finite double stands for, in units of [2^-2148]. *)
Definition valueOf (f : spec_float) : option Z :=
  match f with
  | S754_zero _ => Some 0%Z
  | S754_finite s m e => Some (cond_Zopp s (Zpos m * 2 ^ (e + 2148)))%Z
  | _ => None
  end.

(** A double that holds the rounding of the number [v * 2^-2148]; the sign of
    a zero is free when [v] is 0. *)
Definition holds (v : Z) (f : spec_float) : Prop :=
  exists s, ((v < 0)%Z -> s = true) /\ ((0 < v)%Z -> s = false) /\
            magnitude s (rounded (Z.abs v)) f.

(** The number that a finite double stands for, in units of [2^-2148]. *)
Definition value (x : float) : option Z := valueOf (Prim2SF x).

(** The colours of the thruster's particles. *)
Definition thrusterColors : list string := ["#ffc83d"; "#ff7800"; "#ffffff"]%string.

(** A number of the closed interval from [lo] to [hi]. *)
Definition within (lo hi x : float) : Prop := (lo <=? x) = true /\ (x <=? hi) = true.

(** A particle of the thruster's exhaust: one of the three colours, a radius
    from 1 to 3 and a first size from 2 to 4. *)
Definition flame (p : Particle) : Prop :=
  In (Particle.color p) thrusterColors /\
  within 1 3 (GameObject.radius p) /\ within 2 4 (Particle.startSize p) /\
  Particle.life p = 0.5 /\ Particle.maxLife p = 0.5.

(** A particle of an explosion of the given place, colour and size. *)
Definition spark (position : Vector2D) (color : string) (size : float) (p : Particle) : Prop :=
  GameObject.position p = Vector2D.mk (Vector2D.x position) (Vector2D.y position) /\
  Particle.color p = color /\
  within (-3) 3 (Vector2D.x (GameObject.velocity p)) /\
  within (-3) 3 (Vector2D.y (GameObject.velocity p)) /\
  within 0 size (GameObject.radius p) /\
  within 1 (size + 1) (Particle.startSize p) /\
  Particle.life p = 1 /\ Particle.maxLife p = 1.

(** A point of the viewport. *)
Definition inside (dim : Dimensions) (p : Vector2D) : Prop :=
  within 0 (width dim) (Vector2D.x p) /\ within 0 (height dim) (Vector2D.y p).

(** A viewport with sides that are finite and not negative. *)
Definition sized (dim : Dimensions) : Prop :=
  is_finite (width dim) = true /\ (0 <=? width dim) = true /\
  is_finite (height dim) = true /\ (0 <=? height dim) = true.

Definition twinkle (dim : Dimensions) (s : Star) : Prop :=
  inside dim (Star.position s) /\ within 0 1.5 (Star.size s) /\
  within 0 1 (Star.opacity s) /\ within 0.1 0.6 (Star.parallaxFactor s).

Definition haze (dim : Dimensions) (n : Nebula) : Prop :=
  inside dim (Nebula.position n) /\ within 100 300 (Nebula.size n) /\
  within 0.1 0.3 (Nebula.opacity n).

(** The enemies that shoot. *)
Definition armed (e : Enemy) : bool :=
  match Enemy.type e with Saucer | Mothership => true | _ => false end.

(** The enemy that the spawner makes at the score [score] with the roll
    [typeRoll], in the viewport [dim]: its type, radius and health by the
    table of the spawner, at full health, just outside one of the four sides
    of the viewport. *)
Definition newcomer (dim : Dimensions) (score typeRoll : float) (e : Enemy) : Prop :=
  Enemy.type e
  = (if (1000 <? score) && (0.95 <? typeRoll) then Mothership
     else if (200 <? score) && (0.7 <? typeRoll) then Saucer
     else Meteor) /\
  match Enemy.type e with
  | Mothership => GameObject.radius e = 60 /\ Enemy.health e = 50
  | Saucer => GameObject.radius e = 20 /\ Enemy.health e = 10
  | Meteor => within 15 40 (GameObject.radius e) /\ Enemy.health e = GameObject.radius e / 2
  | BlackHole => False
  end /\
  Enemy.maxHealth e = Enemy.health e /\ Enemy.rotation e = None /\
  within (-1) 1 (Vector2D.x (GameObject.velocity e)) /\
  within (-1) 1 (Vector2D.y (GameObject.velocity e)) /\
  onScreen dim e = true /\
  (let p := GameObject.position e in
   let r := GameObject.radius e in
   Vector2D.y p = - r \/ Vector2D.x p = width dim + r \/
   Vector2D.y p = height dim + r \/ Vector2D.x p = - r).

(** A particle [p'] that is the particle [p] a moment later: the same but for
    its place and its radius, with a life that is not above the life before. *)
Definition faded (p p' : Particle) : Prop :=
  GameObject.id p' = GameObject.id p /\
  GameObject.velocity p' = GameObject.velocity p /\
  Particle.color p' = Particle.color p /\
  Particle.maxLife p' = Particle.maxLife p /\
  Particle.startSize p' = Particle.startSize p /\
  (Particle.life p' <=? Particle.life p) = true.

(** The background that [setupBackground] makes for the viewport [dim]: 200
    stars and 5 nebulas, numbered from 0, all inside the viewport, the
    nebulas in the three colours in turn. *)
Definition backdrop (dim : Dimensions) (b : Backdrop) : Prop :=
  List.length (starsRef b) = 200%nat /\ List.length (nebulasRef b) = 5%nat /\
  Forall (twinkle dim) (starsRef b) /\ Forall (haze dim) (nebulasRef b) /\
  map Star.id (starsRef b) = map id_s (seq 0 200) /\
  map Nebula.id (nebulasRef b) = map id_n (seq 0 5) /\
  map Nebula.color (nebulasRef b)
  = ["#ff006e"; "#8338ec"; "#3a86ff"; "#ff006e"; "#8338ec"]%string.

(** ** The screen wrap, tick by tick

    What the wrap needs of an object: a radius that is not negative, a finite
    velocity and a position that is a number. *)
Definition wrappable (o : GameObject) : Prop :=
  (0 <=? GameObject.radius o) = true /\
  is_finite (Vector2D.x (GameObject.velocity o)) = true /\
  is_finite (Vector2D.y (GameObject.velocity o)) = true /\
  is_nan (Vector2D.x (GameObject.position o)) = false /\
  is_nan (Vector2D.y (GameObject.position o)) = false.

(** A particle as the game makes them: it can be wrapped, and its first size
    and its full life are positive and finite. *)
Definition fading (p : Particle) : Prop :=
  wrappable p /\
  (0 <? Particle.startSize p) = true /\ is_finite (Particle.startSize p) = true /\
  (0 <? Particle.maxLife p) = true /\ is_finite (Particle.maxLife p) = true.

(** A particle half way through its life, half a pixel inside the left edge of
    the wrap and drifting left; its radius is what a tick gives it,
    [startSize * (life / maxLife)]. *)
Definition drifter : Particle :=
  Particle.mk (GameObject.mk (id_p 0 0.25) (Vector2D.mk (-0.5) 300) (Vector2D.mk (-1) 0) 1)
              0.5 1 "#ffffff" 2.

Definition fringe : Game := scene (Some (pilot 100)) [] [] [drifter] 0.

(** The claim of C2 as it is stated: in a running game whose player, enemies
    and particles can be wrapped and are within the bounds of the screen wrap,
    each for its radius, they are within these bounds, each for its radius,
    after a frame. *)
Definition wrapped_at_end : Prop :=
  forall math keys dt g w g' w',
    gameStatus g = Playing ->
    (forall p : Player, playerRef g = Some p ->
       wrappable p /\ onScreen (dimensions g) p = true) ->
    Forall (fun e : Enemy => wrappable e /\ onScreen (dimensions g) e = true)
           (enemiesRef g) ->
    Forall (fun p : Particle => fading p /\ onScreen (dimensions g) p = true)
           (particlesRef g) ->
    updateAndDraw math keys dt g w = Some (g', w') ->
    (forall p : Player, playerRef g' = Some p -> onScreen (dimensions g') p = true) /\
    Forall (fun e : Enemy => onScreen (dimensions g') e = true) (enemiesRef g') /\
    Forall (fun p : Particle => onScreen (dimensions g') p = true) (particlesRef g').

(** * Properties of binary64 arithmetic *)

Section Symmetry.

Lemma SFadd_comm (a b : spec_float) : SF64add a b = SF64add b a.
Proof.
  destruct a as [sa|sa| |sa ma ea], b as [sb|sb| |sb mb eb];
    try destruct sa; try destruct sb; try reflexivity;
    unfold SF64add, SFadd; rewrite (Z.min_comm eb ea); f_equal; apply Z.add_comm.
Qed.

Lemma add_comm (a b : float) : a + b = b + a.
Proof. apply Prim2SF_inj. rewrite !add_spec. apply SFadd_comm. Qed.

Lemma SFabs_binary_round_aux s m e l :
  SFabs (binary_round_aux prec emax s m e l) = SFabs (binary_round_aux prec emax false m e l).
Proof.
  unfold binary_round_aux.
  destruct (shr_fexp prec emax m e l) as [mrs' e'].
  destruct (shr_fexp prec emax _ e' loc_Exact) as [mrs'' e''].
  destruct (shr_m mrs''); try reflexivity.
  destruct (Z.leb e'' (emax - prec)); reflexivity.
Qed.

Lemma SFabs_binary_normalize_opp m e s s' :
  SFabs (binary_normalize prec emax (- m) e s) = SFabs (binary_normalize prec emax m e s').
Proof.
  destruct m as [|p|p]; simpl; try reflexivity; unfold binary_round;
    destruct (shl_align p e _) as [mz ez];
    rewrite (SFabs_binary_round_aux true); reflexivity.
Qed.

Lemma SFabs_sub_swap (a b : spec_float) :
  SFabs (SF64sub a b) = SFabs (SF64sub b a).
Proof.
  destruct a as [sa|sa| |sa ma ea], b as [sb|sb| |sb mb eb];
    try destruct sa; try destruct sb; try reflexivity;
    unfold SF64sub, SFsub; rewrite (Z.min_comm eb ea);
    match goal with
    | |- SFabs (binary_normalize _ _ (?u - ?v) _ _) = _ =>
        replace (u - v)%Z with (- (v - u))%Z by lia
    end; apply SFabs_binary_normalize_opp.
Qed.

Lemma SFmul_square_abs (a : spec_float) : SF64mul a a = SF64mul (SFabs a) (SFabs a).
Proof. destruct a as [s|s| |s m e]; try destruct s; reflexivity. Qed.

Lemma sq_sub_swap (a b : float) : sq (a - b) = sq (b - a).
Proof.
  unfold sq. apply Prim2SF_inj. rewrite !mul_spec, !sub_spec.
  rewrite SFmul_square_abs, SFabs_sub_swap, <- SFmul_square_abs. reflexivity.
Qed.

End Symmetry.

Lemma distance_sym (p q : Vector2D) : distance p q = distance q p.
Proof.
  unfold distance.
  rewrite (sq_sub_swap (Vector2D.x p)), (sq_sub_swap (Vector2D.y p)). reflexivity.
Qed.

(** C9. [checkCollision] is symmetric, and it is the test
    [distance(a.position, b.position) < a.radius + b.radius]. *)
Theorem checkCollision_symmetric (a b : GameObject) :
  checkCollision a b = checkCollision b a /\
  (checkCollision a b = true <->
   (distance (GameObject.position a) (GameObject.position b)
      <? GameObject.radius a + GameObject.radius b) = true).
Proof.
  split; [|reflexivity].
  unfold checkCollision.
  rewrite distance_sym, (add_comm (GameObject.radius a)). reflexivity.
Qed.

(** ** The order of doubles *)

Lemma SFcompare_rank (x y : spec_float) :
  SFcompare x y =
  match rank x, rank y with
  | Some a, Some b => Some (rank_compare a b)
  | _, _ => None
  end.
Proof.
  destruct x as [sx|sx| |sx mx ex], y as [sy|sy| |sy my ey];
    try destruct sx; try destruct sy; try reflexivity; cbn.
  rewrite Z.compare_opp, (Z.compare_antisym ex ey).
  destruct (ex ?= ey)%Z; reflexivity.
Qed.

Lemma rank_compare_Lt a b : rank_compare a b = Lt <-> rank_lt a b.
Proof.
  destruct a as [[c1 e1] m1], b as [[c2 e2] m2]; cbn.
  destruct (Z.compare_spec c1 c2), (Z.compare_spec e1 e2), (Z.compare_spec m1 m2);
    split; intros; try discriminate; try reflexivity; lia.
Qed.

Lemma rank_compare_Eq a b : rank_compare a b = Eq -> rank_le a b /\ rank_le b a.
Proof.
  destruct a as [[c1 e1] m1], b as [[c2 e2] m2]; cbn.
  destruct (Z.compare_spec c1 c2), (Z.compare_spec e1 e2), (Z.compare_spec m1 m2);
    intros; try discriminate; lia.
Qed.

Lemma rank_lt_le a b : rank_lt a b -> rank_le a b.
Proof. destruct a as [[c1 e1] m1], b as [[c2 e2] m2]; cbn; lia. Qed.

Lemma rank_le_cases a b : rank_le a b <-> rank_compare a b <> Gt.
Proof.
  destruct a as [[c1 e1] m1], b as [[c2 e2] m2]; cbn.
  destruct (Z.compare_spec c1 c2), (Z.compare_spec e1 e2), (Z.compare_spec m1 m2);
    split; intros; try discriminate; try congruence; lia.
Qed.

Lemma rank_compare_Gt a b : rank_compare a b = Gt <-> rank_lt b a.
Proof.
  destruct a as [[c1 e1] m1], b as [[c2 e2] m2]; cbn.
  destruct (Z.compare_spec c1 c2), (Z.compare_spec e1 e2), (Z.compare_spec m1 m2);
    split; intros; try discriminate; try reflexivity; lia.
Qed.

Lemma rank_compare_antisym a b : rank_compare b a = CompOpp (rank_compare a b).
Proof.
  destruct a as [[c1 e1] m1], b as [[c2 e2] m2]; cbn.
  rewrite (Z.compare_antisym c1 c2), (Z.compare_antisym e1 e2), (Z.compare_antisym m1 m2).
  destruct (c1 ?= c2)%Z, (e1 ?= e2)%Z, (m1 ?= m2)%Z; reflexivity.
Qed.

Lemma ltb_rank (u v : float) a b :
  frank u = Some a -> frank v = Some b ->
  ((u <? v) = true <-> rank_lt a b) /\ ((u <? v) = false <-> rank_le b a).
Proof.
  intros Ha Hb. rewrite ltb_spec. unfold SFltb, frank in *.
  rewrite SFcompare_rank, Ha, Hb, <- rank_compare_Lt, rank_le_cases.
  rewrite (rank_compare_antisym a b).
  destruct (rank_compare a b); cbn; repeat split; intros; congruence.
Qed.

Lemma leb_rank (u v : float) a b :
  frank u = Some a -> frank v = Some b -> ((u <=? v) = true <-> rank_le a b).
Proof.
  intros Ha Hb. rewrite leb_spec. unfold SFleb, frank in *.
  rewrite SFcompare_rank, Ha, Hb, rank_le_cases.
  destruct (rank_compare a b); split; intros; congruence.
Qed.

Lemma ltb_true_ranked (u v : float) :
  (u <? v) = true -> exists a b, frank u = Some a /\ frank v = Some b.
Proof.
  rewrite ltb_spec. unfold SFltb, frank. rewrite SFcompare_rank.
  destruct (rank (Prim2SF u)), (rank (Prim2SF v)); try discriminate; eauto.
Qed.

Lemma leb_true_ranked (u v : float) :
  (u <=? v) = true -> exists a b, frank u = Some a /\ frank v = Some b.
Proof.
  rewrite leb_spec. unfold SFleb, frank. rewrite SFcompare_rank.
  destruct (rank (Prim2SF u)), (rank (Prim2SF v)); try discriminate; eauto.
Qed.

Lemma is_nan_rank (u : float) : is_nan u = false <-> exists a, frank u = Some a.
Proof.
  unfold is_nan, frank. rewrite eqb_spec. unfold SFeqb. rewrite SFcompare_rank.
  destruct (rank (Prim2SF u)) as [a|] eqn:E.
  - split; [eauto|]. intros _. destruct (rank_compare a a) eqn:C; try reflexivity.
    + apply rank_compare_Lt in C. destruct a as [[? ?] ?]; cbn in C; lia.
    + apply rank_compare_Gt in C. destruct a as [[? ?] ?]; cbn in C; lia.
  - split; [discriminate|]. intros [a H]. discriminate.
Qed.

(** ** Rounding keeps the sign *)

Lemma shr_1_nonneg mrs : (0 <= shr_m mrs -> 0 <= shr_m (shr_1 mrs))%Z.
Proof. destruct mrs as [m r s]; destruct m as [|[p|p|]|p]; cbn; lia. Qed.

Lemma iter_shr_1_nonneg n :
  forall mrs, (0 <= shr_m mrs -> 0 <= shr_m (iter_pos shr_1 n mrs))%Z.
Proof. induction n; intros mrs H; cbn; auto using shr_1_nonneg. Qed.

Lemma shr_fexp_nonneg m e l :
  (0 <= m -> 0 <= shr_m (fst (shr_fexp prec emax m e l)))%Z.
Proof.
  intros H. unfold shr_fexp, shr.
  assert (0 <= shr_m (shr_record_of_loc m l))%Z by (destruct l as [|[]]; exact H).
  destruct (_ - e)%Z; cbn; auto using iter_shr_1_nonneg.
Qed.

Lemma round_nearest_even_nonneg m l : (0 <= m -> 0 <= round_nearest_even m l)%Z.
Proof. destruct l as [|[]]; cbn; try destruct (Z.even m); lia. Qed.

Lemma binary_round_aux_signed s m e l :
  (0 <= m)%Z -> signed s (binary_round_aux prec emax s m e l).
Proof.
  intros H. unfold binary_round_aux.
  pose proof (shr_fexp_nonneg m e l H) as H1.
  destruct (shr_fexp prec emax m e l) as [mrs' e']. cbn in H1.
  pose proof (shr_fexp_nonneg _ e' loc_Exact
                (round_nearest_even_nonneg _ (loc_of_shr_record mrs') H1)) as H2.
  destruct (shr_fexp prec emax _ e' loc_Exact) as [mrs'' e'']. cbn in H2.
  destruct (shr_m mrs''); cbn; [reflexivity| |lia].
  destruct (_ <=? _)%Z; reflexivity.
Qed.

Lemma binary_round_signed s m e : signed s (binary_round prec emax s m e).
Proof.
  unfold binary_round. destruct (shl_align m e _) as [mz ez].
  apply binary_round_aux_signed. lia.
Qed.

Lemma binary_normalize_not_nan m e s : binary_normalize prec emax m e s <> S754_nan.
Proof.
  destruct m as [|p|p]; cbn; [discriminate| |];
    match goal with |- binary_round _ _ ?s p e <> _ =>
      pose proof (binary_round_signed s p e) as H;
      destruct (binary_round prec emax s p e); [discriminate|discriminate|destruct H|discriminate]
    end.
Qed.

(** Non-negative doubles: the zeros, the positive finite numbers and
    [+Infinity]. *)
Lemma nonneg_rank (v : float) :
  (0 <=? v) = true <-> exists a, frank v = Some a /\ rank_le (0, 0, 0)%Z a.
Proof.
  assert (H0 : frank 0 = Some (0, 0, 0)%Z) by reflexivity.
  split.
  - intros H. destruct (leb_true_ranked _ _ H) as (a & b & Ha & Hb).
    exists b. split; [exact Hb|]. rewrite (leb_rank _ _ _ _ Ha Hb) in H. congruence.
  - intros (a & Ha & H). now rewrite (leb_rank _ _ _ _ H0 Ha).
Qed.

Lemma SFadd_nonneg (a b : spec_float) ra rb :
  rank a = Some ra -> rank b = Some rb ->
  rank_le (0, 0, 0)%Z ra -> rank_le (0, 0, 0)%Z rb ->
  exists r, rank (SF64add a b) = Some r /\ rank_le (0, 0, 0)%Z r.
Proof.
  destruct a as [sa|sa| |sa ma ea], b as [sb|sb| |sb mb eb];
    try destruct sa; try destruct sb; cbn;
    intros Ha Hb; try discriminate;
    injection Ha as <-; injection Hb as <-; cbn; intros H1 H2; try lia;
    try (eexists; split; [reflexivity|cbn; lia]).
  pose proof (binary_round_signed false
    (fst (shl_align ma ea (Z.min ea eb)) + fst (shl_align mb eb (Z.min ea eb))) (Z.min ea eb)) as H.
  destruct (binary_round _ _ _ _ _) as [s|s| |s m e]; cbn in H; subst;
    try contradiction; eexists; (split; [reflexivity|cbn; lia]).
Qed.

Lemma add_nonneg (a b : float) :
  (0 <=? a) = true -> (0 <=? b) = true -> (0 <=? a + b) = true.
Proof.
  rewrite !nonneg_rank. intros (ra & Ha & H1) (rb & Hb & H2).
  unfold frank. rewrite add_spec. eapply SFadd_nonneg; eauto.
Qed.

Lemma opp_nonneg_rank (a : float) ra :
  frank a = Some ra -> rank_le (0, 0, 0)%Z ra ->
  exists r, frank (- a) = Some r /\ rank_le r (0, 0, 0)%Z.
Proof.
  unfold frank. rewrite opp_spec.
  destruct (Prim2SF a) as [s|s| |s m e]; try destruct s; cbn;
    intros Ha; try discriminate; injection Ha as <-; cbn; intros H; try lia;
    eexists; (split; [reflexivity|cbn; lia]).
Qed.

Lemma is_nan_SF (a : float) : is_nan a = false <-> Prim2SF a <> S754_nan.
Proof.
  rewrite is_nan_rank. unfold frank.
  destruct (Prim2SF a) as [s|s| |s m e]; cbn.
  - split; [discriminate|eauto].
  - split; [discriminate|destruct s; eauto].
  - split; [intros [? ?]; discriminate|congruence].
  - split; [discriminate|destruct s; eauto].
Qed.

Lemma is_finite_SF (a : float) :
  is_finite a = true ->
  match Prim2SF a with S754_zero _ | S754_finite _ _ _ => True | _ => False end.
Proof.
  unfold is_finite, is_nan, is_infinity. rewrite !eqb_spec, abs_spec.
  change (Prim2SF infinity) with (S754_infinity false).
  destruct (Prim2SF a) as [s|s| |s m e]; try destruct s; cbn; try discriminate; trivial.
Qed.

Lemma add_not_nan (a b : float) :
  is_nan a = false -> is_finite b = true -> is_nan (a + b) = false.
Proof.
  rewrite !is_nan_SF, add_spec. intros Ha Hb. apply is_finite_SF in Hb.
  destruct (Prim2SF a) as [sa|sa| |sa ma ea], (Prim2SF b) as [sb|sb| |sb mb eb];
    try contradiction; try congruence;
    try (apply binary_normalize_not_nan);
    try destruct sa; try destruct sb; cbn; discriminate.
Qed.

(** ** The screen wrap of [updatePosition] *)

Lemma wrap_ranks (r extent : float) :
  (0 <=? r) = true -> (0 <=? extent) = true ->
  exists lo hi, frank (- r) = Some lo /\ frank (extent + r) = Some hi /\
                rank_le lo (0, 0, 0)%Z /\ rank_le (0, 0, 0)%Z hi.
Proof.
  intros Hr He.
  pose proof (add_nonneg _ _ He Hr) as Hhi. rewrite nonneg_rank in Hhi, Hr.
  destruct Hhi as (hi & Hhi & Hh). destruct Hr as (ra & Hr & Hra).
  destruct (opp_nonneg_rank _ _ Hr Hra) as (lo & Hlo & Hl).
  exists lo, hi. auto.
Qed.

Ltac rank_cases :=
  repeat match goal with
         | a : (Z * Z * Z)%type |- _ => destruct a as [[? ?] ?]
         end; cbn in *; try lia.

Lemma wrap_spec (v r extent : float) :
  (0 <=? r) = true -> (0 <=? extent) = true -> is_nan v = false ->
  (- r <=? wrap v r extent) = true /\
  (wrap v r extent <=? extent + r) = true /\
  ((v <? - r) = true -> wrap v r extent = extent + r) /\
  ((extent + r <? v) = true -> wrap v r extent = - r) /\
  ((v <? - r) = false -> (extent + r <? v) = false -> wrap v r extent = v).
Proof.
  intros Hr He Hv.
  destruct (wrap_ranks r extent Hr He) as (lo & hi & Hlo & Hhi & Hl & Hh).
  apply is_nan_rank in Hv. destruct Hv as [a Ha].
  assert (Hlh : (- r <=? extent + r) = true)
    by (rewrite (leb_rank _ _ _ _ Hlo Hhi); rank_cases).
  assert (Hll : (- r <=? - r) = true)
    by (rewrite (leb_rank _ _ _ _ Hlo Hlo); rank_cases).
  assert (Hhh : (extent + r <=? extent + r) = true)
    by (rewrite (leb_rank _ _ _ _ Hhi Hhi); rank_cases).
  assert (Hnn : (extent + r <? extent + r) = false)
    by (apply (ltb_rank _ _ _ _ Hhi Hhi); rank_cases).
  unfold wrap. destruct (v <? - r) eqn:E1.
  - rewrite Hnn. repeat split; auto; try discriminate.
    intros E2. exfalso.
    apply (ltb_rank _ _ _ _ Ha Hlo) in E1. apply (ltb_rank _ _ _ _ Hhi Ha) in E2. rank_cases.
  - destruct (extent + r <? v) eqn:E2.
    + repeat split; auto; discriminate.
    + repeat split; auto; try discriminate.
      * rewrite (leb_rank _ _ _ _ Hlo Ha). now apply (ltb_rank _ _ _ _ Ha Hlo).
      * rewrite (leb_rank _ _ _ _ Ha Hhi). now apply (ltb_rank _ _ _ _ Hhi Ha).
Qed.

(** ** Integers below [2^53] are doubles *)

Lemma Zpos_iter_xO (p n : positive) : Zpos (Pos.iter xO p n) = (Zpos p * 2 ^ Zpos n)%Z.
Proof.
  induction n as [|n IH] using Pos.peano_ind.
  - cbn. lia.
  - rewrite Pos.iter_succ, Pos2Z.inj_succ, Z.pow_succ_r, Pos2Z.inj_xO, IH by lia. ring.
Qed.

Lemma digits2_bounds (p : positive) :
  (2 ^ (Zpos (digits2_pos p) - 1) <= Zpos p < 2 ^ Zpos (digits2_pos p))%Z.
Proof.
  induction p as [p IH|p IH|]; cbn [digits2_pos]; [| |cbn; lia];
    rewrite Pos2Z.inj_succ, Z.pow_succ_r by lia;
    replace (Z.succ (Zpos (digits2_pos p)) - 1)%Z with (Z.succ (Zpos (digits2_pos p) - 1)) by lia;
    rewrite Z.pow_succ_r by lia; lia.
Qed.

Lemma digits2_unique (m : positive) (D : Z) :
  (2 ^ (D - 1) <= Zpos m < 2 ^ D)%Z -> Zpos (digits2_pos m) = D.
Proof.
  intros [Hlo Hhi]. pose proof (digits2_bounds m) as [Blo Bhi].
  assert (0 < D)%Z.
  { destruct (Z.ltb_spec 0 D) as [|Hle]; [assumption|].
    destruct (Z.eq_dec D 0) as [->|]; [cbn in Hhi; lia|].
    rewrite Z.pow_neg_r in Hhi by lia. lia. }
  destruct (Z.lt_trichotomy (Zpos (digits2_pos m)) D) as [Hlt|[Heq|Hgt]]; [|exact Heq|].
  - assert (2 ^ Zpos (digits2_pos m) <= 2 ^ (D - 1))%Z by (apply Z.pow_le_mono_r; lia). lia.
  - assert (2 ^ D <= 2 ^ (Zpos (digits2_pos m) - 1))%Z by (apply Z.pow_le_mono_r; lia). lia.
Qed.

Lemma digits2_scaled (m p : positive) (k : Z) :
  (0 <= k)%Z -> Zpos m = (Zpos p * 2 ^ k)%Z ->
  Zpos (digits2_pos m) = (Zpos (digits2_pos p) + k)%Z.
Proof.
  intros Hk Hm. apply digits2_unique. rewrite Hm.
  pose proof (digits2_bounds p) as [Blo Bhi].
  replace (Zpos (digits2_pos p) + k - 1)%Z with ((Zpos (digits2_pos p) - 1) + k)%Z by lia.
  rewrite !Z.pow_add_r by lia.
  assert (0 < 2 ^ k)%Z by (apply Z.pow_pos_nonneg; lia). nia.
Qed.

Lemma iter_shr_1_exact (n : positive) :
  forall q, iter_pos shr_1 n (Build_shr_record (Zpos (Pos.iter xO q n)) false false)
            = Build_shr_record (Zpos q) false false.
Proof.
  induction n as [n IH|n IH|]; intros q; cbn [iter_pos Pos.iter shr_1 orb].
  - now rewrite !IH.
  - now rewrite !IH.
  - reflexivity.
Qed.

Lemma Zpos_mantissa53 (p : positive) :
  (Zpos (digits2_pos p) <= 53)%Z ->
  Zpos (mantissa53 p) = (Zpos p * 2 ^ (53 - Zpos (digits2_pos p)))%Z.
Proof.
  intros H. unfold mantissa53. rewrite Z2Pos.id; [reflexivity|].
  assert (0 < 2 ^ (53 - Zpos (digits2_pos p)))%Z by (apply Z.pow_pos_nonneg; lia). nia.
Qed.

Lemma digits2_mantissa53 (p : positive) :
  (Zpos (digits2_pos p) <= 53)%Z -> Zpos (digits2_pos (mantissa53 p)) = 53%Z.
Proof.
  intros H.
  rewrite (digits2_scaled _ p (53 - Zpos (digits2_pos p))); [lia|lia|].
  now apply Zpos_mantissa53.
Qed.

Lemma fexp_small (d : Z) : (0 < d <= 53)%Z -> fexp prec emax d = (d - 53)%Z.
Proof. intros H. unfold fexp, SpecFloat.emin, prec, emax. lia. Qed.

Lemma shr_fexp_int (m p : positive) (e : Z) :
  (Zpos (digits2_pos p) <= 53)%Z ->
  (e <= Zpos (digits2_pos p) - 53)%Z ->
  Zpos m = (Zpos p * 2 ^ (- e))%Z ->
  shr_fexp prec emax (Zpos m) e loc_Exact =
  (Build_shr_record (Zpos (mantissa53 p)) false false, (Zpos (digits2_pos p) - 53)%Z).
Proof.
  intros Hd He Hm. unfold shr_fexp. cbn [Zdigits2 shr_record_of_loc].
  rewrite (digits2_scaled m p (- e)) by (lia || assumption).
  replace (Zpos (digits2_pos p) + - e + e)%Z with (Zpos (digits2_pos p)) by lia.
  rewrite fexp_small by lia.
  unfold shr. destruct (Zpos (digits2_pos p) - 53 - e)%Z as [|n|n] eqn:En; [| |lia].
  - f_equal; [|lia]. f_equal. f_equal. apply Pos2Z.inj.
    rewrite Zpos_mantissa53, Hm by assumption. f_equal. f_equal. lia.
  - f_equal; [|lia].
    assert (m = Pos.iter xO (mantissa53 p) n) as ->.
    { apply Pos2Z.inj. rewrite Zpos_iter_xO, Zpos_mantissa53, Hm by assumption.
      rewrite <- Z.mul_assoc, <- Z.pow_add_r by lia. f_equal. f_equal. lia. }
    apply iter_shr_1_exact.
Qed.

Lemma binary_round_aux_int (s : bool) (m p : positive) (e : Z) :
  (Zpos (digits2_pos p) <= 53)%Z ->
  (e <= Zpos (digits2_pos p) - 53)%Z ->
  Zpos m = (Zpos p * 2 ^ (- e))%Z ->
  binary_round_aux prec emax s (Zpos m) e loc_Exact = canon s p.
Proof.
  intros Hd He Hm. unfold binary_round_aux.
  rewrite (shr_fexp_int m p e Hd He Hm).
  cbn [shr_m loc_of_shr_record round_nearest_even].
  rewrite (shr_fexp_int (mantissa53 p) p (Zpos (digits2_pos p) - 53) Hd).
  - cbn [shr_m]. unfold canon.
    destruct (Z.leb_spec (Zpos (digits2_pos p) - 53) (emax - prec)) as [|H];
      [reflexivity|unfold emax, prec in H; lia].
  - lia.
  - rewrite Zpos_mantissa53 by assumption. f_equal. f_equal. lia.
Qed.

Lemma binary_round_int (s : bool) (m p : positive) (e : Z) :
  (Zpos (digits2_pos p) <= 53)%Z ->
  (e <= 0)%Z ->
  Zpos m = (Zpos p * 2 ^ (- e))%Z ->
  binary_round prec emax s m e = canon s p.
Proof.
  intros Hd He Hm. unfold binary_round.
  rewrite (digits2_scaled m p (- e)) by (lia || assumption).
  replace (Zpos (digits2_pos p) + - e + e)%Z with (Zpos (digits2_pos p)) by lia.
  rewrite fexp_small by lia.
  unfold shl_align.
  destruct (Zpos (digits2_pos p) - 53 - e)%Z as [|n|n] eqn:En.
  - apply binary_round_aux_int; (lia || assumption).
  - apply binary_round_aux_int; (lia || assumption).
  - apply binary_round_aux_int; [assumption|lia|].
    rewrite Zpos_iter_xO, Hm, <- Z.mul_assoc, <- Z.pow_add_r by lia.
    f_equal. f_equal. lia.
Qed.

Lemma digits2_le_53 (p : positive) : (Zpos p < 2 ^ 53)%Z <-> (Zpos (digits2_pos p) <= 53)%Z.
Proof.
  pose proof (digits2_bounds p) as [Blo Bhi]. split; intros H.
  - destruct (Z.leb_spec (Zpos (digits2_pos p)) 53) as [|Hgt]; [assumption|].
    assert (2 ^ 53 <= 2 ^ (Zpos (digits2_pos p) - 1))%Z by (apply Z.pow_le_mono_r; lia). lia.
  - assert (2 ^ Zpos (digits2_pos p) <= 2 ^ 53)%Z by (apply Z.pow_le_mono_r; lia). lia.
Qed.

Lemma valid_canon (s : bool) (p : positive) :
  (Zpos (digits2_pos p) <= 53)%Z -> valid_binary (canon s p) = true.
Proof.
  intros H. unfold canon, SpecFloat.valid_binary, bounded, canonical_mantissa.
  rewrite digits2_mantissa53 by assumption.
  replace (53 + (Zpos (digits2_pos p) - 53))%Z with (Zpos (digits2_pos p)) by lia.
  rewrite fexp_small by lia. rewrite Z.eqb_refl. cbn [andb].
  apply Z.leb_le. unfold emax, prec. lia.
Qed.

Lemma Prim2SF_Z2float_pos (p : positive) :
  (Zpos p < 2 ^ 53)%Z -> Prim2SF (Z2float (Zpos p)) = canon false p.
Proof.
  intros H. apply digits2_le_53 in H. unfold Z2float. cbn [binary_normalize].
  rewrite (binary_round_int false p p 0) by (cbn; lia).
  apply Prim2SF_SF2Prim. now apply valid_canon.
Qed.

Lemma frank_Z2float (z : Z) :
  (0 <= z < 2 ^ 53)%Z ->
  frank (Z2float z) =
  Some (match z with
        | Zpos p => (1, Zpos (digits2_pos p) - 53, Zpos (mantissa53 p))
        | _ => (0, 0, 0)
        end)%Z.
Proof.
  intros H. destruct z as [|p|p]; [reflexivity| |lia].
  unfold frank. rewrite Prim2SF_Z2float_pos by lia. reflexivity.
Qed.

Lemma rank_int_lt (p q : positive) :
  (Zpos p < 2 ^ 53)%Z -> (Zpos q < 2 ^ 53)%Z ->
  rank_lt (1, Zpos (digits2_pos p) - 53, Zpos (mantissa53 p))%Z
          (1, Zpos (digits2_pos q) - 53, Zpos (mantissa53 q))%Z
  <-> (Zpos p < Zpos q)%Z.
Proof.
  intros Hp Hq. apply digits2_le_53 in Hp, Hq.
  rewrite !Zpos_mantissa53 by assumption.
  pose proof (digits2_bounds p) as [Plo Phi]. pose proof (digits2_bounds q) as [Qlo Qhi].
  cbn [rank_lt].
  destruct (Z.lt_trichotomy (Zpos (digits2_pos p)) (Zpos (digits2_pos q))) as [Hlt|[Heq|Hgt]].
  - assert (2 ^ Zpos (digits2_pos p) <= 2 ^ (Zpos (digits2_pos q) - 1))%Z
      by (apply Z.pow_le_mono_r; lia).
    split; intros; lia.
  - rewrite Heq.
    assert (0 < 2 ^ (53 - Zpos (digits2_pos q)))%Z by (apply Z.pow_pos_nonneg; lia).
    split; intros; [|right; split; [reflexivity|right; split; [reflexivity|]]]; nia.
  - assert (2 ^ Zpos (digits2_pos q) <= 2 ^ (Zpos (digits2_pos p) - 1))%Z
      by (apply Z.pow_le_mono_r; lia).
    split; intros; lia.
Qed.

(** Below [2^53] the order of the doubles is the order of the integers. *)
Lemma Z2float_ltb (a b : Z) :
  (0 <= a < 2 ^ 53)%Z -> (0 <= b < 2 ^ 53)%Z ->
  (Z2float a <? Z2float b) = (a <? b)%Z.
Proof.
  intros Ha Hb.
  destruct (Z.ltb_spec a b) as [Hlt|Hge].
  - apply (ltb_rank _ _ _ _ (frank_Z2float a Ha) (frank_Z2float b Hb)). destruct a as [|p|p], b as [|q|q]; try lia; cbn [rank_lt]; try lia.
    apply rank_int_lt; lia.
  - destruct (Z2float a <? Z2float b) eqn:E; [|reflexivity].
    apply (ltb_rank _ _ _ _ (frank_Z2float a Ha) (frank_Z2float b Hb)) in E. destruct a as [|p|p], b as [|q|q]; try lia; cbn [rank_lt] in E; try lia.
    apply rank_int_lt in E; lia.
Qed.

Lemma Zpos_shl_align (m : positive) (e ez : Z) :
  (ez <= e)%Z -> Zpos (fst (shl_align m e ez)) = (Zpos m * 2 ^ (e - ez))%Z.
Proof.
  intros H. unfold shl_align. destruct (ez - e)%Z as [|n|n] eqn:En; cbn [fst]; [|lia|].
  - replace (e - ez)%Z with 0%Z by lia. cbn. lia.
  - rewrite Zpos_iter_xO. f_equal. f_equal. lia.
Qed.

(** Adding two positive integers whose sum is below [2^53] is exact. *)
Lemma SFadd_int (p q : positive) :
  (Zpos p + Zpos q < 2 ^ 53)%Z ->
  SF64add (canon false p) (canon false q) = canon false (p + q).
Proof.
  intros H.
  assert (Hp : (Zpos (digits2_pos p) <= 53)%Z) by (apply digits2_le_53; lia).
  assert (Hq : (Zpos (digits2_pos q) <= 53)%Z) by (apply digits2_le_53; lia).
  assert (Hpq : (Zpos (digits2_pos (p + q)) <= 53)%Z) by (apply digits2_le_53; lia).
  unfold SF64add, SFadd, canon. cbn [cond_Zopp].
  set (ep := (Zpos (digits2_pos p) - 53)%Z). set (eq := (Zpos (digits2_pos q) - 53)%Z).
  set (ez := Z.min ep eq).
  rewrite <- Pos2Z.inj_add. cbn [binary_normalize].
  apply binary_round_int; [assumption|lia|].
  rewrite Pos2Z.inj_add, !Zpos_shl_align, !Zpos_mantissa53 by (assumption || lia).
  rewrite <- !Z.mul_assoc, <- !Z.pow_add_r by lia.
  replace (53 - Zpos (digits2_pos p) + (ep - ez))%Z with (- ez)%Z by lia.
  replace (53 - Zpos (digits2_pos q) + (eq - ez))%Z with (- ez)%Z by lia.
  lia.
Qed.

Lemma Z2float_add (a b : Z) :
  (0 <= a)%Z -> (0 <= b)%Z -> (a + b < 2 ^ 53)%Z ->
  Prim2SF (Z2float a + Z2float b) = Prim2SF (Z2float (a + b)).
Proof.
  intros Ha Hb H. rewrite add_spec.
  destruct a as [|p|p], b as [|q|q]; try lia.
  - reflexivity.
  - change (Prim2SF (Z2float 0)) with (S754_zero false).
    rewrite Z.add_0_l, Prim2SF_Z2float_pos by lia. reflexivity.
  - change (Prim2SF (Z2float 0)) with (S754_zero false).
    rewrite Z.add_0_r, Prim2SF_Z2float_pos by lia. reflexivity.
  - rewrite !Prim2SF_Z2float_pos by lia.
    rewrite SFadd_int by lia. symmetry.
    change (Zpos p + Zpos q)%Z with (Zpos (p + q)). apply Prim2SF_Z2float_pos. lia.
Qed.

(** ** Rounding raises the exponent by little *)

Lemma shr_m_shr_1 mrs : (0 <= shr_m mrs)%Z -> shr_m (shr_1 mrs) = (shr_m mrs / 2)%Z.
Proof.
  destruct mrs as [m r s]. rewrite <- Z.div2_div.
  destruct m as [|[p|p|]|p]; cbn [shr_m shr_1]; intros H; try lia; reflexivity.
Qed.

Lemma pow2_xO (n : positive) : (2 ^ Zpos n~0 = 2 ^ Zpos n * 2 ^ Zpos n)%Z.
Proof. rewrite <- Z.pow_add_r by lia. f_equal. lia. Qed.

Lemma pow2_xI (n : positive) : (2 ^ Zpos n~1 = 2 * 2 ^ Zpos n * 2 ^ Zpos n)%Z.
Proof.
  rewrite <- Z.mul_assoc, <- Z.pow_add_r, <- Z.pow_succ_r by lia. f_equal. lia.
Qed.

Lemma shr_m_iter (n : positive) :
  forall mrs, (0 <= shr_m mrs)%Z ->
  shr_m (iter_pos shr_1 n mrs) = (shr_m mrs / 2 ^ Zpos n)%Z.
Proof.
  induction n as [n IH|n IH|]; intros mrs H; cbn [iter_pos].
  - rewrite IH by (apply iter_shr_1_nonneg, shr_1_nonneg, H).
    rewrite IH by (apply shr_1_nonneg, H).
    rewrite shr_m_shr_1 by exact H.
    assert (0 < 2 ^ Zpos n)%Z by (apply Z.pow_pos_nonneg; lia).
    rewrite !Z.div_div by nia. rewrite pow2_xI. f_equal. lia.
  - rewrite IH by (apply iter_shr_1_nonneg, H). rewrite IH by exact H.
    assert (0 < 2 ^ Zpos n)%Z by (apply Z.pow_pos_nonneg; lia).
    rewrite !Z.div_div by nia. rewrite pow2_xO. reflexivity.
  - rewrite shr_m_shr_1 by exact H. reflexivity.
Qed.

Lemma Zdigits2_le (x D : Z) : (0 <= x < 2 ^ D)%Z -> (0 <= D)%Z -> (Zdigits2 x <= D)%Z.
Proof.
  intros [Hx Hlt] HD. destruct x as [|p|p]; cbn [Zdigits2]; try lia.
  pose proof (digits2_bounds p) as [Blo _].
  destruct (Z.leb_spec (Zpos (digits2_pos p)) D) as [|Hgt]; [assumption|].
  assert (2 ^ D <= 2 ^ (Zpos (digits2_pos p) - 1))%Z by (apply Z.pow_le_mono_r; lia). lia.
Qed.

Lemma fexp_mono (a b : Z) : (a <= b)%Z -> (fexp prec emax a <= fexp prec emax b)%Z.
Proof. unfold fexp. lia. Qed.

(** The exponent after one [shr_fexp], and a bound on its mantissa. *)
Lemma shr_fexp_exponent (m e : Z) (l : location) :
  (0 <= m)%Z ->
  let d := Zdigits2 m in
  let r := shr_fexp prec emax m e l in
  snd r = Z.max e (fexp prec emax (d + e)) /\
  (0 <= shr_m (fst r) < 2 ^ Z.max 0 (d + e - snd r))%Z.
Proof.
  intros Hm d r. subst r. unfold shr_fexp. fold d.
  assert (Hd : (0 <= d /\ m < 2 ^ d)%Z).
  { subst d. destruct m as [|p|p]; try lia; cbn [Zdigits2]; [cbn; lia|].
    pose proof (digits2_bounds p). lia. }
  assert (Hrec : shr_m (shr_record_of_loc m l) = m) by (destruct l as [|[]]; reflexivity).
  unfold shr. destruct (fexp prec emax (d + e) - e)%Z as [|n|n] eqn:En; cbn [fst snd].
  - rewrite Hrec. split; [lia|]. replace (d + e - e)%Z with d by lia.
    rewrite Z.max_r by lia. lia.
  - rewrite shr_m_iter by (rewrite Hrec; lia). rewrite Hrec. split; [lia|].
    assert (Hp : (0 < 2 ^ Zpos n)%Z) by (apply Z.pow_pos_nonneg; lia).
    split; [apply Z.div_pos; lia|].
    destruct (Z.leb_spec (Zpos n) d) as [Hle|Hgt].
    + rewrite Z.max_r by lia. apply Z.div_lt_upper_bound; [exact Hp|].
      rewrite <- Z.pow_add_r by lia. replace (Zpos n + (d + e - (e + Zpos n)))%Z with d by lia. lia.
    + rewrite Z.max_l by lia. rewrite Z.div_small; [cbn; lia|].
      assert (2 ^ d <= 2 ^ Zpos n)%Z by (apply Z.pow_le_mono_r; lia). lia.
  - rewrite Hrec. split; [lia|]. replace (d + e - e)%Z with d by lia.
    rewrite Z.max_r by lia. lia.
Qed.

(** The exponent that [binary_round_aux] gives a mantissa [m] at exponent [e]
    is at most [max e (fexp (digits m + e + 1))]. *)
Lemma binary_round_aux_exponent (s : bool) (m e : Z) (l : location) :
  (0 <= m)%Z ->
  let bound := Z.max e (fexp prec emax (Zdigits2 m + e + 1)) in
  (bound <= emax - prec)%Z ->
  exponent_within bound (binary_round_aux prec emax s m e l).
Proof.
  intros Hm bound Hb. unfold binary_round_aux.
  pose proof (shr_fexp_exponent m e l Hm) as H1. cbv zeta in H1.
  destruct (shr_fexp prec emax m e l) as [mrs1 e1]. cbn [fst snd] in H1.
  destruct H1 as [He1 Hm1].
  set (m2 := round_nearest_even (shr_m mrs1) (loc_of_shr_record mrs1)).
  assert (Hm2 : (0 <= m2 <= shr_m mrs1 + 1)%Z).
  { subst m2. destruct (loc_of_shr_record mrs1) as [|[]]; cbn [round_nearest_even];
      try destruct (Z.even (shr_m mrs1)); lia. }
  pose proof (shr_fexp_exponent m2 e1 loc_Exact (proj1 Hm2)) as H2. cbv zeta in H2.
  destruct (shr_fexp prec emax m2 e1 loc_Exact) as [mrs2 e2]. cbn [fst snd] in H2.
  destruct H2 as [He2 Hm2'].
  assert (Hd2 : (Zdigits2 m2 <= Z.max 0 (Zdigits2 m + e - e1) + 1)%Z).
  { apply Zdigits2_le; [|lia]. rewrite Z.pow_add_r by lia. change (2 ^ 1)%Z with 2%Z.
    assert (0 < 2 ^ Z.max 0 (Zdigits2 m + e - e1))%Z by (apply Z.pow_pos_nonneg; lia). lia. }
  assert (Hle : (e2 <= bound)%Z).
  { subst bound. rewrite He2.
    assert (fexp prec emax (Zdigits2 m2 + e1)
            <= Z.max e1 (fexp prec emax (Zdigits2 m + e + 1)))%Z.
    { unfold fexp in *. unfold SpecFloat.emin, prec, emax in *. lia. }
    rewrite He1 in *. pose proof (fexp_mono (Zdigits2 m + e) (Zdigits2 m + e + 1)). lia. }
  destruct (shr_m mrs2) as [|p|p]; cbn; [trivial| |lia].
  destruct (Z.leb_spec e2 971) as [|Hgt]; cbn; [exact Hle|].
  unfold emax, prec in Hb. lia.
Qed.

(** ** A random radius can be counted to *)

Lemma small_intro (D B : Z) (f : spec_float) :
  signed false f -> exponent_within B f -> (B <= D)%Z -> small D f.
Proof. destruct f as [s|s| |s m e]; cbn; try tauto. intros -> ? ?. lia. Qed.

Lemma valid_digits (s : bool) (m : positive) (e : Z) :
  valid_binary (S754_finite s m e) = true ->
  (Zpos (digits2_pos m) <= 53 /\ e <= 971 /\ fexp prec emax (Zpos (digits2_pos m) + e) = e)%Z.
Proof.
  unfold valid_binary, bounded, canonical_mantissa. rewrite andb_true_iff, Z.eqb_eq, Z.leb_le.
  intros [H1 H2]. unfold fexp, SpecFloat.emin, emax, prec in *. lia.
Qed.

Lemma binary_round_small (m : positive) (e D B : Z) :
  (Zpos (digits2_pos m) + e <= D)%Z ->
  (Z.max e (fexp prec emax (D + 1)) <= B)%Z -> (B <= 971)%Z ->
  small B (binary_round prec emax false m e).
Proof.
  intros Hd HB HB'. unfold binary_round.
  assert (Hgen : forall mz ez, (ez <= e)%Z -> (Zpos (digits2_pos mz) + ez <= D)%Z ->
            small B (binary_round_aux prec emax false (Zpos mz) ez loc_Exact)).
  { intros mz ez He Hz.
    pose proof (fexp_mono (Zpos (digits2_pos mz) + ez + 1) (D + 1) ltac:(lia)).
    eapply small_intro.
    - apply binary_round_aux_signed. lia.
    - apply binary_round_aux_exponent; [lia|]. cbn [Zdigits2]. change (emax - prec)%Z with 971%Z. lia.
    - cbn [Zdigits2]. lia. }
  unfold shl_align.
  destruct (fexp prec emax (Zpos (digits2_pos m) + e) - e)%Z as [|d|d] eqn:Ed.
  - apply Hgen; lia.
  - apply Hgen; lia.
  - apply Hgen; [lia|].
    rewrite (digits2_scaled (Pos.iter xO m d) m (Zpos d)); [lia|lia|].
    apply Zpos_iter_xO.
Qed.

Lemma unit_small (u : float) :
  (0 <=? u) = true -> (u <? 1) = true -> small (-53) (Prim2SF u).
Proof.
  intros H0 H1. apply nonneg_rank in H0. destruct H0 as (a & Ha & H0).
  assert (F1 : frank 1 = Some (1, -52, 4503599627370496)%Z) by reflexivity.
  apply (ltb_rank _ _ _ _ Ha F1) in H1.
  pose proof (Prim2SF_valid u) as Hv. unfold frank in Ha.
  destruct (Prim2SF u) as [s|s| |s m e]; try destruct s; cbn in Ha; try discriminate;
    injection Ha as <-; cbn in H0, H1 |- *; try lia; trivial.
  apply valid_digits in Hv. destruct Hv as (Hd & _ & Hf).
  destruct H1 as [H1|[_ [H1|[-> H1]]]]; [lia|lia|].
  unfold fexp, SpecFloat.emin, emax, prec in Hf.
  assert (Zpos (digits2_pos m) = 53)%Z as E by lia.
  pose proof (digits2_bounds m) as [Blo _]. rewrite E in Blo. cbn in Blo. lia.
Qed.

Lemma digits2_mul (p q : positive) :
  (Zpos (digits2_pos (p * q)) <= Zpos (digits2_pos p) + Zpos (digits2_pos q))%Z.
Proof.
  apply (Zdigits2_le (Zpos (p * q))); [|lia]. rewrite Pos2Z.inj_mul, Z.pow_add_r by lia.
  pose proof (digits2_bounds p). pose proof (digits2_bounds q). nia.
Qed.

Lemma scale_small (u : float) :
  small (-53) (Prim2SF u) -> small (-47) (Prim2SF (u * (40 - 15))).
Proof.
  intros H. rewrite mul_spec. pose proof (Prim2SF_valid u) as Hv.
  change (Prim2SF (40 - 15)) with (S754_finite false 7036874417766400 (-48)).
  destruct (Prim2SF u) as [s|s| |s m e]; try destruct s; cbn in H; try contradiction;
    [exact I|exact I|].
  apply valid_digits in Hv. destruct Hv as (Hd & _ & _).
  cbn [SF64mul SFmul xorb].
  pose proof (digits2_mul m 7036874417766400) as Hm.
  change (Zpos (digits2_pos 7036874417766400)) with 53%Z in Hm.
  pose proof (fexp_mono (Zpos (digits2_pos (m * 7036874417766400)) + (e + -48) + 1) 6 ltac:(lia)).
  change (fexp prec emax 6) with (-47)%Z in *.
  eapply small_intro.
  - apply binary_round_aux_signed. lia.
  - apply binary_round_aux_exponent; [lia|]. cbn [Zdigits2]. change (emax - prec)%Z with 971%Z. lia.
  - cbn [Zdigits2]. lia.
Qed.

Lemma shift_small (v : float) :
  small (-47) (Prim2SF v) -> small (-45) (Prim2SF (v + 15)).
Proof.
  intros H. rewrite add_spec. pose proof (Prim2SF_valid v) as Hv.
  change (Prim2SF 15) with (S754_finite false 8444249301319680 (-49)).
  destruct (Prim2SF v) as [s|s| |s m e]; try destruct s; cbn in H; try contradiction;
    [cbn; lia|cbn; lia|].
  apply valid_digits in Hv. destruct Hv as (Hd & _ & _). apply digits2_le_53 in Hd.
  unfold SF64add, SFadd. cbn [cond_Zopp]. set (ez := Z.min e (-49)).
  rewrite <- Pos2Z.inj_add. cbn [binary_normalize].
  apply (binary_round_small _ _ 7); [|change (fexp prec emax (7 + 1)) with (-45)%Z; lia|lia].
  assert (Hlt : (Zpos (fst (shl_align m e ez) + fst (shl_align 8444249301319680 (-49) ez))
                 < 2 ^ (7 - ez))%Z).
  { rewrite Pos2Z.inj_add, !Zpos_shl_align by lia.
    assert (0 < 2 ^ (e - ez))%Z by (apply Z.pow_pos_nonneg; lia).
    assert (0 < 2 ^ (-49 - ez))%Z by (apply Z.pow_pos_nonneg; lia).
    assert (2 ^ 53 * 2 ^ (e - ez) <= 2 ^ (6 - ez))%Z.
    { rewrite <- Z.pow_add_r by lia. apply Z.pow_le_mono_r; lia. }
    assert (2 ^ (6 - ez) = 2 ^ 55 * 2 ^ (-49 - ez))%Z.
    { rewrite <- Z.pow_add_r by lia. f_equal. lia. }
    assert (2 ^ (7 - ez) = 2 ^ 56 * 2 ^ (-49 - ez))%Z.
    { rewrite <- Z.pow_add_r by lia. f_equal. lia. }
    change (2 ^ 53)%Z with 9007199254740992%Z in *.
    change (2 ^ 55)%Z with 36028797018963968%Z in *.
    change (2 ^ 56)%Z with 72057594037927936%Z in *. nia. }
  pose proof (Zdigits2_le _ (7 - ez) (conj (Pos2Z.is_nonneg _) Hlt) ltac:(lia)) as Hz.
  cbn [Zdigits2] in Hz. lia.
Qed.

Lemma small_countable (v : float) : small (-45) (Prim2SF v) -> countable v.
Proof.
  intros H. unfold countable, rounds. destruct (0 <? v); [|discriminate].
  assert (F : frank two53 = Some (1, 1, 4503599627370496)%Z) by reflexivity.
  assert (L : (v <=? two53) = true).
  { assert (R : exists a, frank v = Some a /\ rank_le a (1, 1, 4503599627370496)%Z).
    { unfold frank.
      destruct (Prim2SF v) as [s|s| |s m e]; try destruct s; cbn in H; try contradiction;
        eexists; (split; [reflexivity|cbn; lia]). }
    destruct R as (a & Ha & R). exact (proj2 (leb_rank v two53 _ _ Ha F) R). }
  rewrite L. unfold ceilSF.
  destruct (Prim2SF v) as [s|s| |s m e]; try destruct s; cbn in H |- *;
    try contradiction; discriminate.
Qed.

(** [randomBetween(15, 40)] is a count that a loop reaches when
    [Math.random()] is in [[0, 1)]. *)
Lemma radius_countable (u : float) :
  (0 <=? u) = true -> (u <? 1) = true -> countable (u * (40 - 15) + 15).
Proof.
  intros H0 H1. apply small_countable, shift_small, scale_small, unit_small; assumption.
Qed.

Lemma leb_true_not_nan_r (u v : float) : (u <=? v) = true -> is_nan v = false.
Proof.
  intros H. apply leb_true_ranked in H. destruct H as (a & b & _ & Hb).
  apply is_nan_rank. eauto.
Qed.

Section Motion.

Variable dim : Dimensions.
Variable o : GameObject.
Hypothesis radius_nonneg : (0 <=? GameObject.radius o) = true.
Hypothesis width_nonneg : (0 <=? width dim) = true.
Hypothesis height_nonneg : (0 <=? height dim) = true.
Hypothesis vx_finite : is_finite (Vector2D.x (GameObject.velocity o)) = true.
Hypothesis vy_finite : is_finite (Vector2D.y (GameObject.velocity o)) = true.

Lemma updatePosition_moving (b : GameObject) : moving o b -> moving o (updatePosition dim b).
Proof.
  intros (Hr & Hv & Hx & Hy). unfold moving, updatePosition. cbn. rewrite Hr, Hv.
  repeat split.
  - eapply leb_true_not_nan_r. apply wrap_spec; auto using add_not_nan.
  - eapply leb_true_not_nan_r. apply wrap_spec; auto using add_not_nan.
Qed.

Lemma iter_updatePosition_moving (n : nat) :
  moving o o -> moving o (Nat.iter n (updatePosition dim) o).
Proof. intros H. induction n; cbn; auto using updatePosition_moving. Qed.

Lemma updatePosition_onScreen (b : GameObject) :
  moving o b ->
  let after := updatePosition dim b in
  let r := GameObject.radius o in
  let px := Vector2D.x (GameObject.position b) + Vector2D.x (GameObject.velocity o) in
  let py := Vector2D.y (GameObject.position b) + Vector2D.y (GameObject.velocity o) in
  onScreen dim after = true /\
  ((px <? - r) = true -> Vector2D.x (GameObject.position after) = width dim + r) /\
  ((width dim + r <? px) = true -> Vector2D.x (GameObject.position after) = - r) /\
  ((py <? - r) = true -> Vector2D.y (GameObject.position after) = height dim + r) /\
  ((height dim + r <? py) = true -> Vector2D.y (GameObject.position after) = - r).
Proof.
  intros (Hr & Hv & Hx & Hy). unfold onScreen, updatePosition. cbn. rewrite Hr, Hv.
  pose proof (wrap_spec (Vector2D.x (GameObject.position b) + Vector2D.x (GameObject.velocity o))
                _ _ radius_nonneg width_nonneg (add_not_nan _ _ Hx vx_finite))
    as (X1 & X2 & X3 & X4 & _).
  pose proof (wrap_spec (Vector2D.y (GameObject.position b) + Vector2D.y (GameObject.velocity o))
                _ _ radius_nonneg height_nonneg (add_not_nan _ _ Hy vy_finite))
    as (Y1 & Y2 & Y3 & Y4 & _).
  rewrite X1, X2, Y1, Y2. auto.
Qed.

End Motion.

(** The motion step, whatever the number of motion steps an object has gone
    through: after the next one its position is within [-radius,
    width + radius] and [-radius, height + radius], and a coordinate that the
    move takes beyond an edge by more than the radius lands on the opposite
    edge.  The object has a non-negative radius, a finite velocity and a
    position that is not NaN; the viewport has non-negative sides. *)
Lemma updatePosition_wraps (dim : Dimensions) (o : GameObject) (n : nat) :
  (0 <=? GameObject.radius o) = true ->
  (0 <=? width dim) = true ->
  (0 <=? height dim) = true ->
  is_finite (Vector2D.x (GameObject.velocity o)) = true ->
  is_finite (Vector2D.y (GameObject.velocity o)) = true ->
  is_nan (Vector2D.x (GameObject.position o)) = false ->
  is_nan (Vector2D.y (GameObject.position o)) = false ->
  let before := Nat.iter n (updatePosition dim) o in
  let after := updatePosition dim before in
  let r := GameObject.radius o in
  let px := Vector2D.x (GameObject.position before) + Vector2D.x (GameObject.velocity before) in
  let py := Vector2D.y (GameObject.position before) + Vector2D.y (GameObject.velocity before) in
  GameObject.radius after = r /\
  onScreen dim after = true /\
  ((px <? - r) = true -> Vector2D.x (GameObject.position after) = width dim + r) /\
  ((width dim + r <? px) = true -> Vector2D.x (GameObject.position after) = - r) /\
  ((py <? - r) = true -> Vector2D.y (GameObject.position after) = height dim + r) /\
  ((height dim + r <? py) = true -> Vector2D.y (GameObject.position after) = - r).
Proof.
  intros Hr Hw Hh Hvx Hvy Hx Hy before after r px py.
  assert (Hm : moving o before).
  { apply iter_updatePosition_moving; auto. repeat split; auto. }
  split.
  - apply (updatePosition_moving dim o Hr Hw Hh Hvx Hvy before Hm).
  - subst px py. destruct Hm as (Hr' & Hv' & Hm). rewrite Hv'.
    apply (updatePosition_onScreen dim o Hr Hw Hh Hvx Hvy before). repeat split; tauto.
Qed.


(** * The frame computations *)

Lemma bind_Some {A B} (c : M A) (k : A -> M B) w b w' :
  bind c k w = Some (b, w') <-> exists a w1, c w = Some (a, w1) /\ k a w1 = Some (b, w').
Proof.
  unfold bind. destruct (c w) as [[a w1]|].
  - split; [eauto|]. intros (a' & w1' & E & H). now injection E as <- <-.
  - split; [discriminate|]. intros (a' & w1' & E & _). discriminate.
Qed.

Lemma ret_Some {A} (a b : A) w w' : ret a w = Some (b, w') <-> a = b /\ w = w'.
Proof. unfold ret. split; [intros H; now injection H|intros [-> ->]; reflexivity]. Qed.

(** Takes apart a hypothesis [c w = Some r] along the binds of [c]. *)
Ltac mstep H :=
  match type of H with
  | bind _ _ _ = Some _ =>
      let a := fresh "a" in let w1 := fresh "w" in
      let H1 := fresh "H" in let H2 := fresh "H" in
      apply bind_Some in H; destruct H as (a & w1 & H1 & H2);
      cbv beta in H2; try mstep H2
  | ret _ _ = Some _ =>
      apply ret_Some in H; destruct H as [? ?]; subst
  | diverge _ = Some _ => discriminate H
  | (if ?c then _ else _) _ = Some _ => fail
  | _ => idtac
  end.

Lemma forEach_invariant {A S} (I : S -> Prop) (body : A -> S -> M S) (l : list A) :
  (forall a s w s' w', In a l -> I s -> body a s w = Some (s', w') -> I s') ->
  forall s w s' w', I s -> forEach l body s w = Some (s', w') -> I s'.
Proof.
  induction l as [|a l IH]; intros Hbody s w s' w' Hs H; cbn in H.
  - apply ret_Some in H. destruct H as [<- _]. exact Hs.
  - apply bind_Some in H. destruct H as (s1 & w1 & H1 & H2).
    eapply IH; [|eapply Hbody; [left; reflexivity|exact Hs|exact H1]|exact H2].
    intros a0 s0 w0 s0' w0' Hin. apply Hbody. now right.
Qed.

Lemma times_invariant {S} (I : S -> Prop) (body : S -> M S) (n : nat) :
  (forall s w s' w', I s -> body s w = Some (s', w') -> I s') ->
  forall s w s' w', I s -> times n body s w = Some (s', w') -> I s'.
Proof.
  intros Hbody. induction n as [|n IH]; intros s w s' w' Hs H; cbn in H.
  - apply ret_Some in H. destruct H as [<- _]. exact Hs.
  - apply bind_Some in H. destruct H as (s1 & w1 & H1 & H2). eauto.
Qed.

Lemma times_total {S} (body : S -> M S) (n : nat) :
  (forall s w, exists s' w', body s w = Some (s', w')) ->
  forall s w, exists s' w', times n body s w = Some (s', w').
Proof.
  intros Hbody. induction n as [|n IH]; intros s w; cbn.
  - unfold ret. eauto.
  - destruct (Hbody s w) as (s1 & w1 & H1). unfold bind. rewrite H1. apply IH.
Qed.

Lemma forEach_total {A S} (I : S -> Prop) (body : A -> S -> M S) (l : list A) :
  (forall a s w, In a l -> I s -> exists s' w', body a s w = Some (s', w') /\ I s') ->
  forall s w, I s -> exists s' w', forEach l body s w = Some (s', w') /\ I s'.
Proof.
  induction l as [|a l IH]; intros Hbody s w Hs; cbn.
  - unfold ret. eauto.
  - destruct (Hbody a s w (or_introl eq_refl) Hs) as (s1 & w1 & H1 & Hs1).
    unfold bind. rewrite H1. apply IH; [|exact Hs1].
    intros a0 s0 w0 Hin. apply Hbody. now right.
Qed.

(** ** createExplosion only adds particles, each with a full second to live *)

Lemma sparks_refl g : sparks g g.
Proof. exists []. split; [|constructor]. destruct g; cbn. now rewrite app_nil_r. Qed.

Lemma sparks_trans g1 g2 g3 : sparks g1 g2 -> sparks g2 g3 -> sparks g1 g3.
Proof.
  intros (ps & -> & H1) (qs & -> & H2). exists (ps ++ qs). split.
  - destruct g1; cbn. now rewrite app_assoc.
  - apply Forall_app. auto.
Qed.

Lemma explosionParticle_burst position color size w p w' :
  explosionParticle position color size w = Some (p, w') -> burst p.
Proof.
  unfold explosionParticle, randomBetween. intros H. mstep H.
  repeat match goal with
         | H : bind _ _ _ = Some _ |- _ => mstep H
         | H : ret _ _ = Some _ |- _ => mstep H
         end.
  split; reflexivity.
Qed.

Lemma explosionParticle_total position color size w :
  exists p w', explosionParticle position color size w = Some (p, w').
Proof. unfold explosionParticle, randomBetween, bind, ret, DateNow, Math_random. cbn. eauto. Qed.

Lemma createExplosion_sparks position count color size g w g' w' :
  createExplosion position count color size g w = Some (g', w') -> sparks g g'.
Proof.
  unfold createExplosion, for_count. destruct (rounds count) as [n|]; [|discriminate].
  apply (times_invariant (sparks g)); [|apply sparks_refl].
  intros s w0 s' w0' Hs H. mstep H.
  eapply sparks_trans; [exact Hs|]. exists [a]. split; [reflexivity|].
  constructor; [|constructor]. eapply explosionParticle_burst; eauto.
Qed.

Lemma createExplosion_total position count color size g w :
  rounds count <> None ->
  exists g' w', createExplosion position count color size g w = Some (g', w').
Proof.
  unfold createExplosion, for_count. destruct (rounds count) as [n|]; [intros _|congruence].
  apply times_total. intros s w0.
  destruct (explosionParticle_total position color size w0) as (p & w1 & E).
  unfold bind. rewrite E. unfold ret. eauto.
Qed.

Lemma sparks_fields g g' :
  sparks g g' ->
  gameStatus g' = gameStatus g /\ score g' = score g /\ playerRef g' = playerRef g /\
  enemiesRef g' = enemiesRef g /\ lasersRef g' = lasersRef g /\
  lastShotTimeRef g' = lastShotTimeRef g /\ dimensions g' = dimensions g /\
  timeouts g' = timeouts g.
Proof. intros (ps & -> & _). cbn. repeat split. Qed.

Lemma number_string_eqb_refl a : number_string_eqb a a = true.
Proof.
  unfold number_string_eqb. replace (Leibniz.eqb a a) with true; [reflexivity|].
  symmetry. now apply Leibniz.eqb_spec.
Qed.

Lemma number_string_eqb_sym a b : number_string_eqb a b = number_string_eqb b a.
Proof.
  unfold number_string_eqb. rewrite (andb_comm (is_zero a)). f_equal.
  destruct (Leibniz.eqb a b) eqn:E1, (Leibniz.eqb b a) eqn:E2; try reflexivity.
  - apply Leibniz.eqb_spec in E1. subst. rewrite <- E2. symmetry. now apply Leibniz.eqb_spec.
  - apply Leibniz.eqb_spec in E2. subst. rewrite <- E1. now apply Leibniz.eqb_spec.
Qed.

Lemma ident_eqb_refl i : ident_eqb i i = true.
Proof. destruct i; cbn; rewrite ?number_string_eqb_refl; reflexivity. Qed.

Lemma ident_eqb_sym i j : ident_eqb i j = ident_eqb j i.
Proof.
  destruct i, j; cbn; try reflexivity;
    rewrite (number_string_eqb_sym now); try rewrite (number_string_eqb_sym rnd); reflexivity.
Qed.

Lemma uniqueIds_remove (before after : list Enemy) (enemy : Enemy) :
  uniqueIds (before ++ enemy :: after) = true ->
  filter (fun e : Enemy => negb (ident_eqb (GameObject.id e) (GameObject.id enemy)))
         (before ++ enemy :: after)
  = before ++ after.
Proof.
  induction before as [|b before IH]; cbn; intros H.
  - rewrite ident_eqb_refl. cbn. apply andb_prop in H. destruct H as [H _].
    induction after as [|a after IHa]; cbn in *; [reflexivity|].
    apply andb_prop in H. destruct H as [Ha H].
    rewrite ident_eqb_sym, Ha. cbn. f_equal. auto.
  - apply andb_prop in H. destruct H as [Hb H].
    rewrite forallb_app in Hb. apply andb_prop in Hb. destruct Hb as [_ Hb].
    cbn in Hb. apply andb_prop in Hb. destruct Hb as [Hb _].
    rewrite Hb. f_equal. auto.
Qed.

Lemma playerVsEnemies_suffix (player : Player) (g : Game) (w : World) :
  forall es pre,
  enemiesRef g = pre ++ es ->
  forallb (fun e : Enemy => negb (checkCollision player e)) pre = true ->
  existsb (fun e : Enemy => checkCollision player e) es = true ->
  uniqueIds (enemiesRef g) = true ->
  Forall (fun e : Enemy => countable (GameObject.radius e)) (enemiesRef g) ->
  exists before enemy after player' g' w',
    enemiesRef g = before ++ enemy :: after /\
    forallb (fun e : Enemy => negb (checkCollision player e)) before = true /\
    checkCollision player enemy = true /\
    playerVsEnemies es player g w = Some ((player', g'), w') /\
    player' = Player.set_health player (Player.health player - 20) /\
    sparks (set_enemiesRef g (before ++ after)) g'.
Proof.
  induction es as [|e es IH]; intros pre Hg Hpre Hex Hu Hr; [discriminate|].
  cbn [existsb] in Hex. cbn [playerVsEnemies].
  destruct (checkCollision player e) eqn:E.
  - assert (Hc : countable (GameObject.radius e)).
    { rewrite Forall_forall in Hr. apply Hr. rewrite Hg. apply in_or_app. right. now left. }
    destruct (createExplosion_total (GameObject.position e) (GameObject.radius e) "#ffbe0b"
                (GameObject.radius e / 2) g w Hc) as (g1 & w1 & E1).
    exists pre, e, es, (Player.set_health player (Player.health player - 20)).
    eexists. exists w1. repeat split; auto.
    + unfold bind. rewrite E1. reflexivity.
    + apply createExplosion_sparks in E1. destruct E1 as (ps & -> & Hps).
      exists ps. split; [|exact Hps]. cbn. rewrite Hg, uniqueIds_remove by (rewrite <- Hg; exact Hu).
      reflexivity.
  - apply (IH (pre ++ [e])); auto.
    + now rewrite <- app_assoc.
    + rewrite forallb_app, Hpre. cbn [forallb andb]. now rewrite E.
Qed.

(** C3. When the player overlaps an enemy, the player-vs-enemies loop takes 20
    from the player's health, removes the first overlapping enemy and no other
    one, and leaves the score as it was. *)
Theorem playerVsEnemies_first_overlap (player : Player) (g : Game) (w : World) :
  existsb (fun e : Enemy => checkCollision player e) (enemiesRef g) = true ->
  uniqueIds (enemiesRef g) = true ->
  Forall (fun e : Enemy => countable (GameObject.radius e)) (enemiesRef g) ->
  exists before enemy after player' g' w',
    enemiesRef g = before ++ enemy :: after /\
    forallb (fun e : Enemy => negb (checkCollision player e)) before = true /\
    checkCollision player enemy = true /\
    playerVsEnemies (enemiesRef g) player g w = Some ((player', g'), w') /\
    Player.health player' = Player.health player - 20 /\
    Player.obj player' = Player.obj player /\
    enemiesRef g' = before ++ after /\
    score g' = score g /\
    lasersRef g' = lasersRef g.
Proof.
  intros Hex Hu Hr.
  destruct (playerVsEnemies_suffix player g w (enemiesRef g) [] eq_refl eq_refl Hex Hu Hr)
    as (before & enemy & after & player' & g' & w' & Hg & Hb & Hc & Hrun & -> & Hs).
  exists before, enemy, after, (Player.set_health player (Player.health player - 20)), g', w'.
  apply sparks_fields in Hs. cbn in Hs.
  destruct Hs as (_ & Hscore & _ & Henemies & Hlasers & _).
  repeat split; assumption.
Qed.

(** ** Damage only lowers a health that is already spent *)

Lemma nonpos_rank (v : float) :
  (v <=? 0) = true <-> exists a, frank v = Some a /\ rank_le a (0, 0, 0)%Z.
Proof.
  assert (H0 : frank 0 = Some (0, 0, 0)%Z) by reflexivity.
  split.
  - intros H. destruct (leb_true_ranked _ _ H) as (a & b & Ha & Hb).
    exists a. split; [exact Ha|]. rewrite (leb_rank _ _ _ _ Ha Hb) in H. congruence.
  - intros (a & Ha & H). now rewrite (leb_rank _ _ _ _ Ha H0).
Qed.

Lemma SFsub_nonpos (a b : spec_float) ra rb :
  rank a = Some ra -> rank b = Some rb ->
  rank_le ra (0, 0, 0)%Z -> rank_lt (0, 0, 0)%Z rb -> rb <> (2, 0, 0)%Z ->
  exists r, rank (SF64sub a b) = Some r /\ rank_le r (0, 0, 0)%Z.
Proof.
  destruct a as [sa|sa| |sa ma ea], b as [sb|sb| |sb mb eb];
    try destruct sa; try destruct sb; cbn;
    intros Ha Hb; try discriminate;
    injection Ha as <-; injection Hb as <-; cbn; intros H1 H2 H3; try lia; try congruence;
    try (eexists; split; [reflexivity|cbn; lia]).
  pose proof (binary_round_signed true
    (fst (shl_align ma ea (Z.min ea eb)) + fst (shl_align mb eb (Z.min ea eb))) (Z.min ea eb)) as H.
  destruct (binary_round _ _ _ _ _) as [s|s| |s m e]; cbn in H; subst;
    try contradiction; eexists; (split; [reflexivity|cbn; lia]).
Qed.

Lemma sub_nonpos (h d : float) :
  (h <=? 0) = true -> (0 <? d) = true -> is_finite d = true -> (h - d <=? 0) = true.
Proof.
  rewrite !nonpos_rank. intros (ra & Ha & H1) Hd Hf.
  destruct (ltb_true_ranked _ _ Hd) as (z & rd & Hz & Hrd).
  apply (ltb_rank _ _ _ _ Hz Hrd) in Hd.
  change (frank 0) with (Some (0, 0, 0)%Z) in Hz. injection Hz as <-.
  unfold frank in *. rewrite sub_spec. eapply SFsub_nonpos; eauto.
  apply is_finite_SF in Hf. destruct (Prim2SF d) as [s|s| |s m e]; try contradiction;
    destruct s; cbn in Hrd; injection Hrd as <-; discriminate.
Qed.

(** ** The laser sweep over one enemy *)

Lemma healthAfter_S n h : healthAfter (S n) h = healthAfter n (h - 5).
Proof. unfold healthAfter. now rewrite Nat.iter_succ_r. Qed.

Lemma healthAfter_nonpos n h : (h <=? 0) = true -> (healthAfter n h <=? 0) = true.
Proof.
  revert h. induction n as [|n IH]; intros h H; [exact H|].
  rewrite healthAfter_S. apply IH. now apply sub_nonpos.
Qed.

Lemma damaged_spec n h d :
  damaged n h d =
  (healthAfter n h, d || (negb (Nat.eqb n 0) && (healthAfter n h <=? 0))).
Proof.
  revert h d. induction n as [|n IH]; intros h d; cbn [damaged].
  - cbn. now rewrite orb_false_r.
  - rewrite IH, healthAfter_S. f_equal. cbn [Nat.eqb negb andb].
    destruct (h - 5 <=? 0) eqn:E.
    + rewrite (healthAfter_nonpos n _ E). cbn. now rewrite !orb_true_r.
    + destruct n; cbn; [now rewrite E|reflexivity].
Qed.

Lemma set_health_same (e : Enemy) : Enemy.set_health e (Enemy.health e) = e.
Proof. now destruct e. Qed.

Lemma set_health_twice (e : Enemy) h h' :
  Enemy.set_health (Enemy.set_health e h) h' = Enemy.set_health e h'.
Proof. reflexivity. Qed.

Lemma laserLoop_spec (ls : list Laser) :
  forall enemy d acc g w enemy' d' acc' g' w',
  forEach ls laserVsEnemy (enemy, d, acc, g) w = Some ((enemy', d', acc', g'), w') ->
  let n := List.length (filter (hit enemy) ls) in
  enemy' = Enemy.set_health enemy (fst (damaged n (Enemy.health enemy) d)) /\
  d' = snd (damaged n (Enemy.health enemy) d) /\
  acc' = acc ++ filter (fun l => negb (hit enemy l)) ls /\
  sparks g g'.
Proof.
  induction ls as [|l ls IH]; intros enemy d acc g w enemy' d' acc' g' w' H; cbn [forEach] in H.
  - apply ret_Some in H. destruct H as [H _]. injection H as <- <- <- <-.
    cbn. rewrite set_health_same, app_nil_r. auto using sparks_refl.
  - apply bind_Some in H. destruct H as ([[[e1 d1] acc1] g1] & w1 & H1 & H2).
    apply IH in H2. destruct H2 as (-> & -> & -> & Hs).
    unfold laserVsEnemy in H1. cbn [filter]. fold (hit enemy l) in H1.
    destruct (hit enemy l) eqn:E.
    + apply bind_Some in H1. destruct H1 as (g2 & w2 & He & H1).
      apply ret_Some in H1. destruct H1 as [H1 _]. injection H1 as <- <- <- <-.
      apply createExplosion_sparks in He. cbn [List.length damaged negb app].
      repeat split; eauto using sparks_trans.
    + apply ret_Some in H1. destruct H1 as [H1 _]. injection H1 as <- <- <- <-.
      cbn [negb]. rewrite <- app_assoc. auto.
Qed.

Lemma rounds_5 : rounds 5 = Some 5%nat.
Proof. reflexivity. Qed.

Lemma laserLoop_total (ls : list Laser) :
  forall st w, exists st' w', forEach ls laserVsEnemy st w = Some (st', w').
Proof.
  intros st w.
  destruct (forEach_total (fun _ => True) laserVsEnemy ls) with (s := st) (w := w)
    as (st' & w' & H & _); [|exact I|eauto].
  intros l [[[e d] acc] g] w0 _ _. unfold laserVsEnemy.
  destruct (Laser.isPlayerLaser l && checkCollision l e).
  - destruct (createExplosion_total (GameObject.position l) 5 "#00f2ff" 2 g w0)
      as (g1 & w1 & E); [unfold countable; rewrite rounds_5; discriminate|].
    unfold bind. rewrite E. unfold ret. eauto.
  - unfold ret. eauto.
Qed.

(** What [collideEnemy] does with one enemy. *)
Lemma collideEnemy_spec (enemy : Enemy) newEnemies g w newEnemies' g' w' :
  collideEnemy enemy (newEnemies, g) w = Some ((newEnemies', g'), w') ->
  let n := List.length (filter (hit enemy) (lasersRef g)) in
  let enemy' := Enemy.set_health enemy (healthAfter n (Enemy.health enemy)) in
  let gone := negb (Nat.eqb n 0) && (Enemy.health enemy' <=? 0) in
  newEnemies' = (if gone then newEnemies else newEnemies ++ [enemy']) /\
  score g' = (if gone then score g + Math_floor (Enemy.maxHealth enemy * 5) else score g) /\
  lasersRef g' = filter (fun l => negb (hit enemy l)) (lasersRef g) /\
  gameStatus g' = gameStatus g /\ playerRef g' = playerRef g /\
  enemiesRef g' = enemiesRef g /\ dimensions g' = dimensions g /\
  timeouts g' = timeouts g /\ lastShotTimeRef g' = lastShotTimeRef g /\
  exists ps, particlesRef g' = particlesRef g ++ ps /\ Forall burst ps.
Proof.
  unfold collideEnemy. intros H.
  apply bind_Some in H. destruct H as ([[[e1 d1] acc1] g1] & w1 & H1 & H2).
  apply laserLoop_spec in H1. destruct H1 as (-> & -> & -> & (ps & -> & Hps)).
  rewrite damaged_spec in *. cbn [fst snd orb app] in *.
  destruct (negb _ && _) eqn:E.
  - apply bind_Some in H2. destruct H2 as ([] & w2 & _ & H2).
    apply bind_Some in H2. destruct H2 as (g2 & w3 & He & H2).
    apply ret_Some in H2. destruct H2 as [H2 _]. injection H2 as <- <-.
    apply createExplosion_sparks in He. destruct He as (qs & -> & Hqs).
    cbn. repeat split. exists (ps ++ qs). rewrite app_assoc. split; [reflexivity|].
    apply Forall_app. auto.
  - apply ret_Some in H2. destruct H2 as [H2 _]. injection H2 as <- <-.
    cbn. repeat split. eauto.
Qed.

Lemma collideEnemy_total (enemy : Enemy) st w :
  countable (GameObject.radius enemy) ->
  exists st' w', collideEnemy enemy st w = Some (st', w').
Proof.
  intros Hc. destruct st as [newEnemies g]. unfold collideEnemy.
  destruct (laserLoop_total (lasersRef g) (enemy, false, [], g) w) as ([[[e1 d1] acc1] g1] & w1 & H1).
  unfold bind at 1. rewrite H1.
  pose proof (laserLoop_spec _ _ _ _ _ _ _ _ _ _ _ H1) as (-> & _).
  destruct d1.
  - unfold bind, playSound.
    match goal with
    | |- context [createExplosion ?p ?c ?col ?sz ?g ?w] =>
        destruct (createExplosion_total p c col sz g w Hc) as (g2 & w2 & E)
    end.
    rewrite E. unfold ret. eauto.
  - unfold ret. eauto.
Qed.

Lemma collideLoop_spec (es : list Enemy) :
  forall newEnemies g w newEnemies' g' w',
  forEach es collideEnemy (newEnemies, g) w = Some ((newEnemies', g'), w') ->
  let r := laserSweep es (lasersRef g) in
  newEnemies' = newEnemies ++ survivors (fst r) /\
  score g' = award (score g) (destroyed (fst r)) /\
  lasersRef g' = snd r /\
  gameStatus g' = gameStatus g /\ playerRef g' = playerRef g /\
  enemiesRef g' = enemiesRef g /\ dimensions g' = dimensions g /\
  timeouts g' = timeouts g /\ lastShotTimeRef g' = lastShotTimeRef g /\
  exists ps, particlesRef g' = particlesRef g ++ ps /\ Forall burst ps.
Proof.
  induction es as [|e es IH]; intros newEnemies g w newEnemies' g' w' H; cbn [forEach] in H.
  - apply ret_Some in H. destruct H as [H _]. injection H as <- <-.
    cbn. rewrite app_nil_r. repeat split. exists []. rewrite app_nil_r. auto.
  - apply bind_Some in H. destruct H as ([ne1 g1] & w1 & H1 & H2).
    apply collideEnemy_spec in H1. apply IH in H2. cbn zeta in *.
    destruct H1 as (-> & S1 & L1 & A1 & B1 & C1 & D1 & E1 & F1 & (ps & P1 & Hps)).
    destruct H2 as (-> & S2 & L2 & A2 & B2 & C2 & D2 & E2 & F2 & (qs & P2 & Hqs)).
    cbn [laserSweep fst snd]. rewrite <- L1.
    unfold survivors, destroyed, award in *. cbn [filter map fst snd].
    destruct (negb _ && _) eqn:E; cbn [negb filter map fold_left fst snd].
    + rewrite S2, S1. repeat split; try congruence.
      exists (ps ++ qs). rewrite P2, P1, app_assoc. split; [reflexivity|]. apply Forall_app; auto.
    + rewrite S2, S1, <- app_assoc. repeat split; try congruence.
      exists (ps ++ qs). rewrite P2, P1, app_assoc. split; [reflexivity|]. apply Forall_app; auto.
Qed.

Lemma collideLoop_total (es : list Enemy) :
  Forall (fun e : Enemy => countable (GameObject.radius e)) es ->
  forall st w, exists st' w', forEach es collideEnemy st w = Some (st', w').
Proof.
  intros Hc st w.
  destruct (forEach_total (fun _ => True) collideEnemy es) with (s := st) (w := w)
    as (st' & w' & H & _); [|exact I|eauto].
  intros e st0 w0 Hin _. rewrite Forall_forall in Hc.
  destruct (collideEnemy_total e st0 w0 (Hc e Hin)) as (st1 & w1 & H). eauto.
Qed.

Lemma handleCollisions_spec g w g' w' :
  handleCollisions g w = Some (g', w') ->
  let r := laserSweep (enemiesRef g) (lasersRef g) in
  enemiesRef g' = survivors (fst r) /\
  score g' = award (score g) (destroyed (fst r)) /\
  lasersRef g' = snd r /\
  gameStatus g' = gameStatus g /\ playerRef g' = playerRef g /\
  dimensions g' = dimensions g /\
  timeouts g' = timeouts g /\ lastShotTimeRef g' = lastShotTimeRef g /\
  exists ps, particlesRef g' = particlesRef g ++ ps /\ Forall burst ps.
Proof.
  unfold handleCollisions. intros H.
  apply bind_Some in H. destruct H as ([ne g1] & w1 & H1 & H2).
  apply ret_Some in H2. destruct H2 as [<- _].
  apply collideLoop_spec in H1. cbn zeta in H1. cbn.
  destruct H1 as (-> & S1 & L1 & A1 & B1 & C1 & D1 & E1 & F1 & P1). auto 10.
Qed.

Lemma handleCollisions_total g w :
  Forall (fun e : Enemy => countable (GameObject.radius e)) (enemiesRef g) ->
  exists g' w', handleCollisions g w = Some (g', w').
Proof.
  intros Hc. unfold handleCollisions.
  destruct (collideLoop_total _ Hc ([], g) w) as ([ne g1] & w1 & H).
  unfold bind. rewrite H. unfold ret. eauto.
Qed.

Lemma filter_length_incl {A} (f g : A -> bool) (l : list A) :
  (List.length (filter f (filter g l)) <= List.length (filter f l))%nat.
Proof.
  induction l as [|a l IH]; cbn; [lia|].
  destruct (g a), (f a) eqn:E; cbn; rewrite ?E; cbn; lia.
Qed.

Lemma laserSweep_shotDown (es : list Enemy) :
  forall ls ls0,
  (forall e, List.length (filter (hit e) ls) <= List.length (filter (hit e) ls0))%nat ->
  Forall2 (shotDown ls0) es (fst (laserSweep es ls)).
Proof.
  induction es as [|e es IH]; intros ls ls0 Hls; cbn [laserSweep fst]; constructor.
  - exists (List.length (filter (hit e) ls)). cbn [fst snd]. auto.
  - apply IH. intros e0. etransitivity; [apply filter_length_incl|apply Hls].
Qed.

Lemma outcome_partition (outcome : list (Enemy * bool)) :
  Permutation (map fst outcome) (survivors outcome ++ destroyed outcome).
Proof.
  unfold survivors, destroyed. induction outcome as [|[e d] os IH]; cbn; [constructor|].
  destruct d; cbn.
  - apply Permutation_cons_app. exact IH.
  - now constructor.
Qed.

(** C4. The sweep of the player lasers over the enemies gives every enemy one
    outcome; the enemies whose outcome is destroyed (hit, and left with a
    health of at most 0) are exactly those that are not kept, and the score
    grows by [Math.floor(maxHealth * 5)] once for each of them. *)
Theorem handleCollisions_score (g : Game) (w : World) :
  Forall (fun e : Enemy => countable (GameObject.radius e)) (enemiesRef g) ->
  exists g' w' outcome,
    handleCollisions g w = Some (g', w') /\
    outcome = fst (laserSweep (enemiesRef g) (lasersRef g)) /\
    Forall2 (shotDown (lasersRef g)) (enemiesRef g) outcome /\
    Permutation (map fst outcome) (survivors outcome ++ destroyed outcome) /\
    enemiesRef g' = survivors outcome /\
    score g' = award (score g) (destroyed outcome).
Proof.
  intros Hc. destruct (handleCollisions_total g w Hc) as (g' & w' & H).
  exists g', w', (fst (laserSweep (enemiesRef g) (lasersRef g))).
  apply handleCollisions_spec in H as Hs. cbn zeta in Hs.
  destruct Hs as (He & Hsc & _).
  repeat split; auto using outcome_partition.
  apply laserSweep_shotDown. auto.
Qed.

(** ** Faction immunity *)

Lemma filter_filter_implied {A} (f k : A -> bool) (l : list A) :
  (forall a, f a = true -> k a = true) -> filter f (filter k l) = filter f l.
Proof.
  intros H. induction l as [|a l IH]; cbn [filter]; [reflexivity|].
  destruct (k a) eqn:Ek; cbn [filter]; destruct (f a) eqn:Ef; try congruence.
  apply H in Ef. congruence.
Qed.

Lemma filter_swap {A} (f k : A -> bool) (l : list A) :
  filter f (filter k l) = filter k (filter f l).
Proof.
  induction l as [|a l IH]; cbn [filter]; [reflexivity|].
  destruct (k a) eqn:Ek, (f a) eqn:Ef; cbn [filter]; rewrite ?Ek, ?Ef; congruence.
Qed.

Lemma enemyLaser_not_hit (e : Enemy) (l : Laser) : enemyLaser l = true -> negb (hit e l) = true.
Proof. unfold enemyLaser, hit. now destruct (Laser.isPlayerLaser l). Qed.

Lemma hit_playerLaser (e : Enemy) (l : Laser) : hit e l = true -> Laser.isPlayerLaser l = true.
Proof. unfold hit. now destruct (Laser.isPlayerLaser l). Qed.

Lemma laserSweep_enemyLasers (es : list Enemy) :
  forall ls, filter enemyLaser (snd (laserSweep es ls)) = filter enemyLaser ls.
Proof.
  induction es as [|e es IH]; intros ls; cbn [laserSweep snd]; [reflexivity|].
  rewrite IH. apply filter_filter_implied, enemyLaser_not_hit.
Qed.

Lemma laserSweep_playerLasers (es : list Enemy) :
  forall ls, fst (laserSweep es (filter Laser.isPlayerLaser ls)) = fst (laserSweep es ls).
Proof.
  induction es as [|e es IH]; intros ls; cbn [laserSweep fst]; [reflexivity|].
  rewrite (filter_filter_implied (hit e)) by apply hit_playerLaser.
  rewrite filter_swap, IH. reflexivity.
Qed.

Lemma playerLoop_spec (ls : list Laser) :
  forall player acc g w player' acc' g' w',
  forEach ls laserVsPlayer (player, acc, g) w = Some ((player', acc', g'), w') ->
  let n := List.length (filter (wound player) ls) in
  player' = Player.set_health player (Nat.iter n (fun h => h - 10) (Player.health player)) /\
  acc' = acc ++ filter (fun l => negb (wound player l)) ls /\
  sparks g g'.
Proof.
  induction ls as [|l ls IH]; intros player acc g w player' acc' g' w' H; cbn [forEach] in H.
  - apply ret_Some in H. destruct H as [H _]. injection H as <- <- <-.
    cbn. rewrite app_nil_r. split; [now destruct player|]. auto using sparks_refl.
  - apply bind_Some in H. destruct H as ([[p1 acc1] g1] & w1 & H1 & H2).
    apply IH in H2. destruct H2 as (-> & -> & Hs).
    unfold laserVsPlayer in H1. cbn [filter]. fold (wound player l) in H1.
    destruct (wound player l) eqn:E.
    + apply bind_Some in H1. destruct H1 as (g2 & w2 & He & H1).
      apply ret_Some in H1. destruct H1 as [H1 _]. injection H1 as <- <- <-.
      apply createExplosion_sparks in He. cbn [List.length negb app].
      rewrite Nat.iter_succ_r. repeat split; eauto using sparks_trans.
    + apply ret_Some in H1. destruct H1 as [H1 _]. injection H1 as <- <- <-.
      cbn [negb]. rewrite <- app_assoc. auto.
Qed.

Lemma rounds_10 : rounds 10 = Some 10%nat.
Proof. reflexivity. Qed.

Lemma playerLoop_total (ls : list Laser) :
  forall st w, exists st' w', forEach ls laserVsPlayer st w = Some (st', w').
Proof.
  intros st w.
  destruct (forEach_total (fun _ => True) laserVsPlayer ls) with (s := st) (w := w)
    as (st' & w' & H & _); [|exact I|eauto].
  intros l [[p acc] g] w0 _ _. unfold laserVsPlayer.
  destruct (negb (Laser.isPlayerLaser l) && checkCollision l p).
  - destruct (createExplosion_total (GameObject.position l) 10 "#ff4136" 3 g w0)
      as (g1 & w1 & E); [unfold countable; rewrite rounds_10; discriminate|].
    unfold bind. rewrite E. unfold ret. eauto.
  - unfold ret. eauto.
Qed.

Lemma playerLaser_not_wound (player : Player) (l : Laser) :
  Laser.isPlayerLaser l = true -> negb (wound player l) = true.
Proof. unfold wound. now intros ->. Qed.

(** C10. Faction immunity.  In the lasers-vs-enemies sweep the enemy lasers
    are all still there afterwards, and the enemies that are kept and the
    score are what the sweep of the player lasers alone gives.  In the
    lasers-vs-player loop the player lasers are all kept, and the player's
    health goes down by 10 for each enemy laser that overlaps the player and
    by nothing else. *)
Theorem faction_immunity (g : Game) (w : World) (player : Player) :
  Forall (fun e : Enemy => countable (GameObject.radius e)) (enemiesRef g) ->
  (exists g' w',
     handleCollisions g w = Some (g', w') /\
     filter enemyLaser (lasersRef g') = filter enemyLaser (lasersRef g) /\
     let outcome :=
       fst (laserSweep (enemiesRef g) (filter Laser.isPlayerLaser (lasersRef g))) in
     Forall2 (shotDown (filter Laser.isPlayerLaser (lasersRef g))) (enemiesRef g) outcome /\
     enemiesRef g' = survivors outcome /\
     score g' = award (score g) (destroyed outcome)) /\
  (exists player' playerLasers g' w',
     forEach (lasersRef g) laserVsPlayer (player, [], g) w
       = Some ((player', playerLasers, g'), w') /\
     filter Laser.isPlayerLaser playerLasers = filter Laser.isPlayerLaser (lasersRef g) /\
     let n := List.length (filter (fun l => enemyLaser l && checkCollision l player)
                                  (lasersRef g)) in
     Player.health player' = Nat.iter n (fun h => h - 10) (Player.health player)).
Proof.
  intros Hc. split.
  - destruct (handleCollisions_total g w Hc) as (g' & w' & H).
    exists g', w'. split; [exact H|].
    apply handleCollisions_spec in H. cbn zeta in *.
    destruct H as (He & Hsc & Hl & _).
    rewrite Hl, laserSweep_enemyLasers, laserSweep_playerLasers.
    repeat split; auto.
    rewrite <- (laserSweep_playerLasers (enemiesRef g)).
    apply laserSweep_shotDown. auto.
  - destruct (playerLoop_total (lasersRef g) (player, [], g) w)
      as ([[player' playerLasers] g'] & w' & H).
    exists player', playerLasers, g', w'. split; [exact H|].
    apply playerLoop_spec in H. cbn zeta in H. destruct H as (-> & -> & _).
    cbn [app]. split; [apply filter_filter_implied, playerLaser_not_wound|reflexivity].
Qed.

(** ** The random stream is read, never written *)

Lemma steady_ret {A} (a : A) : steady (ret a).
Proof. intros w b w' H. apply ret_Some in H. now destruct H as [_ <-]. Qed.

Lemma steady_bind {A B} (c : M A) (k : A -> M B) :
  steady c -> (forall a, steady (k a)) -> steady (bind c k).
Proof.
  intros Hc Hk w b w' H. apply bind_Some in H. destruct H as (a & w1 & H1 & H2).
  rewrite (Hk _ _ _ _ H2). eauto.
Qed.

Lemma steady_Math_random : steady Math_random.
Proof. intros w a w' H. unfold Math_random in H. now injection H as <- <-. Qed.

Lemma steady_DateNow : steady DateNow.
Proof. intros w a w' H. unfold DateNow in H. now injection H as <- <-. Qed.

Lemma steady_performanceNow : steady performanceNow.
Proof. intros w a w' H. unfold performanceNow in H. now injection H as <- <-. Qed.

Lemma steady_playSound s v : steady (playSound s v).
Proof. intros w a w' H. unfold playSound in H. now injection H as <- <-. Qed.

Lemma steady_diverge {A} : steady (@diverge A).
Proof. intros w a w' H. discriminate. Qed.

Lemma steady_times {S} (n : nat) (body : S -> M S) :
  (forall s, steady (body s)) -> forall s, steady (times n body s).
Proof.
  intros Hb. induction n as [|n IH]; intros s; cbn.
  - apply steady_ret.
  - apply steady_bind; auto.
Qed.

Lemma steady_forEach {A S} (l : list A) (body : A -> S -> M S) :
  (forall a s, steady (body a s)) -> forall s, steady (forEach l body s).
Proof.
  intros Hb. induction l as [|a l IH]; intros s; cbn.
  - apply steady_ret.
  - apply steady_bind; auto.
Qed.

Lemma steady_for_count {S} (count : float) (body : S -> M S) :
  (forall s, steady (body s)) -> forall s, steady (for_count count body s).
Proof.
  intros Hb s. unfold for_count. destruct (rounds count).
  - now apply steady_times.
  - apply steady_diverge.
Qed.

Lemma steady_if {A} (b : bool) (c1 c2 : M A) :
  steady c1 -> steady c2 -> steady (if b then c1 else c2).
Proof. now destruct b. Qed.

Ltac steady_step :=
  match goal with
  | |- forall _, _ => intro
  | |- steady (ret _) => apply steady_ret
  | |- steady Math_random => apply steady_Math_random
  | |- steady DateNow => apply steady_DateNow
  | |- steady performanceNow => apply steady_performanceNow
  | |- steady (playSound _ _) => apply steady_playSound
  | |- steady diverge => apply steady_diverge
  | |- steady (bind _ _) => apply steady_bind
  | |- steady (times _ _ _) => apply steady_times
  | |- steady (forEach _ _ _) => apply steady_forEach
  | |- steady (for_count _ _ _) => apply steady_for_count
  | |- steady (if _ then _ else _) => apply steady_if
  | |- steady (match ?x with _ => _ end) => destruct x
  end.

Ltac steady_tac := repeat steady_step.

Lemma steady_randomBetween a b : steady (randomBetween a b).
Proof. unfold randomBetween. steady_tac. Qed.

Lemma steady_createExplosion p c col sz g : steady (createExplosion p c col sz g).
Proof. unfold createExplosion, explosionParticle, randomBetween. steady_tac. Qed.

Section SteadyApp.
Variable math : JSMath.

Lemma steady_handlePlayerControls keys dt g : steady (handlePlayerControls math keys dt g).
Proof.
  unfold handlePlayerControls, thrust, shoot, thrusterParticle, randomBetween. steady_tac.
Qed.

Lemma steady_updatePlayer keys dt g : steady (updatePlayer math keys dt g).
Proof.
  unfold updatePlayer. steady_tac. apply steady_handlePlayerControls.
Qed.

Lemma steady_updateEnemies g : steady (updateEnemies g).
Proof. unfold updateEnemies, updateEnemy. steady_tac. Qed.

Lemma steady_spawnEnemies g : steady (spawnEnemies g).
Proof. unfold spawnEnemies, spawnEnemy, spawnPosition, randomBetween. steady_tac. Qed.

Lemma steady_enemyAI g : steady (enemyAI math g).
Proof. unfold enemyAI, enemyShoot. steady_tac. Qed.

Lemma steady_handleCollisions g : steady (handleCollisions g).
Proof.
  unfold handleCollisions, collideEnemy, laserVsEnemy. steady_tac;
    apply steady_createExplosion.
Qed.

Lemma steady_playerVsEnemies es player g : steady (playerVsEnemies es player g).
Proof.
  induction es as [|e es IH]; cbn [playerVsEnemies]; steady_tac;
    try apply steady_createExplosion. apply IH.
Qed.

Lemma steady_playerCollisions g : steady (playerCollisions g).
Proof.
  unfold playerCollisions, playerDeath, laserVsPlayer. steady_tac;
    try apply steady_createExplosion; apply steady_playerVsEnemies.
Qed.

End SteadyApp.

(** ** Computations that return *)

Lemma total_ret {A} (a : A) : total (ret a).
Proof. intros w. unfold ret. eauto. Qed.

Lemma total_bind {A B} (c : M A) (k : A -> M B) :
  total c -> (forall a, total (k a)) -> total (bind c k).
Proof.
  intros Hc Hk w. destruct (Hc w) as (a & w1 & E). unfold bind. rewrite E. apply Hk.
Qed.

Lemma total_Math_random : total Math_random.
Proof. intros w. unfold Math_random. eauto. Qed.

Lemma total_DateNow : total DateNow.
Proof. intros w. unfold DateNow. eauto. Qed.

Lemma total_performanceNow : total performanceNow.
Proof. intros w. unfold performanceNow. eauto. Qed.

Lemma total_playSound s v : total (playSound s v).
Proof. intros w. unfold playSound. eauto. Qed.

Lemma total_times {S} (n : nat) (body : S -> M S) :
  (forall s, total (body s)) -> forall s, total (times n body s).
Proof.
  intros Hb. induction n as [|n IH]; intros s; cbn.
  - apply total_ret.
  - apply total_bind; auto.
Qed.

Lemma total_forEach {A S} (l : list A) (body : A -> S -> M S) :
  (forall a s, In a l -> total (body a s)) -> forall s, total (forEach l body s).
Proof.
  induction l as [|a l IH]; intros Hb s; cbn.
  - apply total_ret.
  - apply total_bind; [apply Hb; now left|]. intros s'. apply IH. intros a0 s0 Hin.
    apply Hb. now right.
Qed.

Lemma total_if {A} (b : bool) (c1 c2 : M A) :
  total c1 -> total c2 -> total (if b then c1 else c2).
Proof. now destruct b. Qed.

Ltac total_step :=
  match goal with
  | |- forall _, _ => intro
  | |- total (ret _) => apply total_ret
  | |- total Math_random => apply total_Math_random
  | |- total DateNow => apply total_DateNow
  | |- total performanceNow => apply total_performanceNow
  | |- total (playSound _ _) => apply total_playSound
  | |- total (bind _ _) => apply total_bind
  | |- total (times _ _ _) => apply total_times
  | |- total (if _ then _ else _) => apply total_if
  | |- total (match ?x with _ => _ end) => destruct x
  end.

Ltac total_tac := repeat total_step.

Lemma total_randomBetween a b : total (randomBetween a b).
Proof. unfold randomBetween. total_tac. Qed.

Lemma total_createExplosion p c col sz g :
  countable c -> total (createExplosion p c col sz g).
Proof. intros Hc w. now apply createExplosion_total. Qed.

Lemma Math_random_inv w a w' :
  Math_random w = Some (a, w') -> a = random w (drawn w) /\ random w' = random w.
Proof. unfold Math_random. intros H. now injection H as <- <-. Qed.

Lemma playSound_inv s v w u w' : playSound s v w = Some (u, w') -> random w' = random w.
Proof. unfold playSound. intros H. now injection H as _ <-. Qed.

(** ** What each part of a frame changes *)

Ltac minv :=
  repeat match goal with
         | H : bind _ _ _ = Some _ |- _ =>
             let H1 := fresh "H" in
             apply bind_Some in H; destruct H as (? & ? & H1 & H)
         | H : ret _ _ = Some _ |- _ => apply ret_Some in H; destruct H as [? ?]; subst
         | H : Math_random _ = Some _ |- _ =>
             apply Math_random_inv in H; destruct H as [? ?]; subst
         | H : DateNow _ = Some _ |- _ => unfold DateNow in H; injection H as ? ?; subst
         | H : performanceNow _ = Some _ |- _ =>
             unfold performanceNow in H; injection H as ? ?; subst
         | H : playSound _ _ _ = Some _ |- _ => apply playSound_inv in H
         | H : randomBetween _ _ _ = Some _ |- _ => unfold randomBetween in H
         | H : (_, _) = (_, _) |- _ => injection H as ? ?; subst
         end.

Section Parts.
Variable math : JSMath.

Lemma thrust_spec player g w p1 g1 w1 :
  thrust math player g w = Some ((p1, g1), w1) ->
  gameStatus g1 = gameStatus g /\ score g1 = score g /\ enemiesRef g1 = enemiesRef g /\
  dimensions g1 = dimensions g /\ timeouts g1 = timeouts g /\ lasersRef g1 = lasersRef g /\
  lastShotTimeRef g1 = lastShotTimeRef g /\ playerRef g1 = playerRef g /\
  Player.health p1 = Player.health player /\ GameObject.radius p1 = GameObject.radius player /\
  exists ts, particlesRef g1 = particlesRef g ++ ts /\ Forall exhaust ts.
Proof.
  unfold thrust. cbn [times]. unfold thrusterParticle. intros H. minv.
  repeat split. eexists [_; _]. cbn [particlesRef set_particlesRef].
  rewrite <- app_assoc. split; [reflexivity|]. repeat constructor.
Qed.

Lemma shoot_spec player g w g' w' :
  shoot math player g w = Some (g', w') ->
  gameStatus g' = gameStatus g /\ score g' = score g /\ enemiesRef g' = enemiesRef g /\
  dimensions g' = dimensions g /\ timeouts g' = timeouts g /\
  particlesRef g' = particlesRef g /\ playerRef g' = playerRef g /\
  exists shots, lasersRef g' = lasersRef g ++ shots /\
                Forall (fun l => Laser.isPlayerLaser l = true) shots.
Proof.
  unfold shoot. intros H. minv. destruct (PLAYER_SHOOT_COOLDOWN <? _); minv.
  - repeat split. eexists [_]. split; [reflexivity|]. repeat constructor.
  - repeat split. exists []. now rewrite app_nil_r.
Qed.

Lemma steer_spec keys (p : Player) :
  let p2 := if has keys "ArrowLeft" || has keys "KeyA"
            then Player.set_rotation p (Player.rotation p - PLAYER_TURN_SPEED) else p in
  let p3 := if has keys "ArrowRight" || has keys "KeyD"
            then Player.set_rotation p2 (Player.rotation p2 + PLAYER_TURN_SPEED) else p2 in
  Player.health (friction (clampSpeed p3)) = Player.health p /\
  GameObject.radius (friction (clampSpeed p3)) = GameObject.radius p.
Proof.
  intros p2 p3. unfold friction, clampSpeed. subst p3 p2.
  destruct (PLAYER_MAX_SPEED <? _), (has keys "ArrowLeft" || has keys "KeyA"),
    (has keys "ArrowRight" || has keys "KeyD"); split; reflexivity.
Qed.

Lemma handlePlayerControls_spec keys dt g w g' w' :
  handlePlayerControls math keys dt g w = Some (g', w') ->
  gameStatus g' = gameStatus g /\ score g' = score g /\ enemiesRef g' = enemiesRef g /\
  dimensions g' = dimensions g /\ timeouts g' = timeouts g /\
  (playerRef g = None -> g' = g /\ w' = w) /\
  (forall p, playerRef g = Some p ->
     exists p', playerRef g' = Some p' /\ Player.health p' = Player.health p /\
                GameObject.radius p' = GameObject.radius p) /\
  (exists ts, particlesRef g' = particlesRef g ++ ts /\ Forall exhaust ts) /\
  (exists shots, lasersRef g' = lasersRef g ++ shots /\
                 Forall (fun l => Laser.isPlayerLaser l = true) shots).
Proof.
  unfold handlePlayerControls. destruct (playerRef g) as [player|] eqn:Ep; intros H.
  2:{ minv. repeat split; try discriminate.
      - exists []. now rewrite app_nil_r.
      - exists []. now rewrite app_nil_r. }
  apply bind_Some in H. destruct H as ([p1 g1] & w1 & H1 & H).
  assert (Hthrust :
    gameStatus g1 = gameStatus g /\ score g1 = score g /\ enemiesRef g1 = enemiesRef g /\
    dimensions g1 = dimensions g /\ timeouts g1 = timeouts g /\ lasersRef g1 = lasersRef g /\
    lastShotTimeRef g1 = lastShotTimeRef g /\ playerRef g1 = playerRef g /\
    Player.health p1 = Player.health player /\ GameObject.radius p1 = GameObject.radius player /\
    exists ts, particlesRef g1 = particlesRef g ++ ts /\ Forall exhaust ts).
  { destruct (has keys "ArrowUp" || has keys "KeyW").
    - now apply thrust_spec in H1.
    - apply ret_Some in H1. destruct H1 as [H1 _]. injection H1 as <- <-.
      repeat split. exists []. now rewrite app_nil_r. }
  clear H1. destruct Hthrust as (A & B & C & D & E & F & G & Hpl & Hh & Hr & Hts).
  pose proof (steer_spec keys p1) as Hp. cbv zeta in Hp, H.
  set (p4 := friction (clampSpeed _)) in *. clearbody p4.
  rewrite Hh, Hr in Hp.
  assert (Hplayer : forall p, Some player = Some p ->
            exists p', Some p4 = Some p' /\ Player.health p' = Player.health p /\
                       GameObject.radius p' = GameObject.radius p).
  { intros p Hpe. injection Hpe as <-. exists p4. auto. }
  destruct (has keys "Space").
  - apply shoot_spec in H. cbn [gameStatus score enemiesRef dimensions timeouts particlesRef
                                playerRef lasersRef set_playerRef] in H.
    destruct H as (A' & B' & C' & D' & E' & P' & Q' & (shots & L' & Hs)).
    rewrite Q', P'.
    repeat split; try congruence; try discriminate; try exact Hplayer; try exact Hts.
    exists shots. rewrite L', F. auto.
  - apply ret_Some in H. destruct H as [<- <-].
    cbn [gameStatus score enemiesRef dimensions timeouts particlesRef
         playerRef lasersRef set_playerRef].
    repeat split; try congruence; try discriminate; try exact Hplayer; try exact Hts.
    exists []. rewrite app_nil_r. auto.
Qed.

Lemma total_handlePlayerControls keys dt g : total (handlePlayerControls math keys dt g).
Proof.
  unfold handlePlayerControls, thrust, shoot, thrusterParticle, randomBetween. total_tac.
Qed.

Lemma updatePlayer_spec keys dt g w g' w' :
  updatePlayer math keys dt g w = Some (g', w') ->
  gameStatus g' = gameStatus g /\ score g' = score g /\ enemiesRef g' = enemiesRef g /\
  dimensions g' = dimensions g /\ timeouts g' = timeouts g /\
  (playerRef g = None -> g' = g /\ w' = w) /\
  (forall p, playerRef g = Some p ->
     exists p', playerRef g' = Some p' /\ Player.health p' = Player.health p /\
                GameObject.radius p' = GameObject.radius p) /\
  (exists ts, particlesRef g' = particlesRef g ++ ts /\ Forall exhaust ts) /\
  (exists shots, lasersRef g' = lasersRef g ++ shots /\
                 Forall (fun l => Laser.isPlayerLaser l = true) shots).
Proof.
  unfold updatePlayer. destruct (playerRef g) as [player|] eqn:Ep; intros H.
  2:{ minv. repeat split; try discriminate.
      - exists []. now rewrite app_nil_r.
      - exists []. now rewrite app_nil_r. }
  apply bind_Some in H. destruct H as (g1 & w1 & H1 & H).
  apply ret_Some in H. destruct H as [<- <-].
  apply handlePlayerControls_spec in H1.
  destruct H1 as (A & B & C & D & E & _ & Hp & Hts & Hshots).
  cbn [gameStatus score enemiesRef dimensions timeouts particlesRef playerRef lasersRef
       set_playerRef].
  repeat split; try assumption; try discriminate.
  intros p Hpe. rewrite Ep in Hp. destruct (Hp p Hpe) as (p' & -> & Hh & Hr).
  eexists. split; [reflexivity|]. cbn. auto.
Qed.

Lemma total_updatePlayer keys dt g : total (updatePlayer math keys dt g).
Proof. unfold updatePlayer. total_tac. apply total_handlePlayerControls. Qed.

Lemma updateEnemy_drifted dim e w e' w' :
  updateEnemy dim e w = Some (e', w') -> drifted dim e e'.
Proof.
  unfold updateEnemy. cbn [Enemy.type Enemy.set_obj].
  destruct (Enemy.type e) eqn:Et; intros H; minv; repeat split; auto.
Qed.

Lemma updateEnemies_loop dim (es : list Enemy) :
  forall acc w acc' w',
  forEach es (fun e acc => e' <- updateEnemy dim e ;; ret (acc ++ [e'])) acc w
    = Some (acc', w') ->
  exists es', acc' = acc ++ es' /\ Forall2 (drifted dim) es es'.
Proof.
  induction es as [|e es IH]; intros acc w acc' w' H; cbn [forEach] in H.
  - minv. exists []. rewrite app_nil_r. auto.
  - apply bind_Some in H. destruct H as (acc1 & w1 & H1 & H).
    apply bind_Some in H1. destruct H1 as (e' & w2 & He & H1).
    apply ret_Some in H1. destruct H1 as [<- <-].
    apply IH in H. destruct H as (es' & -> & HF).
    exists (e' :: es'). rewrite <- app_assoc. split; [reflexivity|].
    constructor; [|exact HF]. eapply updateEnemy_drifted; eauto.
Qed.

Lemma updateEnemies_spec g w g' w' :
  updateEnemies g w = Some (g', w') ->
  exists es', g' = set_enemiesRef g es' /\ Forall2 (drifted (dimensions g)) (enemiesRef g) es'.
Proof.
  unfold updateEnemies. intros H.
  apply bind_Some in H. destruct H as (es' & w1 & H1 & H).
  apply ret_Some in H. destruct H as [<- <-].
  apply updateEnemies_loop in H1. destruct H1 as (es'' & -> & HF). eauto.
Qed.

Lemma total_updateEnemies g : total (updateEnemies g).
Proof.
  unfold updateEnemies. apply total_bind; [|intros; apply total_ret].
  apply total_forEach. intros e acc _. unfold updateEnemy. total_tac.
Qed.

(** The spawner adds at most one enemy, at the end of the list, and only when
    its test holds. *)
Lemma spawnEnemy_spec g w g' w' :
  spawnEnemy g w = Some (g', w') ->
  exists e, g' = set_enemiesRef g (enemiesRef g ++ [e]) /\
            (GameObject.radius e = 60 \/ GameObject.radius e = 20 \/
             exists n, GameObject.radius e = random w n * (40 - 15) + 15).
Proof.
  unfold spawnEnemy. intros H.
  apply bind_Some in H. destruct H as (typeRoll & w1 & H1 & H).
  apply bind_Some in H. destruct H as (radius & w2 & H2 & H).
  apply Math_random_inv in H1. destruct H1 as [_ R1].
  unfold randomBetween in H2. apply bind_Some in H2. destruct H2 as (u & w3 & H2 & H3).
  apply Math_random_inv in H2. destruct H2 as [-> R2].
  apply ret_Some in H3. destruct H3 as [<- <-].
  destruct (if (1000 <? score g) && (0.95 <? typeRoll) then _ else _) as [[ty rad] hp] eqn:E.
  assert (Hrad : rad = 60 \/ rad = 20 \/ exists n, rad = random w n * (40 - 15) + 15).
  { destruct ((1000 <? score g) && (0.95 <? typeRoll)); [injection E as _ <- _; auto|].
    destruct ((200 <? score g) && (0.7 <? typeRoll)); injection E as _ <- _; auto.
    right. right. exists (drawn w1). now rewrite R1. }
  clear E. unfold spawnPosition in H.
  minv. destruct (_ =? 0); [|destruct (_ =? 1); [|destruct (_ =? 2)]]; minv;
    eexists; (split; [reflexivity|exact Hrad]).
Qed.

Lemma spawnEnemies_spec g w g' w' :
  spawnEnemies g w = Some (g', w') ->
  ((length_number (enemiesRef g) <? spawnCap g) = false /\ g' = g /\ w' = w) \/
  ((length_number (enemiesRef g) <? spawnCap g) = true /\
   exists e, g' = set_enemiesRef g (enemiesRef g ++ [e]) /\
             (GameObject.radius e = 60 \/ GameObject.radius e = 20 \/
              exists n, GameObject.radius e = random w n * (40 - 15) + 15)).
Proof.
  unfold spawnEnemies. destruct (length_number (enemiesRef g) <? spawnCap g); intros H.
  - right. split; [reflexivity|]. now apply spawnEnemy_spec in H.
  - left. minv. auto.
Qed.

Lemma total_spawnEnemies g : total (spawnEnemies g).
Proof.
  unfold spawnEnemies, spawnEnemy, spawnPosition, randomBetween. total_tac.
Qed.

Lemma enemyShoot_spec e g w g' w' :
  enemyShoot math e g w = Some (g', w') ->
  (playerRef g = None -> g' = g) /\
  exists shots, g' = set_lasersRef g (lasersRef g ++ shots) /\ Forall (firedBy [e]) shots.
Proof.
  assert (Hsame : g = set_lasersRef g (lasersRef g ++ [])).
  { destruct g; cbn. now rewrite app_nil_r. }
  unfold enemyShoot.
  destruct (Enemy.type e) eqn:Et; intros H; minv; try (split; [reflexivity|exists []; auto]).
  - destruct (if _ <? 0.01 then playerRef g else None) as [player|] eqn:Ep.
    + minv. split.
      * intros Hn. rewrite Hn in Ep. now destruct (_ <? 0.01).
      * eexists [_]. split; [reflexivity|]. repeat constructor. exists e. cbn. auto.
    + minv. split; [reflexivity|exists []; auto].
  - destruct (if _ <? 0.01 then playerRef g else None) as [player|] eqn:Ep.
    + minv. split.
      * intros Hn. rewrite Hn in Ep. now destruct (_ <? 0.01).
      * eexists [_]. split; [reflexivity|]. repeat constructor. exists e. cbn. auto.
    + minv. split; [reflexivity|exists []; auto].
Qed.

Lemma firedBy_incl es es' l : incl es es' -> firedBy es l -> firedBy es' l.
Proof. intros Hi (Hp & e & Hin & He). split; [exact Hp|]. exists e. auto. Qed.

Lemma enemyAI_loop (es : list Enemy) :
  forall g w g' w',
  forEach es (enemyShoot math) g w = Some (g', w') ->
  (playerRef g = None -> g' = g) /\
  exists shots, g' = set_lasersRef g (lasersRef g ++ shots) /\ Forall (firedBy es) shots.
Proof.
  induction es as [|e es IH]; intros g w g' w' H; cbn [forEach] in H.
  - minv. split; [reflexivity|]. exists []. split; [|constructor].
    destruct g'; cbn. now rewrite app_nil_r.
  - apply bind_Some in H. destruct H as (g1 & w1 & H1 & H).
    apply enemyShoot_spec in H1. apply IH in H.
    destruct H1 as (N1 & s1 & -> & F1). destruct H as (N2 & s2 & -> & F2). split.
    + intros Hn. rewrite N2; [apply N1; exact Hn|]. cbn. exact Hn.
    + exists (s1 ++ s2). cbn. rewrite app_assoc. split; [reflexivity|].
      apply Forall_app. split.
      * eapply Forall_impl; [|exact F1]. intros l. apply firedBy_incl.
        intros x [<-|[]]. now left.
      * eapply Forall_impl; [|exact F2]. intros l. apply firedBy_incl.
        intros x Hx. now right.
Qed.

Lemma enemyAI_spec g w g' w' :
  enemyAI math g w = Some (g', w') ->
  (playerRef g = None -> g' = g) /\
  exists shots, g' = set_lasersRef g (lasersRef g ++ shots) /\
                Forall (firedBy (enemiesRef g)) shots.
Proof. unfold enemyAI. apply enemyAI_loop. Qed.

Lemma total_enemyAI g : total (enemyAI math g).
Proof.
  unfold enemyAI. apply total_forEach. intros e s _. unfold enemyShoot. total_tac.
Qed.

Lemma playerVsEnemies_spec (es : list Enemy) :
  forall player g w player' g' w',
  playerVsEnemies es player g w = Some ((player', g'), w') ->
  (player' = player /\ g' = g /\ w' = w) \/
  (exists enemy, In enemy es /\ checkCollision player enemy = true /\
     player' = Player.set_health player (Player.health player - 20) /\
     sparks (set_enemiesRef g
               (filter (fun e : Enemy =>
                          negb (ident_eqb (GameObject.id e) (GameObject.id enemy)))
                       (enemiesRef g))) g').
Proof.
  induction es as [|e es IH]; intros player g w player' g' w' H; cbn [playerVsEnemies] in H.
  - minv. auto.
  - destruct (checkCollision player e) eqn:E.
    + right. exists e. apply bind_Some in H. destruct H as (g1 & w1 & He & H).
      apply ret_Some in H. destruct H as [H _]. injection H as <- <-.
      apply createExplosion_sparks in He. destruct He as (ps & -> & Hps).
      repeat split; auto; [now left|]. exists ps. auto.
    + apply IH in H. destruct H as [H|(enemy & Hin & H)]; [now left|].
      right. exists enemy. split; [now right|exact H].
Qed.

Lemma playerCollisions_spec g w g' w' :
  playerCollisions g w = Some (g', w') ->
  (playerRef g = None -> g' = g /\ w' = w) /\
  gameStatus g' = gameStatus g /\ score g' = score g /\ dimensions g' = dimensions g /\
  incl (enemiesRef g') (enemiesRef g) /\
  (List.length (enemiesRef g') <= List.length (enemiesRef g))%nat /\
  incl (lasersRef g') (lasersRef g) /\
  (exists ps, particlesRef g' = particlesRef g ++ ps /\ Forall burst ps) /\
  (forall p', playerRef g' = Some p' -> (Player.health p' <=? 0) = false) /\
  (playerRef g <> None -> playerRef g' = None ->
   timeouts g' = timeouts g ++ [(1000, GameOver)]) /\
  (playerRef g' <> None -> timeouts g' = timeouts g).
Proof.
  unfold playerCollisions. destruct (playerRef g) as [player|] eqn:Ep; intros H.
  2:{ minv. rewrite Ep. repeat split; try congruence; auto using incl_refl.
      exists []. now rewrite app_nil_r. }
  apply bind_Some in H. destruct H as ([p1 g1] & w1 & H1 & H).
  apply bind_Some in H. destruct H as ([[p2 ls2] g2] & w2 & H2 & H).
  apply playerVsEnemies_spec in H1. apply playerLoop_spec in H2. cbn zeta in H2.
  destruct H2 as (Hp2 & Hls2 & (qs & -> & Hqs)). cbn [app] in Hls2.
  assert (Hg1 : gameStatus g1 = gameStatus g /\ score g1 = score g /\
                dimensions g1 = dimensions g /\ timeouts g1 = timeouts g /\
                lasersRef g1 = lasersRef g /\
                incl (enemiesRef g1) (enemiesRef g) /\
                (List.length (enemiesRef g1) <= List.length (enemiesRef g))%nat /\
                exists ps, particlesRef g1 = particlesRef g ++ ps /\ Forall burst ps).
  { destruct H1 as [(_ & -> & _)|(enemy & _ & _ & _ & (ps & -> & Hps))].
    - repeat split; auto using incl_refl. exists []. now rewrite app_nil_r.
    - cbn. repeat split; eauto using incl_filter, filter_length_le. }
  clear H1. destruct Hg1 as (A & B & C & D & E & F & G & (ps & P & Hps)).
  unfold playerDeath in H. destruct (Player.health p2 <=? 0) eqn:Eh.
  - apply bind_Some in H. destruct H as ([] & w3 & _ & H).
    apply bind_Some in H. destruct H as (g3 & w4 & He & H).
    apply ret_Some in H. destruct H as [<- _].
    apply createExplosion_sparks in He. destruct He as (rs & -> & Hrs).
    cbn. rewrite Hls2, P, D.
    repeat split; try congruence; auto using incl_filter;
      try (rewrite <- E; apply incl_filter).
    exists (ps ++ qs ++ rs). rewrite <- !app_assoc. split; [reflexivity|].
    repeat (apply Forall_app; split); auto.
  - apply ret_Some in H. destruct H as [<- _].
    cbn. rewrite Hls2, P, D.
    repeat split; try congruence; auto using incl_filter;
      try (rewrite <- E; apply incl_filter); try discriminate.
    exists (ps ++ qs). rewrite <- !app_assoc. split; [reflexivity|].
    repeat (apply Forall_app; split); auto.
Qed.

Lemma total_playerVsEnemies (es : list Enemy) player g :
  Forall (fun e : Enemy => countable (GameObject.radius e)) es ->
  total (playerVsEnemies es player g).
Proof.
  induction es as [|e es IH]; intros Hc; cbn [playerVsEnemies]; [apply total_ret|].
  inversion Hc as [|? ? Hce Hces]; subst.
  apply total_if; [|auto]. apply total_bind; [now apply total_createExplosion|].
  intros; apply total_ret.
Qed.

Lemma total_playerCollisions g :
  Forall (fun e : Enemy => countable (GameObject.radius e)) (enemiesRef g) ->
  total (playerCollisions g).
Proof.
  intros Hc. unfold playerCollisions. destruct (playerRef g); [|apply total_ret].
  apply total_bind; [now apply total_playerVsEnemies|]. intros [p1 g1].
  apply total_bind; [intros w; apply playerLoop_total|]. intros [[p2 ls2] g2].
  unfold playerDeath. total_tac. apply total_createExplosion.
  unfold countable. discriminate.
Qed.

End Parts.

(** ** A whole frame *)

Lemma incl_laserSweep (es : list Enemy) : forall ls, incl (snd (laserSweep es ls)) ls.
Proof.
  induction es as [|e es IH]; intros ls; cbn [laserSweep snd]; [apply incl_refl|].
  eapply incl_tran; [apply IH|apply incl_filter].
Qed.

Lemma length_survivors (outcome : list (Enemy * bool)) :
  (List.length (survivors outcome) <= List.length outcome)%nat.
Proof. unfold survivors. rewrite length_map. apply filter_length_le. Qed.

Lemma length_laserSweep (es : list Enemy) :
  forall ls, List.length (fst (laserSweep es ls)) = List.length es.
Proof. induction es as [|e es IH]; intros ls; cbn [laserSweep fst List.length]; auto. Qed.

Section Frame.
Variable math : JSMath.

Lemma updateAndDraw_spec keys dt g w g' w' :
  updateAndDraw math keys dt g w = Some (g', w') ->
  let dim := dimensions g in
  gameStatus g' = gameStatus g /\ dimensions g' = dim /\
  (exists ts bs,
     Forall exhaust ts /\ Forall burst bs /\
     particlesRef g' = map (ageParticle dim dt) (filter alive (particlesRef g ++ ts)) ++ bs) /\
  (exists shots es new eshots,
     Forall (fun l => Laser.isPlayerLaser l = true) shots /\
     Forall2 (drifted dim) (enemiesRef g) es /\ (List.length new <= 1)%nat /\
     Forall (firedBy (es ++ new)) eshots /\
     incl (lasersRef g')
          (map (moveLaser dim) (filter (inViewport dim) (lasersRef g ++ shots)) ++ eshots) /\
     (playerRef g = None -> shots = [] /\ eshots = [])) /\
  (List.length (enemiesRef g') <= List.length (enemiesRef g) + 1)%nat /\
  (playerRef g = None -> playerRef g' = None) /\
  (forall p', playerRef g' = Some p' -> (Player.health p' <=? 0) = false) /\
  (playerRef g <> None -> playerRef g' = None ->
   timeouts g' = timeouts g ++ [(1000, GameOver)]) /\
  (playerRef g' <> None \/ playerRef g = None -> timeouts g' = timeouts g).
Proof.
  unfold updateAndDraw. intros H.
  apply bind_Some in H. destruct H as (g1 & w1 & H1 & H).
  apply bind_Some in H. destruct H as (g4 & w4 & H4 & H).
  apply bind_Some in H. destruct H as (g5 & w5 & H5 & H).
  apply bind_Some in H. destruct H as (g6 & w6 & H6 & H).
  apply bind_Some in H. destruct H as (g7 & w7 & H7 & H8).
  apply updatePlayer_spec in H1.
  destruct H1 as (A1 & B1 & C1 & D1 & E1 & N1 & P1 & (ts & T1 & Hts) & (shots & L1 & Hshots)).
  apply updateEnemies_spec in H4. destruct H4 as (es4 & -> & F4).
  apply spawnEnemies_spec in H5.
  assert (S5 : exists new, g5 = set_enemiesRef
                 (updateParticles dt (updateLasers g1)) (es4 ++ new) /\
               (List.length new <= 1)%nat).
  { destruct H5 as [(_ & -> & _)|(_ & e & -> & _)].
    - exists []. rewrite app_nil_r. auto.
    - exists [e]. auto. }
  clear H5. destruct S5 as (new & -> & Hnew).
  apply enemyAI_spec in H6. destruct H6 as (N6 & eshots & -> & F6).
  apply handleCollisions_spec in H7. cbn zeta in H7.
  destruct H7 as (En7 & Sc7 & L7 & A7 & B7 & D7 & E7 & _ & (bs7 & P7 & Hbs7)).
  apply playerCollisions_spec in H8.
  destruct H8 as (N8 & A8 & B8 & D8 & En8 & Len8 & L8 & (bs8 & P8 & Hbs8) & Hh8 & T8 & T8').
  cbn [gameStatus dimensions timeouts particlesRef lasersRef playerRef enemiesRef
       set_lasersRef set_enemiesRef updateParticles updateLasers set_particlesRef] in *.
  rewrite D1 in *.
  repeat split.
  - congruence.
  - congruence.
  - exists ts, (bs7 ++ bs8). rewrite P8, P7, T1, <- app_assoc.
    repeat split; auto. apply Forall_app. auto.
  - exists shots, es4, new, eshots. split; [exact Hshots|].
    split; [now rewrite <- C1|]. split; [exact Hnew|]. split; [|split].
    + exact F6.
    + eapply incl_tran; [exact L8|]. rewrite L7, L1. apply incl_laserSweep.
    + intros Hn. destruct (N1 Hn) as [-> _]. split.
      * apply (f_equal (@List.length _)) in L1. rewrite length_app in L1.
        destruct shots; [reflexivity|cbn in L1; lia].
      * specialize (N6 Hn).
        apply (f_equal lasersRef) in N6. cbn in N6.
        apply (f_equal (@List.length _)) in N6. rewrite length_app in N6.
        destruct eshots; [reflexivity|cbn in N6; lia].
  - etransitivity; [exact Len8|]. rewrite En7.
    etransitivity; [apply length_survivors|]. rewrite length_laserSweep, length_app.
    apply Forall2_length in F4. rewrite C1 in F4. lia.
  - intros Hn. destruct (N1 Hn) as [-> _]. rewrite Hn in B7.
    destruct (N8 B7) as [-> _]. exact B7.
  - exact Hh8.
  - intros Hp Hn. rewrite T8, E7, E1; auto. rewrite B7.
    destruct (playerRef g) as [p|] eqn:Ep; [|congruence].
    destruct (P1 p eq_refl) as (p' & -> & _). discriminate.
  - intros [Hp|Hn].
    + rewrite T8', E7, E1; auto.
    + destruct (N1 Hn) as [-> _]. rewrite Hn in B7.
      destruct (N8 B7) as [-> _]. congruence.
Qed.

Lemma updateAndDraw_total keys dt g w :
  Forall (fun e : Enemy => countable (GameObject.radius e)) (enemiesRef g) ->
  unitInterval w ->
  exists g' w', updateAndDraw math keys dt g w = Some (g', w').
Proof.
  intros Hc Hr. unfold updateAndDraw.
  destruct (total_updatePlayer math keys dt g w) as (g1 & w1 & H1).
  unfold bind at 1. rewrite H1.
  pose proof (steady_updatePlayer _ _ _ _ _ _ _ H1) as R1.
  apply updatePlayer_spec in H1. destruct H1 as (_ & _ & C1 & D1 & _).
  destruct (total_updateEnemies (updateParticles dt (updateLasers g1)) w1) as (g4 & w4 & H4).
  unfold bind at 1. rewrite H4.
  pose proof (steady_updateEnemies _ _ _ _ H4) as R4.
  apply updateEnemies_spec in H4. destruct H4 as (es4 & -> & F4).
  destruct (total_spawnEnemies (set_enemiesRef (updateParticles dt (updateLasers g1)) es4) w4)
    as (g5 & w5 & H5).
  unfold bind at 1. rewrite H5.
  assert (Hc4 : Forall (fun e : Enemy => countable (GameObject.radius e)) es4).
  { cbn in F4. rewrite C1 in F4. clear - F4 Hc.
    induction F4 as [|e e' es es' He _ IH]; constructor.
    - inversion Hc; subst. destruct He as (-> & _). exact H1.
    - apply IH. now inversion Hc. }
  assert (Hc5 : Forall (fun e : Enemy => countable (GameObject.radius e)) (enemiesRef g5)).
  { apply spawnEnemies_spec in H5. destruct H5 as [(_ & -> & _)|(_ & e & -> & Hrad)].
    - exact Hc4.
    - cbn. apply Forall_app. split; [exact Hc4|]. constructor; [|constructor].
      destruct Hrad as [->|[->|(n & ->)]].
      + unfold countable. discriminate.
      + unfold countable. discriminate.
      + rewrite R4, R1. apply radius_countable; apply Hr. }
  clear H5.
  destruct (total_enemyAI math g5 w5) as (g6 & w6 & H6).
  unfold bind at 1. rewrite H6.
  apply enemyAI_spec in H6. destruct H6 as (_ & eshots & -> & _).
  destruct (handleCollisions_total (set_lasersRef g5 (lasersRef g5 ++ eshots)) w6 Hc5)
    as (g7 & w7 & H7).
  unfold bind at 1. rewrite H7.
  apply total_playerCollisions.
  apply handleCollisions_spec in H7. cbn zeta in H7. destruct H7 as (En7 & _).
  rewrite En7. cbn [enemiesRef set_lasersRef].
  pose proof (laserSweep_shotDown (enemiesRef g5) (lasersRef g5 ++ eshots)
                (lasersRef g5 ++ eshots) (fun _ => le_n _)) as HF.
  set (outcome := fst (laserSweep _ _)) in *. clearbody outcome.
  unfold survivors. clear - HF Hc5.
  induction HF as [|e o es os (n & _ & Ho & _) _ IH]; cbn; [constructor|].
  inversion Hc5; subst. destruct (negb (snd o)); cbn; auto.
  constructor; auto. rewrite Ho. exact H1.
Qed.

End Frame.

(** ** The spawn test in integers *)

Lemma ltb_Prim2SF (a b b' : float) : Prim2SF b = Prim2SF b' -> (a <? b) = (a <? b').
Proof. intros H. now rewrite !ltb_spec, H. Qed.

Lemma spawnCap_int (g : Game) (c : Z) :
  floorSF (Prim2SF (score g / 500)) = Some c -> (0 <= c)%Z -> (5 + c < 2 ^ 53)%Z ->
  Prim2SF (spawnCap g) = Prim2SF (Z2float (5 + c)).
Proof.
  intros Hf Hc Hb. unfold spawnCap, Math_floor.
  destruct (Prim2SF (score g / 500)) as [s|s| |s m e] eqn:E; cbn [floorSF] in Hf;
    try discriminate; injection Hf as <-.
  - rewrite add_spec, E. reflexivity.
  - change 5 with (Z2float 5). apply Z2float_add; lia.
Qed.

Lemma spawn_test (g : Game) (c : Z) :
  floorSF (Prim2SF (score g / 500)) = Some c -> (0 <= c)%Z -> (5 + c < 2 ^ 53)%Z ->
  (Z.of_nat (List.length (enemiesRef g)) < 2 ^ 53)%Z ->
  (length_number (enemiesRef g) <? spawnCap g)
  = (Z.of_nat (List.length (enemiesRef g)) <? 5 + c)%Z.
Proof.
  intros Hf Hc Hb Hn. rewrite (ltb_Prim2SF _ _ _ (spawnCap_int g c Hf Hc Hb)).
  unfold length_number. apply Z2float_ltb; lia.
Qed.

Section Claims.
Variable math : JSMath.

(** C5. The spawner, for a score whose five-hundredth has the integer floor
    [c] (with [5 + c] and the enemy count below [2^53], where doubles count
    exactly): it spawns exactly when the count is below [5 + c], one enemy at
    most; so a count that was within [5 + c] stays within it.  A whole frame
    adds one enemy at most. *)
Theorem spawnEnemies_cap (keys : list string) (dt : float) (g : Game) (w : World) (c : Z) :
  floorSF (Prim2SF (score g / 500)) = Some c -> (0 <= c)%Z -> (5 + c < 2 ^ 53)%Z ->
  (Z.of_nat (List.length (enemiesRef g)) < 2 ^ 53)%Z ->
  let count (g : Game) := Z.of_nat (List.length (enemiesRef g)) in
  (exists g' w',
     spawnEnemies g w = Some (g', w') /\
     score g' = score g /\
     (count g < 5 + c -> exists e, enemiesRef g' = enemiesRef g ++ [e])%Z /\
     (5 + c <= count g -> g' = g /\ w' = w)%Z /\
     (count g' <= Z.max (count g) (5 + c))%Z /\
     (count g <= 5 + c -> count g' <= 5 + c)%Z) /\
  (forall g' w',
     updateAndDraw math keys dt g w = Some (g', w') -> (count g' <= count g + 1)%Z).
Proof.
  intros Hf Hc Hb Hn count. split.
  - destruct (total_spawnEnemies g w) as (g' & w' & H). exists g', w'.
    split; [exact H|]. apply spawnEnemies_spec in H.
    rewrite (spawn_test g c Hf Hc Hb Hn) in H. subst count. cbv beta.
    destruct H as [(Ht & -> & ->)|(Ht & e & -> & _)].
    + apply Z.ltb_ge in Ht. repeat split; try lia.
    + apply Z.ltb_lt in Ht. cbn [score enemiesRef set_enemiesRef].
      rewrite length_app. cbn [List.length].
      repeat split; try lia. intros _. eauto.
  - intros g' w' H. apply updateAndDraw_spec in H. cbn zeta in H.
    destruct H as (_ & _ & _ & _ & Hlen & _). subst count. cbv beta. lia.
Qed.

(** C7. The frame in which the player dies.  The death check, for a player
    whose health is at most 0, removes the player and queues the change to
    [GameOver] for 1000 ms later, without touching the status.  Over a whole
    frame the status does not change, a player who is still there at the end
    has a health that is not at most 0, and when the player goes, the queued
    callback sets [GameOver] once 1000 ms have passed and not before. *)
Theorem player_death_delay (keys : list string) (dt : float) (g : Game) (w : World) :
  gameStatus g = Playing ->
  (forall player,
     (Player.health player <=? 0) = true ->
     exists g1 w1,
       playerDeath player g w = Some (g1, w1) /\
       playerRef g1 = None /\ gameStatus g1 = Playing /\
       timeouts g1 = timeouts g ++ [(1000, GameOver)]) /\
  (forall g' w',
     updateAndDraw math keys dt g w = Some (g', w') ->
     gameStatus g' = Playing /\
     (forall p', playerRef g' = Some p' -> (Player.health p' <=? 0) = false) /\
     (playerRef g <> None -> playerRef g' = None ->
      timeouts g' = timeouts g ++ [(1000, GameOver)] /\
      (timeouts g = [] ->
       forall elapsed,
         gameStatus (runTimeouts elapsed g')
         = if 1000 <=? elapsed then GameOver else Playing))).
Proof.
  intros Hs. split.
  - intros player Hh.
    assert (Ht : total (playerDeath player g)).
    { unfold playerDeath. total_tac. apply total_createExplosion.
      unfold countable. discriminate. }
    destruct (Ht w) as (g1 & w1 & E). exists g1, w1. split; [exact E|].
    unfold playerDeath in E. rewrite Hh in E.
    apply bind_Some in E. destruct E as ([] & w2 & _ & E).
    apply bind_Some in E. destruct E as (g2 & w3 & He & E).
    apply ret_Some in E. destruct E as [<- _].
    apply createExplosion_sparks in He. apply sparks_fields in He.
    destruct He as (A & _ & _ & _ & _ & _ & _ & T).
    cbn. rewrite T, A. auto.
  - intros g' w' H. apply updateAndDraw_spec in H. cbn zeta in H.
    destruct H as (A & _ & _ & _ & _ & _ & Hh & T & _).
    split; [congruence|]. split; [exact Hh|]. intros Hp Hn.
    specialize (T Hp Hn). split; [exact T|]. intros He elapsed.
    unfold runTimeouts, due. rewrite T, He. cbn [app filter fst snd].
    destruct (1000 <=? elapsed); cbn; [reflexivity|congruence].
Qed.

(** C8. A frame without a player.  The player's controls, the player's part
    of the frame and the player's collisions return at once with the game as
    it was; the enemies fire nothing; the frame leaves the player absent,
    queues nothing, and keeps only lasers that were there; and it returns,
    provided the explosions it may start can be counted (the radius of every
    enemy) and [Math.random()] is in [[0, 1)]. *)
Theorem absent_player_noop (keys : list string) (dt : float) (g : Game) (w : World) :
  playerRef g = None ->
  handlePlayerControls math keys dt g w = Some (g, w) /\
  updatePlayer math keys dt g w = Some (g, w) /\
  (exists w', enemyAI math g w = Some (g, w')) /\
  playerCollisions g w = Some (g, w) /\
  (forall g' w',
     updateAndDraw math keys dt g w = Some (g', w') ->
     playerRef g' = None /\ timeouts g' = timeouts g /\ gameStatus g' = gameStatus g /\
     incl (lasersRef g')
          (map (moveLaser (dimensions g)) (filter (inViewport (dimensions g)) (lasersRef g)))) /\
  (Forall (fun e : Enemy => countable (GameObject.radius e)) (enemiesRef g) ->
   unitInterval w ->
   exists g' w', updateAndDraw math keys dt g w = Some (g', w')).
Proof.
  intros Hn. repeat split.
  - unfold handlePlayerControls. now rewrite Hn.
  - unfold updatePlayer. now rewrite Hn.
  - destruct (total_enemyAI math g w) as (g' & w' & H). exists w'.
    apply enemyAI_spec in H as Hs. destruct Hs as (Hg & _). now rewrite <- (Hg Hn) at 2.
  - unfold playerCollisions. now rewrite Hn.
  - apply updateAndDraw_spec in H. tauto.
  - apply updateAndDraw_spec in H. cbn zeta in H.
    destruct H as (_ & _ & _ & _ & _ & _ & _ & _ & T). auto.
  - apply updateAndDraw_spec in H. tauto.
  - apply updateAndDraw_spec in H. cbn zeta in H.
    destruct H as (_ & _ & _ & (shots & es & new & eshots & _ & _ & _ & _ & Hi & Hnone) & _).
    destruct (Hnone Hn) as [-> ->]. now rewrite !app_nil_r in Hi.
  - now apply updateAndDraw_total.
Qed.


End Claims.

(** C6. [resetGame] is idempotent: a second call changes nothing, and after it
    the score is 0, there are no enemies, lasers or particles, and the player
    is at the centre of the viewport, at rest, turned by [-Math.PI / 2], with
    full health. *)
Theorem resetGame_idempotent (g : Game) :
  resetGame (resetGame g) = resetGame g /\
  score (resetGame g) = 0 /\
  enemiesRef (resetGame g) = [] /\ lasersRef (resetGame g) = [] /\
  particlesRef (resetGame g) = [] /\
  dimensions (resetGame g) = dimensions g /\
  exists player,
    playerRef (resetGame g) = Some player /\
    GameObject.position player
      = Vector2D.mk (width (dimensions g) / 2) (height (dimensions g) / 2) /\
    GameObject.velocity player = Vector2D.mk 0 0 /\
    Player.rotation player = - Math_PI / 2 /\
    Player.health player = Player.maxHealth player /\
    Player.maxHealth player = PLAYER_MAX_HEALTH.
Proof.
  repeat split. eexists. split; [reflexivity|]. repeat split.
Qed.



Lemma playerVsEnemies_first_overlap_witness :
  exists before enemy after player' g' w',
    enemiesRef crowded = before ++ enemy :: after /\
    forallb (fun e : Enemy => negb (checkCollision (pilot 100) e)) before = true /\
    checkCollision (pilot 100) enemy = true /\
    playerVsEnemies (enemiesRef crowded) (pilot 100) crowded evenWorld
      = Some ((player', g'), w') /\
    Player.health player' = Player.health (pilot 100) - 20 /\
    Player.obj player' = Player.obj (pilot 100) /\
    enemiesRef g' = before ++ after /\
    score g' = score crowded /\
    lasersRef g' = lasersRef crowded.
Proof.
  apply (playerVsEnemies_first_overlap (pilot 100) crowded evenWorld).
  - vm_compute. reflexivity.
  - vm_compute. reflexivity.
  - repeat constructor; unfold countable; vm_compute; discriminate.
Defined.

Lemma handleCollisions_score_witness :
  exists g' w' outcome,
    handleCollisions range evenWorld = Some (g', w') /\
    outcome = fst (laserSweep (enemiesRef range) (lasersRef range)) /\
    Forall2 (shotDown (lasersRef range)) (enemiesRef range) outcome /\
    Permutation (map fst outcome) (survivors outcome ++ destroyed outcome) /\
    enemiesRef g' = survivors outcome /\
    score g' = award (score range) (destroyed outcome).
Proof.
  apply (handleCollisions_score range evenWorld).
  repeat constructor; unfold countable; vm_compute; discriminate.
Defined.

Lemma faction_immunity_witness :
  (exists g' w',
     handleCollisions range evenWorld = Some (g', w') /\
     filter enemyLaser (lasersRef g') = filter enemyLaser (lasersRef range) /\
     let outcome :=
       fst (laserSweep (enemiesRef range) (filter Laser.isPlayerLaser (lasersRef range))) in
     Forall2 (shotDown (filter Laser.isPlayerLaser (lasersRef range))) (enemiesRef range)
             outcome /\
     enemiesRef g' = survivors outcome /\
     score g' = award (score range) (destroyed outcome)) /\
  (exists player' playerLasers g' w',
     forEach (lasersRef range) laserVsPlayer (pilot 100, [], range) evenWorld
       = Some ((player', playerLasers, g'), w') /\
     filter Laser.isPlayerLaser playerLasers = filter Laser.isPlayerLaser (lasersRef range) /\
     let n := List.length (filter (fun l => enemyLaser l && checkCollision l (pilot 100))
                                  (lasersRef range)) in
     Player.health player' = Nat.iter n (fun h => h - 10) (Player.health (pilot 100))).
Proof.
  apply (faction_immunity range evenWorld (pilot 100)).
  repeat constructor; unfold countable; vm_compute; discriminate.
Defined.

Lemma spawnEnemies_cap_witness :
  (exists g' w',
     spawnEnemies veteran evenWorld = Some (g', w') /\
     score g' = score veteran /\
     (3 < 5 + 2 -> exists e, enemiesRef g' = enemiesRef veteran ++ [e])%Z /\
     (5 + 2 <= 3 -> g' = veteran /\ w' = evenWorld)%Z /\
     (Z.of_nat (List.length (enemiesRef g')) <= Z.max 3 (5 + 2))%Z /\
     (3 <= 5 + 2 -> Z.of_nat (List.length (enemiesRef g')) <= 5 + 2)%Z) /\
  (forall g' w',
     updateAndDraw flatMath [] 16 veteran evenWorld = Some (g', w') ->
     (Z.of_nat (List.length (enemiesRef g')) <= 3 + 1)%Z).
Proof.
  apply (spawnEnemies_cap flatMath [] 16 veteran evenWorld 2).
  - vm_compute. reflexivity.
  - lia.
  - reflexivity.
  - reflexivity.
Defined.

Lemma player_death_delay_witness :
  (forall player,
     (Player.health player <=? 0) = true ->
     exists g1 w1,
       playerDeath player doomed evenWorld = Some (g1, w1) /\
       playerRef g1 = None /\ gameStatus g1 = Playing /\
       timeouts g1 = timeouts doomed ++ [(1000, GameOver)]) /\
  (forall g' w',
     updateAndDraw flatMath [] 16 doomed evenWorld = Some (g', w') ->
     gameStatus g' = Playing /\
     (forall p', playerRef g' = Some p' -> (Player.health p' <=? 0) = false) /\
     (playerRef doomed <> None -> playerRef g' = None ->
      timeouts g' = timeouts doomed ++ [(1000, GameOver)] /\
      (timeouts doomed = [] ->
       forall elapsed,
         gameStatus (runTimeouts elapsed g')
         = if 1000 <=? elapsed then GameOver else Playing))).
Proof.
  apply (player_death_delay flatMath [] 16 doomed evenWorld). reflexivity.
Defined.

Lemma absent_player_noop_witness :
  handlePlayerControls flatMath ["Space"%string] 16 adrift evenWorld = Some (adrift, evenWorld) /\
  updatePlayer flatMath ["Space"%string] 16 adrift evenWorld = Some (adrift, evenWorld) /\
  (exists w', enemyAI flatMath adrift evenWorld = Some (adrift, w')) /\
  playerCollisions adrift evenWorld = Some (adrift, evenWorld) /\
  (forall g' w',
     updateAndDraw flatMath ["Space"%string] 16 adrift evenWorld = Some (g', w') ->
     playerRef g' = None /\ timeouts g' = timeouts adrift /\
     gameStatus g' = gameStatus adrift /\
     incl (lasersRef g')
          (map (moveLaser (dimensions adrift))
               (filter (inViewport (dimensions adrift)) (lasersRef adrift)))) /\
  (exists g' w', updateAndDraw flatMath ["Space"%string] 16 adrift evenWorld = Some (g', w')).
Proof.
  destruct (absent_player_noop flatMath ["Space"%string] 16 adrift evenWorld eq_refl)
    as (A & B & C & D & E & F).
  split; [exact A|]. split; [exact B|]. split; [exact C|]. split; [exact D|].
  split; [exact E|]. apply F.
  - repeat constructor; unfold countable; vm_compute; discriminate.
  - intros n. split; reflexivity.
Defined.

(** * The keyboard *)

Lemma has_app (s t : list string) (c : string) : has (s ++ t) c = has s c || has t c.
Proof. unfold has. apply existsb_app. Qed.

Lemma has_In (s : list string) (c : string) : has s c = true <-> In c s.
Proof.
  unfold has. rewrite existsb_exists. split.
  - intros (x & Hin & E). apply String.eqb_eq in E. now subst.
  - intros H. exists c. split; [exact H|apply String.eqb_refl].
Qed.

Lemma has_Set_add (s : list string) (v c : string) :
  has (Set_add s v) c = String.eqb c v || has s c.
Proof.
  unfold Set_add. destruct (has s v) eqn:E.
  - destruct (String.eqb_spec c v) as [->|]; [now rewrite E|reflexivity].
  - rewrite has_app. cbn. rewrite orb_false_r. apply orb_comm.
Qed.

Lemma has_Set_delete (s : list string) (v c : string) :
  has (Set_delete s v) c = negb (String.eqb c v) && has s c.
Proof.
  unfold Set_delete, has. induction s as [|k s IH]; cbn; [now rewrite andb_false_r|].
  destruct (String.eqb_spec v k) as [->|Hvk]; cbn.
  - rewrite IH. destruct (String.eqb_spec c k); cbn; reflexivity.
  - rewrite IH. destruct (String.eqb_spec c k) as [->|]; cbn; [|reflexivity].
    destruct (String.eqb_spec k v) as [->|]; [contradiction|reflexivity].
Qed.

Lemma NoDup_Set_add (s : list string) (v : string) : NoDup s -> NoDup (Set_add s v).
Proof.
  intros H. unfold Set_add. destruct (has s v) eqn:E; [exact H|].
  apply NoDup_app; [exact H|repeat constructor; intros []|].
  intros x Hx [<-|[]]. apply has_In in Hx. congruence.
Qed.

Lemma NoDup_Set_delete (s : list string) (v : string) : NoDup s -> NoDup (Set_delete s v).
Proof. apply NoDup_filter. Qed.

Lemma held_keys (events : list KeyboardEvent) :
  forall keys code,
    has (fold_left dispatchKey events keys) code = held events code (has keys code).
Proof.
  induction events as [|[c|c] events IH]; intros keys code; cbn [fold_left held dispatchKey].
  - reflexivity.
  - rewrite IH. unfold handleKeyDown. rewrite has_Set_add.
    destruct (String.eqb code c); reflexivity.
  - rewrite IH. unfold handleKeyUp. rewrite has_Set_delete.
    destruct (String.eqb code c); reflexivity.
Qed.

Lemma NoDup_keys (events : list KeyboardEvent) :
  forall keys, NoDup keys -> NoDup (fold_left dispatchKey events keys).
Proof.
  induction events as [|[c|c] events IH]; intros keys H; cbn [fold_left dispatchKey].
  - exact H.
  - apply IH. now apply NoDup_Set_add.
  - apply IH. now apply NoDup_Set_delete.
Qed.

(** X1. a code is in [keysPressed] exactly when the last key event about it
    was a keydown, and no code is in it twice. *)
Theorem useKeyboardInput_held (events : list KeyboardEvent) (code : string) :
  has (useKeyboardInput events) code = held events code false /\
  NoDup (useKeyboardInput events).
Proof.
  unfold useKeyboardInput. split.
  - now rewrite held_keys.
  - apply NoDup_keys. constructor.
Qed.

Lemma Set_delete_absent (s : list string) (v : string) :
  has s v = false -> Set_delete s v = s.
Proof.
  unfold Set_delete, has. induction s as [|k s IH]; cbn; [reflexivity|].
  intros H. apply orb_false_iff in H. destruct H as [H1 H2].
  rewrite H1. cbn. now rewrite IH.
Qed.

(** X2. a key that goes down and up again leaves the set as it was, however
    often the keydown repeats in between; keydown of a held key and keyup of
    a free key change nothing. *)
Theorem keydown_keyup_round_trip (keys : list string) (code : string) (repeats : nat) :
  has keys code = false ->
  handleKeyUp code (Nat.iter (S repeats) (handleKeyDown code) keys) = keys /\
  handleKeyDown code (handleKeyDown code keys) = handleKeyDown code keys /\
  handleKeyUp code keys = keys.
Proof.
  intros H.
  assert (Hdown : handleKeyDown code keys = keys ++ [code]).
  { unfold handleKeyDown, Set_add. now rewrite H. }
  assert (Hheld : has (keys ++ [code]) code = true).
  { rewrite has_app. cbn. now rewrite String.eqb_refl, orb_true_r. }
  assert (Hagain : handleKeyDown code (keys ++ [code]) = keys ++ [code]).
  { unfold handleKeyDown, Set_add. now rewrite Hheld. }
  assert (Hiter : Nat.iter (S repeats) (handleKeyDown code) keys = keys ++ [code]).
  { induction repeats as [|n IH]; [exact Hdown|].
    change (Nat.iter (S (S n)) (handleKeyDown code) keys)
      with (handleKeyDown code (Nat.iter (S n) (handleKeyDown code) keys)).
    now rewrite IH. }
  split; [|split].
  - rewrite Hiter. unfold handleKeyUp, Set_delete. rewrite filter_app. cbn.
    rewrite String.eqb_refl. cbn. rewrite app_nil_r. now apply Set_delete_absent.
  - now rewrite Hdown.
  - now apply Set_delete_absent.
Qed.

Lemma keydown_keyup_round_trip_witness :
  handleKeyUp "Space" (Nat.iter 3 (handleKeyDown "Space") ["KeyW"; "KeyA"]%string)
    = ["KeyW"; "KeyA"]%string /\
  handleKeyDown "Space" (handleKeyDown "Space" ["KeyW"; "KeyA"]%string)
    = handleKeyDown "Space" ["KeyW"; "KeyA"]%string /\
  handleKeyUp "Space" ["KeyW"; "KeyA"]%string = ["KeyW"; "KeyA"]%string.
Proof. apply (keydown_keyup_round_trip ["KeyW"; "KeyA"]%string "Space" 2). reflexivity. Defined.

(** X3. a key that the controls do not ask for has no effect on them. *)
Theorem unbound_key_ignored (math : JSMath) (keys : list string) (code : string)
    (dt : float) (g : Game) :
  ~ In code boundKeys ->
  handlePlayerControls math (handleKeyDown code keys) dt g = handlePlayerControls math keys dt g /\
  handlePlayerControls math (handleKeyUp code keys) dt g = handlePlayerControls math keys dt g.
Proof.
  intros Hc.
  assert (Hd : forall k, In k boundKeys -> has (handleKeyDown code keys) k = has keys k).
  { intros k Hk. unfold handleKeyDown. rewrite has_Set_add.
    destruct (String.eqb_spec k code) as [->|]; [contradiction|reflexivity]. }
  assert (Hu : forall k, In k boundKeys -> has (handleKeyUp code keys) k = has keys k).
  { intros k Hk. unfold handleKeyUp. rewrite has_Set_delete.
    destruct (String.eqb_spec k code) as [->|]; [contradiction|reflexivity]. }
  unfold handlePlayerControls.
  rewrite !Hd, !Hu by (unfold boundKeys; cbn; tauto). split; reflexivity.
Qed.

Lemma unbound_key_ignored_witness :
  handlePlayerControls flatMath (handleKeyDown "KeyQ" ["Space"%string]) 16 stale
    = handlePlayerControls flatMath ["Space"%string] 16 stale /\
  handlePlayerControls flatMath (handleKeyUp "KeyQ" ["Space"%string]) 16 stale
    = handlePlayerControls flatMath ["Space"%string] 16 stale.
Proof.
  apply (unbound_key_ignored flatMath ["Space"%string] "KeyQ" 16 stale).
  unfold boundKeys. cbn. intros H. repeat (destruct H as [H|H]; [discriminate H|]). exact H.
Defined.

(** * The game loop *)

Section LoopFacts.

Variable T : Type.


Import useGameLoop.

Lemma cleanup_spec current (l : Loop T) :
  tidy current l ->
  cleanup T l = set_frameRequests T l [].
Proof.
  intros (Hq & _). unfold cleanup.
  destruct l as [req prev last q s]. cbn in *.
  destruct q as [|[h cb] [|r q]]; try contradiction.
  - unfold heldRequest. cbn. destruct req as [h|]; [|reflexivity].
    destruct (N.eqb h 0); reflexivity.
  - destruct Hq as (-> & Hh & _). unfold heldRequest. cbn.
    apply N.eqb_neq in Hh. rewrite Hh. unfold cancelAnimationFrame, set_frameRequests. cbn.
    now rewrite N.eqb_refl.
Qed.

Lemma tidy_render current (l : Loop T) callback isRunning :
  tidy current l ->
  tidy (Some (callback, isRunning)) (effect T callback isRunning (cleanup T l)).
Proof.
  intros H. rewrite (cleanup_spec current l H). destruct H as (_ & Hprev & _).
  destruct l as [req prev last q s]. unfold effect, heldRequest in *. cbn in *.
  destruct isRunning; cbn.
  - unfold tidy, heldRequest. cbn. repeat split.
    + apply N.neq_succ_0.
    + pose proof (N.neq_succ_0 last) as Hn. apply N.eqb_neq in Hn. rewrite Hn. discriminate.
    + discriminate.
    + discriminate.
    + discriminate.
    + discriminate.
  - destruct req as [h|]; [destruct (N.eqb h 0) eqn:E|]; cbn.
    + specialize (Hprev eq_refl). subst prev.
      unfold tidy, heldRequest. cbn. rewrite E. repeat split; discriminate.
    + unfold tidy, heldRequest. cbn. rewrite E. repeat split; discriminate.
    + specialize (Hprev eq_refl). subst prev.
      unfold tidy, heldRequest. cbn. repeat split; discriminate.
Qed.

Lemma frame_spec current (l : Loop T) time :
  tidy current l ->
  match frameRequests T l with
  | [] => frame T time l = l
  | (_, callback) :: _ =>
      current = Some (callback, true) /\
      frame T time l =
      mkLoop T (Some (N.succ (lastHandle T l))) (Some time) (N.succ (lastHandle T l))
        [(N.succ (lastHandle T l), callback)]
        (match previousTimeRef T l with
         | Some previous => callback (time - previous) (subject T l)
         | None => subject T l
         end)
  end.
Proof.
  intros (Hq & _). destruct l as [req prev last q s]. cbn in *.
  destruct q as [|[h cb] [|r q]]; try contradiction.
  - reflexivity.
  - destruct Hq as (_ & _ & Hc). split; [exact Hc|].
    unfold frame, animate. cbn. destruct prev; reflexivity.
Qed.

Lemma tidy_frame current (l : Loop T) time : tidy current l -> tidy current (frame T time l).
Proof.
  intros H. pose proof (frame_spec current l time H) as Hf.
  destruct (frameRequests T l) as [|[h cb] q] eqn:E.
  - now rewrite Hf.
  - destruct Hf as (Hc & ->). unfold tidy, heldRequest. cbn.
    pose proof (N.neq_succ_0 (lastHandle T l)) as Hn.
    repeat split; try exact Hc; try exact Hn; try congruence.
    apply N.eqb_neq in Hn. rewrite Hn. discriminate.
Qed.

Lemma tidy_mount (s : T) : tidy None (mount T s).
Proof. unfold tidy, mount, heldRequest. cbn. repeat split; discriminate. Qed.

Lemma lastRender_snoc (events : list (Event T)) (event : Event T) :
  lastRender (events ++ [event]) =
  match event with
  | useGameLoop.Render _ callback isRunning => Some (callback, isRunning)
  | useGameLoop.Frame _ _ => lastRender events
  end.
Proof. unfold lastRender. rewrite fold_left_app. reflexivity. Qed.

Lemma run_snoc (events : list (Event T)) (event : Event T) (s : T) :
  run T (events ++ [event]) s = step T (run T events s) event.
Proof. unfold run. rewrite fold_left_app. reflexivity. Qed.

Lemma tidy_run (events : list (Event T)) (s : T) : tidy (lastRender events) (run T events s).
Proof.
  induction events as [|event events IH] using rev_ind.
  - apply tidy_mount.
  - rewrite run_snoc, lastRender_snoc. destruct event as [cb r|t]; cbn [step].
    + now apply tidy_render with (current := lastRender events).
    + now apply tidy_frame.
Qed.

(** The frames that follow a state in which a request waits. *)
Lemma frames_spec current (times : list float) :
  forall l handle callback,
    tidy current l -> frameRequests T l = [(handle, callback)] ->
    subject T (fold_left (step T) (map (Frame T) times) l) =
    fold_left (fun s d => callback d s)
      (match previousTimeRef T l with
       | Some previous => deltas previous times
       | None => match times with [] => [] | t :: rest => deltas t rest end
       end)
      (subject T l).
Proof.
  induction times as [|t times IH]; intros l handle callback Hl Hq; cbn [map fold_left step].
  - destruct (previousTimeRef T l); reflexivity.
  - pose proof (frame_spec current l t Hl) as Hf. rewrite Hq in Hf. destruct Hf as (Hc & Hf).
    pose proof (tidy_frame current l t Hl) as Hl'.
    rewrite (IH (frame T t l) (N.succ (lastHandle T l)) callback Hl')
      by (rewrite Hf; reflexivity).
    rewrite Hf. cbn [previousTimeRef subject].
    destruct (previousTimeRef T l); reflexivity.
Qed.

Lemma idle_frames (times : list float) :
  forall l, frameRequests T l = [] -> fold_left (step T) (map (Frame T) times) l = l.
Proof.
  induction times as [|t times IH]; intros l Hq; cbn [map fold_left step]; [reflexivity|].
  assert (Hf : frame T t l = l).
  { unfold frame. rewrite Hq. destruct l; cbn in *. now subst. }
  rewrite Hf. now apply IH.
Qed.

End LoopFacts.

(** X4. the loop never doubles.  At most one frame request waits at any time;
    it is the one whose handle [requestRef] holds, and its [animate] calls the
    callback of the latest render, which asked for a running loop. *)
Theorem useGameLoop_single_request (T : Type) (events : list (useGameLoop.Event T)) (s : T) :
  let l := useGameLoop.run T events s in
  (List.length (useGameLoop.frameRequests T l) <= 1)%nat /\
  forall handle callback,
    In (handle, callback) (useGameLoop.frameRequests T l) ->
    useGameLoop.requestRef T l = Some handle /\ lastRender events = Some (callback, true).
Proof.
  intros l. destruct (tidy_run T events s) as (Hq & _). fold l in Hq.
  destruct (useGameLoop.frameRequests T l) as [|[h cb] [|r q]]; try contradiction.
  - split; [cbn; lia|]. intros ? ? [].
  - destruct Hq as (Hr & _ & Hc). split; [cbn; lia|].
    intros handle callback [E|[]]. injection E as <- <-. auto.
Qed.

(** X5. a stopped loop is idle.  When the latest render asked for a stopped
    loop (or there was none), no request waits, the previous frame's time is
    forgotten, frames change nothing, and the cleanup finds nothing to do. *)
Theorem useGameLoop_stopped_idle (T : Type) (events : list (useGameLoop.Event T)) (s : T)
    (times : list float) :
  (forall callback, lastRender events <> Some (callback, true)) ->
  let l := useGameLoop.run T events s in
  useGameLoop.frameRequests T l = [] /\
  useGameLoop.previousTimeRef T l = None /\
  useGameLoop.run T (events ++ map (useGameLoop.Frame T) times) s = l /\
  useGameLoop.cleanup T l = l.
Proof.
  intros Hstop l. pose proof (tidy_run T events s) as Hl. fold l in Hl.
  assert (Hidle : useGameLoop.frameRequests T l = [] /\ useGameLoop.previousTimeRef T l = None).
  { destruct Hl as (_ & _ & Hfalse & Hnone).
    destruct (lastRender events) as [[cb [|]]|]; [destruct (Hstop cb eq_refl)|eauto|eauto]. }
  destruct Hidle as [Hq Hp]. split; [exact Hq|]. split; [exact Hp|]. split.
  - unfold useGameLoop.run. rewrite fold_left_app. now apply idle_frames.
  - rewrite (cleanup_spec T _ l Hl). destruct l; cbn in *. now subst.
Qed.

(** X6. what the callback is given.  After a render that asks for a running
    loop, the frames call the callback with the differences of successive
    frame times, in order.  The first frame after a start, or after a stop,
    only records its time; when the render only changed the callback of a
    running loop, the first difference is taken from the last frame before
    the render. *)
Theorem useGameLoop_deltas (T : Type) (events : list (useGameLoop.Event T)) (s : T)
    (callback : useGameLoop.Callback T) (times : list float) :
  let l := useGameLoop.run T events s in
  useGameLoop.subject T
    (useGameLoop.run T (events ++ useGameLoop.Render T callback true
                               :: map (useGameLoop.Frame T) times) s) =
  fold_left (fun s d => callback d s)
    (match useGameLoop.previousTimeRef T l with
     | Some previous => deltas previous times
     | None => match times with [] => [] | t :: rest => deltas t rest end
     end)
    (useGameLoop.subject T l) /\
  ((forall callback', lastRender events <> Some (callback', true)) ->
   useGameLoop.previousTimeRef T l = None).
Proof.
  intros l. split.
  - unfold useGameLoop.run. rewrite fold_left_app. cbn [fold_left useGameLoop.step].
    fold (useGameLoop.run T events s). fold l.
    pose proof (tidy_run T events s) as Hl. fold l in Hl.
    pose proof (tidy_render T _ l callback true Hl) as Hl'.
    rewrite (frames_spec T _ times _ (N.succ (useGameLoop.lastHandle T l)) callback Hl').
    + rewrite (cleanup_spec T _ l Hl). reflexivity.
    + rewrite (cleanup_spec T _ l Hl). reflexivity.
  - intros Hstop. pose proof (tidy_run T events s) as Hl. fold l in Hl.
    destruct Hl as (_ & _ & Hfalse & Hnone).
    destruct (lastRender events) as [[cb [|]]|]; [destruct (Hstop cb eq_refl)| |].
    + now apply (Hfalse cb).
    + now apply Hnone.
Qed.

Lemma useGameLoop_stopped_idle_witness :
  let events := [useGameLoop.Render nat (fun _ n => S n) true;
                 useGameLoop.Frame nat 0; useGameLoop.Frame nat 16;
                 useGameLoop.Render nat (fun _ n => S n) false] in
  let l := useGameLoop.run nat events O in
  useGameLoop.frameRequests nat l = [] /\
  useGameLoop.previousTimeRef nat l = None /\
  useGameLoop.run nat (events ++ map (useGameLoop.Frame nat) [32; 48]) O = l /\
  useGameLoop.cleanup nat l = l.
Proof.
  apply (useGameLoop_stopped_idle nat
           [useGameLoop.Render nat (fun _ n => S n) true;
            useGameLoop.Frame nat 0; useGameLoop.Frame nat 16;
            useGameLoop.Render nat (fun _ n => S n) false] O [32; 48]).
  intros callback H. vm_compute in H. discriminate H.
Defined.

(** * Explosions, particle by particle *)

Lemma draw_0 (w : World) : draw 0 w = w.
Proof. destruct w. unfold draw. cbn. now rewrite Nat.add_0_r. Qed.

Lemma draw_draw (a b : nat) (w : World) : draw b (draw a w) = draw (a + b) w.
Proof. unfold draw. cbn. now rewrite Nat.add_assoc. Qed.

Lemma Math_random_draw (j : nat) (w : World) :
  Math_random (draw j w) = Some (random w (drawn w + j)%nat, draw (S j) w).
Proof. unfold Math_random, draw. cbn. now rewrite Nat.add_succ_r. Qed.

Lemma randomBetween_draw (a b : float) (j : nat) (w : World) :
  randomBetween a b (draw j w) = Some (random w (drawn w + j)%nat * (b - a) + a, draw (S j) w).
Proof. unfold randomBetween, bind. rewrite Math_random_draw. reflexivity. Qed.

Lemma DateNow_draw (j : nat) (w : World) : DateNow (draw j w) = Some (Date_now w, draw j w).
Proof. reflexivity. Qed.

Lemma explosionParticle_draw position color size (k : nat) (w : World) :
  explosionParticle position color size (draw (5 * k) w)
  = Some (sparkAt position color size w k, draw (5 * S k) w).
Proof.
  unfold explosionParticle, bind.
  rewrite DateNow_draw, Math_random_draw, randomBetween_draw, randomBetween_draw,
    Math_random_draw, Math_random_draw.
  unfold ret, sparkAt. rewrite <- !Nat.add_assoc, !Nat.add_succ_r, !Nat.add_0_r.
  do 2 f_equal. f_equal. lia.
Qed.

Lemma explosionLoop_draw position color size (w : World) (n : nat) :
  forall k g,
    times n (fun g => p <- explosionParticle position color size ;;
                      ret (set_particlesRef g (particlesRef g ++ [p])))
          g (draw (5 * k) w)
    = Some (set_particlesRef g
              (particlesRef g ++ map (sparkAt position color size w) (seq k n)),
            draw (5 * (k + n)) w).
Proof.
  induction n as [|n IH]; intros k g; cbn [times seq map].
  - unfold ret. rewrite app_nil_r, Nat.add_0_r. destruct g; reflexivity.
  - unfold bind at 1. unfold bind at 1. rewrite explosionParticle_draw. unfold ret at 1.
    rewrite IH. cbn [particlesRef set_particlesRef]. rewrite <- app_assoc.
    replace (S k + n)%nat with (k + S n)%nat by lia. reflexivity.
Qed.

(** X7. an explosion, particle by particle.  [createExplosion] adds as many
    particles as its loop has rounds, each at the given position with one
    second to live, and takes five random numbers for each; a count that the
    loop cannot reach leaves it running. *)
Theorem createExplosion_particles (position : Vector2D) (count : float) (color : string)
    (size : float) (g : Game) (w : World) :
  match rounds count with
  | Some n =>
      createExplosion position count color size g w
      = Some (set_particlesRef g
                (particlesRef g ++ map (sparkAt position color size w) (seq 0 n)),
              draw (5 * n) w)
  | None => createExplosion position count color size g w = None
  end.
Proof.
  unfold createExplosion, for_count. destruct (rounds count) as [n|]; [|reflexivity].
  pose proof (explosionLoop_draw position color size w n 0 g) as H.
  rewrite Nat.mul_0_r, draw_0 in H. exact H.
Qed.

(** * Distances *)

Lemma signed_unsigned (f : spec_float) : signed false f -> unsigned f.
Proof. destruct f; cbn; tauto. Qed.

Lemma SFmul_square_unsigned (a : spec_float) : unsigned (SF64mul a a).
Proof.
  destruct a as [s|s| |s m e]; cbn; try destruct s; try reflexivity; try exact I;
    apply signed_unsigned, binary_round_aux_signed; lia.
Qed.

Lemma SFadd_unsigned (a b : spec_float) :
  unsigned a -> unsigned b -> unsigned (SF64add a b).
Proof.
  destruct a as [sa|sa| |sa ma ea], b as [sb|sb| |sb mb eb]; cbn;
    intros Ha Hb; subst; try exact I; try reflexivity;
    try (destruct sa; exact I); try (destruct sb; exact I);
    try (destruct sa, sb; exact I).
  apply signed_unsigned, binary_round_signed.
Qed.

Lemma SFsqrt_unsigned (a : spec_float) : unsigned a -> unsigned (SF64sqrt a).
Proof.
  destruct a as [s|s| |s m e]; cbn; intros Ha; subst; try exact I; try reflexivity.
  unfold SFsqrt_core_binary.
  match goal with |- context [Z.sqrtrem ?x] =>
    pose proof (Z.sqrtrem_sqrt x) as E; pose proof (Z.sqrt_nonneg x) as Hq;
    destruct (Z.sqrtrem x) as [q r]
  end.
  cbn [fst] in E. subst q.
  apply signed_unsigned, binary_round_aux_signed. exact Hq.
Qed.

Lemma unsigned_not_negative (v : float) : unsigned (Prim2SF v) -> (v <? 0) = false.
Proof.
  rewrite ltb_spec. change (Prim2SF 0) with (S754_zero false).
  destruct (Prim2SF v) as [s|s| |s m e]; cbn; intros H; subst; reflexivity.
Qed.

Lemma distance_unsigned (p1 p2 : Vector2D) : unsigned (Prim2SF (distance p1 p2)).
Proof.
  unfold distance, sq. rewrite sqrt_spec, add_spec, !mul_spec.
  apply SFsqrt_unsigned, SFadd_unsigned; apply SFmul_square_unsigned.
Qed.

Lemma rank_lt_le_trans a b c : rank_lt a b -> rank_le b c -> rank_lt a c.
Proof. destruct a as [[? ?] ?], b as [[? ?] ?], c as [[? ?] ?]; cbn; lia. Qed.

Lemma rank_le_lt_trans a b c : rank_le a b -> rank_lt b c -> rank_lt a c.
Proof. destruct a as [[? ?] ?], b as [[? ?] ?], c as [[? ?] ?]; cbn; lia. Qed.

Lemma rank_le_trans a b c : rank_le a b -> rank_le b c -> rank_le a c.
Proof. destruct a as [[? ?] ?], b as [[? ?] ?], c as [[? ?] ?]; cbn; lia. Qed.

Lemma rank_lt_irrefl a : ~ rank_lt a a.
Proof. destruct a as [[? ?] ?]; cbn; lia. Qed.

Lemma ltb_leb_trans (a b c : float) : (a <? b) = true -> (b <=? c) = true -> (a <? c) = true.
Proof.
  intros H1 H2.
  destruct (ltb_true_ranked _ _ H1) as (ra & rb & Ha & Hb).
  destruct (leb_true_ranked _ _ H2) as (rb' & rc & Hb' & Hc).
  rewrite Hb in Hb'. injection Hb' as <-.
  apply (ltb_rank _ _ _ _ Ha Hb) in H1. apply (leb_rank _ _ _ _ Hb Hc) in H2.
  apply (ltb_rank _ _ _ _ Ha Hc). eapply rank_lt_le_trans; eauto.
Qed.

(** X9. a distance is never negative, so two objects whose radii add up to
    at most 0 never collide, wherever they are. *)
Theorem checkCollision_needs_radius (a b : GameObject) :
  (GameObject.radius a + GameObject.radius b <=? 0) = true ->
  (distance (GameObject.position a) (GameObject.position b) <? 0) = false /\
  checkCollision a b = false.
Proof.
  intros Hr.
  pose proof (unsigned_not_negative _
    (distance_unsigned (GameObject.position a) (GameObject.position b))) as Hd.
  split; [exact Hd|]. unfold checkCollision.
  destruct (_ <? GameObject.radius a + GameObject.radius b) eqn:E; [|reflexivity].
  rewrite (ltb_leb_trans _ _ _ E Hr) in Hd. discriminate Hd.
Qed.

Lemma checkCollision_needs_radius_witness :
  (distance (GameObject.position (ember 1)) (GameObject.position (ember 1)) <? 0) = false /\
  checkCollision (GameObject.set_radius (ember 1) 0) (GameObject.set_radius (ember 1) 0) = false.
Proof.
  apply (checkCollision_needs_radius (GameObject.set_radius (ember 1) 0)
                                     (GameObject.set_radius (ember 1) 0)).
  reflexivity.
Defined.

Lemma SFsub_self (a : spec_float) :
  match a with S754_zero _ | S754_finite _ _ _ => True | _ => False end ->
  SF64sub a a = S754_zero false.
Proof.
  destruct a as [s|s| |s m e]; intros H; try contradiction.
  - destruct s; reflexivity.
  - unfold SF64sub, SFsub. now rewrite Z.sub_diag.
Qed.

Lemma sub_self (x : float) : is_finite x = true -> x - x = 0.
Proof.
  intros H. apply Prim2SF_inj. rewrite sub_spec. apply SFsub_self.
  now apply is_finite_SF.
Qed.

(** X10. two objects at the same place, its coordinates finite, are at
    distance 0, and collide exactly when their radii add up to more than 0. *)
Theorem checkCollision_same_place (a b : GameObject) :
  GameObject.position a = GameObject.position b ->
  is_finite (Vector2D.x (GameObject.position a)) = true ->
  is_finite (Vector2D.y (GameObject.position a)) = true ->
  distance (GameObject.position a) (GameObject.position b) = 0 /\
  checkCollision a b = (0 <? GameObject.radius a + GameObject.radius b).
Proof.
  intros Hp Hx Hy.
  assert (Hd : distance (GameObject.position a) (GameObject.position b) = 0).
  { rewrite <- Hp. unfold distance. rewrite (sub_self _ Hx), (sub_self _ Hy). reflexivity. }
  split; [exact Hd|]. unfold checkCollision. now rewrite Hd.
Qed.

Lemma checkCollision_same_place_witness :
  distance (GameObject.position (pilot 100)) (GameObject.position (bolt 1 400 300 7 true)) = 0 /\
  checkCollision (pilot 100) (bolt 1 400 300 7 true)
  = (0 <? GameObject.radius (pilot 100) + GameObject.radius (bolt 1 400 300 7 true)).
Proof.
  apply (checkCollision_same_place (pilot 100) (bolt 1 400 300 7 true)); reflexivity.
Defined.

(** * The order of doubles is the order of their values *)

Lemma valid_exponent (s : bool) (m : positive) (e : Z) :
  valid_binary (S754_finite s m e) = true -> (-1074 <= e)%Z.
Proof.
  intros H. apply valid_digits in H. destruct H as (_ & _ & H).
  unfold fexp, SpecFloat.emin, emax, prec in H. lia.
Qed.

Lemma valid_normal (s : bool) (m : positive) (e : Z) :
  valid_binary (S754_finite s m e) = true -> (-1074 < e)%Z ->
  (2 ^ 52 <= Zpos m)%Z.
Proof.
  intros H He. apply valid_digits in H. destruct H as (_ & _ & H).
  unfold fexp, SpecFloat.emin, emax, prec in H.
  assert (E : Zpos (digits2_pos m) = 53%Z) by lia.
  pose proof (digits2_bounds m) as [Blo _]. rewrite E in Blo. exact Blo.
Qed.

Lemma valid_mantissa (s : bool) (m : positive) (e : Z) :
  valid_binary (S754_finite s m e) = true -> (Zpos m < 2 ^ 53)%Z.
Proof.
  intros H. apply valid_digits in H. destruct H as (H & _). now apply digits2_le_53.
Qed.

Lemma value_lt_exponent (m1 m2 : positive) (e1 e2 : Z) :
  valid_binary (S754_finite false m1 e1) = true ->
  valid_binary (S754_finite false m2 e2) = true ->
  (e1 < e2)%Z ->
  (Zpos m1 * 2 ^ (e1 + 1074) < Zpos m2 * 2 ^ (e2 + 1074))%Z.
Proof.
  intros V1 V2 He.
  pose proof (valid_exponent _ _ _ V1) as E1.
  assert (E2 : (-1074 < e2)%Z) by lia.
  pose proof (valid_mantissa _ _ _ V1) as M1.
  pose proof (valid_normal _ _ _ V2 E2) as M2.
  replace (e2 + 1074)%Z with ((e2 - e1) + (e1 + 1074))%Z by lia.
  rewrite (Z.pow_add_r 2 (e2 - e1) (e1 + 1074)) by lia.
  assert (HA : (0 < 2 ^ (e1 + 1074))%Z) by (apply Z.pow_pos_nonneg; lia).
  assert (HP : (2 ^ 1 <= 2 ^ (e2 - e1))%Z) by (apply Z.pow_le_mono_r; lia).
  change (2 ^ 1)%Z with 2%Z in HP.
  change (2 ^ 53)%Z with 9007199254740992%Z in M1.
  change (2 ^ 52)%Z with 4503599627370496%Z in M2.
  set (A := (2 ^ (e1 + 1074))%Z) in *. set (P := (2 ^ (e2 - e1))%Z) in *.
  assert (H1 : (Zpos m1 * A < 9007199254740992 * A)%Z)
    by (apply Z.mul_lt_mono_pos_r; lia).
  assert (H2 : (4503599627370496 * 2 <= Zpos m2 * P)%Z) by nia.
  assert (H3 : (4503599627370496 * 2 * A <= Zpos m2 * P * A)%Z)
    by (apply Z.mul_le_mono_nonneg_r; lia).
  lia.
Qed.

Lemma rank_value (m1 m2 : positive) (e1 e2 : Z) :
  valid_binary (S754_finite false m1 e1) = true ->
  valid_binary (S754_finite false m2 e2) = true ->
  (rank_lt (1, e1, Zpos m1) (1, e2, Zpos m2)
   <-> Zpos m1 * 2 ^ (e1 + 1074) < Zpos m2 * 2 ^ (e2 + 1074))%Z.
Proof.
  intros V1 V2. cbn [rank_lt].
  destruct (Z.lt_trichotomy e1 e2) as [Hlt|[<-|Hgt]].
  - pose proof (value_lt_exponent _ _ _ _ V1 V2 Hlt). split; [intros _; assumption|lia].
  - pose proof (valid_exponent _ _ _ V1).
    assert (0 < 2 ^ (e1 + 1074))%Z by (apply Z.pow_pos_nonneg; lia).
    split; [intros [?|[_ [?|[_ ?]]]]; try lia; nia|intros ?; right; split; [lia|right; split; [lia|nia]]].
  - pose proof (value_lt_exponent _ _ _ _ V2 V1 Hgt). split; [lia|lia].
Qed.

(** * The counting loop *)

(** The least integer that is not below [m * 2^e]. *)
Lemma ceil_spec (m : positive) (e k : Z) :
  (-1074 <= e)%Z ->
  (k < - Z.shiftl (Zneg m) e <-> k * 2 ^ 1074 < Zpos m * 2 ^ (e + 1074))%Z.
Proof.
  intros He. destruct (Z.leb_spec 0 e) as [Hpos|Hneg].
  - rewrite Z.shiftl_mul_pow2 by lia. rewrite Z.pow_add_r by lia.
    assert (0 < 2 ^ 1074)%Z by (apply Z.pow_pos_nonneg; lia).
    assert (0 < 2 ^ e)%Z by (apply Z.pow_pos_nonneg; lia).
    change (Zneg m) with (- Zpos m)%Z. split; intros; nia.
  - rewrite Z.shiftl_div_pow2 by lia.
    replace 1074%Z with ((- e) + (e + 1074))%Z at 1 by lia.
    rewrite Z.pow_add_r by lia.
    assert (HA : (0 < 2 ^ (e + 1074))%Z) by (apply Z.pow_pos_nonneg; lia).
    assert (HQ : (0 < 2 ^ (- e))%Z) by (apply Z.pow_pos_nonneg; lia).
    set (A := (2 ^ (e + 1074))%Z) in *. set (Q := (2 ^ (- e))%Z) in *.
    pose proof (Z.div_mod (Zneg m) Q ltac:(lia)) as Hdm.
    pose proof (Z.mod_pos_bound (Zneg m) Q HQ) as Hmod.
    set (f := (Zneg m / Q)%Z) in *. set (r := (Zneg m mod Q)%Z) in *.
    change (Zneg m) with (- Zpos m)%Z in Hdm.
    split; intros H.
    + assert (k <= - f - 1)%Z by lia. assert (k * Q < Zpos m)%Z by nia. nia.
    + assert (k * Q < Zpos m)%Z by nia. nia.
Qed.

Lemma Z2float_0 : Z2float 0 = 0.
Proof. reflexivity. Qed.

Lemma Z2float_1 : Z2float 1 = 1.
Proof. reflexivity. Qed.

Lemma Z2float_two53 : Z2float (2 ^ 53) = two53.
Proof. reflexivity. Qed.

(** The test [i < count] of the loop, after [k] rounds. *)
Lemma counter_test (count : float) (m : positive) (e k : Z) :
  Prim2SF count = S754_finite false m e ->
  (0 <= k < 2 ^ 53)%Z ->
  (Z2float k <? count) = (k <? - Z.shiftl (Zneg m) e)%Z.
Proof.
  intros Hc Hk. pose proof (Prim2SF_valid count) as V. rewrite Hc in V.
  pose proof (valid_exponent _ _ _ V) as He.
  pose proof (ceil_spec m e k He) as Hceil.
  assert (Fc : frank count = Some (1, e, Zpos m)%Z) by (unfold frank; now rewrite Hc).
  destruct k as [|p|p]; [| |lia].
  - assert (F0 : frank (Z2float 0) = Some (0, 0, 0)%Z) by reflexivity.
    assert (Hlt : (Z2float 0 <? count) = true).
    { apply (ltb_rank _ _ _ _ F0 Fc). cbn. lia. }
    rewrite Hlt. symmetry. apply Z.ltb_lt. apply Hceil.
    assert (0 < 2 ^ (e + 1074))%Z by (apply Z.pow_pos_nonneg; lia). nia.
  - assert (Hp : (Zpos (digits2_pos p) <= 53)%Z) by (apply digits2_le_53; lia).
    pose proof (frank_Z2float (Zpos p) Hk) as Fk. cbv iota in Fk.
    pose proof (valid_canon false p Hp) as Vk. unfold canon in Vk.
    pose proof (rank_value _ _ _ _ Vk V) as Hrv.
    rewrite Zpos_mantissa53 in Hrv, Fk by exact Hp.
    assert (Hscale : (Zpos p * 2 ^ (53 - Zpos (digits2_pos p))
                      * 2 ^ (Zpos (digits2_pos p) - 53 + 1074) = Zpos p * 2 ^ 1074)%Z).
    { rewrite <- Z.mul_assoc, <- Z.pow_add_r by lia. do 2 f_equal. lia. }
    rewrite Hscale in Hrv.
    destruct (Z.ltb_spec (Zpos p) (- Z.shiftl (Zneg m) e)) as [Hlt|Hge].
    + apply (ltb_rank _ _ _ _ Fk Fc). apply Hrv, Hceil, Hlt.
    + destruct (Z2float (Zpos p) <? count) eqn:E; [|reflexivity].
      apply (ltb_rank _ _ _ _ Fk Fc) in E. apply Hrv, Hceil in E. lia.
Qed.

Lemma counter_step (k : Z) : (0 <= k < 2 ^ 53)%Z -> Z2float k + 1 = Z2float (k + 1).
Proof.
  intros Hk. destruct (Z.eq_dec (k + 1) (2 ^ 53)) as [E|Hne].
  - replace k with (2 ^ 53 - 1)%Z by lia. reflexivity.
  - apply Prim2SF_inj. rewrite <- Z2float_1. apply Z2float_add; lia.
Qed.

Lemma leb_true_ltb_false (a b : float) : (a <=? b) = true -> (b <? a) = false.
Proof.
  intros H. destruct (leb_true_ranked _ _ H) as (ra & rb & Ha & Hb).
  apply (leb_rank _ _ _ _ Ha Hb) in H. now apply (ltb_rank _ _ _ _ Hb Ha).
Qed.

Lemma leb_false_ltb_true (a b : float) :
  is_nan a = false -> is_nan b = false -> (a <=? b) = false -> (b <? a) = true.
Proof.
  intros Ha Hb H. apply is_nan_rank in Ha, Hb.
  destruct Ha as (ra & Ha), Hb as (rb & Hb).
  destruct (b <? a) eqn:E; [reflexivity|].
  apply (ltb_rank _ _ _ _ Hb Ha) in E. apply (leb_rank _ _ _ _ Ha Hb) in E. congruence.
Qed.

Lemma ltb_true_not_nan_r (u v : float) : (u <? v) = true -> is_nan v = false.
Proof.
  intros H. apply ltb_true_ranked in H. destruct H as (a & b & _ & Hb).
  apply is_nan_rank. eauto.
Qed.

Lemma frank_two53 : frank two53 = Some (1, 1, 4503599627370496)%Z.
Proof. reflexivity. Qed.

Lemma counter_le_two53 (k : Z) : (0 <= k <= 2 ^ 53)%Z -> (Z2float k <=? two53) = true.
Proof.
  intros Hk. destruct (Z.eq_dec k (2 ^ 53)) as [->|Hne]; [reflexivity|].
  assert (Hk' : (0 <= k < 2 ^ 53)%Z) by lia.
  apply (leb_rank _ _ _ _ (frank_Z2float k Hk') frank_two53).
  destruct k as [|p|p]; [cbn; lia| |lia].
  assert (Zpos (digits2_pos p) <= 53)%Z by (apply digits2_le_53; lia).
  cbn [rank_le]. lia.
Qed.

(** A count between 0 and [2^53]: the number of rounds. *)
Lemma rounds_finite (count : float) :
  (0 <? count) = true -> (count <=? two53) = true ->
  exists m e,
    Prim2SF count = S754_finite false m e /\
    rounds count = Some (Z.to_nat (- Z.shiftl (Zneg m) e)) /\
    (1 <= - Z.shiftl (Zneg m) e <= 2 ^ 53)%Z.
Proof.
  intros H0 H53. unfold rounds. rewrite H0, H53.
  pose proof (Prim2SF_valid count) as V.
  pose proof (leb_true_ltb_false _ _ H53) as Hlt.
  rewrite ltb_spec in H0. rewrite leb_spec in H53.
  change (Prim2SF 0) with (S754_zero false) in H0.
  destruct (Prim2SF count) as [s|s| |s m e] eqn:E; try destruct s; try discriminate.
  exists m, e. split; [reflexivity|]. split; [reflexivity|].
  pose proof (valid_exponent _ _ _ V) as He.
  pose proof (ceil_spec m e 0 He) as C0. pose proof (ceil_spec m e (2 ^ 53) He) as C53.
  assert (F : frank count = Some (1, e, Zpos m)%Z) by (unfold frank; now rewrite E).
  apply (ltb_rank _ _ _ _ frank_two53 F) in Hlt.
  assert (V53 : valid_binary (S754_finite false 4503599627370496 1) = true) by reflexivity.
  pose proof (rank_value _ _ _ _ V53 V) as Hrv.
  assert (Hs : (4503599627370496 * 2 ^ (1 + 1074) = 2 ^ 53 * 2 ^ 1074)%Z) by reflexivity.
  rewrite Hs in Hrv.
  assert (0 < 2 ^ (e + 1074))%Z by (apply Z.pow_pos_nonneg; lia).
  split.
  - assert (0 < - Z.shiftl (Zneg m) e)%Z by (apply C0; nia). lia.
  - destruct (Z.leb_spec (- Z.shiftl (Zneg m) e) (2 ^ 53)) as [|Hgt]; [assumption|].
    apply C53, Hrv in Hgt.
    exfalso. eapply rank_lt_irrefl. eapply rank_lt_le_trans; [exact Hgt|exact Hlt].
Qed.

Section Loop.

Context {S : Type}.
Variable body : S -> M S.

Lemma for_loop_finite (count : float) (m : positive) (e : Z) :
  Prim2SF count = S754_finite false m e -> (count <=? two53) = true ->
  (- Z.shiftl (Zneg m) e <= 2 ^ 53)%Z ->
  forall (j : nat) (k : Z) (fuel : nat) (s : S) (w : World),
    (k + Z.of_nat j = - Z.shiftl (Zneg m) e)%Z -> (0 <= k)%Z -> (j < fuel)%nat ->
    for_loop fuel (Z2float k) count body s w = times j body s w.
Proof.
  intros Hc H53 Hmax.
  induction j as [|j IH]; intros k fuel s w Hk H0 Hf;
    (destruct fuel as [|fuel]; [lia|]); cbn [for_loop times].
  - assert (Htest : (Z2float k <? count) = false).
    { destruct (Z.eq_dec k (2 ^ 53)) as [->|Hne].
      - rewrite Z2float_two53. now apply leb_true_ltb_false.
      - rewrite (counter_test count m e k Hc) by lia. apply Z.ltb_ge. lia. }
    now rewrite Htest.
  - assert (Htest : (Z2float k <? count) = true).
    { rewrite (counter_test count m e k Hc) by lia. apply Z.ltb_lt. lia. }
    rewrite Htest. unfold bind. destruct (body s w) as [[s' w']|]; [|reflexivity].
    rewrite counter_step by lia. apply IH; lia.
Qed.

Lemma for_loop_endless (count : float) :
  (0 <? count) = true -> (count <=? two53) = false ->
  forall (fuel : nat) (k : Z) (s : S) (w : World),
    (0 <= k <= 2 ^ 53)%Z -> for_loop fuel (Z2float k) count body s w = None.
Proof.
  intros H0 H53.
  assert (Hbig : (two53 <? count) = true).
  { apply leb_false_ltb_true; [now apply ltb_true_not_nan_r in H0|reflexivity|exact H53]. }
  induction fuel as [|fuel IH]; intros k s w Hk; cbn [for_loop]; [reflexivity|].
  assert (Htest : (Z2float k <? count) = true).
  { pose proof (counter_le_two53 k Hk) as Hle.
    destruct (leb_true_ranked _ _ Hle) as (rk & r53 & Fk & F53).
    destruct (ltb_true_ranked _ _ Hbig) as (r53' & rc & F53' & Fc).
    rewrite F53 in F53'. injection F53' as <-.
    apply (leb_rank _ _ _ _ Fk F53) in Hle. apply (ltb_rank _ _ _ _ F53 Fc) in Hbig.
    apply (ltb_rank _ _ _ _ Fk Fc). eapply rank_le_lt_trans; eauto. }
  rewrite Htest. unfold bind. destruct (body s w) as [[s' w']|]; [|reflexivity].
  destruct (Z.eq_dec k (2 ^ 53)) as [->|Hne].
  - replace (Z2float (2 ^ 53) + 1) with (Z2float (2 ^ 53)) by reflexivity. apply IH. lia.
  - rewrite counter_step by lia. apply IH. lia.
Qed.

End Loop.

(** X8. the counting loop as it is written.  Run with a double for its
    counter, the loop makes exactly the rounds that the embedding counts: none
    for a count that is not above 0 (NaN among them); as many as there are
    integers from 0 that are below the count, when it is at most [2^53]; and
    it never ends for a larger count, the counter staying at [2^53]. *)
Theorem for_loop_rounds (S : Type) (count : float) (body : S -> M S) (s : S) (w : World) :
  match rounds count with
  | Some n =>
      (forall fuel, (n < fuel)%nat ->
         for_loop fuel 0 count body s w = for_count count body s w) /\
      (forall k, (0 <= k < 2 ^ 53)%Z -> (Z2float k <? count) = (k <? Z.of_nat n)%Z)
  | None =>
      (forall fuel, for_loop fuel 0 count body s w = None) /\
      for_count count body s w = None /\ (two53 <? count) = true
  end.
Proof.
  unfold for_count.
  destruct (0 <? count) eqn:H0; [destruct (count <=? two53) eqn:H53|].
  - destruct (rounds_finite count H0 H53) as (m & e & Hc & -> & Hlo & Hhi). split.
    + intros fuel Hf. rewrite <- Z2float_0.
      apply (for_loop_finite body count m e Hc H53 Hhi); lia.
    + intros k Hk. rewrite (counter_test count m e k Hc Hk). f_equal. lia.
  - unfold rounds. rewrite H0, H53. split; [|split; [reflexivity|]].
    + intros fuel. rewrite <- Z2float_0. apply for_loop_endless; [assumption|assumption|lia].
    + apply leb_false_ltb_true; [now apply ltb_true_not_nan_r in H0|reflexivity|exact H53].
  - unfold rounds. rewrite H0. split.
    + intros [|fuel] Hf; [lia|]. cbn [for_loop times]. now rewrite H0.
    + intros k Hk. change (Z.of_nat 0) with 0%Z.
      destruct (Z.ltb_spec k 0) as [|_]; [lia|].
      destruct (Z2float k <? count) eqn:E; [|reflexivity].
      assert (Hz : (0 <=? Z2float k) = true).
      { apply nonneg_rank. eexists. split; [apply (frank_Z2float k Hk)|].
        destruct k as [|p|p]; cbn; lia. }
      destruct (leb_true_ranked _ _ Hz) as (r0 & rk & F0 & Fk).
      destruct (ltb_true_ranked _ _ E) as (rk' & rc & Fk' & Fc).
      rewrite Fk in Fk'. injection Fk' as <-.
      apply (leb_rank _ _ _ _ F0 Fk) in Hz. apply (ltb_rank _ _ _ _ Fk Fc) in E.
      assert (Hlt : (0 <? count) = true).
      { apply (ltb_rank _ _ _ _ F0 Fc). eapply rank_le_lt_trans; eauto. }
      congruence.
Qed.

(** * What the rounding of [SpecFloat] computes *)

Lemma iter_pos_nat {A} (f : A -> A) (p : positive) :
  forall x, iter_pos f p x = Nat.iter (Pos.to_nat p) f x.
Proof.
  induction p as [p IH|p IH|]; intros x; cbn [iter_pos].
  - rewrite !IH, Pos2Nat.inj_xI, <- Nat.iter_add, <- Nat.iter_succ_r.
    f_equal. lia.
  - rewrite !IH, Pos2Nat.inj_xO, <- Nat.iter_add. f_equal. lia.
  - reflexivity.
Qed.

Lemma shr_r_shr_1 mrs : (0 <= shr_m mrs)%Z -> shr_r (shr_1 mrs) = Z.odd (shr_m mrs).
Proof. destruct mrs as [[|[p|p|]|p] r s]; cbn; intros H; try lia; reflexivity. Qed.

Lemma shr_s_shr_1 mrs : shr_s (shr_1 mrs) = shr_r mrs || shr_s mrs.
Proof. destruct mrs as [[|[p|p|]|[p|p|]] r s]; reflexivity. Qed.

Lemma mod_pow2_succ (m j : Z) :
  (0 <= j)%Z ->
  (m mod 2 ^ (j + 1) = m mod 2 ^ j + 2 ^ j * (if Z.odd (m / 2 ^ j) then 1 else 0))%Z.
Proof.
  intros Hj. rewrite Z.pow_add_r by lia. change (2 ^ 1)%Z with 2%Z.
  assert (0 < 2 ^ j)%Z by (apply Z.pow_pos_nonneg; lia).
  rewrite Z.rem_mul_r by lia. now rewrite Zmod_odd.
Qed.

(** [n + 1] shifts of a mantissa that comes with no remainder. *)
Lemma shr_iter (m : Z) (n : nat) :
  (0 <= m)%Z ->
  Nat.iter (S n) shr_1 (Build_shr_record m false false) =
  Build_shr_record (m / 2 ^ (Z.of_nat n + 1))
                   (Z.odd (m / 2 ^ Z.of_nat n))
                   (negb (m mod 2 ^ Z.of_nat n =? 0)%Z).
Proof.
  intros Hm. induction n as [|n IH].
  - rewrite Nat.iter_succ.
    change (Nat.iter 0 shr_1 (Build_shr_record m false false))
      with (Build_shr_record m false false).
    change (Z.of_nat 0) with 0%Z.
    change (2 ^ (0 + 1))%Z with 2%Z. change (2 ^ 0)%Z with 1%Z.
    rewrite Z.div_1_r, Z.mod_1_r. cbn [Z.eqb negb].
    set (R := Build_shr_record m false false).
    pose proof (shr_m_shr_1 R Hm) as H1. pose proof (shr_r_shr_1 R Hm) as H2.
    pose proof (shr_s_shr_1 R) as H3.
    destruct (shr_1 R) as [m' r' s']. cbn [shr_m shr_r shr_s R orb] in H1, H2, H3.
    now subst.
  - rewrite Nat.iter_succ, IH.
    set (R := Build_shr_record _ _ _).
    assert (Hq : (0 <= shr_m R)%Z) by (apply Z.div_pos; [lia|apply Z.pow_pos_nonneg; lia]).
    pose proof (shr_m_shr_1 R Hq) as H1. pose proof (shr_r_shr_1 R Hq) as H2.
    pose proof (shr_s_shr_1 R) as H3.
    destruct (shr_1 R) as [m' r' s']. cbn [shr_m shr_r shr_s] in H1, H2, H3.
    subst m' r' s'. subst R. cbn [shr_m shr_r shr_s].
    rewrite Nat2Z.inj_succ, <- !Z.add_1_r.
    f_equal.
    + rewrite Z.div_div by (try apply Z.pow_pos_nonneg; lia).
      rewrite (Z.pow_add_r 2 (Z.of_nat n + 1) 1) by lia. reflexivity.
    + rewrite (mod_pow2_succ m (Z.of_nat n)) by lia.
      assert (0 < 2 ^ Z.of_nat n)%Z by (apply Z.pow_pos_nonneg; lia).
      pose proof (Z.mod_pos_bound m (2 ^ Z.of_nat n) ltac:(lia)).
      destruct (Z.odd (m / 2 ^ Z.of_nat n)); cbn [orb].
      * symmetry. apply negb_true_iff, Z.eqb_neq. lia.
      * rewrite Z.mul_0_r, Z.add_0_r. reflexivity.
Qed.

(** Shifting by [k] places and rounding the last place. *)
Lemma shr_nearest (m k : Z) :
  (0 <= m)%Z -> (0 < k)%Z ->
  let mrs := iter_pos shr_1 (Z.to_pos k) (Build_shr_record m false false) in
  round_nearest_even (shr_m mrs) (loc_of_shr_record mrs) = nearest m k.
Proof.
  intros Hm Hk mrs. subst mrs. rewrite iter_pos_nat.
  destruct (Pos.to_nat (Z.to_pos k)) as [|n] eqn:En; [lia|].
  assert (Ek : k = (Z.of_nat n + 1)%Z) by lia.
  rewrite shr_iter by exact Hm. cbn [shr_m]. unfold nearest.
  replace (k - 1)%Z with (Z.of_nat n) by lia. rewrite Ek.
  rewrite (mod_pow2_succ m (Z.of_nat n)) by lia.
  assert (Hp : (0 < 2 ^ Z.of_nat n)%Z) by (apply Z.pow_pos_nonneg; lia).
  pose proof (Z.mod_pos_bound m (2 ^ Z.of_nat n) Hp) as Hb.
  set (q := (m / 2 ^ (Z.of_nat n + 1))%Z).
  set (low := (m mod 2 ^ Z.of_nat n)%Z) in *. set (half := (2 ^ Z.of_nat n)%Z) in *.
  destruct (Z.odd (m / half)); cbn [loc_of_shr_record].
  - rewrite Z.mul_1_r.
    destruct (Z.ltb_spec (low + half) half) as [|_]; [lia|].
    destruct (Z.eqb_spec low 0) as [E0|N0]; cbn [negb loc_of_shr_record round_nearest_even].
    + rewrite E0, Z.add_0_l, Z.eqb_refl. reflexivity.
    + destruct (Z.eqb_spec (low + half) half) as [|_]; [lia|]. reflexivity.
  - rewrite Z.mul_0_r, Z.add_0_r.
    destruct (Z.ltb_spec low half) as [_|]; [|lia].
    destruct (low =? 0)%Z; reflexivity.
Qed.

Local Open Scope Z_scope.

Lemma fexp_eq (x : Z) : fexp prec emax x = Z.max (x - 53) (-1074).
Proof. reflexivity. Qed.

Lemma Zdigits2_pos (p : positive) : Zdigits2 (Zpos p) = Zpos (digits2_pos p).
Proof. reflexivity. Qed.

Lemma Zdigits2_bounds (m : Z) :
  0 < m -> 2 ^ (Zdigits2 m - 1) <= m < 2 ^ Zdigits2 m /\ 0 < Zdigits2 m.
Proof.
  destruct m as [|p|p]; intros H; try lia. rewrite Zdigits2_pos.
  split; [apply digits2_bounds|lia].
Qed.

Lemma Zdigits2_nonneg (m : Z) : 0 <= m -> 0 <= Zdigits2 m.
Proof. destruct m as [|p|p]; cbn; lia. Qed.

(** A mantissa below [2^53] at an exponent of at least [emin] stays. *)
Lemma shr_fexp_settled (m t : Z) :
  0 <= m < 2 ^ 53 -> -1074 <= t ->
  shr_fexp prec emax m t loc_Exact = (Build_shr_record m false false, t).
Proof.
  intros Hm Ht. unfold shr_fexp, shr.
  pose proof (Zdigits2_le m 53 Hm ltac:(lia)) as Hd. rewrite fexp_eq.
  destruct (Z.max (Zdigits2 m + t - 53) (-1074) - t) as [|n|n] eqn:E; try reflexivity. lia.
Qed.

(** The mantissa [2^53], which a rounding up may reach, is halved. *)
Lemma shr_fexp_carry (t : Z) :
  -1074 <= t ->
  shr_fexp prec emax (2 ^ 53) t loc_Exact = (Build_shr_record (2 ^ 52) false false, t + 1).
Proof.
  intros Ht. unfold shr_fexp, shr. rewrite fexp_eq.
  change (Zdigits2 (2 ^ 53)) with 54.
  replace (Z.max (54 + t - 53) (-1074) - t) with 1 by lia. reflexivity.
Qed.

Lemma nearest_bounds (m k : Z) :
  0 <= m -> 0 < k -> m / 2 ^ k <= nearest m k <= m / 2 ^ k + 1.
Proof.
  intros Hm Hk. unfold nearest.
  destruct (_ <? _); [lia|]. destruct (_ =? _); [destruct (Z.even _); lia|lia].
Qed.

(** The quotient of a [d]-digit mantissa by [2^k]. *)
Lemma quotient_bounds (m k : Z) :
  0 < m -> 0 < k ->
  let d := Zdigits2 m in
  m / 2 ^ k < 2 ^ Z.max (d - k) 0 /\ (k < d -> 2 ^ (d - k - 1) <= m / 2 ^ k).
Proof.
  intros Hm Hk d. destruct (Zdigits2_bounds m Hm) as [[Hlo Hhi] Hd]. fold d in Hlo, Hhi, Hd.
  assert (Hp : 0 < 2 ^ k) by (apply Z.pow_pos_nonneg; lia).
  split.
  - apply Z.div_lt_upper_bound; [exact Hp|].
    destruct (Z.leb_spec k d) as [Hle|Hgt].
    + rewrite Z.max_l by lia. rewrite <- Z.pow_add_r by lia.
      replace (k + (d - k)) with d by lia. exact Hhi.
    + rewrite Z.max_r by lia. rewrite Z.mul_1_r.
      assert (2 ^ d <= 2 ^ k) by (apply Z.pow_le_mono_r; lia). lia.
  - intros Hlt. apply Z.div_le_lower_bound; [exact Hp|].
    rewrite <- Z.pow_add_r by lia. replace (k + (d - k - 1)) with (d - 1) by lia. exact Hlo.
Qed.

(** What [binary_round_aux] returns for a mantissa [m] that is exact at [e],
    where [e] is not above the exponent [t] that the digits of [m] ask for:
    [m] itself when [e = t], and otherwise [m / 2^(t - e)] rounded to nearest
    even, at [t]; that mantissa over [m3] and [e3], the exponent one higher
    when the rounding reached [2^53]. *)
Lemma binary_round_aux_value (s : bool) (m e : Z) :
  0 < m ->
  let t := fexp prec emax (Zdigits2 m + e) in
  e <= t ->
  exists m3 e3,
    t <= e3 /\ 0 <= m3 < 2 ^ 53 /\
    m3 * 2 ^ (e3 - t) = (if t - e =? 0 then m else nearest m (t - e)) /\
    (-1074 < e3 -> m3 = 0 \/ 2 ^ 52 <= m3) /\
    binary_round_aux prec emax s m e loc_Exact =
    match m3 with
    | 0 => S754_zero s
    | Zpos p3 => if e3 <=? 971 then S754_finite s p3 e3 else S754_infinity s
    | Zneg _ => S754_nan
    end.
Proof.
  intros Hm t Ht.
  destruct (Zdigits2_bounds m Hm) as [[Hlo Hhi] Hd].
  assert (Htmin : -1074 <= t) by (subst t; rewrite fexp_eq; lia).
  assert (Ht53 : Zdigits2 m + e - 53 <= t) by (subst t; rewrite fexp_eq; lia).
  assert (Hnormal : -1074 < t -> t = Zdigits2 m + e - 53) by (subst t; rewrite fexp_eq; lia).
  destruct (Z.eqb_spec (t - e) 0) as [E0|N0].
  - (* already at its exponent *)
    assert (Et : e = t) by lia.
    assert (Hm53 : m < 2 ^ 53).
    { assert (2 ^ Zdigits2 m <= 2 ^ 53) by (apply Z.pow_le_mono_r; lia). lia. }
    exists m, e. rewrite <- Et, Z.sub_diag. change (2 ^ 0) with 1.
    split; [lia|]. split; [lia|]. split; [lia|]. split.
    + intros He. right. rewrite (Hnormal ltac:(lia)) in Et.
      assert (Zdigits2 m = 53) as E53 by lia. rewrite E53 in Hlo. exact Hlo.
    + unfold binary_round_aux. fold t in Et.
      assert (S1 : shr_fexp prec emax m e loc_Exact = (Build_shr_record m false false, e)).
      { unfold shr_fexp, shr. fold t. rewrite E0. reflexivity. }
      rewrite S1. cbn [shr_m loc_of_shr_record round_nearest_even]. rewrite S1.
      cbn [shr_m]. reflexivity.
  - (* shifted by [k] places and rounded *)
    set (k := t - e) in *. assert (Hk : 0 < k) by lia.
    assert (S1 : shr_fexp prec emax m e loc_Exact
                 = (iter_pos shr_1 (Z.to_pos k) (Build_shr_record m false false), t)).
    { unfold shr_fexp, shr. fold t. fold k.
      destruct k as [|pk|pk] eqn:Ek; try lia. cbn [Z.to_pos]. f_equal. lia. }
    pose proof (shr_nearest m k ltac:(lia) Hk) as Hn. cbv zeta in Hn.
    pose proof (nearest_bounds m k ltac:(lia) Hk) as Hb.
    pose proof (quotient_bounds m k Hm Hk) as [Hq Hq']. cbv zeta in Hq, Hq'.
    assert (Hdk : Zdigits2 m - k <= 53) by lia.
    assert (Hq53 : m / 2 ^ k < 2 ^ 53).
    { assert (2 ^ Z.max (Zdigits2 m - k) 0 <= 2 ^ 53) by (apply Z.pow_le_mono_r; lia). lia. }
    assert (Hq0 : 0 <= m / 2 ^ k) by (apply Z.div_pos; [lia|apply Z.pow_pos_nonneg; lia]).
    set (m2 := nearest m k) in *.
    assert (Hlow : -1074 < t -> 2 ^ 52 <= m2).
    { intros Hn'. specialize (Hnormal Hn').
      assert (Zdigits2 m - k - 1 = 52) as E52 by lia.
      specialize (Hq' ltac:(lia)). rewrite E52 in Hq'. lia. }
    unfold binary_round_aux. rewrite S1, Hn.
    destruct (Z.eq_dec m2 (2 ^ 53)) as [Ecarry|Ncarry].
    + exists (2 ^ 52), (t + 1). rewrite Ecarry, shr_fexp_carry by exact Htmin.
      cbn [shr_m]. split; [lia|]. split; [cbn; lia|].
      split; [replace (t + 1 - t) with 1 by lia; reflexivity|]. split; [right; lia|].
      reflexivity.
    + exists m2, t. rewrite shr_fexp_settled by lia. cbn [shr_m].
      rewrite Z.sub_diag, Z.mul_1_r. split; [lia|]. split; [lia|]. split; [reflexivity|].
      split; [|reflexivity]. intros Hn'. right. now apply Hlow.
Qed.

Local Close Scope Z_scope.

Local Open Scope Z_scope.

(** * Rounding is monotone *)

Lemma nearest_scale (m k j : Z) :
  0 <= m -> 0 < k -> 0 <= j -> nearest (m * 2 ^ j) (k + j) = nearest m k.
Proof.
  intros Hm Hk Hj. unfold nearest.
  assert (Pj : 0 < 2 ^ j) by (apply Z.pow_pos_nonneg; lia).
  assert (Pk : 0 < 2 ^ k) by (apply Z.pow_pos_nonneg; lia).
  assert (Ph : 0 < 2 ^ (k - 1)) by (apply Z.pow_pos_nonneg; lia).
  rewrite (Z.pow_add_r 2 k j) by lia.
  rewrite Z.div_mul_cancel_r by lia.
  rewrite Z.mul_mod_distr_r by lia.
  replace (k + j - 1) with ((k - 1) + j) by lia. rewrite (Z.pow_add_r 2 (k - 1) j) by lia.
  set (r := m mod 2 ^ k). set (h := 2 ^ (k - 1)). set (P := 2 ^ j) in *.
  destruct (Z.ltb_spec r h) as [Hlt|Hge].
  - destruct (Z.ltb_spec (r * P) (h * P)) as [_|H]; [reflexivity|nia].
  - destruct (Z.ltb_spec (r * P) (h * P)) as [H|_]; [nia|].
    destruct (Z.eqb_spec r h) as [->|Hne].
    + now rewrite Z.eqb_refl.
    + destruct (Z.eqb_spec (r * P) (h * P)) as [H|_]; [nia|reflexivity].
Qed.

Lemma nearest_exact (m j : Z) : 0 <= m -> 0 < j -> nearest (m * 2 ^ j) j = m.
Proof.
  intros Hm Hj. unfold nearest.
  assert (Pj : 0 < 2 ^ j) by (apply Z.pow_pos_nonneg; lia).
  assert (Ph : 0 < 2 ^ (j - 1)) by (apply Z.pow_pos_nonneg; lia).
  rewrite Z.div_mul by lia. rewrite Z.mod_mul by lia.
  destruct (Z.ltb_spec 0 (2 ^ (j - 1))); [reflexivity|lia].
Qed.

Lemma nearest_mono (N1 N2 k : Z) :
  0 <= N1 <= N2 -> 0 < k -> nearest N1 k <= nearest N2 k.
Proof.
  intros HN Hk.
  assert (Pk : 0 < 2 ^ k) by (apply Z.pow_pos_nonneg; lia).
  pose proof (Z.div_le_mono N1 N2 (2 ^ k) Pk ltac:(lia)) as Hq.
  pose proof (nearest_bounds N1 k ltac:(lia) Hk) as B1.
  pose proof (nearest_bounds N2 k ltac:(lia) Hk) as B2.
  destruct (Z.eq_dec (N1 / 2 ^ k) (N2 / 2 ^ k)) as [E|Hne]; [|lia].
  pose proof (Z.div_mod N1 (2 ^ k) ltac:(lia)) as D1.
  pose proof (Z.div_mod N2 (2 ^ k) ltac:(lia)) as D2.
  assert (Hr : N1 mod 2 ^ k <= N2 mod 2 ^ k) by (rewrite E in D1; lia).
  unfold nearest. rewrite E.
  destruct (Z.ltb_spec (N1 mod 2 ^ k) (2 ^ (k - 1))),
           (Z.ltb_spec (N2 mod 2 ^ k) (2 ^ (k - 1))),
           (Z.eqb_spec (N1 mod 2 ^ k) (2 ^ (k - 1))),
           (Z.eqb_spec (N2 mod 2 ^ k) (2 ^ (k - 1))),
           (Z.even (N2 / 2 ^ k)); lia.
Qed.

Lemma Zdigits2_mono (N1 N2 : Z) : 0 <= N1 <= N2 -> Zdigits2 N1 <= Zdigits2 N2.
Proof.
  intros H. destruct (Z.eq_dec N2 0) as [->|Hne].
  - replace N1 with 0 by lia. lia.
  - destruct (Zdigits2_bounds N2 ltac:(lia)) as [[_ Hhi] Hd].
    apply Zdigits2_le; lia.
Qed.

Lemma lastPlace_pos (N : Z) : 0 < lastPlace N.
Proof. unfold lastPlace. lia. Qed.

Lemma rounded_0 : rounded 0 = 0.
Proof. reflexivity. Qed.

Lemma rounded_nonneg (N : Z) : 0 <= N -> 0 <= rounded N.
Proof.
  intros H. unfold rounded. pose proof (lastPlace_pos N).
  pose proof (nearest_bounds N (lastPlace N) H ltac:(lia)).
  assert (0 <= N / 2 ^ lastPlace N) by (apply Z.div_pos; [lia|apply Z.pow_pos_nonneg; lia]).
  assert (0 < 2 ^ lastPlace N) by (apply Z.pow_pos_nonneg; lia). nia.
Qed.

Lemma rounded_mono (N1 N2 : Z) : 0 <= N1 <= N2 -> rounded N1 <= rounded N2.
Proof.
  intros HN. destruct (Z.eq_dec N1 0) as [->|Hpos].
  { rewrite rounded_0. apply rounded_nonneg. lia. }
  pose proof (Zdigits2_mono N1 N2 HN) as Hd.
  unfold rounded.
  pose proof (lastPlace_pos N1) as K1. pose proof (lastPlace_pos N2) as K2.
  destruct (Z.eq_dec (lastPlace N1) (lastPlace N2)) as [E|Hne].
  - rewrite E. apply Z.mul_le_mono_nonneg_r; [apply Z.pow_nonneg; lia|].
    apply nearest_mono; lia.
  - assert (Hlt : lastPlace N1 < lastPlace N2) by (unfold lastPlace in *; lia).
    assert (E2 : lastPlace N2 = Zdigits2 N2 - 53) by (unfold lastPlace in *; lia).
    assert (H1 : Zdigits2 N1 - 53 <= lastPlace N1) by (unfold lastPlace; lia).
    set (d1 := Zdigits2 N1) in *. set (d2 := Zdigits2 N2) in *.
    set (k1 := lastPlace N1) in *. set (k2 := lastPlace N2) in *.
    (* the smaller number rounds to at most [2^max(d1, k1)] *)
    pose proof (nearest_bounds N1 k1 ltac:(lia) K1) as B1.
    pose proof (quotient_bounds N1 k1 ltac:(lia) K1) as [Q1 _]. cbv zeta in Q1. fold d1 in Q1.
    assert (P1 : 0 < 2 ^ k1) by (apply Z.pow_pos_nonneg; lia).
    assert (U1 : nearest N1 k1 * 2 ^ k1 <= 2 ^ (Z.max (d1 - k1) 0 + k1)).
    { rewrite Z.pow_add_r by lia. apply Z.mul_le_mono_nonneg_r; lia. }
    (* the larger one to at least [2^(d2 - 1)] *)
    pose proof (nearest_bounds N2 k2 ltac:(lia) K2) as B2.
    pose proof (quotient_bounds N2 k2 ltac:(lia) K2) as [_ Q2]. cbv zeta in Q2. fold d2 in Q2.
    specialize (Q2 ltac:(lia)).
    assert (P2 : 0 < 2 ^ k2) by (apply Z.pow_pos_nonneg; lia).
    assert (L2 : 2 ^ (d2 - k2 - 1 + k2) <= nearest N2 k2 * 2 ^ k2).
    { rewrite Z.pow_add_r by lia. apply Z.mul_le_mono_nonneg_r; lia. }
    assert (2 ^ (Z.max (d1 - k1) 0 + k1) <= 2 ^ (d2 - k2 - 1 + k2))
      by (apply Z.pow_le_mono_r; lia).
    lia.
Qed.

(** A number that a double holds is its own rounding. *)
Lemma rounded_exact (m : positive) (e : Z) :
  valid_binary (S754_finite false m e) = true ->
  rounded (Zpos m * 2 ^ (e + 2148)) = Zpos m * 2 ^ (e + 2148).
Proof.
  intros V. apply valid_digits in V. destruct V as (Hd & He & Hf).
  rewrite fexp_eq in Hf.
  assert (Ed : Zdigits2 (Zpos m * 2 ^ (e + 2148)) = Zpos (digits2_pos m) + (e + 2148)).
  { assert (P : 0 < 2 ^ (e + 2148)) by (apply Z.pow_pos_nonneg; lia).
    destruct (Zpos m * 2 ^ (e + 2148)) as [|N|N] eqn:EN; try lia.
    rewrite Zdigits2_pos. apply (digits2_scaled N m (e + 2148)); lia. }
  unfold rounded, lastPlace. rewrite Ed.
  replace (Z.max (Zpos (digits2_pos m) + (e + 2148) - 53) 1074) with (e + 2148) by lia.
  rewrite nearest_exact by lia. reflexivity.
Qed.

(** [binary_round_aux], by the value it rounds. *)
Lemma binary_round_aux_magnitude (s : bool) (m e : Z) :
  0 < m -> -2148 <= e -> e <= fexp prec emax (Zdigits2 m + e) ->
  magnitude s (rounded (m * 2 ^ (e + 2148))) (binary_round_aux prec emax s m e loc_Exact).
Proof.
  intros Hm He Ht.
  destruct (binary_round_aux_value s m e Hm Ht) as (m3 & e3 & Ht3 & Hm3 & Hv & Hc & ->).
  set (t := fexp prec emax (Zdigits2 m + e)) in *.
  assert (Htmin : -1074 <= t) by (subst t; rewrite fexp_eq; lia).
  assert (P : 0 < 2 ^ (e + 2148)) by (apply Z.pow_pos_nonneg; lia).
  assert (Ed : Zdigits2 (m * 2 ^ (e + 2148)) = Zdigits2 m + (e + 2148)).
  { destruct m as [|pm|pm]; try lia.
    destruct (Zpos pm * 2 ^ (e + 2148)) as [|N|N] eqn:EN; try lia.
    rewrite !Zdigits2_pos. apply (digits2_scaled N pm (e + 2148)); lia. }
  assert (EK : lastPlace (m * 2 ^ (e + 2148)) = t + 2148).
  { unfold lastPlace. rewrite Ed. subst t. rewrite fexp_eq. lia. }
  assert (ER : rounded (m * 2 ^ (e + 2148)) = m3 * 2 ^ (e3 + 2148)).
  { unfold rounded. rewrite EK.
    replace (e3 + 2148) with ((e3 - t) + (t + 2148)) by lia.
    rewrite (Z.pow_add_r 2 (e3 - t) (t + 2148)) by lia. rewrite Z.mul_assoc, Hv.
    f_equal. destruct (Z.eqb_spec (t - e) 0) as [E0|N0].
    - replace (t + 2148) with (e + 2148) by lia. apply nearest_exact; lia.
    - replace (t + 2148) with ((t - e) + (e + 2148)) by lia. apply nearest_scale; lia. }
  rewrite ER. destruct m3 as [|p3|p3]; [|..|lia].
  - cbn. auto.
  - destruct (Z.leb_spec e3 971) as [Hle|Hgt]; cbn [magnitude].
    + split; [reflexivity|]. split; [lia|reflexivity].
    + split; [reflexivity|]. destruct (Hc ltac:(lia)) as [?|Hbig]; [lia|].
      assert (2 ^ (972 + 2148) <= 2 ^ (e3 + 2148)) by (apply Z.pow_le_mono_r; lia).
      assert (0 < 2 ^ (e3 + 2148)) by (apply Z.pow_pos_nonneg; lia).
      assert (2 ^ 52 * 2 ^ (972 + 2148) <= Zpos p3 * 2 ^ (e3 + 2148)).
      { apply Z.mul_le_mono_nonneg; try lia. }
      rewrite <- Z.pow_add_r in H1 by lia. exact H1.
Qed.

Local Close Scope Z_scope.

Local Open Scope Z_scope.

(** * The operations, by the numbers they round *)

Lemma rank_le_not_lt a b : rank_le a b <-> ~ rank_lt b a.
Proof. destruct a as [[? ?] ?], b as [[? ?] ?]; cbn; lia. Qed.

Lemma value_scale (m : positive) (e : Z) :
  -1074 <= e -> Zpos m * 2 ^ (e + 2148) = Zpos m * 2 ^ (e + 1074) * 2 ^ 1074.
Proof.
  intros He. rewrite <- Z.mul_assoc, <- Z.pow_add_r by lia. do 2 f_equal. lia.
Qed.

Lemma SFleb_positive (m1 m2 : positive) (e1 e2 : Z) :
  valid_binary (S754_finite false m1 e1) = true ->
  valid_binary (S754_finite false m2 e2) = true ->
  (rank_le (1, e1, Zpos m1) (1, e2, Zpos m2)
   <-> Zpos m1 * 2 ^ (e1 + 2148) <= Zpos m2 * 2 ^ (e2 + 2148)).
Proof.
  intros V1 V2. rewrite rank_le_not_lt, (rank_value _ _ _ _ V2 V1).
  rewrite !value_scale by (eapply valid_exponent; eassumption).
  assert (0 < 2 ^ 1074) by (apply Z.pow_pos_nonneg; lia). nia.
Qed.

Lemma valid_opp (s : bool) (m : positive) (e : Z) :
  valid_binary (S754_finite s m e) = valid_binary (S754_finite false m e).
Proof. reflexivity. Qed.

Lemma SFleb_rank (f1 f2 : spec_float) a b :
  rank f1 = Some a -> rank f2 = Some b -> rank_le a b -> SFleb f1 f2 = true.
Proof.
  intros Ha Hb H. unfold SFleb. rewrite SFcompare_rank, Ha, Hb.
  apply rank_le_cases in H. destruct (rank_compare a b); congruence.
Qed.

(** Two doubles that hold roundings are ordered as the numbers they hold. *)
Lemma magnitude_order (s1 s2 : bool) (V1 V2 : Z) (f1 f2 : spec_float) :
  magnitude s1 V1 f1 -> magnitude s2 V2 f2 ->
  valid_binary f1 = true -> valid_binary f2 = true ->
  0 <= V1 -> 0 <= V2 -> cond_Zopp s1 V1 <= cond_Zopp s2 V2 ->
  SFleb f1 f2 = true.
Proof.
  intros M1 M2 W1 W2 P1 P2 Hle.
  assert (Hbig : forall (m : positive) (e : Z), valid_binary (S754_finite false m e) = true ->
            Zpos m * 2 ^ (e + 2148) < 2 ^ (1024 + 2148)).
  { intros m e V. pose proof (valid_mantissa _ _ _ V) as Hm.
    apply valid_digits in V. destruct V as (_ & He & Hf). rewrite fexp_eq in Hf.
    assert (2 ^ (e + 2148) <= 2 ^ (971 + 2148)) by (apply Z.pow_le_mono_r; lia).
    assert (0 < 2 ^ (e + 2148)) by (apply Z.pow_pos_nonneg; lia).
    assert (Zpos m * 2 ^ (e + 2148) <= Zpos m * 2 ^ (971 + 2148))
      by (apply Z.mul_le_mono_nonneg_l; lia).
    assert (H3 : Zpos m * 2 ^ (971 + 2148) < 2 ^ 53 * 2 ^ (971 + 2148))
      by (apply Z.mul_lt_mono_pos_r; [apply Z.pow_pos_nonneg; lia|lia]).
    rewrite <- Z.pow_add_r in H3 by lia. change (53 + (971 + 2148)) with (1024 + 2148) in H3.
    lia. }
  assert (Hpos : forall (m : positive) (e : Z), -1074 <= e -> 0 < Zpos m * 2 ^ (e + 2148)).
  { intros m e He. assert (0 < 2 ^ (e + 2148)) by (apply Z.pow_pos_nonneg; lia). lia. }
  destruct f1 as [t1|t1| |t1 m1 e1], f2 as [t2|t2| |t2 m2 e2]; cbn [magnitude] in M1, M2;
    try contradiction;
    repeat match goal with
           | H : _ /\ _ |- _ => destruct H
           end; subst;
    try (pose proof (Hbig m1 e1 W1)); try (pose proof (Hbig m2 e2 W2));
    try (pose proof (Hpos m1 e1 ltac:(lia))); try (pose proof (Hpos m2 e2 ltac:(lia)));
    destruct s1, s2; cbn [cond_Zopp] in Hle;
    (eapply SFleb_rank; [reflexivity|reflexivity|]); cbn [rank_le]; try lia.
  - (* both negative *)
    assert (R' : rank_le (1, e2, Zpos m2) (1, e1, Zpos m1))
      by (apply SFleb_positive; [exact W2|exact W1|lia]).
    cbn [rank_le] in R'. lia.
  - (* both positive *)
    assert (R : rank_le (1, e1, Zpos m1) (1, e2, Zpos m2))
      by (apply SFleb_positive; [exact W1|exact W2|lia]).
    cbn [rank_le] in R. lia.
Qed.

Lemma holds_order (v1 v2 : Z) (f1 f2 : spec_float) :
  holds v1 f1 -> holds v2 f2 ->
  valid_binary f1 = true -> valid_binary f2 = true ->
  v1 <= v2 -> SFleb f1 f2 = true.
Proof.
  intros (s1 & N1 & P1 & M1) (s2 & N2 & P2 & M2) W1 W2 Hle.
  pose proof (rounded_nonneg (Z.abs v1) (Z.abs_nonneg v1)) as R1.
  pose proof (rounded_nonneg (Z.abs v2) (Z.abs_nonneg v2)) as R2.
  apply (magnitude_order s1 s2 _ _ _ _ M1 M2 W1 W2 R1 R2).
  assert (Z1 : v1 = 0 -> rounded (Z.abs v1) = 0) by (intros ->; reflexivity).
  assert (Z2 : v2 = 0 -> rounded (Z.abs v2) = 0) by (intros ->; reflexivity).
  destruct (Z.lt_trichotomy v1 0) as [H1|[H1|H1]].
  - rewrite (N1 H1). cbn [cond_Zopp].
    destruct (Z.lt_trichotomy v2 0) as [H2|[H2|H2]].
    + rewrite (N2 H2). cbn [cond_Zopp].
      assert (rounded (Z.abs v2) <= rounded (Z.abs v1)) by (apply rounded_mono; lia). lia.
    + rewrite (Z2 H2). destruct s2; cbn [cond_Zopp]; lia.
    + rewrite (P2 H2). cbn [cond_Zopp]. lia.
  - rewrite (Z1 H1). replace (cond_Zopp s1 0) with 0 by (destruct s1; reflexivity).
    destruct (Z.lt_trichotomy v2 0) as [H2|[H2|H2]]; [lia| |].
    + rewrite (Z2 H2). destruct s2; cbn [cond_Zopp]; lia.
    + rewrite (P2 H2). cbn [cond_Zopp]. lia.
  - rewrite (P1 H1), (P2 ltac:(lia)). cbn [cond_Zopp]. apply rounded_mono. lia.
Qed.

(** A finite double holds its own value. *)
Lemma Some_inj {A} (a b : A) : Some a = Some b -> a = b.
Proof. congruence. Qed.

Lemma holds_self (f : spec_float) (v : Z) :
  valid_binary f = true -> valueOf f = Some v -> holds v f.
Proof.
  intros W Hv. destruct f as [s|s| |s m e]; unfold valueOf in Hv; try discriminate;
    apply Some_inj in Hv; subst v.
  - exists s. cbn. repeat split; lia.
  - pose proof (valid_exponent _ _ _ W) as He.
    pose proof W as W'. apply valid_digits in W'. destruct W' as (_ & He' & _).
    assert (P : 0 < Zpos m * 2 ^ (e + 2148)).
    { assert (0 < 2 ^ (e + 2148)) by (apply Z.pow_pos_nonneg; lia). lia. }
    exists s. split; [|split].
    + destruct s; unfold cond_Zopp; [reflexivity|intros H; exfalso; lia].
    + destruct s; unfold cond_Zopp; [intros H; exfalso; lia|reflexivity].
    + assert (E : Z.abs (cond_Zopp s (Zpos m * 2 ^ (e + 2148))) = Zpos m * 2 ^ (e + 2148))
        by (destruct s; unfold cond_Zopp; lia).
      rewrite E, rounded_exact by (rewrite valid_opp in W; exact W).
      cbn [magnitude]. repeat split; lia.
Qed.

Lemma rank_le_antisym a b : rank_le a b -> rank_le b a -> a = b.
Proof.
  destruct a as [[c1 e1] m1], b as [[c2 e2] m2]; cbn. intros H1 H2.
  assert (c1 = c2 /\ e1 = e2 /\ m1 = m2) as (-> & -> & ->) by lia. reflexivity.
Qed.

Lemma SFleb_rank_iff (f1 f2 : spec_float) a b :
  rank f1 = Some a -> rank f2 = Some b -> (SFleb f1 f2 = true <-> rank_le a b).
Proof.
  intros Ha Hb. unfold SFleb. rewrite SFcompare_rank, Ha, Hb, rank_le_cases.
  destruct (rank_compare a b); split; intros; congruence.
Qed.

Lemma valueOf_ranked (f : spec_float) (v : Z) :
  valueOf f = Some v -> exists a, rank f = Some a.
Proof. destruct f as [s|s| |s m e]; try discriminate; try destruct s; cbn; eauto. Qed.

(** The value of a finite double, read off its place in the order. *)
Lemma valueOf_rank (f : spec_float) (v : Z) a :
  valueOf f = Some v -> rank f = Some a ->
  v = (let '(c, e, m) := a in
       if c =? 0 then 0 else if c =? 1 then m * 2 ^ (e + 2148) else m * 2 ^ (- e + 2148)).
Proof.
  destruct f as [s|s| |s m e]; unfold valueOf; try discriminate; intros Hv Ha;
    apply Some_inj in Hv; subst v.
  - cbn in Ha. apply Some_inj in Ha. subst a. reflexivity.
  - destruct s; cbn [rank] in Ha; apply Some_inj in Ha; subst a; unfold cond_Zopp.
    + change (-1 =? 0) with false. change (-1 =? 1) with false. cbv iota.
      rewrite Z.opp_involutive. change (Zneg m) with (- Zpos m). lia.
    + reflexivity.
Qed.

(** The order of finite doubles, by their values. *)
Lemma SFleb_value (f1 f2 : spec_float) (v1 v2 : Z) :
  valid_binary f1 = true -> valid_binary f2 = true ->
  valueOf f1 = Some v1 -> valueOf f2 = Some v2 ->
  (SFleb f1 f2 = true <-> v1 <= v2).
Proof.
  intros W1 W2 H1 H2. split.
  - intros Hle. destruct (Z.leb_spec v1 v2) as [|Hgt]; [assumption|exfalso].
    pose proof (holds_order v2 v1 f2 f1 (holds_self _ _ W2 H2) (holds_self _ _ W1 H1) W2 W1
                  ltac:(lia)) as Hge.
    destruct (valueOf_ranked _ _ H1) as (a & Ha). destruct (valueOf_ranked _ _ H2) as (b & Hb).
    apply (SFleb_rank_iff _ _ _ _ Ha Hb) in Hle. apply (SFleb_rank_iff _ _ _ _ Hb Ha) in Hge.
    pose proof (rank_le_antisym _ _ Hle Hge) as E. subst b.
    pose proof (valueOf_rank _ _ _ H1 Ha) as E1. pose proof (valueOf_rank _ _ _ H2 Hb) as E2.
    rewrite <- E1 in E2. lia.
  - intros Hle. apply (holds_order v1 v2); auto using holds_self.
Qed.

Lemma rank_lt_not_le a b : rank_lt a b <-> ~ rank_le b a.
Proof. destruct a as [[? ?] ?], b as [[? ?] ?]; cbn; lia. Qed.

Lemma SFltb_value (f1 f2 : spec_float) (v1 v2 : Z) :
  valid_binary f1 = true -> valid_binary f2 = true ->
  valueOf f1 = Some v1 -> valueOf f2 = Some v2 ->
  (SFltb f1 f2 = true <-> v1 < v2).
Proof.
  intros W1 W2 H1 H2.
  destruct (valueOf_ranked _ _ H1) as (a & Ha). destruct (valueOf_ranked _ _ H2) as (b & Hb).
  pose proof (SFleb_value f2 f1 v2 v1 W2 W1 H2 H1) as Hle.
  rewrite (SFleb_rank_iff _ _ _ _ Hb Ha) in Hle.
  assert (Hlt : SFltb f1 f2 = true <-> rank_lt a b).
  { unfold SFltb. rewrite SFcompare_rank, Ha, Hb, <- rank_compare_Lt.
    destruct (rank_compare a b); split; congruence. }
  rewrite Hlt, rank_lt_not_le, Hle. lia.
Qed.

Local Close Scope Z_scope.

Local Open Scope Z_scope.

Lemma digits2_mul_lower (p q : positive) :
  Zpos (digits2_pos p) + Zpos (digits2_pos q) - 1 <= Zpos (digits2_pos (p * q)).
Proof.
  pose proof (digits2_bounds p) as [Plo _]. pose proof (digits2_bounds q) as [Qlo _].
  pose proof (digits2_bounds (p * q)) as [_ Hhi]. rewrite Pos2Z.inj_mul in Hhi.
  assert (H : 2 ^ (Zpos (digits2_pos p) - 1 + (Zpos (digits2_pos q) - 1))
              < 2 ^ Zpos (digits2_pos (p * q))).
  { rewrite Z.pow_add_r by lia.
    assert (0 < 2 ^ (Zpos (digits2_pos p) - 1)) by (apply Z.pow_pos_nonneg; lia).
    assert (0 < 2 ^ (Zpos (digits2_pos q) - 1)) by (apply Z.pow_pos_nonneg; lia).
    nia. }
  apply Z.pow_lt_mono_r_iff in H; lia.
Qed.

(** The product of two mantissas is not above the exponent its digits ask
    for. *)
Lemma product_exponent (sa sb : bool) (ma mb : positive) (ea eb : Z) :
  valid_binary (S754_finite sa ma ea) = true ->
  valid_binary (S754_finite sb mb eb) = true ->
  ea + eb <= fexp prec emax (Zdigits2 (Zpos (ma * mb)) + (ea + eb)).
Proof.
  intros Wa Wb. pose proof (digits2_mul_lower ma mb) as Hd.
  apply valid_digits in Wa, Wb. destruct Wa as (Da & _ & Fa), Wb as (Db & _ & Fb).
  rewrite fexp_eq in *. rewrite Zdigits2_pos. lia.
Qed.

Lemma cond_Zopp_mul (sa sb : bool) (x y : Z) :
  cond_Zopp sa x * cond_Zopp sb y = cond_Zopp (xorb sa sb) (x * y).
Proof. destruct sa, sb; unfold cond_Zopp; cbn [xorb]; lia. Qed.

Lemma cond_Zopp_scale (s : bool) (x c : Z) : cond_Zopp s x * c = cond_Zopp s (x * c).
Proof. destruct s; unfold cond_Zopp; lia. Qed.

Lemma holds_zero (s : bool) : holds 0 (S754_zero s).
Proof. exists s. cbn. repeat split; lia. Qed.

Lemma holds_signed (s : bool) (N : Z) (f : spec_float) :
  0 < N -> magnitude s (rounded N) f -> holds (cond_Zopp s N) f.
Proof.
  intros HN M. exists s. destruct s; unfold cond_Zopp.
  - split; [reflexivity|]. split; [lia|]. now replace (Z.abs (- N)) with N by lia.
  - split; [lia|]. split; [reflexivity|]. now replace (Z.abs N) with N by lia.
Qed.

(** A product holds the rounding of the product of the values. *)
Lemma SFmul_holds (A B : spec_float) (va vb : Z) :
  valid_binary A = true -> valid_binary B = true ->
  valueOf A = Some va -> valueOf B = Some vb ->
  holds (va * vb / 2 ^ 2148) (SF64mul A B).
Proof.
  intros Wa Wb Ha Hb.
  destruct A as [sa|sa| |sa ma ea], B as [sb|sb| |sb mb eb]; unfold valueOf in Ha, Hb;
    try discriminate; apply Some_inj in Ha, Hb; subst va vb.
  - apply holds_zero.
  - apply holds_zero.
  - rewrite Z.mul_0_r. apply holds_zero.
  - pose proof (valid_exponent _ _ _ Wa) as Ea. pose proof (valid_exponent _ _ _ Wb) as Eb.
    unfold SF64mul, SFmul.
    assert (E : cond_Zopp sa (Zpos ma * 2 ^ (ea + 2148)) * cond_Zopp sb (Zpos mb * 2 ^ (eb + 2148))
                = cond_Zopp (xorb sa sb) (Zpos (ma * mb) * 2 ^ (ea + eb + 2148)) * 2 ^ 2148).
    { rewrite cond_Zopp_mul, cond_Zopp_scale. f_equal. rewrite Pos2Z.inj_mul.
      assert (Hp : 2 ^ (ea + 2148) * 2 ^ (eb + 2148) = 2 ^ (ea + eb + 2148) * 2 ^ 2148).
      { rewrite <- !Z.pow_add_r by lia. f_equal. lia. }
      transitivity (Zpos ma * Zpos mb * (2 ^ (ea + 2148) * 2 ^ (eb + 2148))); [ring|].
      rewrite Hp. ring. }
    rewrite E, Z.div_mul by (apply Z.pow_nonzero; lia).
    assert (P : 0 < Zpos (ma * mb) * 2 ^ (ea + eb + 2148)).
    { assert (0 < 2 ^ (ea + eb + 2148)) by (apply Z.pow_pos_nonneg; lia). lia. }
    apply holds_signed; [exact P|].
    apply binary_round_aux_magnitude; [lia|lia|].
    eapply product_exponent; eassumption.
Qed.

(** [binary_round], by the value it rounds. *)
Lemma binary_round_magnitude (s : bool) (p : positive) (e : Z) :
  -1074 <= e ->
  magnitude s (rounded (Zpos p * 2 ^ (e + 2148))) (binary_round prec emax s p e).
Proof.
  intros He. unfold binary_round, shl_align.
  set (t := fexp prec emax (Zpos (digits2_pos p) + e)).
  assert (Ht : -1074 <= t) by (subst t; rewrite fexp_eq; lia).
  destruct (t - e) as [|d|d] eqn:Ed.
  - apply binary_round_aux_magnitude; [lia|lia|]. rewrite Zdigits2_pos. fold t. lia.
  - apply binary_round_aux_magnitude; [lia|lia|]. rewrite Zdigits2_pos. fold t. lia.
  - assert (Em : Zpos (Pos.iter xO p d) = Zpos p * 2 ^ Zpos d) by apply Zpos_iter_xO.
    assert (Ev : Zpos p * 2 ^ (e + 2148) = Zpos (Pos.iter xO p d) * 2 ^ (t + 2148)).
    { rewrite Em, <- Z.mul_assoc, <- Z.pow_add_r by lia. do 2 f_equal. lia. }
    rewrite Ev. apply binary_round_aux_magnitude; [lia|lia|].
    rewrite Zdigits2_pos, (digits2_scaled _ p (Zpos d)) by (lia || exact Em).
    replace (Zpos (digits2_pos p) + Zpos d + t) with (Zpos (digits2_pos p) + e) by lia.
    fold t. lia.
Qed.

Lemma binary_normalize_holds (S e : Z) :
  -1074 <= e -> holds (S * 2 ^ (e + 2148)) (binary_normalize prec emax S e false).
Proof.
  intros He. assert (P : 0 < 2 ^ (e + 2148)) by (apply Z.pow_pos_nonneg; lia).
  destruct S as [|p|p]; unfold binary_normalize.
  - apply holds_zero.
  - apply (holds_signed false (Zpos p * 2 ^ (e + 2148))); [lia|].
    now apply binary_round_magnitude.
  - replace (Zneg p * 2 ^ (e + 2148)) with (cond_Zopp true (Zpos p * 2 ^ (e + 2148)))
      by (unfold cond_Zopp; lia).
    apply (holds_signed true (Zpos p * 2 ^ (e + 2148))); [lia|].
    now apply binary_round_magnitude.
Qed.

Lemma aligned_value (s : bool) (m : positive) (e ez : Z) :
  -1074 <= ez <= e ->
  cond_Zopp s (Zpos m * 2 ^ (e + 2148))
  = cond_Zopp s (Zpos (fst (shl_align m e ez))) * 2 ^ (ez + 2148).
Proof.
  intros H. rewrite Zpos_shl_align by lia. rewrite cond_Zopp_scale. f_equal.
  rewrite <- Z.mul_assoc, <- Z.pow_add_r by lia. do 2 f_equal. lia.
Qed.

(** A sum holds the rounding of the sum of the values. *)
Lemma SFadd_holds (A B : spec_float) (va vb : Z) :
  valid_binary A = true -> valid_binary B = true ->
  valueOf A = Some va -> valueOf B = Some vb ->
  holds (va + vb) (SF64add A B).
Proof.
  intros Wa Wb Ha Hb.
  destruct A as [sa|sa| |sa ma ea], B as [sb|sb| |sb mb eb];
    try discriminate.
  - unfold valueOf in Ha, Hb. apply Some_inj in Ha, Hb. subst va vb.
    destruct sa, sb; apply holds_zero.
  - unfold valueOf in Ha. apply Some_inj in Ha. subst va. rewrite Z.add_0_l.
    now apply holds_self.
  - unfold valueOf in Hb. apply Some_inj in Hb. subst vb. rewrite Z.add_0_r.
    now apply holds_self.
  - unfold valueOf in Ha, Hb. apply Some_inj in Ha, Hb. subst va vb.
    pose proof (valid_exponent _ _ _ Wa) as Ea. pose proof (valid_exponent _ _ _ Wb) as Eb.
    unfold SF64add, SFadd. set (ez := Z.min ea eb).
    rewrite (aligned_value sa ma ea ez), (aligned_value sb mb eb ez) by lia.
    rewrite <- Z.mul_add_distr_r. apply binary_normalize_holds. lia.
Qed.

Lemma SFsub_add (A B : spec_float) : SF64sub A B = SF64add A (SFopp B).
Proof.
  destruct A as [sa|sa| |sa ma ea], B as [sb|sb| |sb mb eb];
    try destruct sa; try destruct sb; try reflexivity;
    unfold SF64sub, SF64add, SFsub, SFadd, SFopp, cond_Zopp, negb;
    rewrite ?Z.opp_involutive, ?Z.sub_opp_r, ?Z.add_opp_r; reflexivity.
Qed.

Lemma valueOf_opp (B : spec_float) (vb : Z) :
  valueOf B = Some vb -> valueOf (SFopp B) = Some (- vb).
Proof.
  destruct B as [s|s| |s m e]; unfold valueOf, SFopp; try discriminate; intros H;
    apply Some_inj in H; subst vb; f_equal.
  destruct s; unfold negb, cond_Zopp; lia.
Qed.

Lemma SFsub_holds (A B : spec_float) (va vb : Z) :
  valid_binary A = true -> valid_binary B = true ->
  valueOf A = Some va -> valueOf B = Some vb ->
  holds (va - vb) (SF64sub A B).
Proof.
  intros Wa Wb Ha Hb. rewrite SFsub_add. apply SFadd_holds; auto.
  - destruct B; auto.
  - now apply valueOf_opp.
Qed.

Local Close Scope Z_scope.

(** * Monotone arithmetic on doubles *)

Lemma finite_value (x : float) : is_finite x = true -> exists v, value x = Some v.
Proof.
  intros H. apply is_finite_SF in H. unfold value.
  destruct (Prim2SF x); try contradiction; cbn; eauto.
Qed.

Lemma value_finite (x : float) (v : Z) : value x = Some v -> is_finite x = true.
Proof.
  intros H. unfold is_finite.
  assert (Hn : is_nan x = false).
  { apply is_nan_rank. unfold frank. apply (valueOf_ranked _ _ H). }
  rewrite Hn. unfold is_infinity. rewrite eqb_spec, abs_spec.
  change (Prim2SF infinity) with (S754_infinity false).
  unfold value in H. destruct (Prim2SF x) as [s|s| |s m e]; try discriminate; reflexivity.
Qed.

Lemma leb_value (x y : float) (vx vy : Z) :
  value x = Some vx -> value y = Some vy -> ((x <=? y) = true <-> (vx <= vy)%Z).
Proof.
  intros Hx Hy. rewrite leb_spec.
  apply SFleb_value; auto using Prim2SF_valid.
Qed.

Lemma ltb_value (x y : float) (vx vy : Z) :
  value x = Some vx -> value y = Some vy -> ((x <? y) = true <-> (vx < vy)%Z).
Proof.
  intros Hx Hy. rewrite ltb_spec.
  apply SFltb_value; auto using Prim2SF_valid.
Qed.

Lemma holds_leb (x y : float) (vx vy : Z) :
  holds vx (Prim2SF x) -> holds vy (Prim2SF y) -> (vx <= vy)%Z -> (x <=? y) = true.
Proof.
  intros Hx Hy Hle. rewrite leb_spec.
  eapply holds_order; eauto using Prim2SF_valid.
Qed.

Lemma value_holds (x : float) (v : Z) : value x = Some v -> holds v (Prim2SF x).
Proof. intros H. apply holds_self; [apply Prim2SF_valid|exact H]. Qed.

Lemma add_holds (x y : float) (vx vy : Z) :
  value x = Some vx -> value y = Some vy -> holds (vx + vy) (Prim2SF (x + y)).
Proof. intros Hx Hy. rewrite add_spec. apply SFadd_holds; auto using Prim2SF_valid. Qed.

Lemma sub_holds (x y : float) (vx vy : Z) :
  value x = Some vx -> value y = Some vy -> holds (vx - vy) (Prim2SF (x - y)).
Proof. intros Hx Hy. rewrite sub_spec. apply SFsub_holds; auto using Prim2SF_valid. Qed.

Lemma mul_holds (x y : float) (vx vy : Z) :
  value x = Some vx -> value y = Some vy ->
  holds (vx * vy / 2 ^ 2148) (Prim2SF (x * y)).
Proof. intros Hx Hy. rewrite mul_spec. apply SFmul_holds; auto using Prim2SF_valid. Qed.

(** Sums, differences and products are monotone, overflow included. *)
Lemma add_le_mono (a a' b b' : float) :
  is_finite a = true -> is_finite a' = true -> is_finite b = true -> is_finite b' = true ->
  (a <=? a') = true -> (b <=? b') = true -> (a + b <=? a' + b') = true.
Proof.
  intros Fa Fa' Fb Fb' Ha Hb.
  destruct (finite_value a Fa) as (va & Va), (finite_value a' Fa') as (va' & Va'),
           (finite_value b Fb) as (vb & Vb), (finite_value b' Fb') as (vb' & Vb').
  apply (leb_value _ _ _ _ Va Va') in Ha. apply (leb_value _ _ _ _ Vb Vb') in Hb.
  eapply holds_leb; [apply (add_holds _ _ _ _ Va Vb)|apply (add_holds _ _ _ _ Va' Vb')|lia].
Qed.

Lemma sub_le_mono (a a' b b' : float) :
  is_finite a = true -> is_finite a' = true -> is_finite b = true -> is_finite b' = true ->
  (a <=? a') = true -> (b' <=? b) = true -> (a - b <=? a' - b') = true.
Proof.
  intros Fa Fa' Fb Fb' Ha Hb.
  destruct (finite_value a Fa) as (va & Va), (finite_value a' Fa') as (va' & Va'),
           (finite_value b Fb) as (vb & Vb), (finite_value b' Fb') as (vb' & Vb').
  apply (leb_value _ _ _ _ Va Va') in Ha. apply (leb_value _ _ _ _ Vb' Vb) in Hb.
  eapply holds_leb; [apply (sub_holds _ _ _ _ Va Vb)|apply (sub_holds _ _ _ _ Va' Vb')|lia].
Qed.

Lemma value_0 : value 0 = Some 0%Z.
Proof. reflexivity. Qed.

Lemma mul_le_mono_nonneg (a a' b b' : float) :
  is_finite a' = true -> is_finite b' = true ->
  (0 <=? a) = true -> (a <=? a') = true -> (0 <=? b) = true -> (b <=? b') = true ->
  (a * b <=? a' * b') = true.
Proof.
  intros Fa' Fb' Pa Ha Pb Hb.
  destruct (finite_value a' Fa') as (va' & Va'), (finite_value b' Fb') as (vb' & Vb').
  assert (Fa : exists va, value a = Some va).
  { unfold value. rewrite leb_spec in Pa, Ha. unfold value in Va'.
    change (Prim2SF 0) with (S754_zero false) in Pa.
    destruct (Prim2SF a) as [s|s| |s m e]; try destruct s; try discriminate; cbn; eauto.
    destruct (Prim2SF a'); try discriminate; destruct s; discriminate. }
  assert (Fb : exists vb, value b = Some vb).
  { unfold value. rewrite leb_spec in Pb, Hb. unfold value in Vb'.
    change (Prim2SF 0) with (S754_zero false) in Pb.
    destruct (Prim2SF b) as [s|s| |s m e]; try destruct s; try discriminate; cbn; eauto.
    destruct (Prim2SF b'); try discriminate; destruct s; discriminate. }
  destruct Fa as (va & Va), Fb as (vb & Vb).
  apply (leb_value _ _ _ _ value_0 Va) in Pa. apply (leb_value _ _ _ _ value_0 Vb) in Pb.
  apply (leb_value _ _ _ _ Va Va') in Ha. apply (leb_value _ _ _ _ Vb Vb') in Hb.
  eapply holds_leb; [apply (mul_holds _ _ _ _ Va Vb)|apply (mul_holds _ _ _ _ Va' Vb')|].
  apply Z.div_le_mono; [apply Z.pow_pos_nonneg; lia|]. nia.
Qed.

(** A number between two finite doubles is finite. *)
Lemma between_finite (lo x hi : float) :
  is_finite lo = true -> is_finite hi = true ->
  (lo <=? x) = true -> (x <=? hi) = true -> is_finite x = true.
Proof.
  intros Flo Fhi Hlo Hhi.
  destruct (finite_value lo Flo) as (vlo & Vlo), (finite_value hi Fhi) as (vhi & Vhi).
  assert (exists v, value x = Some v) as (v & Hv); [|now apply value_finite in Hv].
  unfold value in *. rewrite leb_spec in Hlo, Hhi.
  destruct (Prim2SF x) as [s|s| |s m e]; cbn [valueOf]; eauto.
  - destruct s.
    + destruct (Prim2SF lo) as [t|t| |t ? ?]; try discriminate; destruct t; discriminate.
    + destruct (Prim2SF hi) as [t|t| |t ? ?]; try discriminate; destruct t; discriminate.
  - destruct (Prim2SF lo); discriminate.
Qed.

Lemma leb_trans (a b c : float) : (a <=? b) = true -> (b <=? c) = true -> (a <=? c) = true.
Proof.
  intros H1 H2.
  destruct (leb_true_ranked _ _ H1) as (ra & rb & Ha & Hb).
  destruct (leb_true_ranked _ _ H2) as (rb' & rc & Hb' & Hc).
  rewrite Hb in Hb'. apply Some_inj in Hb'. subst rb'.
  apply (leb_rank _ _ _ _ Ha Hb) in H1. apply (leb_rank _ _ _ _ Hb Hc) in H2.
  apply (leb_rank _ _ _ _ Ha Hc). eapply rank_le_trans; eauto.
Qed.

Lemma leb_refl_finite (a : float) : is_finite a = true -> (a <=? a) = true.
Proof.
  intros F. destruct (finite_value a F) as (v & V). apply (leb_value _ _ _ _ V V). lia.
Qed.

Local Open Scope Z_scope.

(** ** What a rounding returns is a double *)

Lemma binary_round_aux_valid (s : bool) (m e : Z) :
  0 < m -> e <= fexp prec emax (Zdigits2 m + e) ->
  valid_binary (binary_round_aux prec emax s m e loc_Exact) = true.
Proof.
  intros Hm Ht.
  destruct (binary_round_aux_value s m e Hm Ht) as (m3 & e3 & Ht3 & Hm3 & _ & Hc & ->).
  assert (Htmin : -1074 <= fexp prec emax (Zdigits2 m + e)) by (rewrite fexp_eq; lia).
  destruct m3 as [|p3|p3]; [reflexivity| |lia].
  destruct (Z.leb_spec e3 971) as [He|He]; [|reflexivity].
  unfold valid_binary, bounded, canonical_mantissa.
  apply andb_true_iff. split; [apply Z.eqb_eq|apply Z.leb_le; exact He].
  rewrite fexp_eq.
  assert (Hd : Zpos (digits2_pos p3) <= 53) by (apply digits2_le_53; lia).
  destruct (Z.eq_dec e3 (-1074)) as [->|N]; [lia|].
  destruct (Hc ltac:(lia)) as [?|Hn]; [lia|].
  pose proof (digits2_bounds p3) as [_ Bhi].
  assert (53 <= Zpos (digits2_pos p3)); [|lia].
  destruct (Z.leb_spec 53 (Zpos (digits2_pos p3))) as [|Hlt]; [assumption|].
  assert (2 ^ Zpos (digits2_pos p3) <= 2 ^ 52) by (apply Z.pow_le_mono_r; lia). lia.
Qed.

Lemma binary_round_valid (s : bool) (p : positive) (e : Z) :
  valid_binary (binary_round prec emax s p e) = true.
Proof.
  unfold binary_round, shl_align.
  set (t := fexp prec emax (Zpos (digits2_pos p) + e)).
  destruct (t - e) as [|d|d] eqn:Ed.
  - apply binary_round_aux_valid; [lia|]. rewrite Zdigits2_pos. fold t. lia.
  - apply binary_round_aux_valid; [lia|]. rewrite Zdigits2_pos. fold t. lia.
  - assert (Em : Zpos (Pos.iter xO p d) = Zpos p * 2 ^ Zpos d) by apply Zpos_iter_xO.
    apply binary_round_aux_valid; [lia|].
    rewrite Zdigits2_pos, (digits2_scaled _ p (Zpos d)) by (lia || exact Em).
    replace (Zpos (digits2_pos p) + Zpos d + t) with (Zpos (digits2_pos p) + e) by lia.
    fold t. lia.
Qed.

Lemma binary_normalize_valid (z e : Z) :
  valid_binary (binary_normalize prec emax z e false) = true.
Proof. destruct z; [reflexivity|apply binary_round_valid..]. Qed.

(** The double nearest to an integer, whatever its size. *)
Lemma Prim2SF_Z2float (z : Z) : Prim2SF (Z2float z) = binary_normalize prec emax z 0 false.
Proof. apply Prim2SF_SF2Prim, binary_normalize_valid. Qed.

Lemma Z2float_holds (z : Z) : holds (z * 2 ^ 2148) (Prim2SF (Z2float z)).
Proof. rewrite Prim2SF_Z2float. apply (binary_normalize_holds z 0). lia. Qed.

Local Close Scope Z_scope.

(** * Numbers drawn from [[0, 1)] *)

Lemma value_1 : value 1 = Some (2 ^ 2148)%Z.
Proof. reflexivity. Qed.

Lemma leb_refl_ranked (x : float) : is_nan x = false -> (x <=? x) = true.
Proof.
  intros H. apply is_nan_rank in H. destruct H as (a & Ha).
  apply (leb_rank _ _ _ _ Ha Ha). destruct a as [[? ?] ?]. cbn. lia.
Qed.

Lemma ltb_leb (a b : float) : (a <? b) = true -> (a <=? b) = true.
Proof.
  intros H. destruct (ltb_true_ranked _ _ H) as (ra & rb & Ha & Hb).
  apply (ltb_rank _ _ _ _ Ha Hb) in H. apply (leb_rank _ _ _ _ Ha Hb). now apply rank_lt_le.
Qed.

Lemma leb_ltb_trans (a b c : float) : (a <=? b) = true -> (b <? c) = true -> (a <? c) = true.
Proof.
  intros H1 H2.
  destruct (leb_true_ranked _ _ H1) as (ra & rb & Ha & Hb).
  destruct (ltb_true_ranked _ _ H2) as (rb' & rc & Hb' & Hc).
  rewrite Hb in Hb'. apply Some_inj in Hb'. subst rb'.
  apply (leb_rank _ _ _ _ Ha Hb) in H1. apply (ltb_rank _ _ _ _ Hb Hc) in H2.
  apply (ltb_rank _ _ _ _ Ha Hc). eapply rank_le_lt_trans; eauto.
Qed.

Lemma unit_finite (u : float) : (0 <=? u) = true -> (u <? 1) = true -> is_finite u = true.
Proof.
  intros H0 H1. apply (between_finite 0 u 1); auto. now apply ltb_leb.
Qed.

(** The largest double below 1. *)
Lemma unit_le_pred (u : float) :
  (0 <=? u) = true -> (u <? 1) = true -> (u <=? 0.99999999999999989) = true.
Proof.
  intros H0 H1. pose proof (unit_small u H0 H1) as Hs.
  pose proof (Prim2SF_valid u) as V.
  rewrite leb_spec. change (Prim2SF 0.99999999999999989)
    with (S754_finite false 9007199254740991 (-53)).
  destruct (Prim2SF u) as [s|s| |s m e]; try destruct s; cbn [small] in Hs;
    try contradiction; try reflexivity.
  pose proof (valid_mantissa _ _ _ V) as Hm.
  eapply SFleb_rank; [reflexivity|reflexivity|]. cbn [rank_le].
  change (2 ^ 53)%Z with 9007199254740992%Z in Hm. lia.
Qed.

(** A product with a number of [[0, 1)] stays between 0 and the other
    factor; a sum with it as well. *)
Lemma scaled_between (u d lo : float) :
  (0 <=? u) = true -> (u <? 1) = true ->
  is_finite d = true -> (0 <=? d) = true -> is_finite lo = true ->
  (0 <=? u * d) = true /\ (u * d <=? d) = true /\ is_finite (u * d) = true /\
  (lo <=? u * d + lo) = true /\ (u * d + lo <=? d + lo) = true.
Proof.
  intros H0 H1 Fd Pd Flo.
  pose proof (unit_finite u H0 H1) as Fu.
  destruct (finite_value u Fu) as (vu & Vu), (finite_value d Fd) as (vd & Vd),
           (finite_value lo Flo) as (vl & Vl).
  pose proof H0 as Pu. apply (leb_value _ _ _ _ value_0 Vu) in Pu.
  pose proof H1 as Lu. apply (ltb_value _ _ _ _ Vu value_1) in Lu.
  pose proof Pd as Pd'. apply (leb_value _ _ _ _ value_0 Vd) in Pd'.
  assert (P2 : (0 < 2 ^ 2148)%Z) by (apply Z.pow_pos_nonneg; lia).
  pose proof (mul_holds u d vu vd Vu Vd) as Hud.
  assert (Q0 : (0 <= vu * vd / 2 ^ 2148)%Z) by (apply Z.div_pos; [nia|lia]).
  assert (Q1 : (vu * vd / 2 ^ 2148 <= vd)%Z).
  { apply Z.div_le_upper_bound; [lia|]. nia. }
  assert (A : (0 <=? u * d) = true)
    by (eapply holds_leb; [apply (value_holds _ _ value_0)|exact Hud|exact Q0]).
  assert (B : (u * d <=? d) = true)
    by (eapply holds_leb; [exact Hud|apply (value_holds _ _ Vd)|exact Q1]).
  pose proof (between_finite 0 (u * d) d eq_refl Fd A B) as Fud.
  destruct (finite_value _ Fud) as (vp & Vp).
  pose proof A as A'. apply (leb_value _ _ _ _ value_0 Vp) in A'.
  pose proof B as B'. apply (leb_value _ _ _ _ Vp Vd) in B'.
  repeat split; auto.
  - eapply holds_leb; [apply (value_holds _ _ Vl)|apply (add_holds _ _ _ _ Vp Vl)|lia].
  - eapply holds_leb; [apply (add_holds _ _ _ _ Vp Vl)|apply (add_holds _ _ _ _ Vd Vl)|lia].
Qed.

(** [randomBetween(lo, hi)] for numbers [lo <= hi] whose difference, added
    back to [lo], does not pass [hi]. *)
Lemma randomBetween_between (u lo hi : float) :
  (0 <=? u) = true -> (u <? 1) = true ->
  is_finite lo = true -> is_finite (hi - lo) = true ->
  (0 <=? hi - lo) = true -> (hi - lo + lo <=? hi) = true ->
  (lo <=? u * (hi - lo) + lo) = true /\ (u * (hi - lo) + lo <=? hi) = true.
Proof.
  intros H0 H1 Flo Fd Pd Htop.
  destruct (scaled_between u (hi - lo) lo H0 H1 Fd Pd Flo) as (_ & _ & _ & A & B).
  split; [exact A|]. eapply leb_trans; eauto.
Qed.

(** * [Math.floor] of a small number *)

Lemma value_Z2float (n : Z) :
  (0 <= n < 2 ^ 53)%Z -> value (Z2float n) = Some (n * 2 ^ 2148)%Z.
Proof.
  intros Hn. destruct n as [|p|p]; [reflexivity| |lia].
  unfold value. rewrite Prim2SF_Z2float_pos by lia.
  assert (Hd : (Zpos (digits2_pos p) <= 53)%Z) by (apply digits2_le_53; lia).
  unfold canon, valueOf, cond_Zopp. rewrite Zpos_mantissa53 by exact Hd. f_equal.
  rewrite <- Z.mul_assoc, <- Z.pow_add_r by lia. do 2 f_equal. lia.
Qed.

Lemma Math_floor_below (v : float) (n : Z) :
  (0 <=? v) = true -> (v <? Z2float n) = true -> (0 < n < 2 ^ 53)%Z ->
  (exists s, Prim2SF (Math_floor v) = S754_zero s) \/
  (exists z, (0 <= z < n)%Z /\ Math_floor v = Z2float z).
Proof.
  intros H0 Hn Bn. pose proof (Prim2SF_valid v) as V.
  assert (Vn := value_Z2float n ltac:(lia)).
  unfold Math_floor. rewrite leb_spec in H0. rewrite ltb_spec in Hn.
  change (Prim2SF 0) with (S754_zero false) in H0.
  destruct (Prim2SF v) as [s|s| |s m e] eqn:E; try destruct s; try discriminate.
  - left. exists true. exact E.
  - left. exists false. exact E.
  - exfalso. unfold value in Vn.
    destruct (Prim2SF (Z2float n)) as [t|t| |t ? ?]; try discriminate; destruct t; discriminate.
  - right. unfold cond_Zopp. exists (Z.shiftl (Zpos m) e).
    pose proof (valid_exponent _ _ _ V) as He.
    assert (Hv : valueOf (S754_finite false m e) = Some (Zpos m * 2 ^ (e + 2148))%Z)
      by reflexivity.
    apply (SFltb_value _ _ _ _ V (Prim2SF_valid _) Hv Vn) in Hn.
    split; [|reflexivity]. split; [apply Z.shiftl_nonneg; lia|].
    destruct (Z.leb_spec 0 e) as [Hpos|Hneg].
    + rewrite Z.shiftl_mul_pow2 by lia.
      rewrite Z.pow_add_r in Hn by lia.
      assert (0 < 2 ^ 2148)%Z by (apply Z.pow_pos_nonneg; lia). nia.
    + rewrite Z.shiftl_div_pow2 by lia.
      apply Z.div_lt_upper_bound; [apply Z.pow_pos_nonneg; lia|].
      replace 2148%Z with ((e + 2148) + (- e))%Z in Hn at 2 by lia.
      rewrite (Z.pow_add_r 2 (e + 2148) (- e)) in Hn by lia.
      assert (0 < 2 ^ (e + 2148))%Z by (apply Z.pow_pos_nonneg; lia). nia.
Qed.

(** * The thruster *)

Lemma thrusterColor_defined (c : float) :
  (0 <=? c) = true -> (c <? 1) = true ->
  In (thrusterColor (Math_floor (c * 3))) thrusterColors.
Proof.
  intros H0 H1.
  assert (Hlo : (0 <=? c * 3) = true).
  { apply (leb_trans _ (0 * 3)); [reflexivity|].
    apply mul_le_mono_nonneg; try reflexivity; auto. now apply unit_finite. }
  assert (Hhi : (c * 3 <? 3) = true).
  { apply (leb_ltb_trans _ (0.99999999999999989 * 3)); [|reflexivity].
    apply mul_le_mono_nonneg; try reflexivity; auto. now apply unit_le_pred. }
  destruct (Math_floor_below (c * 3) 3 Hlo Hhi ltac:(lia)) as [(s & Hz)|(z & Hz & Ez)].
  - unfold thrusterColor.
    assert (E : (Math_floor (c * 3) =? 0) = true).
    { rewrite eqb_spec, Hz. destruct s; reflexivity. }
    rewrite E. left. reflexivity.
  - rewrite Ez.
    assert (z = 0 \/ z = 1 \/ z = 2)%Z as [E|[E|E]] by lia; rewrite E; cbn; auto.
Qed.

Section Thruster.

Variable math : JSMath.

(** The thruster particle that [handlePlayerControls] makes in the world [w]
    after [j] draws. *)
Lemma thrusterParticle_draw (player : Player) (j : nat) (w : World) :
  exists p,
    thrusterParticle math player (draw j w) = Some (p, draw (j + 5) w) /\
    GameObject.position p = GameObject.position player /\
    GameObject.radius p = random w (drawn w + j + 2)%nat * (3 - 1) + 1 /\
    Particle.color p = thrusterColor (Math_floor (random w (drawn w + j + 3)%nat * 3)) /\
    Particle.startSize p = random w (drawn w + j + 4)%nat * (4 - 2) + 2 /\
    Particle.life p = 0.5 /\ Particle.maxLife p = 0.5 /\
    GameObject.id p = id_pt (Date_now w) (random w (drawn w + j + 1)%nat).
Proof.
  unfold thrusterParticle, bind.
  rewrite randomBetween_draw, DateNow_draw, Math_random_draw, randomBetween_draw,
    Math_random_draw, randomBetween_draw.
  unfold ret. eexists. split.
  - do 2 f_equal. f_equal. lia.
  - cbn. rewrite <- !Nat.add_assoc, !Nat.add_succ_r, !Nat.add_0_r. cbn [Nat.add].
    repeat split; reflexivity.
Qed.

End Thruster.

(** * Numbers that are not negative *)

Lemma leb_0_signed (v : float) :
  (0 <=? v) = true <->
  match Prim2SF v with
  | S754_zero _ => True
  | S754_infinity s | S754_finite s _ _ => s = false
  | S754_nan => False
  end.
Proof.
  rewrite leb_spec. change (Prim2SF 0) with (S754_zero false).
  destruct (Prim2SF v) as [s|s| |s m e]; try destruct s; cbn; intuition congruence.
Qed.

Lemma Math_floor_nonneg (v : float) : (0 <=? v) = true -> (0 <=? Math_floor v) = true.
Proof.
  intros H. unfold Math_floor. apply leb_0_signed in H.
  destruct (Prim2SF v) as [s|s| |s m e] eqn:E; try (apply leb_0_signed; now rewrite E).
  subst s. apply leb_0_signed. rewrite Prim2SF_Z2float. cbn [cond_Zopp].
  assert (Hz : (0 <= Z.shiftl (Zpos m) e)%Z) by (apply Z.shiftl_nonneg; lia).
  destruct (Z.shiftl (Zpos m) e) as [|p|p]; [exact I| |lia].
  unfold binary_normalize.
  pose proof (binary_round_signed false p 0) as S.
  destruct (binary_round prec emax false p 0); cbn [signed] in S; auto.
Qed.

Lemma above_finite (lo s : float) :
  is_finite lo = true -> (lo <=? s) = true -> value s = None ->
  Prim2SF s = S754_infinity false.
Proof.
  intros Flo Hs Vs. apply is_finite_SF in Flo. rewrite leb_spec in Hs. unfold value in Vs.
  destruct (Prim2SF s) as [?|[]| |? ? ?]; try discriminate; try reflexivity;
    destruct (Prim2SF lo) as [[]|?| |[] ? ?]; try contradiction; discriminate.
Qed.

Lemma below_finite (hi h : float) :
  is_finite hi = true -> (h <=? hi) = true -> value h = None ->
  Prim2SF h = S754_infinity true.
Proof.
  intros Fhi Hh Vh. apply is_finite_SF in Fhi. rewrite leb_spec in Hh. unfold value in Vh.
  destruct (Prim2SF h) as [?|[]| |? ? ?]; try discriminate; try reflexivity;
    destruct (Prim2SF hi) as [[]|?| |[] ? ?]; try contradiction; discriminate.
Qed.

(** Adding a number that is not negative does not lower a number, and taking
    one away does not raise it; the sum may overflow. *)
Lemma add_nonneg_le (lo s f : float) :
  is_finite lo = true -> (lo <=? s) = true -> (0 <=? f) = true -> (s <=? s + f) = true.
Proof.
  intros Flo Hs Hf.
  destruct (value s) as [vs|] eqn:Vs, (value f) as [vf|] eqn:Vf.
  - assert (0 <= vf)%Z by (now apply (leb_value 0 f 0 vf value_0 Vf)).
    eapply holds_leb; [apply (value_holds _ _ Vs)|apply (add_holds _ _ _ _ Vs Vf)|lia].
  - rewrite leb_spec, add_spec, (above_finite 0 f eq_refl Hf Vf). unfold value in Vs.
    destruct (Prim2SF s) as [[]|[]| |[] ? ?]; try discriminate; reflexivity.
  - rewrite leb_spec, add_spec, (above_finite lo s Flo Hs Vs). unfold value in Vf.
    destruct (Prim2SF f) as [[]|[]| |[] ? ?]; try discriminate; reflexivity.
  - rewrite leb_spec, add_spec, (above_finite lo s Flo Hs Vs), (above_finite 0 f eq_refl Hf Vf).
    reflexivity.
Qed.

Lemma sub_nonneg_le (hi h d : float) :
  is_finite hi = true -> (h <=? hi) = true -> (0 <=? d) = true -> (h - d <=? h) = true.
Proof.
  intros Fhi Hh Hd.
  destruct (value h) as [vh|] eqn:Vh, (value d) as [vd|] eqn:Vd.
  - assert (0 <= vd)%Z by (now apply (leb_value 0 d 0 vd value_0 Vd)).
    eapply holds_leb; [apply (sub_holds _ _ _ _ Vh Vd)|apply (value_holds _ _ Vh)|lia].
  - rewrite leb_spec, sub_spec, (above_finite 0 d eq_refl Hd Vd). unfold value in Vh.
    destruct (Prim2SF h) as [[]|[]| |[] ? ?]; try discriminate; reflexivity.
  - rewrite leb_spec, sub_spec, (below_finite hi h Fhi Hh Vh). unfold value in Vd.
    destruct (Prim2SF d) as [[]|[]| |[] ? ?]; try discriminate; reflexivity.
  - rewrite leb_spec, sub_spec, (below_finite hi h Fhi Hh Vh), (above_finite 0 d eq_refl Hd Vd).
    reflexivity.
Qed.

(** * Random numbers between two bounds *)

Lemma unitInterval_even : unitInterval evenWorld.
Proof. intros n. split; reflexivity. Qed.

Lemma unitInterval_random (w w' : World) :
  random w' = random w -> unitInterval w -> unitInterval w'.
Proof. intros E H n. rewrite E. apply H. Qed.

Lemma scaled_within (u lo hi : float) :
  (0 <=? u) = true -> (u <? 1) = true ->
  is_finite lo = true -> is_finite (hi - lo) = true -> (0 <=? hi - lo) = true ->
  within lo (hi - lo + lo) (u * (hi - lo) + lo).
Proof.
  intros H0 H1 Flo Fd Pd.
  destruct (scaled_between u (hi - lo) lo H0 H1 Fd Pd Flo) as (_ & _ & _ & A & B).
  split; assumption.
Qed.

Lemma within_weaken (lo hi hi' x : float) :
  within lo hi x -> (hi <=? hi') = true -> within lo hi' x.
Proof. intros [A B] H. split; [exact A|]. eapply leb_trans; eauto. Qed.

(** X11. [randomBetween(min, max)] takes one number from [Math.random()]; when
    that is a number of [[0, 1)] and [max - min] is finite and not negative,
    the result is at least [min] and at most [(max - min) + min], the sum as
    the doubles round it; it is at most [max] when that sum is. *)
Theorem randomBetween_range (min max : float) (w : World) :
  unitInterval w ->
  is_finite min = true -> is_finite (max - min) = true -> (0 <=? max - min) = true ->
  exists v,
    randomBetween min max w = Some (v, draw 1 w) /\
    within min (max - min + min) v /\
    ((max - min + min <=? max) = true -> within min max v).
Proof.
  intros Hw Fmin Fd Pd. destruct (Hw (drawn w)) as [H0 H1].
  exists (random w (drawn w) * (max - min) + min). split; [|split].
  - pose proof (randomBetween_draw min max 0 w) as H.
    rewrite draw_0, Nat.add_0_r in H. exact H.
  - now apply scaled_within.
  - intros Htop. eapply within_weaken; [|exact Htop]. now apply scaled_within.
Qed.

Lemma randomBetween_range_witness :
  exists v,
    randomBetween 15 40 evenWorld = Some (v, draw 1 evenWorld) /\
    within 15 (40 - 15 + 15) v /\
    ((40 - 15 + 15 <=? 40) = true -> within 15 40 v).
Proof.
  apply (randomBetween_range 15 40 evenWorld);
    [intros n; split; reflexivity|reflexivity..].
Defined.

(** * The thruster's exhaust *)

Section Exhaust.

Variable math : JSMath.

Lemma thrusterParticle_flame (player : Player) (j : nat) (w : World) :
  unitInterval w ->
  exists p,
    thrusterParticle math player (draw j w) = Some (p, draw (j + 5) w) /\
    flame p /\ GameObject.position p = GameObject.position player.
Proof.
  intros Hw.
  destruct (thrusterParticle_draw math player j w)
    as (p & E & Hpos & Hrad & Hcol & Hss & Hl & Hm & _).
  exists p. split; [exact E|]. split; [|exact Hpos].
  unfold flame. rewrite Hrad, Hcol, Hss, Hl, Hm.
  destruct (Hw (drawn w + j + 2)%nat) as [A2 B2], (Hw (drawn w + j + 3)%nat) as [A3 B3],
    (Hw (drawn w + j + 4)%nat) as [A4 B4].
  repeat split; try reflexivity.
  - now apply thrusterColor_defined.
  - apply (scaled_within _ 1 3); auto.
  - apply (within_weaken 1 (3 - 1 + 1) 3); [|reflexivity].
    apply (scaled_within _ 1 3); auto.
  - apply (scaled_within _ 2 4); auto.
  - apply (within_weaken 2 (4 - 2 + 2) 4); [|reflexivity].
    apply (scaled_within _ 2 4); auto.
Qed.

End Exhaust.

Section Controls.

Variable math : JSMath.

Lemma thrust_flames (player : Player) (g : Game) (w : World) :
  unitInterval w ->
  exists p1 g1 w1 a b,
    thrust math player g w = Some ((p1, g1), w1) /\
    g1 = set_particlesRef g (particlesRef g ++ [a; b]) /\
    flame a /\ flame b /\
    GameObject.position a = GameObject.position player /\
    GameObject.position b = GameObject.position player /\
    GameObject.position p1 = GameObject.position player /\
    random w1 = random w /\ performance_now w1 = performance_now w.
Proof.
  intros Hw. unfold thrust. cbv zeta.
  set (player' := Player.set_obj player _).
  unfold bind at 1. unfold playSound at 1.
  set (w0 := mkWorld _ _ _ _ _).
  assert (Hw0 : unitInterval w0) by exact Hw.
  destruct (thrusterParticle_flame math player' 0 w0 Hw0) as (a & Ea & Fa & Pa).
  destruct (thrusterParticle_flame math player' 5 w0 Hw0) as (b & Eb & Fb & Pb).
  rewrite draw_0 in Ea. cbn [Nat.add] in Ea, Eb.
  exists player', (set_particlesRef g (particlesRef g ++ [a; b])), (draw 10 w0), a, b.
  split.
  - cbn [times]. unfold bind. rewrite Ea. unfold ret at 1. rewrite Eb. unfold ret.
    cbn [particlesRef set_particlesRef]. rewrite <- app_assoc. reflexivity.
  - split; [reflexivity|]. split; [exact Fa|]. split; [exact Fb|].
    split; [exact Pa|]. split; [exact Pb|]. repeat split.
Qed.

(** X12. the thruster's exhaust.  With [Math.random()] in [[0, 1)],
    [handlePlayerControls] returns, and the particles it adds are two while
    ArrowUp or KeyW is held and there is a player, none otherwise; each starts
    where the player is, with one of the three colours of the thruster (never
    an undefined one), a radius from 1 to 3, a first size from 2 to 4 and half
    a second to live. *)
Theorem thruster_flames (keysPressed : list string) (deltaTime : float) (g : Game)
    (w : World) :
  unitInterval w ->
  exists g' w' ts,
    handlePlayerControls math keysPressed deltaTime g w = Some (g', w') /\
    particlesRef g' = particlesRef g ++ ts /\
    Forall flame ts /\
    match playerRef g with
    | Some player =>
        Forall (fun p : Particle => GameObject.position p = GameObject.position player) ts /\
        List.length ts
        = (if has keysPressed "ArrowUp" || has keysPressed "KeyW" then 2 else 0)%nat
    | None => ts = []
    end.
Proof.
  intros Hw. unfold handlePlayerControls.
  destruct (playerRef g) as [player|] eqn:Ep.
  2:{ exists g, w, []. rewrite app_nil_r. repeat split; auto. }
  assert (Hshoot : forall p g0 w0,
            exists g1 w1, (if has keysPressed "Space" then shoot math p g0 else ret g0) w0
                          = Some (g1, w1) /\ particlesRef g1 = particlesRef g0).
  { intros p g0 w0. destruct (has keysPressed "Space"); [|unfold ret; eauto].
    unfold shoot, bind, performanceNow.
    destruct (PLAYER_SHOOT_COOLDOWN <? _); unfold playSound, ret; eauto. }
  destruct (has keysPressed "ArrowUp" || has keysPressed "KeyW").
  - destruct (thrust_flames player g w Hw)
      as (p1 & g1 & w1 & a & b & E & -> & Fa & Fb & Pa & Pb & _).
    unfold bind at 1. rewrite E. cbv zeta.
    match goal with
    | |- context [(if has keysPressed "Space" then shoot math ?p ?g0 else ret ?g0) w1] =>
        destruct (Hshoot p g0 w1) as (g2 & w2 & E2 & P2)
    end.
    exists g2, w2, [a; b]. split; [exact E2|]. split; [rewrite P2; reflexivity|].
    repeat split; auto.
  - unfold bind at 1. unfold ret at 1. cbv zeta.
    match goal with
    | |- context [(if has keysPressed "Space" then shoot math ?p ?g0 else ret ?g0) w] =>
        destruct (Hshoot p g0 w) as (g2 & w2 & E2 & P2)
    end.
    exists g2, w2, []. split; [exact E2|]. split; [rewrite P2, app_nil_r; reflexivity|].
    repeat split; auto.
Qed.

End Controls.

Lemma thruster_flames_witness :
  exists g' w' ts,
    handlePlayerControls flatMath ["KeyW"]%string 16 stale evenWorld = Some (g', w') /\
    particlesRef g' = particlesRef stale ++ ts /\
    Forall flame ts /\
    match playerRef stale with
    | Some player =>
        Forall (fun p : Particle => GameObject.position p = GameObject.position player) ts /\
        List.length ts
        = (if has ["KeyW"]%string "ArrowUp" || has ["KeyW"]%string "KeyW" then 2 else 0)%nat
    | None => ts = []
    end.
Proof.
  apply (thruster_flames flatMath ["KeyW"]%string 16 stale evenWorld).
  intros n. split; reflexivity.
Defined.

(** * The particles of an explosion *)

Lemma sparkAt_spark (position : Vector2D) (color : string) (size : float) (w : World)
    (k : nat) :
  unitInterval w -> is_finite size = true -> (0 <=? size) = true ->
  spark position color size (sparkAt position color size w k).
Proof.
  intros Hw Fs Ps. unfold spark, sparkAt. cbn.
  destruct (Hw (drawn w + 5 * k + 1)%nat) as [A1 B1], (Hw (drawn w + 5 * k + 2)%nat) as [A2 B2],
    (Hw (drawn w + 5 * k + 3)%nat) as [A3 B3], (Hw (drawn w + 5 * k + 4)%nat) as [A4 B4].
  destruct (scaled_between _ size 1 A3 B3 Fs Ps eq_refl) as (R1 & R2 & _).
  destruct (scaled_between _ size 1 A4 B4 Fs Ps eq_refl) as (_ & _ & _ & S1 & S2).
  split; [reflexivity|]. split; [reflexivity|].
  split; [apply (within_weaken (-3) (3 - -3 + -3) 3); [|reflexivity];
          apply (scaled_within _ (-3) 3); auto|].
  split; [apply (within_weaken (-3) (3 - -3 + -3) 3); [|reflexivity];
          apply (scaled_within _ (-3) 3); auto|].
  split; [split; assumption|]. split; [split; assumption|]. split; reflexivity.
Qed.

(** X13. the particles of an explosion.  With [Math.random()] in [[0, 1)], a
    size that is finite and not negative and a count that the loop can reach,
    [createExplosion] returns; every particle it adds is at the given position
    and has the given colour, a velocity from -3 to 3 along each axis, a
    radius from 0 to the size, a first size from 1 to the size plus 1, and one
    second to live. *)
Theorem createExplosion_spread (position : Vector2D) (count : float) (color : string)
    (size : float) (g : Game) (w : World) :
  unitInterval w -> is_finite size = true -> (0 <=? size) = true -> countable count ->
  exists g' w' ps,
    createExplosion position count color size g w = Some (g', w') /\
    particlesRef g' = particlesRef g ++ ps /\
    Forall (spark position color size) ps /\
    rounds count = Some (List.length ps).
Proof.
  intros Hw Fs Ps Hc. unfold countable in Hc. unfold createExplosion, for_count.
  destruct (rounds count) as [n|]; [clear Hc|congruence].
  pose proof (explosionLoop_draw position color size w n 0 g) as H.
  rewrite Nat.mul_0_r, draw_0 in H. rewrite H.
  eexists _, _, _. split; [reflexivity|]. cbn [particlesRef set_particlesRef].
  split; [reflexivity|]. split.
  - apply Forall_forall. intros p Hp. apply in_map_iff in Hp. destruct Hp as (k & <- & _).
    now apply sparkAt_spark.
  - now rewrite length_map, length_seq.
Qed.

Lemma createExplosion_spread_witness :
  exists g' w' ps,
    createExplosion (Vector2D.mk 400 300) 5 "#00f2ff" 2 stale evenWorld = Some (g', w') /\
    particlesRef g' = particlesRef stale ++ ps /\
    Forall (spark (Vector2D.mk 400 300) "#00f2ff" 2) ps /\
    rounds 5 = Some (List.length ps).
Proof.
  apply (createExplosion_spread (Vector2D.mk 400 300) 5 "#00f2ff" 2 stale evenWorld).
  - intros n. split; reflexivity.
  - reflexivity.
  - reflexivity.
  - unfold countable. vm_compute. discriminate.
Defined.

(** * The spawner *)

Lemma sub_0_r (x : float) : x - 0 = x.
Proof.
  apply Prim2SF_inj. rewrite sub_spec. change (Prim2SF 0) with (S754_zero false).
  destruct (Prim2SF x) as [[]|[]| |[] m e]; reflexivity.
Qed.

Lemma add_0_r_le (x : float) : is_finite x = true -> (x + 0 <=? x) = true.
Proof.
  intros F. destruct (finite_value x F) as (v & V).
  eapply holds_leb; [apply (add_holds _ _ _ _ V value_0)|apply (value_holds _ _ V)|lia].
Qed.

Lemma opp_nonneg (r : float) : (0 <=? r) = true -> (- r <=? 0) = true.
Proof.
  intros H. apply leb_0_signed in H. rewrite leb_spec, opp_spec.
  change (Prim2SF 0) with (S754_zero false).
  destruct (Prim2SF r) as [[]|[]| |[] m e]; try contradiction; try discriminate; reflexivity.
Qed.

Lemma leb_not_nan_l (a b : float) : (a <=? b) = true -> is_nan a = false.
Proof.
  intros H. destruct (leb_true_ranked _ _ H) as (ra & rb & Ha & Hb).
  apply is_nan_rank. eauto.
Qed.

Lemma leb_not_nan_r (a b : float) : (a <=? b) = true -> is_nan b = false.
Proof.
  intros H. destruct (leb_true_ranked _ _ H) as (ra & rb & Ha & Hb).
  apply is_nan_rank. eauto.
Qed.

Lemma opp_not_nan (r : float) : is_nan r = false -> is_nan (- r) = false.
Proof.
  intros H. apply is_nan_rank in H. destruct H as (a & Ha). unfold frank in Ha.
  assert (E : Prim2SF (- r) <> S754_nan).
  { rewrite opp_spec. destruct (Prim2SF r); cbn; try discriminate. }
  destruct (is_nan (- r)) eqn:N; [|reflexivity].
  exfalso. apply E. unfold is_nan in N. rewrite eqb_spec in N.
  destruct (Prim2SF (- r)) as [[]|[]| |[] m e]; try reflexivity; cbn in N; try discriminate.
  all: unfold SFeqb, SFcompare in N; rewrite ?Z.compare_refl, ?Pos.compare_refl in N;
    discriminate.
Qed.

(** A coordinate drawn along a side of the viewport. *)
Lemma along_side (u extent : float) :
  (0 <=? u) = true -> (u <? 1) = true -> is_finite extent = true -> (0 <=? extent) = true ->
  within 0 extent (u * (extent - 0) + 0).
Proof.
  intros H0 H1 F P. rewrite sub_0_r.
  destruct (scaled_between u extent 0 H0 H1 F P eq_refl) as (_ & _ & _ & A & B).
  split; [exact A|]. eapply leb_trans; [exact B|]. now apply add_0_r_le.
Qed.

Lemma spawnPosition_draw (dim : Dimensions) (side radius : float) (j : nat) (w : World) :
  unitInterval w -> sized dim -> (0 <=? radius) = true ->
  exists p,
    spawnPosition dim side radius (draw j w) = Some (p, draw (S j) w) /\
    (- radius <=? Vector2D.x p) = true /\ (Vector2D.x p <=? width dim + radius) = true /\
    (- radius <=? Vector2D.y p) = true /\ (Vector2D.y p <=? height dim + radius) = true /\
    (Vector2D.y p = - radius \/ Vector2D.x p = width dim + radius \/
     Vector2D.y p = height dim + radius \/ Vector2D.x p = - radius).
Proof.
  intros Hw (Fw & Pw & Fh & Ph) Pr.
  destruct (Hw (drawn w + j)%nat) as [H0 H1].
  destruct (along_side _ (width dim) H0 H1 Fw Pw) as [X0 X1].
  destruct (along_side _ (height dim) H0 H1 Fh Ph) as [Y0 Y1].
  pose proof (opp_nonneg radius Pr) as Nr.
  assert (Nn : is_nan (- radius) = false) by (eapply leb_not_nan_l; eauto).
  pose proof (add_nonneg_le 0 (width dim) radius eq_refl Pw Pr) as Wr.
  pose proof (add_nonneg_le 0 (height dim) radius eq_refl Ph Pr) as Hr.
  assert (Wn : is_nan (width dim + radius) = false) by (eapply leb_not_nan_r; eauto).
  assert (Hn : is_nan (height dim + radius) = false) by (eapply leb_not_nan_r; eauto).
  assert (Lw : (- radius <=? width dim + radius) = true).
  { eapply leb_trans; [exact Nr|]. apply (leb_trans _ (width dim)); assumption. }
  assert (Lh : (- radius <=? height dim + radius) = true).
  { eapply leb_trans; [exact Nr|]. apply (leb_trans _ (height dim)); assumption. }
  unfold spawnPosition.
  destruct (side =? 0); [|destruct (side =? 1); [|destruct (side =? 2)]];
    unfold bind; rewrite randomBetween_draw; unfold ret; eexists; (split; [reflexivity|]);
    cbn [Vector2D.x Vector2D.y].
  all: repeat split; auto using leb_refl_ranked;
    try (eapply leb_trans; [exact Nr|assumption]);
    try (eapply leb_trans; [eassumption|assumption]).
  all: first [now left|now (right; left)|now (right; right; left)|now (right; right; right)].
Qed.

Lemma Math_random_0 (w : World) : Math_random w = Some (random w (drawn w), draw 1 w).
Proof. pose proof (Math_random_draw 0 w) as H. now rewrite draw_0, Nat.add_0_r in H. Qed.

Lemma spawnEnemy_spawned (g : Game) (w : World) :
  unitInterval w -> sized (dimensions g) ->
  exists e,
    spawnEnemy g w = Some (set_enemiesRef g (enemiesRef g ++ [e]), draw 7 w) /\
    newcomer (dimensions g) (score g) (random w (drawn w)) e.
Proof.
  intros Hw Hd. unfold spawnEnemy.
  unfold bind at 1. rewrite Math_random_0.
  unfold bind at 1. rewrite randomBetween_draw.
  set (typeRoll := random w (drawn w)).
  set (rad0 := random w (drawn w + 1)%nat * (40 - 15) + 15).
  assert (Hrad0 : within 15 40 rad0).
  { destruct (Hw (drawn w + 1)%nat) as [A B].
    apply (within_weaken 15 (40 - 15 + 15) 40); [|reflexivity].
    apply (scaled_within _ 15 40); auto. }
  set (choice := if (1000 <? score g) && (0.95 <? typeRoll) then (Mothership, 60, 50)
                 else if (200 <? score g) && (0.7 <? typeRoll) then (Saucer, 20, 10)
                 else (Meteor, rad0, rad0 / 2)).
  assert (Hc : exists ty radius health, choice = (ty, radius, health) /\
             ty = (if (1000 <? score g) && (0.95 <? typeRoll) then Mothership
                   else if (200 <? score g) && (0.7 <? typeRoll) then Saucer else Meteor) /\
             match ty with
             | Mothership => radius = 60 /\ health = 50
             | Saucer => radius = 20 /\ health = 10
             | Meteor => within 15 40 radius /\ health = radius / 2
             | BlackHole => False
             end /\ (0 <=? radius) = true).
  { subst choice.
    destruct ((1000 <? score g) && (0.95 <? typeRoll));
      [|destruct ((200 <? score g) && (0.7 <? typeRoll))];
      eexists _, _, _; (split; [reflexivity|]); (split; [reflexivity|]);
      (split; [auto|]); try reflexivity.
    destruct Hrad0 as [A _]. apply (leb_trans _ 15); [reflexivity|exact A]. }
  destruct Hc as (ty & radius & health & -> & Hty & Htab & Pr).
  unfold bind at 1. rewrite Math_random_draw.
  destruct (spawnPosition_draw (dimensions g)
              (Math_floor (random w (drawn w + 2)%nat * 4)) radius 3 w Hw Hd Pr)
    as (p & Ep & X0 & X1 & Y0 & Y1 & Hedge).
  unfold bind at 1. rewrite Ep.
  unfold bind at 1. rewrite DateNow_draw.
  unfold bind at 1. rewrite Math_random_draw.
  unfold bind at 1. rewrite randomBetween_draw.
  unfold bind at 1. rewrite randomBetween_draw.
  unfold ret. eexists. split; [reflexivity|].
  unfold newcomer, onScreen. cbn.
  destruct (Hw (drawn w + 5)%nat) as [A5 B5], (Hw (drawn w + 6)%nat) as [A6 B6].
  split; [exact Hty|]. split; [exact Htab|]. split; [reflexivity|]. split; [reflexivity|].
  split; [apply (within_weaken (-1) (1 - -1 + -1) 1); [|reflexivity];
          apply (scaled_within _ (-1) 1); auto|].
  split; [apply (within_weaken (-1) (1 - -1 + -1) 1); [|reflexivity];
          apply (scaled_within _ (-1) 1); auto|].
  split; [|exact Hedge].
  rewrite X0, X1, Y0, Y1. reflexivity.
Qed.

(** X14. the enemy that the spawner makes.  With [Math.random()] in [[0, 1)]
    and a viewport with finite sides that are not negative, [spawnEnemy]
    returns after seven random numbers with one more enemy, at the end of the
    list: a mothership (radius 60, health 50) when the score is above 1000 and
    the first number above 0.95, else a saucer (radius 20, health 10) when the
    score is above 200 and that number above 0.7, else a meteor with a radius
    from 15 to 40 and half of it as health, never a black hole; it is at full
    health, has a velocity from -1 to 1 along each axis, and lies just outside
    one side of the viewport, within the bounds of the screen wrap. *)
Theorem spawnEnemy_newcomer (g : Game) (w : World) :
  unitInterval w -> sized (dimensions g) ->
  exists e,
    spawnEnemy g w = Some (set_enemiesRef g (enemiesRef g ++ [e]), draw 7 w) /\
    newcomer (dimensions g) (score g) (random w (drawn w)) e.
Proof. apply spawnEnemy_spawned. Qed.

Lemma spawnEnemy_newcomer_witness :
  exists e,
    spawnEnemy stale evenWorld
    = Some (set_enemiesRef stale (enemiesRef stale ++ [e]), draw 7 evenWorld) /\
    newcomer (dimensions stale) (score stale) (random evenWorld (drawn evenWorld)) e.
Proof.
  apply (spawnEnemy_newcomer stale evenWorld).
  - intros n. split; reflexivity.
  - repeat split; reflexivity.
Defined.

(** * Products and quotients by a positive number *)

Lemma signed_leb_0 (v : float) : signed false (Prim2SF v) -> (0 <=? v) = true.
Proof.
  intros H. apply leb_0_signed. destruct (Prim2SF v); cbn [signed] in H; auto.
Qed.

Lemma signed_cases (f : spec_float) :
  signed false f ->
  match f with
  | S754_zero _ => True
  | S754_infinity s | S754_finite s _ _ => s = false
  | S754_nan => False
  end.
Proof. destruct f; cbn [signed]; auto. Qed.

Lemma mul_nonneg_pos (a b : float) (m : positive) (e : Z) :
  (0 <=? a) = true -> Prim2SF b = S754_finite false m e -> (0 <=? a * b) = true.
Proof.
  intros Ha Hb. apply leb_0_signed in Ha. apply leb_0_signed.
  rewrite mul_spec, Hb. unfold SF64mul, SFmul.
  destruct (Prim2SF a) as [sa|sa| |sa ma ea]; try contradiction; try exact I;
    subst sa; try reflexivity.
  apply signed_cases. apply binary_round_aux_signed. lia.
Qed.

Lemma SFdiv_core_binary_nonneg (m1 : positive) (e1 : Z) (m2 : positive) (e2 : Z) :
  (0 <= fst (fst (SFdiv_core_binary prec emax (Zpos m1) e1 (Zpos m2) e2)))%Z.
Proof.
  unfold SFdiv_core_binary. cbv zeta.
  set (e' := Z.min _ _). set (s := (e1 - e2 - e')%Z).
  set (m' := match s with 0%Z => Zpos m1 | Zpos _ => Z.shiftl (Zpos m1) s | Zneg _ => 0%Z end).
  assert (Hm : (0 <= m')%Z).
  { subst m'. destruct s; try lia. apply Z.shiftl_nonneg. lia. }
  clearbody m'.
  pose proof (Z_div_mod m' (Zpos m2) ltac:(lia)) as H.
  destruct (Z.div_eucl m' (Zpos m2)) as [q r]. cbn [fst]. nia.
Qed.

Lemma div_nonneg_pos (a b : float) (m : positive) (e : Z) :
  (0 <=? a) = true -> Prim2SF b = S754_finite false m e -> (0 <=? a / b) = true.
Proof.
  intros Ha Hb. apply leb_0_signed in Ha. apply leb_0_signed.
  rewrite div_spec, Hb. unfold SF64div, SFdiv.
  destruct (Prim2SF a) as [sa|sa| |sa ma ea]; try contradiction; try exact I;
    subst sa; try reflexivity.
  pose proof (SFdiv_core_binary_nonneg ma ea m e) as H.
  destruct (SFdiv_core_binary prec emax (Zpos ma) ea (Zpos m) e) as [[mz ez] lz].
  cbn [fst] in H. apply signed_cases. now apply binary_round_aux_signed.
Qed.

Lemma positive_finite (b : float) :
  (0 <? b) = true -> is_finite b = true -> exists m e, Prim2SF b = S754_finite false m e.
Proof.
  intros Hp Fb. apply is_finite_SF in Fb. rewrite ltb_spec in Hp.
  change (Prim2SF 0) with (S754_zero false) in Hp.
  destruct (Prim2SF b) as [[]|[]| |[] m e]; try contradiction; try discriminate; eauto.
Qed.

Lemma div_nonneg (a b : float) :
  (0 <=? a) = true -> (0 <? b) = true -> is_finite b = true -> (0 <=? a / b) = true.
Proof.
  intros Ha Hb Fb. destruct (positive_finite b Hb Fb) as (m & e & E).
  eapply div_nonneg_pos; eauto.
Qed.

(** * The score *)

Lemma award_grows (es : list Enemy) :
  forall s0 s,
    is_finite s0 = true -> (s0 <=? s) = true ->
    Forall (fun e => (0 <=? Enemy.maxHealth e) = true) es ->
    (s <=? award s es) = true.
Proof.
  unfold award. induction es as [|e es IH]; intros s0 s F0 Hs Hes; cbn [fold_left].
  - eapply leb_not_nan_r in Hs. now apply leb_refl_ranked.
  - inversion Hes as [|? ? He Hes']; subst.
    assert (Hf : (0 <=? Math_floor (Enemy.maxHealth e * 5)) = true).
    { apply Math_floor_nonneg. eapply (mul_nonneg_pos _ 5); [exact He|reflexivity]. }
    pose proof (add_nonneg_le s0 s _ F0 Hs Hf) as Hstep.
    eapply leb_trans; [exact Hstep|].
    apply (IH s0); auto. eapply leb_trans; eauto.
Qed.

Lemma laserSweep_maxHealth (P : float -> Prop) (es : list Enemy) :
  forall ls,
    Forall (fun e => P (Enemy.maxHealth e)) es ->
    Forall (fun o : Enemy * bool => P (Enemy.maxHealth (fst o))) (fst (laserSweep es ls)).
Proof.
  induction es as [|e es IH]; intros ls H; cbn [laserSweep fst]; [constructor|].
  inversion H; subst. constructor; [assumption|]. now apply IH.
Qed.

Lemma Forall_survivors (P : float -> Prop) (outcome : list (Enemy * bool)) :
  Forall (fun o : Enemy * bool => P (Enemy.maxHealth (fst o))) outcome ->
  Forall (fun e => P (Enemy.maxHealth e)) (survivors outcome) /\
  Forall (fun e => P (Enemy.maxHealth e)) (destroyed outcome).
Proof.
  unfold survivors, destroyed. induction 1 as [|o l Ho Hl [IH1 IH2]]; cbn [filter map].
  - split; constructor.
  - destruct (snd o); cbn [negb map]; split; auto.
Qed.

Lemma newcomer_maxHealth dim s t (e : Enemy) :
  newcomer dim s t e -> (0 <=? Enemy.maxHealth e) = true.
Proof.
  intros (_ & Htab & -> & _). destruct (Enemy.type e).
  - destruct Htab as ([A _] & ->).
    apply div_nonneg; [|reflexivity..].
    apply (leb_trans _ 15); [reflexivity|exact A].
  - destruct Htab as (_ & ->). reflexivity.
  - contradiction.
  - destruct Htab as (_ & ->). reflexivity.
Qed.

Section FrameScore.

Variable math : JSMath.

Lemma spawnEnemies_newcomer (g : Game) (w : World) g' w' :
  spawnEnemies g w = Some (g', w') -> unitInterval w -> sized (dimensions g) ->
  g' = g \/
  exists e, g' = set_enemiesRef g (enemiesRef g ++ [e]) /\
            newcomer (dimensions g) (score g) (random w (drawn w)) e.
Proof.
  unfold spawnEnemies. intros H Hw Hd.
  destruct (length_number (enemiesRef g) <? spawnCap g).
  - right. destruct (spawnEnemy_spawned g w Hw Hd) as (e & E & Hn).
    rewrite E in H. injection H as <- _. eauto.
  - left. apply ret_Some in H. now destruct H.
Qed.

(** X15. a frame never lowers the score.  With [Math.random()] in [[0, 1)], a
    viewport with finite sides that are not negative, a score that is not
    negative and enemies whose [maxHealth] is not negative, the score after
    [updateAndDraw] is at least the score before, and the enemies after it,
    the one spawned in the frame included, have a [maxHealth] that is not
    negative: the same holds for the next frame. *)
Theorem updateAndDraw_score_grows (keysPressed : list string) (deltaTime : float)
    (g : Game) (w : World) (g' : Game) (w' : World) :
  updateAndDraw math keysPressed deltaTime g w = Some (g', w') ->
  unitInterval w -> sized (dimensions g) -> (0 <=? score g) = true ->
  Forall (fun e : Enemy => (0 <=? Enemy.maxHealth e) = true) (enemiesRef g) ->
  (score g <=? score g') = true /\
  Forall (fun e : Enemy => (0 <=? Enemy.maxHealth e) = true) (enemiesRef g').
Proof.
  unfold updateAndDraw. intros H Hw Hd Hs He.
  apply bind_Some in H. destruct H as (g1 & w1 & H1 & H).
  apply bind_Some in H. destruct H as (g4 & w4 & H4 & H).
  apply bind_Some in H. destruct H as (g5 & w5 & H5 & H).
  apply bind_Some in H. destruct H as (g6 & w6 & H6 & H).
  apply bind_Some in H. destruct H as (g7 & w7 & H7 & H8).
  pose proof (steady_updatePlayer _ _ _ _ _ _ _ H1) as R1.
  pose proof (steady_updateEnemies _ _ _ _ H4) as R4.
  apply updatePlayer_spec in H1. destruct H1 as (_ & B1 & C1 & D1 & _).
  apply updateEnemies_spec in H4. destruct H4 as (es4 & -> & F4).
  assert (Hw4 : unitInterval w4).
  { eapply unitInterval_random; [|exact Hw]. congruence. }
  apply spawnEnemies_newcomer in H5; [|exact Hw4|cbn; now rewrite D1].
  apply enemyAI_spec in H6. destruct H6 as (_ & eshots & -> & _).
  apply handleCollisions_spec in H7. cbn zeta in H7.
  destruct H7 as (En7 & Sc7 & _).
  apply playerCollisions_spec in H8.
  destruct H8 as (_ & _ & B8 & _ & En8 & _).
  assert (He4 : Forall (fun e : Enemy => (0 <=? Enemy.maxHealth e) = true) es4).
  { cbn [enemiesRef updateParticles updateLasers set_particlesRef set_lasersRef] in F4.
    rewrite C1 in F4. clear - F4 He. induction F4 as [|a b l l' Hab Hl IH]; [constructor|].
    inversion He; subst. constructor; [|now apply IH].
    destruct Hab as (_ & _ & _ & ->). assumption. }
  assert (He5 : Forall (fun e : Enemy => (0 <=? Enemy.maxHealth e) = true) (enemiesRef g5) /\
                score g5 = score g).
  { destruct H5 as [->|(e & -> & Hn)]; cbn; (split; [|exact B1]); [exact He4|].
    apply Forall_app. split; [exact He4|]. constructor; [|constructor].
    eapply newcomer_maxHealth; eauto. }
  destruct He5 as [He5 Sc5].
  cbn [enemiesRef lasersRef score set_lasersRef] in En7, Sc7.
  pose proof (laserSweep_maxHealth (fun h => (0 <=? h) = true) (enemiesRef g5)
                (lasersRef g5 ++ eshots) He5) as Ho.
  apply Forall_survivors in Ho. destruct Ho as [Hsv Hds].
  split.
  - rewrite B8, Sc7, Sc5. apply (award_grows _ 0); auto.
  - rewrite <- En7 in Hsv. rewrite Forall_forall in Hsv |- *.
    intros e Hin. apply Hsv. now apply En8.
Qed.

End FrameScore.

Lemma updateAndDraw_score_grows_witness :
  exists g' w',
    updateAndDraw flatMath [] 16 range evenWorld = Some (g', w') /\
    (score range <=? score g') = true /\
    Forall (fun e : Enemy => (0 <=? Enemy.maxHealth e) = true) (enemiesRef g').
Proof.
  destruct (updateAndDraw flatMath [] 16 range evenWorld) as [[g' w']|] eqn:E;
    [|vm_compute in E; discriminate E].
  exists g', w'. split; [reflexivity|].
  apply (updateAndDraw_score_grows flatMath [] 16 range evenWorld g' w' E).
  - intros n. split; reflexivity.
  - repeat split; reflexivity.
  - reflexivity.
  - repeat constructor.
Defined.

(** * The player's health *)

Lemma iter_sub_le (d hi h : float) (n : nat) :
  is_finite hi = true -> (h <=? hi) = true -> (0 <=? d) = true ->
  (Nat.iter n (fun h => h - d) h <=? h) = true.
Proof.
  intros Fhi Hh Hd. induction n as [|n IH]; cbn [Nat.iter].
  - apply leb_refl_ranked. eapply leb_not_nan_l; eauto.
  - eapply leb_trans; [|exact IH].
    apply (sub_nonneg_le hi); auto. eapply leb_trans; eauto.
Qed.

Lemma playerCollisions_health (g : Game) (w : World) (g' : Game) (w' : World) (p : Player) :
  playerCollisions g w = Some (g', w') ->
  playerRef g = Some p -> is_finite (Player.health p) = true ->
  forall p', playerRef g' = Some p' ->
    (Player.health p' <=? Player.health p) = true /\ (Player.health p' <=? 0) = false.
Proof.
  unfold playerCollisions. intros H Ep Fh p' Ep'. rewrite Ep in H.
  apply bind_Some in H. destruct H as ([p1 g1] & w1 & H1 & H).
  apply bind_Some in H. destruct H as ([[p2 ls2] g2] & w2 & H2 & H).
  apply playerVsEnemies_spec in H1. apply playerLoop_spec in H2. cbn zeta in H2.
  destruct H2 as (Hp2 & _ & _).
  pose proof (leb_refl_finite _ Fh) as Hrefl.
  assert (Hp1 : (Player.health p1 <=? Player.health p) = true).
  { destruct H1 as [(-> & _)|(enemy & _ & _ & -> & _)]; [exact Hrefl|].
    cbn. apply (sub_nonneg_le (Player.health p)); auto. }
  assert (Hh2 : (Player.health p2 <=? Player.health p) = true).
  { rewrite Hp2. cbn. eapply leb_trans; [|exact Hp1].
    apply (iter_sub_le 10 (Player.health p)); auto. }
  unfold playerDeath in H. destruct (Player.health p2 <=? 0) eqn:Eh.
  - apply bind_Some in H. destruct H as ([] & w3 & _ & H).
    apply bind_Some in H. destruct H as (g3 & w4 & He & H).
    apply ret_Some in H. destruct H as [<- _]. cbn in Ep'. discriminate.
  - apply ret_Some in H. destruct H as [<- _]. cbn in Ep'. injection Ep' as <-. auto.
Qed.

Section FrameHealth.

Variable math : JSMath.

(** X16. a frame never raises the player's health.  When the player has a
    finite health before [updateAndDraw] and is still there after it, the
    health after is at most the health before, above 0 and finite: the same
    holds for the next frame. *)
Theorem updateAndDraw_health_falls (keysPressed : list string) (deltaTime : float)
    (g : Game) (w : World) (g' : Game) (w' : World) (p p' : Player) :
  updateAndDraw math keysPressed deltaTime g w = Some (g', w') ->
  playerRef g = Some p -> is_finite (Player.health p) = true ->
  playerRef g' = Some p' ->
  (Player.health p' <=? Player.health p) = true /\
  (0 <? Player.health p') = true /\
  is_finite (Player.health p') = true.
Proof.
  unfold updateAndDraw. intros H Ep Fh Ep'.
  apply bind_Some in H. destruct H as (g1 & w1 & H1 & H).
  apply bind_Some in H. destruct H as (g4 & w4 & H4 & H).
  apply bind_Some in H. destruct H as (g5 & w5 & H5 & H).
  apply bind_Some in H. destruct H as (g6 & w6 & H6 & H).
  apply bind_Some in H. destruct H as (g7 & w7 & H7 & H8).
  apply updatePlayer_spec in H1. destruct H1 as (_ & _ & _ & _ & _ & _ & P1 & _).
  destruct (P1 p Ep) as (p1 & Ep1 & Hh1 & _).
  apply updateEnemies_spec in H4. destruct H4 as (es4 & -> & _).
  apply spawnEnemies_spec in H5.
  assert (P5 : playerRef g5 = Some p1).
  { destruct H5 as [(_ & E5 & _)|(_ & e & E5 & _)]; rewrite E5; exact Ep1. }
  apply enemyAI_spec in H6. destruct H6 as (_ & eshots & -> & _).
  apply handleCollisions_spec in H7. cbn zeta in H7.
  destruct H7 as (_ & _ & _ & _ & B7 & _).
  cbn [playerRef set_lasersRef] in B7. rewrite P5 in B7.
  rewrite <- Hh1 in Fh |- *.
  destruct (playerCollisions_health g7 w7 g' w' p1 H8 B7 Fh p' Ep') as [Hle Hpos].
  assert (Hlt : (0 <? Player.health p') = true).
  { apply leb_false_ltb_true; [eapply leb_not_nan_l; eauto|reflexivity|exact Hpos]. }
  split; [exact Hle|]. split; [exact Hlt|].
  apply (between_finite 0 _ (Player.health p1)); auto. now apply ltb_leb.
Qed.

End FrameHealth.

Lemma updateAndDraw_health_falls_witness :
  exists g' w' p',
    updateAndDraw flatMath [] 16 range evenWorld = Some (g', w') /\
    playerRef g' = Some p' /\
    (Player.health p' <=? Player.health (pilot 100)) = true /\
    (0 <? Player.health p') = true /\
    is_finite (Player.health p') = true.
Proof.
  destruct (updateAndDraw flatMath [] 16 range evenWorld) as [[g' w']|] eqn:E;
    [|vm_compute in E; discriminate E].
  destruct (playerRef g') as [p'|] eqn:Ep';
    [|vm_compute in E; injection E as <- _; discriminate Ep'].
  exists g', w', p'. split; [reflexivity|]. split; [exact Ep'|].
  exact (updateAndDraw_health_falls flatMath [] 16 range evenWorld g' w' (pilot 100) p'
           E eq_refl eq_refl Ep').
Defined.

(** * The life of the particles *)

Lemma ageParticle_fades (dim : Dimensions) (deltaTime : float) (p : Particle) :
  (0 <=? deltaTime) = true -> is_finite (Particle.life p) = true ->
  faded p (ageParticle dim deltaTime p).
Proof.
  intros Hd Fl. unfold faded, ageParticle. cbn.
  repeat split.
  apply (sub_nonneg_le (Particle.life p)); auto using leb_refl_finite.
  apply div_nonneg; [exact Hd|reflexivity..].
Qed.

(** X17. particles fade.  With a frame time that is not negative,
    [updateParticles] keeps the particles whose life is above 0, in their
    order, and each of them as it was (id, colour, full life and first size)
    but for its place, its radius and its life, which is the life before less
    a thousandth of the frame time, and not above the life before when that
    was finite. *)
Theorem updateParticles_fade (deltaTime : float) (g : Game) :
  (0 <=? deltaTime) = true ->
  Forall (fun p : Particle => is_finite (Particle.life p) = true) (particlesRef g) ->
  Forall2 faded (filter alive (particlesRef g)) (particlesRef (updateParticles deltaTime g)).
Proof.
  intros Hd Hf. unfold updateParticles. cbn [particlesRef set_particlesRef].
  induction Hf as [|p ps Hp Hps IH]; cbn [filter map]; [constructor|].
  destruct (alive p); cbn [map]; [|exact IH].
  constructor; [|exact IH]. now apply ageParticle_fades.
Qed.

Lemma updateParticles_fade_witness :
  Forall2 faded (filter alive (particlesRef stale)) (particlesRef (updateParticles 16 stale)).
Proof.
  apply (updateParticles_fade 16 stale); [reflexivity|].
  repeat constructor.
Defined.

(** * Shooting *)

Lemma cooldown_at_once (now : float) : (PLAYER_SHOOT_COOLDOWN <? now - now) = false.
Proof.
  rewrite ltb_spec, sub_spec. unfold PLAYER_SHOOT_COOLDOWN.
  destruct (Prim2SF now) as [[]|[]| |s m e] eqn:E; try reflexivity.
  rewrite (SFsub_self (S754_finite s m e) I). reflexivity.
Qed.

Section Shooting.

Variable math : JSMath.

(** X18. a shot starts the cooldown.  [shoot] returns with at most one more
    laser, a laser of the player; called again at the same reading of
    [performance.now()], for whatever player, it changes nothing: no second
    laser and no second sound, whatever the clock reads. *)
Theorem shoot_cooldown (player : Player) (g : Game) (w : World) :
  exists g1 w1 shots,
    shoot math player g w = Some (g1, w1) /\
    lasersRef g1 = lasersRef g ++ shots /\ (List.length shots <= 1)%nat /\
    Forall (fun l : Laser => Laser.isPlayerLaser l = true /\ GameObject.radius l = 2 /\
                             GameObject.position l = GameObject.position player) shots /\
    (shots <> [] -> lastShotTimeRef g1 = performance_now w) /\
    forall player', shoot math player' g1 w1 = Some (g1, w1).
Proof.
  unfold shoot, bind, performanceNow.
  destruct (PLAYER_SHOOT_COOLDOWN <? performance_now w - lastShotTimeRef g) eqn:E.
  - unfold playSound, ret. eexists _, _, [_]. split; [reflexivity|].
    cbn [lasersRef set_lasersRef set_lastShotTimeRef lastShotTimeRef performance_now].
    split; [reflexivity|]. split; [cbn; lia|]. split; [repeat constructor|].
    split; [reflexivity|]. intros player'. now rewrite cooldown_at_once.
  - unfold ret. exists g, w, []. rewrite app_nil_r. split; [reflexivity|].
    split; [reflexivity|]. split; [cbn; lia|]. split; [constructor|].
    split; [congruence|]. intros player'. now rewrite E.
Qed.

Lemma set_lasersRef_twice (g : Game) (a b : list Laser) :
  set_lasersRef (set_lasersRef g a) b = set_lasersRef g b.
Proof. reflexivity. Qed.

Lemma set_lasersRef_same (g : Game) : set_lasersRef g (lasersRef g ++ []) = g.
Proof. destruct g. cbn. now rewrite app_nil_r. Qed.

Lemma enemyShoot_shots (e : Enemy) (g : Game) (w : World) :
  exists shots w',
    enemyShoot math e g w = Some (set_lasersRef g (lasersRef g ++ shots), w') /\
    (List.length shots <= List.length (filter armed [e]))%nat /\
    Forall (fun l : Laser => Laser.isPlayerLaser l = false /\ GameObject.radius l = 3) shots /\
    (playerRef g = None -> shots = []) /\
    ((random w (drawn w) <? 0.01) = false -> shots = []) /\
    drawn w' = (drawn w + List.length (filter armed [e]) + List.length shots)%nat /\
    played w' = played w ++ repeat ("enemyLaser"%string, 0.2) (List.length shots) /\
    random w' = random w.
Proof.
  assert (Hquiet : forall w0 : World,
            drawn w0 = (drawn w + List.length (filter armed [e]))%nat ->
            played w0 = played w -> random w0 = random w ->
            exists shots w',
              ret g w0 = Some (set_lasersRef g (lasersRef g ++ shots), w') /\
              (List.length shots <= List.length (filter armed [e]))%nat /\
              Forall (fun l : Laser => Laser.isPlayerLaser l = false /\ GameObject.radius l = 3)
                     shots /\
              (playerRef g = None -> shots = []) /\
              ((random w (drawn w) <? 0.01) = false -> shots = []) /\
              drawn w' = (drawn w + List.length (filter armed [e]) + List.length shots)%nat /\
              played w' = played w ++ repeat ("enemyLaser"%string, 0.2) (List.length shots) /\
              random w' = random w).
  { intros w0 D P R. exists [], w0. unfold ret. rewrite set_lasersRef_same. cbn [List.length repeat].
    rewrite app_nil_r. repeat split; auto; lia. }
  assert (Hfire : armed e = true ->
            exists shots w',
              (roll <- Math_random ;;
               match (if roll <? 0.01 then playerRef g else None) with
               | Some player =>
                   _ <- playSound "enemyLaser" 0.2 ;;
                   let angle :=
                     Math_atan2 math
                       (Vector2D.y (GameObject.position player) - Vector2D.y (GameObject.position e))
                       (Vector2D.x (GameObject.position player) - Vector2D.x (GameObject.position e)) in
                   now <- DateNow ;;
                   r <- Math_random ;;
                   ret (set_lasersRef g
                          (lasersRef g ++
                           [Laser.mk
                              (GameObject.mk (id_el now r)
                                 (GameObject.position e)
                                 (Vector2D.mk (Math_cos math angle * ENEMY_LASER_SPEED)
                                              (Math_sin math angle * ENEMY_LASER_SPEED))
                                 3)
                              false]))
               | None => ret g
               end) w = Some (set_lasersRef g (lasersRef g ++ shots), w') /\
              (List.length shots <= List.length (filter armed [e]))%nat /\
              Forall (fun l : Laser => Laser.isPlayerLaser l = false /\ GameObject.radius l = 3)
                     shots /\
              (playerRef g = None -> shots = []) /\
              ((random w (drawn w) <? 0.01) = false -> shots = []) /\
              drawn w' = (drawn w + List.length (filter armed [e]) + List.length shots)%nat /\
              played w' = played w ++ repeat ("enemyLaser"%string, 0.2) (List.length shots) /\
              random w' = random w).
  { intros Ha. unfold bind at 1. unfold Math_random at 1.
    set (w0 := mkWorld _ _ _ _ _).
    assert (D0 : drawn w0 = (drawn w + List.length (filter armed [e]))%nat).
    { cbn [filter]. rewrite Ha. cbn. lia. }
    destruct (random w (drawn w) <? 0.01) eqn:Eroll;
      [destruct (playerRef g) as [pl|] eqn:Ep|]; try (apply Hquiet; auto; reflexivity).
    unfold bind, playSound, DateNow, Math_random, ret.
    eexists [_], _. split; [reflexivity|].
    cbn [filter]. rewrite Ha. cbn [List.length drawn played random w0 repeat].
    split; [lia|]. split; [repeat constructor|]. split; [discriminate|].
    split; [discriminate|]. split; [lia|]. split; reflexivity. }
  unfold enemyShoot. destruct (Enemy.type e) eqn:Et.
  - apply Hquiet; auto. cbn [filter]. unfold armed. rewrite Et. cbn. lia.
  - apply Hfire. unfold armed. now rewrite Et.
  - apply Hquiet; auto. cbn [filter]. unfold armed. rewrite Et. cbn. lia.
  - apply Hfire. unfold armed. now rewrite Et.
Qed.

Lemma enemyAI_loop_shots (es : list Enemy) :
  forall g w,
  exists shots w',
    forEach es (enemyShoot math) g w = Some (set_lasersRef g (lasersRef g ++ shots), w') /\
    (List.length shots <= List.length (filter armed es))%nat /\
    Forall (fun l : Laser => Laser.isPlayerLaser l = false /\ GameObject.radius l = 3) shots /\
    (playerRef g = None -> shots = []) /\
    ((forall n, (random w n <? 0.01) = false) -> shots = []) /\
    drawn w' = (drawn w + List.length (filter armed es) + List.length shots)%nat /\
    played w' = played w ++ repeat ("enemyLaser"%string, 0.2) (List.length shots) /\
    random w' = random w.
Proof.
  induction es as [|e es IH]; intros g w; cbn [forEach].
  - exists [], w. unfold ret. rewrite set_lasersRef_same, app_nil_r. cbn.
    repeat split; auto. lia.
  - destruct (enemyShoot_shots e g w) as (s1 & w1 & E1 & L1 & F1 & N1 & Q1 & D1 & P1 & R1).
    destruct (IH (set_lasersRef g (lasersRef g ++ s1)) w1)
      as (s2 & w2 & E2 & L2 & F2 & N2 & Q2 & D2 & P2 & R2).
    exists (s1 ++ s2), w2. unfold bind. rewrite E1, E2.
    rewrite set_lasersRef_twice. cbn [lasersRef set_lasersRef]. rewrite <- app_assoc.
    split; [reflexivity|].
    change (e :: es) with ([e] ++ es). rewrite filter_app, !length_app.
    split; [lia|]. split; [apply Forall_app; auto|].
    split; [intros Hn; rewrite N1, N2; auto|].
    split; [intros Hq; rewrite Q1, Q2; auto; intros n; rewrite R1; apply Hq|].
    split; [lia|]. split; [|congruence].
    rewrite P2, P1, repeat_app, app_assoc. reflexivity.
Qed.

(** X19. the enemies' fire.  [enemyAI] returns with the lasers it adds at the
    end of the list; they are no more than the saucers and motherships (a
    meteor never shoots), each an enemy laser of radius 3 with one
    "enemyLaser" sound, and none when there is no player or when no number of
    [Math.random()] is below 0.01; it takes one random number for each saucer
    and mothership and one more for each laser. *)
Theorem enemyAI_shots (g : Game) (w : World) :
  exists shots w',
    enemyAI math g w = Some (set_lasersRef g (lasersRef g ++ shots), w') /\
    (List.length shots <= List.length (filter armed (enemiesRef g)))%nat /\
    Forall (fun l : Laser => Laser.isPlayerLaser l = false /\ GameObject.radius l = 3) shots /\
    (playerRef g = None -> shots = []) /\
    ((forall n, (random w n <? 0.01) = false) -> shots = []) /\
    drawn w' = (drawn w + List.length (filter armed (enemiesRef g)) + List.length shots)%nat /\
    played w' = played w ++ repeat ("enemyLaser"%string, 0.2) (List.length shots) /\
    random w' = random w.
Proof. unfold enemyAI. apply enemyAI_loop_shots. Qed.

End Shooting.

(** * The background *)

Lemma Array_from_draw {A} (f : nat -> M A) (k : nat) (P : nat -> A -> Prop) (w : World) :
  (forall i j, exists a, f i (draw j w) = Some (a, draw (j + k) w) /\ P i a) ->
  forall n i j,
  exists l, Array_from n i f (draw j w) = Some (l, draw (j + k * n) w) /\
            Forall2 P (seq i n) l.
Proof.
  intros Hf. induction n as [|n IH]; intros i j; cbn [Array_from seq].
  - exists []. unfold ret. rewrite Nat.mul_0_r, Nat.add_0_r. split; [reflexivity|constructor].
  - destruct (Hf i j) as (a & Ea & Pa). destruct (IH (S i) (j + k)%nat) as (l & El & Pl).
    exists (a :: l). unfold bind. rewrite Ea, El. unfold ret.
    split; [|constructor; assumption]. do 3 f_equal. lia.
Qed.

Lemma Forall2_seq_map {A B} (P : nat -> A -> Prop) (h : A -> B) (c : nat -> B)
    (l : list A) (i n : nat) :
  (forall m a, P m a -> h a = c m) -> Forall2 P (seq i n) l -> map h l = map c (seq i n).
Proof.
  intros H F. remember (seq i n) as s eqn:Es. clear Es.
  induction F as [|m a s l Hma F IH]; cbn [map]; [reflexivity|].
  f_equal; auto.
Qed.

Lemma Forall2_Forall_r {A B} (P : A -> B -> Prop) (Q : B -> Prop) (s : list A) (l : list B) :
  (forall a b, P a b -> Q b) -> Forall2 P s l -> Forall Q l.
Proof. intros H F. induction F; constructor; eauto. Qed.

Lemma star_draw (dim : Dimensions) (w : World) :
  unitInterval w -> sized dim ->
  forall i j, exists s,
    star dim i (draw j w) = Some (s, draw (j + 5) w) /\
    (twinkle dim s /\ Star.id s = id_s i).
Proof.
  intros Hw (Fw & Pw & Fh & Ph) i j. unfold star, bind.
  rewrite !Math_random_draw. unfold ret. eexists. split; [do 2 f_equal; f_equal; lia|].
  split; [|reflexivity]. unfold twinkle, inside. cbn.
  destruct (Hw (drawn w + j)%nat) as [A0 B0], (Hw (drawn w + S j)%nat) as [A1 B1],
    (Hw (drawn w + S (S j))%nat) as [A2 B2], (Hw (drawn w + S (S (S j)))%nat) as [A3 B3],
    (Hw (drawn w + S (S (S (S j))))%nat) as [A4 B4].
  destruct (scaled_between _ (width dim) 0 A0 B0 Fw Pw eq_refl) as (X0 & X1 & _).
  destruct (scaled_between _ (height dim) 0 A1 B1 Fh Ph eq_refl) as (Y0 & Y1 & _).
  destruct (scaled_between _ 1.5 0 A2 B2 eq_refl eq_refl eq_refl) as (S0 & S1 & _).
  destruct (scaled_between _ 0.5 0.1 A4 B4 eq_refl eq_refl eq_refl) as (_ & _ & _ & P0 & P1).
  repeat split; auto using ltb_leb.
Qed.

Lemma nebula_draw (dim : Dimensions) (w : World) :
  unitInterval w -> sized dim ->
  forall i j, exists n,
    nebula dim i (draw j w) = Some (n, draw (j + 4) w) /\
    (haze dim n /\ Nebula.id n = id_n i /\ Nebula.color n = nebulaColor i).
Proof.
  intros Hw (Fw & Pw & Fh & Ph) i j. unfold nebula, bind.
  rewrite !Math_random_draw, !randomBetween_draw.
  unfold ret. eexists. split; [do 2 f_equal; f_equal; lia|].
  split; [|split; reflexivity]. unfold haze, inside. cbn.
  destruct (Hw (drawn w + j)%nat) as [A0 B0], (Hw (drawn w + S j)%nat) as [A1 B1],
    (Hw (drawn w + S (S j))%nat) as [A2 B2], (Hw (drawn w + S (S (S j)))%nat) as [A3 B3].
  destruct (scaled_between _ (width dim) 0 A0 B0 Fw Pw eq_refl) as (X0 & X1 & _).
  destruct (scaled_between _ (height dim) 0 A1 B1 Fh Ph eq_refl) as (Y0 & Y1 & _).
  split; [repeat split; assumption|]. split.
  - apply (within_weaken 100 (300 - 100 + 100) 300); [|reflexivity].
    apply (scaled_within _ 100 300); auto.
  - apply (within_weaken 0.1 (0.3 - 0.1 + 0.1) 0.3); [|reflexivity].
    apply (scaled_within _ 0.1 0.3); auto.
Qed.

Lemma setupBackground_draw (dim : Dimensions) (b : Backdrop) (w : World) :
  unitInterval w -> sized dim ->
  exists b', setupBackground dim b w = Some (b', draw 1020 w) /\ backdrop dim b'.
Proof.
  intros Hw Hd. unfold setupBackground.
  destruct (Array_from_draw (star dim) 5 (fun i s => twinkle dim s /\ Star.id s = id_s i) w
              (star_draw dim w Hw Hd) 200 0 0) as (stars & Es & Fs).
  destruct (Array_from_draw (nebula dim) 4
              (fun i n => haze dim n /\ Nebula.id n = id_n i /\ Nebula.color n = nebulaColor i) w
              (nebula_draw dim w Hw Hd) 5 0 1000) as (nebulas & En & Fn).
  rewrite draw_0 in Es. cbn [Nat.add Nat.mul] in Es, En.
  unfold bind. rewrite Es, En. unfold ret.
  eexists. split; [reflexivity|].
  unfold backdrop. cbn [starsRef nebulasRef set_starsRef set_nebulasRef].
  split; [apply Forall2_length in Fs; now rewrite length_seq in Fs|].
  split; [apply Forall2_length in Fn; now rewrite length_seq in Fn|].
  split; [eapply Forall2_Forall_r; [|exact Fs]; now intros i s [H _]|].
  split; [eapply Forall2_Forall_r; [|exact Fn]; now intros i s [H _]|].
  split; [eapply Forall2_seq_map; [|exact Fs]; now intros i s [_ H]|].
  split; [eapply Forall2_seq_map; [|exact Fn]; now intros i s (_ & H & _)|].
  change ["#ff006e"; "#8338ec"; "#3a86ff"; "#ff006e"; "#8338ec"]%string
    with (map nebulaColor (seq 0 5)).
  eapply Forall2_seq_map; [|exact Fn]. now intros i s (_ & _ & H).
Qed.

(** X20. the background after a resize.  With [Math.random()] in [[0, 1)] and
    a window whose sides are finite and not negative, [handleResize] returns
    after 1020 random numbers; the game has the new dimensions and is
    otherwise as it was, and the background is made anew, whatever it was:
    200 stars and 5 nebulas, numbered from 0, each inside the new viewport;
    the stars have a size from 0 to 1.5, an opacity from 0 to 1 and a parallax
    factor from 0.1 to 0.6; the nebulas have a size from 100 to 300, an
    opacity from 0.1 to 0.3 and the three colours in turn. *)
Theorem handleResize_backdrop (innerWidth innerHeight : float) (g : Game) (b : Backdrop)
    (w : World) :
  unitInterval w -> sized (mkDimensions innerWidth innerHeight) ->
  exists b',
    handleResize innerWidth innerHeight (g, b) w
    = Some ((set_dimensions g (mkDimensions innerWidth innerHeight), b'), draw 1020 w) /\
    backdrop (mkDimensions innerWidth innerHeight) b'.
Proof.
  intros Hw Hd. unfold handleResize.
  destruct (setupBackground_draw (mkDimensions innerWidth innerHeight) b w Hw Hd)
    as (b' & E & Hb).
  exists b'. split; [|exact Hb].
  unfold bind. cbn [dimensions set_dimensions]. rewrite E. reflexivity.
Qed.

Lemma handleResize_backdrop_witness :
  exists b',
    handleResize 1024 768 (stale, mkBackdrop [] []) evenWorld
    = Some ((set_dimensions stale (mkDimensions 1024 768), b'), draw 1020 evenWorld) /\
    backdrop (mkDimensions 1024 768) b'.
Proof.
  apply (handleResize_backdrop 1024 768 stale (mkBackdrop [] []) evenWorld).
  - intros n. split; reflexivity.
  - repeat split; reflexivity.
Defined.

(** * Friction *)

Lemma value_friction : exists c, value PLAYER_FRICTION = Some c /\ (0 < c < 2 ^ 2148)%Z.
Proof.
  eexists. split; [reflexivity|].
  split; [reflexivity|]. apply Z.ltb_lt. vm_compute. reflexivity.
Qed.

Lemma scaled_down (v c : Z) :
  (0 < c < 2 ^ 2148)%Z ->
  ((0 <= v -> 0 <= v * c / 2 ^ 2148 <= v) /\ (v <= 0 -> v <= v * c / 2 ^ 2148 <= 0))%Z.
Proof.
  intros Hc. set (D := (2 ^ 2148)%Z) in *.
  assert (HD : (0 < D)%Z) by (subst D; apply Z.pow_pos_nonneg; lia).
  clearbody D. split; intros Hv.
  - split; [apply Z.div_pos; nia|].
    apply Z.div_le_upper_bound; [exact HD|]. nia.
  - split.
    + apply Z.div_le_lower_bound; [exact HD|]. nia.
    + assert (v * c / D < 1)%Z; [|lia]. apply Z.div_lt_upper_bound; [exact HD|]. nia.
Qed.

Lemma friction_slows (v : float) :
  ((0 <=? v) = true -> within 0 v (v * PLAYER_FRICTION)) /\
  ((v <=? 0) = true -> within v 0 (v * PLAYER_FRICTION)).
Proof.
  destruct value_friction as (c & Vc & Hc).
  destruct (value v) as [z|] eqn:Vz.
  - pose proof (mul_holds _ _ _ _ Vz Vc) as Hm. pose proof (value_holds _ _ Vz) as Hv.
    pose proof (value_holds _ _ value_0) as H0.
    destruct (scaled_down z c Hc) as [Hpos Hneg].
    split; intros H.
    + apply (leb_value 0 v 0 z value_0 Vz) in H. destruct (Hpos H).
      split; [apply (holds_leb _ _ 0 (z * c / 2 ^ 2148))|apply (holds_leb _ _ (z * c / 2 ^ 2148) z)];
        auto.
    + apply (leb_value v 0 z 0 Vz value_0) in H. destruct (Hneg H).
      split; [apply (holds_leb _ _ z (z * c / 2 ^ 2148))|apply (holds_leb _ _ (z * c / 2 ^ 2148) 0)];
        auto.
  - unfold value in Vz. unfold within. rewrite !leb_spec, mul_spec.
    destruct (positive_finite PLAYER_FRICTION eq_refl eq_refl) as (mf & ef & ->).
    change (Prim2SF 0) with (S754_zero false).
    destruct (Prim2SF v) as [[]|[]| |[] m e]; try discriminate; split; intros H;
      try discriminate; split; reflexivity.
Qed.

(** X21. friction never speeds the player up.  [friction] leaves the player as
    it is but for the velocity, and along each axis the new velocity lies
    between 0 and the old one: it has not grown and has not changed its
    direction. *)
Theorem friction_never_speeds_up (player : Player) :
  let v := GameObject.velocity player in
  let v' := GameObject.velocity (friction player) in
  GameObject.position (friction player) = GameObject.position player /\
  Player.health (friction player) = Player.health player /\
  Player.rotation (friction player) = Player.rotation player /\
  ((0 <=? Vector2D.x v) = true -> within 0 (Vector2D.x v) (Vector2D.x v')) /\
  ((Vector2D.x v <=? 0) = true -> within (Vector2D.x v) 0 (Vector2D.x v')) /\
  ((0 <=? Vector2D.y v) = true -> within 0 (Vector2D.y v) (Vector2D.y v')) /\
  ((Vector2D.y v <=? 0) = true -> within (Vector2D.y v) 0 (Vector2D.y v')).
Proof.
  cbv zeta. unfold friction. cbn.
  destruct (friction_slows (Vector2D.x (GameObject.velocity player))) as [X1 X2].
  destruct (friction_slows (Vector2D.y (GameObject.velocity player))) as [Y1 Y2].
  repeat split; try apply X1; try apply X2; try apply Y1; try apply Y2; assumption.
Qed.

(** * A frame returns *)

Lemma within_countable (r : float) : within 15 60 r -> countable r.
Proof.
  intros [A B]. unfold countable.
  assert (H0 : (0 <? r) = true) by (apply (ltb_leb_trans _ 15); [reflexivity|exact A]).
  assert (H1 : (r <=? two53) = true) by (apply (leb_trans _ 60); [exact B|reflexivity]).
  destruct (rounds_finite r H0 H1) as (m & e & _ & -> & _). discriminate.
Qed.

Lemma newcomer_radius dim s t (e : Enemy) :
  newcomer dim s t e -> within 15 60 (GameObject.radius e).
Proof.
  intros (_ & Htab & _). destruct (Enemy.type e).
  - destruct Htab as (H & _). eapply within_weaken; [exact H|reflexivity].
  - destruct Htab as (-> & _). split; reflexivity.
  - contradiction.
  - destruct Htab as (-> & _). split; reflexivity.
Qed.

Lemma laserSweep_keeps (Q : Enemy -> Prop) (es : list Enemy) :
  (forall e h, Q e -> Q (Enemy.set_health e h)) ->
  forall ls, Forall Q es -> Forall Q (survivors (fst (laserSweep es ls))).
Proof.
  intros HQ. unfold survivors.
  induction es as [|e es IH]; intros ls H; cbn [laserSweep fst filter map]; [constructor|].
  inversion H; subst. cbn [snd].
  destruct (negb (negb (Nat.eqb _ 0) && _)); cbn [map fst]; [constructor|]; auto.
Qed.

Section FrameReturns.

Variable math : JSMath.

(** X22. the game never hangs.  With [Math.random()] in [[0, 1)], a viewport
    with finite sides that are not negative and enemies with a radius from 15
    to 60, as the spawner makes them, [updateAndDraw] returns; after it the
    viewport is the same and the enemies, the one spawned in the frame
    included, have a radius from 15 to 60, and [Math.random()] is as it was:
    the same holds for the next frame. *)
Theorem updateAndDraw_returns (keysPressed : list string) (deltaTime : float)
    (g : Game) (w : World) :
  unitInterval w -> sized (dimensions g) ->
  Forall (fun e : Enemy => within 15 60 (GameObject.radius e)) (enemiesRef g) ->
  exists g' w',
    updateAndDraw math keysPressed deltaTime g w = Some (g', w') /\
    unitInterval w' /\ dimensions g' = dimensions g /\
    Forall (fun e : Enemy => within 15 60 (GameObject.radius e)) (enemiesRef g').
Proof.
  intros Hw Hd He.
  destruct (updateAndDraw_total math keysPressed deltaTime g w) as (g' & w' & E); auto.
  { eapply Forall_impl; [|exact He]. intros e. apply within_countable. }
  exists g', w'. split; [exact E|].
  pose proof (updateAndDraw_spec math _ _ _ _ _ _ E) as Hspec. cbv zeta in Hspec.
  destruct Hspec as (_ & Hdim & _).
  unfold updateAndDraw in E. rename E into H.
  apply bind_Some in H. destruct H as (g1 & w1 & H1 & H).
  apply bind_Some in H. destruct H as (g4 & w4 & H4 & H).
  apply bind_Some in H. destruct H as (g5 & w5 & H5 & H).
  apply bind_Some in H. destruct H as (g6 & w6 & H6 & H).
  apply bind_Some in H. destruct H as (g7 & w7 & H7 & H8).
  pose proof (steady_updatePlayer _ _ _ _ _ _ _ H1) as R1.
  pose proof (steady_updateEnemies _ _ _ _ H4) as R4.
  pose proof (steady_spawnEnemies _ _ _ _ H5) as R5.
  pose proof (steady_enemyAI _ _ _ _ _ H6) as R6.
  pose proof (steady_handleCollisions _ _ _ _ H7) as R7.
  pose proof (steady_playerCollisions _ _ _ _ H8) as R8.
  apply updatePlayer_spec in H1. destruct H1 as (_ & B1 & C1 & D1 & _).
  apply updateEnemies_spec in H4. destruct H4 as (es4 & -> & F4).
  assert (Hw4 : unitInterval w4).
  { eapply unitInterval_random; [|exact Hw]. congruence. }
  apply spawnEnemies_newcomer in H5; [|exact Hw4|cbn; now rewrite D1].
  apply enemyAI_spec in H6. destruct H6 as (_ & eshots & -> & _).
  apply handleCollisions_spec in H7. cbn zeta in H7.
  destruct H7 as (En7 & _).
  apply playerCollisions_spec in H8.
  destruct H8 as (_ & _ & _ & _ & En8 & _).
  split; [eapply unitInterval_random; [|exact Hw]; congruence|].
  split; [exact Hdim|].
  assert (He4 : Forall (fun e : Enemy => within 15 60 (GameObject.radius e)) es4).
  { cbn [enemiesRef updateParticles updateLasers set_particlesRef set_lasersRef] in F4.
    rewrite C1 in F4. clear - F4 He. induction F4 as [|a b l l' Hab Hl IH]; [constructor|].
    inversion He; subst. constructor; [|now apply IH].
    destruct Hab as (Ho & _). unfold GameObject.radius at 1.
    change (GameObject.radius (Enemy.obj b)) with (GameObject.radius b).
    rewrite Ho. assumption. }
  assert (He5 : Forall (fun e : Enemy => within 15 60 (GameObject.radius e)) (enemiesRef g5)).
  { destruct H5 as [->|(e & -> & Hn)]; cbn; [exact He4|].
    apply Forall_app. split; [exact He4|]. constructor; [|constructor].
    eapply newcomer_radius; eauto. }
  cbn [enemiesRef lasersRef set_lasersRef] in En7.
  pose proof (laserSweep_keeps (fun e : Enemy => within 15 60 (GameObject.radius e))
                (enemiesRef g5) ltac:(intros e h Hq; exact Hq)
                (lasersRef g5 ++ eshots) He5) as Hsv.
  rewrite <- En7 in Hsv. rewrite Forall_forall in Hsv |- *.
  intros e Hin. apply Hsv. now apply En8.
Qed.

End FrameReturns.

Lemma updateAndDraw_returns_witness :
  exists g' w',
    updateAndDraw flatMath [] 16 range evenWorld = Some (g', w') /\
    unitInterval w' /\ dimensions g' = dimensions range /\
    Forall (fun e : Enemy => within 15 60 (GameObject.radius e)) (enemiesRef g').
Proof.
  apply (updateAndDraw_returns flatMath [] 16 range evenWorld).
  - intros n. split; reflexivity.
  - repeat split; reflexivity.
  - repeat (constructor; [split; reflexivity|]). constructor.
Defined.

(** * The screen wrap, tick by tick *)

Lemma mul_pos_nonneg (b a : float) :
  (0 <? b) = true -> is_finite b = true -> (0 <=? a) = true -> (0 <=? b * a) = true.
Proof.
  intros Hb Fb Ha. destruct (positive_finite b Hb Fb) as (m & e & E).
  apply leb_0_signed in Ha. apply leb_0_signed.
  rewrite mul_spec, E. unfold SF64mul, SFmul.
  destruct (Prim2SF a) as [sa|sa| |sa ma ea]; try contradiction; try exact I;
    subst sa; try reflexivity.
  apply signed_cases. apply binary_round_aux_signed. lia.
Qed.

Lemma onScreen_within (dim : Dimensions) (o : GameObject) :
  onScreen dim o = true ->
  within (- GameObject.radius o) (width dim + GameObject.radius o)
         (Vector2D.x (GameObject.position o)) /\
  within (- GameObject.radius o) (height dim + GameObject.radius o)
         (Vector2D.y (GameObject.position o)).
Proof.
  unfold onScreen, within. rewrite !andb_true_iff. tauto.
Qed.

(** The tick of a particle moves it as [updatePosition] moves its object. *)
Lemma ageParticle_fields (dim : Dimensions) (deltaTime : float) (p : Particle) :
  let p' := ageParticle dim deltaTime p in
  GameObject.position p' = GameObject.position (updatePosition dim p) /\
  GameObject.velocity p' = GameObject.velocity p /\
  Particle.life p' = Particle.life p - deltaTime / 1000 /\
  Particle.startSize p' = Particle.startSize p /\
  Particle.maxLife p' = Particle.maxLife p /\
  GameObject.radius p' = Particle.startSize p * (Particle.life p' / Particle.maxLife p).
Proof. repeat split. Qed.

(** C2. The screen wrap, step by step.  In a viewport with sides that are not
    negative: an object with a radius that is not negative, a finite velocity
    and a position that is a number, whose radius no step changes (the player,
    an enemy), is after every motion step, whatever their number, within
    [-radius, width + radius] and [-radius, height + radius], and a coordinate
    that the move takes beyond an edge by more than the radius lands on the
    opposite edge.  A particle is wrapped in its tick with the radius it has
    before the tick: after the tick its position is within these bounds for
    that radius [r], and lands on the opposite edge as said, but its radius is
    then set anew, to [startSize * (life / maxLife)], and the bounds need not
    hold for it; a particle that the next tick keeps (its life is above 0) is
    again one that can be wrapped, so that this holds tick after tick. *)
Theorem screen_wrap_by_step (dim : Dimensions) (o : GameObject) (n : nat) (p : Particle)
    (deltaTime : float) :
  (0 <=? width dim) = true -> (0 <=? height dim) = true ->
  wrappable o -> fading p ->
  (let before := Nat.iter n (updatePosition dim) o in
   let after := updatePosition dim before in
   let r := GameObject.radius o in
   let px := Vector2D.x (GameObject.position before) + Vector2D.x (GameObject.velocity before) in
   let py := Vector2D.y (GameObject.position before) + Vector2D.y (GameObject.velocity before) in
   GameObject.radius after = r /\
   onScreen dim after = true /\
   ((px <? - r) = true -> Vector2D.x (GameObject.position after) = width dim + r) /\
   ((width dim + r <? px) = true -> Vector2D.x (GameObject.position after) = - r) /\
   ((py <? - r) = true -> Vector2D.y (GameObject.position after) = height dim + r) /\
   ((height dim + r <? py) = true -> Vector2D.y (GameObject.position after) = - r)) /\
  (let p' := ageParticle dim deltaTime p in
   let r := GameObject.radius p in
   let px := Vector2D.x (GameObject.position p) + Vector2D.x (GameObject.velocity p) in
   let py := Vector2D.y (GameObject.position p) + Vector2D.y (GameObject.velocity p) in
   within (- r) (width dim + r) (Vector2D.x (GameObject.position p')) /\
   within (- r) (height dim + r) (Vector2D.y (GameObject.position p')) /\
   ((px <? - r) = true -> Vector2D.x (GameObject.position p') = width dim + r) /\
   ((width dim + r <? px) = true -> Vector2D.x (GameObject.position p') = - r) /\
   ((py <? - r) = true -> Vector2D.y (GameObject.position p') = height dim + r) /\
   ((height dim + r <? py) = true -> Vector2D.y (GameObject.position p') = - r) /\
   Particle.life p' = Particle.life p - deltaTime / 1000 /\
   GameObject.radius p' = Particle.startSize p * (Particle.life p' / Particle.maxLife p) /\
   (alive p' = true -> fading p')).
Proof.
  intros Hw Hh (Hr & Hvx & Hvy & Hx & Hy) ((Pr & Pvx & Pvy & Px & Py) & S0 & SF & M0 & MF).
  split.
  - exact (updatePosition_wraps dim o n Hr Hw Hh Hvx Hvy Hx Hy).
  - pose proof (updatePosition_wraps dim p 0 Pr Hw Hh Pvx Pvy Px Py) as H.
    cbv zeta in H. cbn [Nat.iter] in H. destruct H as (Er & Hon & Tx1 & Tx2 & Ty1 & Ty2).
    apply onScreen_within in Hon. rewrite Er in Hon. destruct Hon as [Wx Wy].
    destruct (ageParticle_fields dim deltaTime p) as (Epos & Evel & Elife & Ess & Eml & Erad).
    cbv zeta. rewrite Epos.
    split; [exact Wx|]. split; [exact Wy|].
    split; [exact Tx1|]. split; [exact Tx2|]. split; [exact Ty1|]. split; [exact Ty2|].
    split; [exact Elife|]. split; [exact Erad|].
    intros Ha. unfold alive in Ha. unfold fading, wrappable.
    rewrite Erad, Evel, Epos, Ess, Eml.
    split; [|auto].
    split; [|split; [exact Pvx|split; [exact Pvy|]]].
    + apply mul_pos_nonneg; auto. apply div_nonneg; auto. now apply ltb_leb.
    + destruct Wx as [Wx _], Wy as [Wy _]. split; eapply leb_not_nan_r; eauto.
Qed.

Lemma screen_wrap_by_step_witness :
  (let before := Nat.iter 34 (updatePosition viewport) rock in
   let after := updatePosition viewport before in
   onScreen viewport after = true /\
   Vector2D.x (GameObject.position before) = 824.5 /\
   Vector2D.x (GameObject.position after) = -25) /\
  (let p' := ageParticle viewport 16 drifter in
   within (-1) (800 + 1) (Vector2D.x (GameObject.position p')) /\
   Vector2D.x (GameObject.position p') = 801 /\
   GameObject.radius p' = 2 * ((0.5 - 16 / 1000) / 1) /\
   fading p').
Proof.
  pose proof (screen_wrap_by_step viewport rock 34 drifter 16 eq_refl eq_refl
                ltac:(repeat split) ltac:(repeat split)) as [Ho Hp].
  cbv zeta in Ho, Hp.
  destruct Ho as (_ & Hon & _ & Hx & _).
  destruct Hp as (Wx & _ & Tx & _ & _ & _ & _ & Hrad & Hnext).
  split.
  - cbv zeta. split; [exact Hon|]. split; [|apply Hx]; vm_compute; reflexivity.
  - cbv zeta. split; [exact Wx|]. split; [apply Tx; vm_compute; reflexivity|].
    split; [exact Hrad|]. apply Hnext. vm_compute. reflexivity.
Defined.

Lemma wrapped_at_end_counterexample :
  (gameStatus fringe = Playing /\ fading drifter /\ onScreen viewport drifter = true /\
   exists g' w',
     updateAndDraw flatMath [] 16 fringe evenWorld = Some (g', w') /\
     dimensions g' = viewport /\
     map (fun p : Particle => (GameObject.position p, GameObject.radius p)) (particlesRef g')
     = [(Vector2D.mk 801 300, 2 * ((0.5 - 16 / 1000) / 1))] /\
     (801 <=? 800 + 2 * ((0.5 - 16 / 1000) / 1)) = false /\
     existsb (fun p : Particle => negb (onScreen (dimensions g') p)) (particlesRef g') = true) /\
  ~ wrapped_at_end.
Proof.
  split.
  - split; [reflexivity|]. split; [repeat split|]. split; [reflexivity|].
    eexists. eexists. split; [vm_compute; reflexivity|].
    repeat split; vm_compute; reflexivity.
  - intros H.
    destruct (updateAndDraw flatMath [] 16 fringe evenWorld) as [[g' w']|] eqn:E;
      [|vm_compute in E; discriminate E].
    destruct (H flatMath [] 16 fringe evenWorld g' w' eq_refl) as (_ & _ & Hp).
    + intros p Hp. injection Hp as <-. repeat split.
    + constructor.
    + constructor; [|constructor]. repeat split.
    + exact E.
    + vm_compute in E. injection E as <- _. inversion Hp as [|p ps Hon _]. subst.
      vm_compute in Hon. discriminate Hon.
Qed.
